(* ===== verification/_CoqProject ===== *)
-Q . S2P
Prelude.v
Libc.v
ErrorCodes.v
IO.v
Accept.v
Trie.v
TrieListing.v
Cache.v
Lock.v
Naming.v
Indexing.v
CopyRequest.v
NamingInv.v
ProcessClient.v
ClientReplies.v
Redirection.v
Registration.v
Posix.v
FileCommands.v
Duet.v
Transfer.v
StorageServer.v
StorageWrites.v
StorageDispatch.v
Client.v
Startup.v
Attached.v
Namespace.v
