(* ===== verification/Prelude.v ===== *)
(** * Network File System: a verification development

    The program is a distributed file system in C: one naming server
    (naming_server.c), storage servers (storage_server.c), clients (client.c),
    and what they share (helper.c, lock.c, tries.c, ErrorCodes.h).  The naming
    server keeps one trie of paths per storage server and a small cache of
    lookups; storage servers register with it and carry out its commands;
    clients ask it where a path is and then talk to the storage server
    themselves.  This library models the three programs and proves what their
    parts do, alone and together.

    ** The files

    By program; _CoqProject lists them in the order they build on each other.

    Shared:
    - Prelude: bytes, undefined behaviour ([cres]: a value or a kind of
      undefined behaviour), counting, prefixes, cutting a list into pieces,
      the hint database [nfs].
    - Libc: strstr, strcmp, strtok (as [tokens]), sscanf, snprintf, strcpy,
      atoi, atol and printf of numbers on lists of bytes.  A C string is the list of
      its bytes before the terminator; a call that overruns its buffer is
      [Undef OutOfBounds].
    - ErrorCodes: the table of ErrorCodes.h and [printErrorDetails].
    - IO: system calls as trees ([io]), traces, [run] against given answers,
      weakest preconditions [wp] under a regime, the wrappers [recv_good] and
      [send_good] of helper.c, and handlers over a state ([M]).
    - Posix: the file system as a class of operations, its documented laws,
      and an instance on a finite map.
    - Duet: two programs at the ends of a connection, and when a conversation
      ends whatever the schedule.
    - Accept: the five accept loops (handle_ss, handling_client and main of
      naming_server.c, listen_to_client of storage_server.c, async_setup of
      client.c), each as the list of its statements, interleaved with the
      threads it starts and with what else opens and closes descriptors.

    Naming server:
    - Trie (tries.c, tries.h): insertion, search, deletion and parsing of
      paths, against a set of paths.
    - TrieListing (tries.c): printing, counting and sending a trie.
    - Cache (naming_server.c): the cache in its array, against a list.
    - Naming (naming_server.c, the structs of helper.h): the globals as the
      record [naming]; lookups, pings, the redundant server.
    - Indexing: [indexHelper], which reads a listing from a stream.
    - CopyRequest: [handle_copy_request], [create_backup_helper].
    - NamingInv: the invariant [naming_inv] and the judgement [keeps].
    - ProcessClient: [process_client] by branch of the code, [listen_async].
    - ClientReplies, Redirection: what the branches answer and change.
    - Registration: [register_storage_server].

    Storage server:
    - Lock (lock.c, lock.h): the six lock operations, interleaved.
    - FileCommands (helper.c): the functions behind the commands.
    - Transfer (helper.c): both halves of the copy between two servers.
    - StorageServer (storage_server.c): the table of locks, synchronous and
      asynchronous writes, [process_client], [listen_to_nm], [validate_path].
    - StorageWrites, StorageDispatch: what they do.
    - Startup: [connect_to_nm], the calls of main and of the thread it starts,
      interleaved over the registration record, and the registration as a
      whole.

    Client:
    - Client (client.c): the command loop, fetching, streaming, writing, and
      the listener for late answers.

    The parts together:
    - Attached: a handler of the naming server with a storage server at the
      other end of one of its sockets.
    - Namespace: the trie and the disk stay in step.

    ** State and operations

    Code that only computes is a function with result in [cres].  Code that
    calls the operating system is an [io] tree: each system call is a node, its
    continuation takes the answer, so that every error return is a branch.
    Handlers add a state: [naming] (the globals of naming_server.c),
    [server F] (the disk and [conc_array] with [num_of_requests] as its
    length), [client] (the terminal).  A [Context] of classes stands for what
    is outside: [Posix] and its laws [PosixLaws], [DiskRoom], [NamespaceLaws]
    for the file system; [Memory] and, for the client, [Terminal] for objects
    read before they are written (freed blocks, fresh buffers), with
    [strict_memory] in which every such read is undefined; [Platform] for what
    stands before [storage_servers].  [PosixLaws] are promises of POSIX;
    [DiskRoom] (the disk has room, and a file that can be read can be written)
    and, in [NamespaceLaws], [link_free] (there are no symbolic links) are
    assumptions on the disk of the storage server, and the theorems that use
    them name them.
    Each class has an instance on which the definitions run, and the witnesses
    use it.

    A specification names its regime: [total] (every behaviour of the
    environment, and the handler returns without undefined behaviour),
    [returns E] (the same when the answers satisfy [E]), [whenever E] and
    [partial] (if it returns), [doomed E] (with postcondition [False]: it never
    returns normally).  [safe] allows blocking but no undefined behaviour.

    ** What the theorems show

    The two programs together: "mkdir", "touch", "rmdir" and "rm" keep a
    storage server's trie equal to its disk on every branch
    ([Namespace.create_keeps_in_step], [delete_keeps_in_step]); a start of a
    storage server makes the naming server know its port and exactly its
    paths, however the listing is cut into pieces that do not fill the buffer
    ([Startup.registration_end_to_end]); a copy between two storage servers,
    when the destination can create and write every file, ends under every
    schedule and leaves the source's tree at the destination
    ([Transfer.copy_different_replicates] and its variants for backups and
    single files); a client sees the bytes of a file and the storage server
    gets the text typed ([Client.cat_shows_file],
    [client_write_reaches_server]).

    Data structures: the trie refines a set of paths, the cache a list with the
    most recent entry last, a listing through the network equals the printed
    one, a stream may be cut anywhere while no piece fills the buffer.

    Naming server: the globals stay consistent under every message and every
    failure; a lookup finds the first server with the path; tries change only
    after a success was relayed; where clients are sent, and when they are
    sent twice; what a registration does, as a function of the listing that
    was received.

    Storage server: locks exclude each other, their counters are exact, some
    thread can always go on; a write appends its line, releases its lock and
    tells the naming server; commands report the outcome of the call they
    make; receiving a file ends and does not depend on the cutting of the
    stream.

    Defects are theorems where they can be stated: undefined behaviour of
    [process_client] of the storage server, a dangling pointer in the table of
    locks after a synchronous write, a lock that is never released, bytes of
    the stack in a file, a client that no thread serves because the accept
    loop hands out the address of its variable, a record sent before its port
    is known.

    ** Bounds and fuel

    Machine integers are kept where the code can reach their bounds: [atol] and
    [strtol] stop at the bounds of a 64-bit long, [atoi] keeps the low 32 bits
    of that, ports the low sixteen ([htons]), [portClient] is 32 bits in two's
    complement, buffers have their sizes.  The size of a file that is
    transferred is below 2^63.  The record of a storage server has the layout of
    x86-64: 56 bytes, the port at offset 20.  Fuel stands for the number of
    messages of a loop that runs for ever ([process_client] of the naming
    server, [listen_to_nm], [client_main]), for the number of pieces of a
    stream ([indexHelper]: as many as there are pieces is enough; [show_all],
    [play_all]: one more), and for the depth of a folder (indexing, copying:
    [folder_paths] and its relatives are defined exactly when the fuel
    suffices, and the theorems assume that).  Loops with a bound of their own
    are structural.  Running out of fuel is [Stuck], which no regime but the
    partial ones tolerates, so that a theorem under [total] or [returns] also
    says that the fuel was enough.

    ** Not modelled

    - The set-up of listening sockets, the command line and signal handlers in
      the main functions, and the socket options ([setsockopt] is taken to
      succeed): calls of the operating system without further logic.  Startup
      keeps the order of the set-up of a storage server and which of its calls
      can fail.
    - Text on the terminal, apart from what the client shows of answers and
      the tree listing; [perror].
    - The interleaving of handler threads over the globals: each handler runs
      alone, its waits on the semaphore or a lock block it for good.  Only
      Lock, Accept and Startup interleave; there a single call or a single
      read or write of a variable is one step.
    - [strtok] keeps its position in a static variable; threads that disturb
      each other's scans are not modelled.
    - The byte [send_good] reads behind its argument.
    - Duet and Attached deliver a message whole; the one-sided theorems on
      receiving cover the cutting of streams.
    - The pause key of the music player; the player itself is a sink.
    - [destroy_file] of lock.c and [print_cache] are never called or return
      at once; commented-out code.

    ** Next

    Handlers of several clients over one table of locks; [copy] commands and
    re-indexing in Namespace; a late answer to an asynchronous write from the
    storage server through the naming server to the client's listener;
    liveness of the handlers under fair answers. *)
From Stdlib Require Export Ascii String ZArith Lia.
From stdpp Require Export base decidable strings list list_numbers gmap option sets.
Set Default Proof Using "Type".

(** ** Bytes and literals *)

(** A C string is modelled by the bytes before its terminating NUL; a socket
    payload is modelled by the bytes transferred. *)
Abbreviation bytes := (list ascii).

Definition lit (s : string) : bytes := list_ascii_of_string s.
Arguments lit : simpl never.
Coercion lit : string >-> list.

Definition NUL : ascii := Ascii.zero.
Definition LF : ascii := "010"%char.
Definition ESC : ascii := "027"%char.

Declare Scope nfs_scope.
Delimit Scope nfs_scope with nfs.
Open Scope list_scope.
Open Scope nfs_scope.

(** ** Undefined behaviour *)

(** What the C standard leaves undefined and the program can run into.  The
    model stops there instead of inventing a result. *)
Inductive ub :=
  | NullDeref        (** a null pointer is dereferenced or passed to the string library *)
  | OutOfBounds      (** an access outside an array, a buffer or a string literal's storage *)
  | BadRead.         (** an uninitialised or freed object is read *)

#[export] Instance ub_eq_dec : EqDecision ub.
Proof. solve_decision. Defined.

(** A pure C computation: a value, or undefined behaviour. *)
Inductive cres (A : Type) :=
  | Val (a : A)
  | Undef (u : ub).
Arguments Val {A} a.
Arguments Undef {A} u.

#[export] Instance cres_eq_dec `{EqDecision A} : EqDecision (cres A).
Proof. solve_decision. Defined.

#[export] Instance cres_ret : MRet cres := fun A => Val.
#[export] Instance cres_bind : MBind cres := fun A B f x =>
  match x with
  | Val a => f a
  | Undef u => Undef u
  end.
#[export] Instance cres_fmap : FMap cres := fun A B f x =>
  match x with
  | Val a => Val (f a)
  | Undef u => Undef u
  end.

(** A null pointer where the code dereferences. *)
Definition nonnull {A} (o : option A) : cres A :=
  match o with
  | Some a => Val a
  | None => Undef NullDeref
  end.

(** The guard of an access that must stay within an object. *)
Definition within (b : bool) : cres unit :=
  if b then Val tt else Undef OutOfBounds.

Lemma cbind_Val_inv {A B} (x : cres A) (f : A -> cres B) b :
  x ≫= f = Val b -> exists a, x = Val a /\ f a = Val b.
Proof. destruct x; simpl; [eauto | done]. Qed.

Lemma within_true b : within b = Val tt <-> b = true.
Proof. by destruct b. Qed.

(** ** Tactics *)

(** Inversion of a successful chain of binds. *)
Ltac cbind_inv :=
  repeat match goal with
  | H : _ ≫= _ = Val _ |- _ => apply cbind_Val_inv in H as (? & ? & ?)
  | H : within _ = Val _ |- _ => apply within_true in H
  | H : Val _ = Val _ |- _ => injection H as H; try subst
  end.

(** A closed decidable statement, by evaluation. *)
Ltac decide_closed :=
  match goal with
  | |- ?P => apply (bool_decide_unpack P); vm_compute; exact I
  end.

(** Case analysis on a boolean test of the program. *)
Ltac case_test :=
  match goal with
  | |- context [if ?b then _ else _] => destruct b eqn:?
  end.

(** ** Counting list elements *)

(** How many elements of [l] satisfy [f]: the ghost value the integer
    counters of the code stand for. *)
Section count.
Context {A : Type} (f : A -> bool).

Fixpoint count (l : list A) : Z :=
  match l with
  | [] => 0
  | x :: l' => (if f x then 1 else 0) + count l'
  end%Z.

Lemma count_nonneg l : (0 <= count l)%Z.
Proof. induction l as [|x l IH]; simpl; [lia|]. destruct (f x); lia. Qed.

Lemma count_app l k : count (l ++ k) = (count l + count k)%Z.
Proof. induction l as [|x l IH]; simpl; lia. Qed.

(** The effect of one array update on the counter. *)
Lemma count_insert l i x y :
  l !! i = Some x ->
  count (<[i:=y]> l) =
    (count l - (if f x then 1 else 0) + (if f y then 1 else 0))%Z.
Proof.
  revert i; induction l as [|z l IH]; intros [|i] Hi; simplify_eq/=; [lia|].
  rewrite (IH _ Hi). lia.
Qed.

Lemma count_pos_lookup l i x : l !! i = Some x -> f x = true -> (1 <= count l)%Z.
Proof.
  revert i; induction l as [|z l IH]; intros [|i] Hi Hf; simplify_eq/=.
  - rewrite Hf. pose proof (count_nonneg l). lia.
  - specialize (IH _ Hi Hf). destruct (f z); lia.
Qed.

Lemma count_lookup_pos l : (1 <= count l)%Z -> exists i x, l !! i = Some x /\ f x = true.
Proof.
  induction l as [|z l IH]; simpl; [lia|]. destruct (f z) eqn:Hz.
  - intros _. exists 0, z. done.
  - intros H. destruct IH as (i & x & ? & ?); [lia|]. exists (S i), x. done.
Qed.

Lemma count_zero l : count l = 0%Z -> forall i x, l !! i = Some x -> f x = false.
Proof.
  intros H i x Hi. destruct (f x) eqn:Hf; [|done].
  pose proof (count_pos_lookup l i x Hi Hf). lia.
Qed.

(** A counter of one has a unique holder. *)
Lemma count_two l i j x y :
  i <> j -> l !! i = Some x -> l !! j = Some y -> f x = true -> f y = true ->
  (2 <= count l)%Z.
Proof.
  revert i j; induction l as [|z l IH]; intros [|i] [|j] Hne Hi Hj Hx Hy; simplify_eq/=.
  - rewrite Hx. pose proof (count_pos_lookup l j y Hj Hy). lia.
  - rewrite Hy. pose proof (count_pos_lookup l i x Hi Hx). lia.
  - specialize (IH i j ltac:(lia) Hi Hj Hx Hy). destruct (f z); lia.
Qed.
End count.

(** ** Prefixes of a path *)

(** All prefixes of a list, the empty one included: the directories on the
    way to a path. *)
Fixpoint prefixes {A} (l : list A) : list (list A) :=
  [] :: match l with
        | [] => []
        | x :: l' => cons x <$> prefixes l'
        end.

Lemma elem_of_prefixes {A} (l k : list A) : k ∈ prefixes l <-> k `prefix_of` l.
Proof.
  revert k; induction l as [|x l IH]; intros k; simpl.
  - rewrite list_elem_of_singleton. split; [by intros ->|]. apply prefix_nil_inv.
  - rewrite elem_of_cons, list_elem_of_fmap. split.
    + intros [->|(k' & -> & Hk%IH)]; [apply prefix_nil|]. by apply prefix_cons.
    + intros Hk. destruct k as [|y k]; [by left|]. right.
      pose proof (prefix_cons_inv_1 _ _ _ _ Hk) as ->.
      apply prefix_cons_inv_2 in Hk. exists k. split; [done|]. by apply IH.
Qed.

(** ** Filters that keep everything *)

Lemma filter_Forall {A} (P : A -> Prop) `{forall x, Decision (P x)} (l : list A) :
  Forall P l -> filter P l = l.
Proof.
  induction 1 as [|x l Hx _ IH]; [done|]. by rewrite filter_cons, decide_True, IH.
Qed.

Lemma filter_not_elem_of `{EqDecision A} (k : A) (l : list A) :
  k ∉ l -> filter (fun x => x <> k) l = l.
Proof.
  intros Hk. apply filter_Forall, Forall_forall. intros x Hx ->. done.
Qed.

(** ** Cutting a list into pieces *)

(** Pieces of [n] elements, the last one shorter; [fuel] at least the length
    is enough when [n] is positive. *)
Fixpoint chunks_go {A} (fuel n : nat) (l : list A) : list (list A) :=
  match fuel, l with
  | O, _ | _, [] => []
  | S f, _ => take n l :: chunks_go f n (drop n l)
  end.

Definition chunks {A} (n : nat) (l : list A) : list (list A) := chunks_go (length l) n l.

Lemma chunks_go_spec {A} fuel n (l : list A) :
  0 < n -> length l <= fuel ->
  concat (chunks_go fuel n l) = l /\ Forall (fun c => 0 < length c <= n) (chunks_go fuel n l).
Proof.
  intros Hn. revert l; induction fuel as [|f IH]; intros l Hl.
  - destruct l; [by split; [|constructor] | simpl in Hl; lia].
  - destruct l as [|x l]; [by split; [|constructor]|].
    destruct (IH (drop n (x :: l))) as [Hc Hf]; [rewrite length_drop; simpl in *; lia|].
    cbn [chunks_go concat]. split; [by rewrite Hc, take_drop|]. constructor; [|done].
    rewrite length_take. simpl. lia.
Qed.

Lemma concat_chunks {A} n (l : list A) : 0 < n -> concat (chunks n l) = l.
Proof. intros Hn. by apply chunks_go_spec. Qed.

Lemma chunks_sizes {A} n (l : list A) : 0 < n -> Forall (fun c => 0 < length c <= n) (chunks n l).
Proof. intros Hn. by apply chunks_go_spec. Qed.

(** ** Hint databases *)

(** [nfs]: closing the side conditions that recur in the component proofs. *)
Create HintDb nfs.
#[export] Hint Resolve count_nonneg : nfs.
#[export] Hint Resolve prefix_nil prefix_cons prefix_app_r : nfs.
