(* ===== verification/Libc.v ===== *)
(** * The C string library, as far as the program uses it

    Executable definitions of the [string.h], [stdio.h] and [stdlib.h]
    functions the program calls, on byte lists, with the lemmas about them
    that the components share.  A C string is the list of its bytes before
    the terminator.  [strtok] is always called with a one-character
    delimiter, in sequences [strtok(s, d)], [strtok(NULL, d)], ...; the
    sequence yields the members of [tokens d s] in order, then [NULL]. *)
From S2P Require Export Prelude.

(** ** Comparison and search *)

Definition strcmp_eq (a b : bytes) : bool := bool_decide (a = b).
Arguments strcmp_eq : simpl never.

(** [strncmp(s, p, strlen(p)) == 0] *)
Fixpoint starts_with (p s : bytes) : bool :=
  match p, s with
  | [], _ => true
  | c :: p', d :: s' => bool_decide (c = d) && starts_with p' s'
  | _ :: _, [] => false
  end.

(** [strstr(s, p) != NULL] *)
Fixpoint strstr (p s : bytes) : bool :=
  starts_with p s || match s with
                     | [] => false
                     | _ :: s' => strstr p s'
                     end.

(** [strchr(s, c)]: what stands before and after the first [c]. *)
Fixpoint split_first (c : ascii) (s : bytes) : option (bytes * bytes) :=
  match s with
  | [] => None
  | d :: s' =>
      if bool_decide (c = d) then Some ([], s')
      else match split_first c s' with
           | Some (a, b) => Some (d :: a, b)
           | None => None
           end
  end.

(** [strrchr(s, c)]: what stands before and after the last [c]. *)
Fixpoint split_last (c : ascii) (s : bytes) : option (bytes * bytes) :=
  match s with
  | [] => None
  | d :: s' =>
      match split_last c s' with
      | Some (a, b) => Some (d :: a, b)
      | None => if bool_decide (c = d) then Some ([], s') else None
      end
  end.

(** The C string at the start of a buffer of [n] bytes of which the first
    [length b] were written over zeroes: the bytes before the first NUL; with
    no NUL left in the buffer, reading it as a string is undefined. *)
Definition cstr_in (n : nat) (b : bytes) : cres bytes :=
  match split_first NUL b with
  | Some (a, _) => Val a
  | None => if bool_decide (length b < n) then Val b else Undef OutOfBounds
  end.

(** The C string in a buffer whose received bytes [b] the program has
    terminated itself. *)
Definition cstr (b : bytes) : bytes :=
  match split_first NUL b with Some (a, _) => a | None => b end.

(** [snprintf(buf, n, ...)] of a text [s]: what the buffer then holds. *)
Definition snprintf (n : nat) (s : bytes) : bytes := take (n - 1) s.

(** [strcpy]/[sprintf]/[strcat] into a buffer of [n] bytes: the terminator
    must fit too. *)
Definition fits (n : nat) (s : bytes) : cres bytes :=
  if bool_decide (length s < n) then Val s else Undef OutOfBounds.

(** ** Tokens *)

Definition flush (cur : bytes) : list bytes :=
  match cur with [] => [] | _ => [cur] end.

Fixpoint tokens_go (d : ascii) (cur s : bytes) : list bytes :=
  match s with
  | [] => flush cur
  | c :: s' =>
      if bool_decide (c = d) then flush cur ++ tokens_go d [] s'
      else tokens_go d (cur ++ [c]) s'
  end.

Definition tokens (d : ascii) (s : bytes) : list bytes := tokens_go d [] s.

(** ** Numbers *)

Definition digit (n : N) : ascii := ascii_of_N (48 + n).

Fixpoint digits_go (fuel : nat) (n : N) (acc : bytes) : bytes :=
  match fuel with
  | O => acc
  | S f =>
      let acc' := digit (n mod 10) :: acc in
      if (n / 10 =? 0)%N then acc' else digits_go f (n / 10) acc'
  end.

(** [%d] and [%ld] *)
Definition print_Z (z : Z) : bytes :=
  let ds := digits_go (S (N.to_nat (N.log2 (Z.abs_N z)))) (Z.abs_N z) [] in
  if (z <? 0)%Z then "-"%char :: ds else ds.

Definition isspace (c : ascii) : bool :=
  let n := N_of_ascii c in ((9 <=? n) && (n <=? 13) || (n =? 32))%N.

Definition digit_val (c : ascii) : option N :=
  let n := N_of_ascii c in
  if ((48 <=? n) && (n <=? 57))%N then Some (n - 48)%N else None.

Fixpoint read_digits (acc : N) (s : bytes) : N :=
  match s with
  | [] => acc
  | c :: s' => match digit_val c with
               | Some d => read_digits (acc * 10 + d) s'
               | None => acc
               end
  end.

Fixpoint skip_space (s : bytes) : bytes :=
  match s with
  | c :: s' => if isspace c then skip_space s' else s
  | [] => []
  end.

(** The number at the start of a string. *)
Definition number_of (s : bytes) : Z :=
  match skip_space s with
  | "-"%char :: s' => - Z.of_N (read_digits 0 s')
  | "+"%char :: s' => Z.of_N (read_digits 0 s')
  | s' => Z.of_N (read_digits 0 s')
  end%Z.

(** [strtol] in base ten, of a 64-bit [long]: a number out of range yields the
    nearest bound.  [atol] is [strtol]; [atoi] is its conversion to [int],
    which keeps the 32 low bits. *)
Definition strtol (s : bytes) : Z := Z.max (- 2 ^ 63) (Z.min (2 ^ 63 - 1) (number_of s)).

Definition atol (s : bytes) : Z := strtol s.

(** The conversion of an integer to [int]. *)
Definition to_int32 (x : Z) : Z := ((x + 2 ^ 31) mod 2 ^ 32 - 2 ^ 31)%Z.

Definition atoi (s : bytes) : Z := to_int32 (strtol s).

(** [htons]: a port argument is reduced to sixteen bits. *)
Definition htons (p : Z) : Z := (p mod 65536)%Z.

(** ** [sscanf] with [%s] directives *)

(** One [%s]: skip white space, read the longest run of non-space bytes,
    which must not be empty. *)
Fixpoint span_word (s : bytes) : bytes * bytes :=
  match s with
  | [] => ([], [])
  | c :: s' => if isspace c then ([], s) else let '(w, r) := span_word s' in (c :: w, r)
  end.

Definition scan_s (s : bytes) : option (bytes * bytes) :=
  match span_word (skip_space s) with
  | ([], _) => None
  | wr => Some wr
  end.

(** One [%d]: an optional sign and at least one digit, converted like [atoi]. *)
Definition scan_d (s : bytes) : option Z :=
  let digits := match skip_space s with "-"%char :: s' | "+"%char :: s' => s' | s' => s' end in
  match digits with
  | c :: _ => match digit_val c with Some _ => Some (atoi s) | None => None end
  | [] => None
  end.

(** ** Lemmas: prefixes and splitting *)

Lemma strcmp_eq_true a b : strcmp_eq a b = true <-> a = b.
Proof. apply bool_decide_eq_true. Qed.

Lemma strcmp_eq_refl a : strcmp_eq a a = true.
Proof. by apply bool_decide_eq_true. Qed.

Lemma starts_with_prefix p s : starts_with p s = true <-> p `prefix_of` s.
Proof.
  revert s; induction p as [|c p IH]; intros [|d s]; simpl.
  - split; [intros; apply prefix_nil | done].
  - split; [intros; apply prefix_nil | done].
  - split; [done | intros H%prefix_nil_inv; done].
  - rewrite andb_true_iff, bool_decide_eq_true, IH. split.
    + intros [-> H]. by apply prefix_cons.
    + intros H. split; [by eapply prefix_cons_inv_1 | by eapply prefix_cons_inv_2].
Qed.

Lemma starts_with_app p s : starts_with p (p ++ s) = true.
Proof. apply starts_with_prefix. by apply prefix_app_r. Qed.

Lemma split_first_app c a b : c ∉ a -> split_first c (a ++ c :: b) = Some (a, b).
Proof.
  induction a as [|d a IH]; simpl; intros Hc.
  - by rewrite bool_decide_eq_true_2.
  - apply not_elem_of_cons in Hc as [? ?].
    rewrite bool_decide_eq_false_2 by done. by rewrite IH.
Qed.

Lemma split_first_None c s : split_first c s = None <-> c ∉ s.
Proof.
  induction s as [|d s IH]; simpl; [split; [intros _; apply not_elem_of_nil | done]|].
  rewrite not_elem_of_cons. case_bool_decide; subst.
  - split; [done | by intros [? ?]].
  - destruct (split_first c s) as [[? ?]|]; split; try done.
    + intros [_ Hs]. by apply IH in Hs.
    + intros _. split; [done | by apply IH].
Qed.

Lemma split_first_Some c s a b :
  split_first c s = Some (a, b) -> s = a ++ c :: b /\ c ∉ a.
Proof.
  revert a b; induction s as [|d s IH]; simpl; intros a b; [done|].
  case_bool_decide.
  - intros [= <- <-]. subst. split; [done | apply not_elem_of_nil].
  - destruct (split_first c s) as [[a' b']|]; intros [= <- <-].
    destruct (IH _ _ eq_refl) as [-> ?]. split; [done|].
    apply not_elem_of_cons. done.
Qed.

Lemma split_last_None c s : split_last c s = None <-> c ∉ s.
Proof.
  induction s as [|d s IH]; simpl; [split; [intros _; apply not_elem_of_nil | done]|].
  rewrite not_elem_of_cons.
  destruct (split_last c s) as [[? ?]|].
  - split; [done | intros [_ Hs]; by apply IH in Hs].
  - case_bool_decide; split; try done; [intros [? _]; congruence|].
    intros _. split; [done | by apply IH].
Qed.

Lemma split_last_app c a b : c ∉ b -> split_last c (a ++ c :: b) = Some (a, b).
Proof.
  intros Hb. induction a as [|d a IH]; simpl.
  - apply split_last_None in Hb. rewrite Hb. by rewrite bool_decide_eq_true_2.
  - by rewrite IH.
Qed.

(** ** Lemmas: tokens *)

Lemma tokens_go_app d cur a b :
  tokens_go d cur (a ++ d :: b) = tokens_go d cur a ++ tokens d b.
Proof.
  revert cur; induction a as [|c a IH]; intros cur; simpl.
  - by rewrite bool_decide_eq_true_2.
  - case_bool_decide; rewrite IH; [by rewrite app_assoc | done].
Qed.

Lemma tokens_app d a b : tokens d (a ++ d :: b) = tokens d a ++ tokens d b.
Proof. apply tokens_go_app. Qed.

Lemma tokens_go_free d cur a : d ∉ a -> tokens_go d cur a = flush (cur ++ a).
Proof.
  revert cur; induction a as [|c a IH]; intros cur Hd; simpl.
  - by rewrite app_nil_r.
  - apply not_elem_of_cons in Hd as [? ?].
    rewrite bool_decide_eq_false_2 by done. rewrite IH by done.
    by rewrite <- app_assoc.
Qed.

(** A word without the delimiter is its own only token. *)
Lemma tokens_word d a : d ∉ a -> a <> [] -> tokens d a = [a].
Proof. intros ? ?. unfold tokens. rewrite tokens_go_free by done. by destruct a. Qed.

Lemma tokens_nil d : tokens d [] = [].
Proof. done. Qed.

Definition word (d : ascii) (a : bytes) : Prop := (d ∉ a) /\ (a <> []).

#[export] Instance word_dec d a : Decision (word d a).
Proof. apply and_dec; apply _. Defined.

Lemma tokens_word_cons d a b : word d a -> tokens d (a ++ d :: b) = a :: tokens d b.
Proof. intros [? ?]. rewrite tokens_app, tokens_word by done. done. Qed.

Lemma tokens_go_Forall d cur s :
  d ∉ cur -> Forall (word d) (tokens_go d cur s).
Proof.
  revert cur; induction s as [|c s IH]; intros cur Hc; simpl.
  - destruct cur; constructor; [by split | constructor].
  - case_bool_decide.
    + apply Forall_app. split.
      * destruct cur; constructor; [by split | constructor].
      * apply IH. apply not_elem_of_nil.
    + apply IH. rewrite not_elem_of_app, list_elem_of_singleton. split; [done | congruence].
Qed.

Lemma tokens_Forall d s : Forall (word d) (tokens d s).
Proof. apply tokens_go_Forall, not_elem_of_nil. Qed.

Lemma tokens_go_length d cur s :
  2 * length (tokens_go d cur s) <= length s + match cur with [] => 1 | _ => 2 end.
Proof.
  revert cur; induction s as [|c s IH]; intros cur; simpl.
  - destruct cur; simpl; lia.
  - case_bool_decide.
    + rewrite length_app. specialize (IH []). destruct cur; simpl in *; lia.
    + specialize (IH (cur ++ [c])). destruct cur; simpl in *; lia.
Qed.

(** A string of [n] bytes has at most [(n + 1) / 2] tokens. *)
Lemma tokens_length d s : 2 * length (tokens d s) <= length s + 1.
Proof. apply (tokens_go_length d []). Qed.

#[export] Hint Resolve tokens_Forall strcmp_eq_refl starts_with_app : nfs.

(** ** Buffers that are large enough *)

Lemma snprintf_all k s : length s < k -> snprintf k s = s.
Proof. intros H. unfold snprintf. apply take_ge. lia. Qed.

Lemma cstr_in_short n b : length b < n -> exists s, cstr_in n b = Val s.
Proof.
  intros H. unfold cstr_in. destruct (split_first NUL b) as [[s r]|]; [by exists s|].
  rewrite bool_decide_eq_true_2 by done. by exists b.
Qed.

(** ** Scanning words *)

Definition spaceless (w : bytes) : Prop := Forall (fun c => isspace c = false) w.

Lemma span_word_stop w rest :
  spaceless w -> (rest = [] \/ exists c r, rest = c :: r /\ isspace c = true) ->
  span_word (w ++ rest) = (w, rest).
Proof.
  induction 1 as [|c w Hc _ IH]; intros Hr; simpl.
  - destruct Hr as [->|(c & r & -> & Hc)]; [done|]. simpl. by rewrite Hc.
  - rewrite Hc. by rewrite IH.
Qed.

Lemma scan_s_start w rest :
  spaceless w -> w <> [] -> (rest = [] \/ exists c r, rest = c :: r /\ isspace c = true) ->
  scan_s (w ++ rest) = Some (w, rest).
Proof.
  intros Hw Hne Hr. unfold scan_s.
  assert (skip_space (w ++ rest) = w ++ rest) as ->
    by (destruct Hw as [|c w Hc _]; [done|]; simpl; by rewrite Hc).
  rewrite span_word_stop by done. by destruct w.
Qed.

Lemma scan_s_word w rest :
  spaceless w -> w <> [] -> (rest = [] \/ exists c r, rest = c :: r /\ isspace c = true) ->
  scan_s (" "%char :: w ++ rest) = Some (w, rest).
Proof. apply scan_s_start. Qed.

Lemma scan_s_line w : spaceless w -> w <> [] -> scan_s (w ++ [LF]) = Some (w, [LF]).
Proof. intros Hw Hne. apply scan_s_start; [done..|right]. by eexists _, _. Qed.

Lemma cstr_free b : NUL ∉ b -> cstr b = b.
Proof. intros Hb. unfold cstr. by apply split_first_None in Hb as ->. Qed.

(** ** Printing numbers and reading them back *)

Lemma digit_val_digit n : (n < 10)%N -> digit_val (digit n) = Some n.
Proof.
  intros Hn. unfold digit_val, digit. rewrite N_ascii_embedding by lia.
  replace ((48 <=? 48 + n) && (48 + n <=? 57))%N with true by (symmetry; apply andb_true_intro; split; apply N.leb_le; lia).
  f_equal. lia.
Qed.

Lemma isspace_digit n : (n < 10)%N -> isspace (digit n) = false.
Proof.
  intros Hn. unfold isspace, digit. rewrite N_ascii_embedding by lia.
  apply orb_false_intro; [apply andb_false_intro2, N.leb_gt; lia|]. apply N.eqb_neq. lia.
Qed.

(** What [digits_go] puts before [acc]: digits that read back as the number. *)
Lemma digits_go_spec fuel n acc :
  (N.to_nat (N.log2 n) < fuel)%nat ->
  exists ds, digits_go fuel n acc = ds ++ acc /\ ds <> [] /\
    Forall (fun c => exists k, (k < 10)%N /\ c = digit k) ds /\
    (forall a r, exists z, read_digits a (ds ++ r) = read_digits (a * z + n)%N r).
Proof.
  revert n acc; induction fuel as [|fuel IH]; intros n acc Hf; [lia|]. cbn [digits_go].
  assert (n mod 10 < 10)%N as Hm by (apply N.mod_lt; lia).
  assert (n = 10 * (n / 10) + n mod 10)%N as Hn by (apply N.div_mod; lia).
  destruct (n / 10 =? 0)%N eqn:Hz.
  - apply N.eqb_eq in Hz. exists [digit (n mod 10)]. split; [done|]. split; [done|]. split.
    + apply Forall_singleton. eauto.
    + intros a r. exists 10%N. cbn [app read_digits]. rewrite digit_val_digit by done. f_equal. lia.
  - apply N.eqb_neq in Hz.
    assert (N.log2 (n / 10) < N.log2 n)%N as Hlog.
    { apply N.le_lt_trans with (N.log2 (n / 2)).
      - apply N.log2_le_mono, N.div_le_compat_l. lia.
      - change 2%N with (2 ^ 1)%N. rewrite <- N.shiftr_div_pow2, N.log2_shiftr.
        assert (1 < n)%N as H1 by (clear -Hn Hz; revert Hn Hz; generalize (n / 10)%N (n mod 10)%N; lia).
        apply N.log2_pos in H1. lia. }
    destruct (IH (n / 10)%N (digit (n mod 10) :: acc)) as (ds & Hgo & Hne & Hds & Hread); [lia|].
    exists (ds ++ [digit (n mod 10)]). split; [by rewrite Hgo, <- app_assoc|].
    split; [by destruct ds|]. split.
    + apply Forall_app. split; [done|]. apply Forall_singleton. eauto.
    + intros a r. destruct (Hread a (digit (n mod 10) :: r)) as [z Hz']. exists (z * 10)%N.
      rewrite <- app_assoc. cbn [app]. rewrite Hz'. cbn [read_digits].
      rewrite digit_val_digit by done. f_equal. lia.
Qed.

(** [atol] and [atoi] read back what [%ld] and a line feed wrote, when the
    number has their type. *)
Lemma number_of_print_Z z : (0 <= z)%Z -> number_of (print_Z z ++ [LF]) = z.
Proof.
  intros Hz. unfold print_Z. rewrite (proj2 (Z.ltb_ge z 0)) by done.
  destruct (digits_go_spec (S (N.to_nat (N.log2 (Z.abs_N z)))) (Z.abs_N z) []) as (ds & -> & Hne & Hds & Hread);
    [lia|]. rewrite app_nil_r. unfold number_of.
  destruct Hds as [|c ds (k & Hk & ->) Hds]; [done|].
  assert (skip_space ((digit k :: ds) ++ [LF]) = digit k :: ds ++ [LF]) as ->
    by (simpl; by rewrite isspace_digit).
  assert (Z.of_N (read_digits 0 (digit k :: ds ++ [LF])) = z) as Hr.
  { destruct (Hread 0%N [LF]) as [y Hy]. cbn [app] in Hy. rewrite Hy. change (Z.of_N (0 * y + Z.abs_N z) = z). lia. }
  assert (digit k <> "-"%char /\ digit k <> "+"%char) as [H1 H2].
  { split; intros H; apply (f_equal N_of_ascii) in H; unfold digit in H;
      rewrite N_ascii_embedding in H by lia; cbn in H; lia. }
  destruct (digit k) as [[] [] [] [] [] [] [] []]; try exact Hr; by exfalso.
Qed.

Lemma to_int32_range x : (- 2 ^ 31 <= to_int32 x < 2 ^ 31)%Z.
Proof. unfold to_int32. pose proof (Z.mod_pos_bound (x + 2 ^ 31) (2 ^ 32)). lia. Qed.

Lemma to_int32_id x : (- 2 ^ 31 <= x < 2 ^ 31)%Z -> to_int32 x = x.
Proof. intros Hx. unfold to_int32. rewrite Z.mod_small; lia. Qed.

Lemma atol_print_Z z : (0 <= z < 2 ^ 63)%Z -> atol (print_Z z ++ [LF]) = z.
Proof. intros Hz. unfold atol, strtol. rewrite number_of_print_Z; lia. Qed.

Lemma atoi_print_Z z : (0 <= z < 2 ^ 31)%Z -> atoi (print_Z z ++ [LF]) = z.
Proof. intros Hz. unfold atoi. rewrite to_int32_id; fold (atol (print_Z z ++ [LF])); rewrite atol_print_Z; lia. Qed.

Lemma atol_range s : (- 2 ^ 63 <= atol s < 2 ^ 63)%Z.
Proof. unfold atol, strtol. lia. Qed.

Lemma digits_go_length fuel n acc : length (digits_go fuel n acc) <= fuel + length acc.
Proof.
  revert n acc; induction fuel as [|fuel IH]; intros n acc; cbn [digits_go]; [done|].
  destruct (n / 10 =? 0)%N; [simpl; lia|]. specialize (IH (n / 10)%N (digit (n mod 10) :: acc)).
  simpl in IH |- *. lia.
Qed.

(** The text of a [long] is short, not empty, and has no terminator in it. *)
Lemma print_Z_length z : (0 <= z < 2 ^ 63)%Z -> 0 < length (print_Z z) <= 64.
Proof.
  intros Hz. unfold print_Z. rewrite (proj2 (Z.ltb_ge z 0)) by lia.
  set (fuel := S (N.to_nat (N.log2 (Z.abs_N z)))).
  assert (fuel <= 64) as Hf.
  { unfold fuel. destruct (decide (Z.abs_N z = 0%N)) as [->|Hne]; [simpl; lia|].
    assert (N.log2 (Z.abs_N z) < 63)%N; [|lia]. apply N.log2_lt_pow2; lia. }
  pose proof (digits_go_length fuel (Z.abs_N z) []) as Hl.
  destruct (digits_go_spec fuel (Z.abs_N z) []) as (ds & Hds & Hne & _); [apply Nat.lt_succ_diag_r|].
  rewrite Hds in *. destruct ds; [done|]. simpl in *. lia.
Qed.

Lemma print_Z_line_free z : (0 <= z)%Z -> NUL ∉ print_Z z ++ [LF].
Proof.
  intros Hz. unfold print_Z. rewrite (proj2 (Z.ltb_ge z 0)) by done.
  destruct (digits_go_spec (S (N.to_nat (N.log2 (Z.abs_N z)))) (Z.abs_N z) []) as (ds & -> & _ & Hds & _);
    [apply Nat.lt_succ_diag_r|].
  rewrite app_nil_r. intros [Hin|Hin]%elem_of_app; [|by apply list_elem_of_singleton in Hin].
  rewrite Forall_forall in Hds. destruct (Hds _ Hin) as (k & Hk & Hd).
  apply (f_equal N_of_ascii) in Hd. unfold digit in Hd. rewrite N_ascii_embedding in Hd by lia.
  cbn in Hd. lia.
Qed.
