(* ===== verification/ErrorCodes.v ===== *)
(** * The table of error codes (ErrorCodes.h)

    The texts the three programs print for their error codes. *)
From S2P Require Export Libc.

Open Scope Z_scope.

Record Error_entry := Error { code : Z; name : bytes; message : bytes }.

Definition errors : list Error_entry :=
  [   Error 0 "ERR_NO_FILE_FOUND" "No file found";
   Error 1 "ERR_NO_FOLDER_FOUND" "No folder found";
   Error 2 "ERR_STORAGE_SERVER_DOWN" "Storage server is down";
   Error 3 "ERR_NAMING_SERVER_UNREACHABLE" "Network is unreachable";
   Error 4 "ERR_PERMISSION_DENIED" "Permission denied";
   Error 5 "ERR_DISK_FULL" "Disk is full";
   Error 6 "ERR_UNKNOWN_ERROR" "Unknown error";
   Error 7 "SOCK_CREAT_FAIL" "Socket creation failed";
   Error 8 "INV_IP_ADDR" "invalid IP";
   Error 9 "CONN_FAIL" "Connection failed";
   Error 10 "SEND_FAIL" "Send failed";
   Error 11 "RECV_FAIL" "Receive failed";
   Error 12 "ERR_INVALID_PATH" "Invalid path";
   Error 13 "ERR_PATH_NOT_FOUND" "Path not found";
   Error 14 "ERR_INVALID_FORMAT" "Invalid format";
   Error 15 "ERR_INVALID_INPUT" "Invalid input";
   Error 16 "ERR_INVALID_COMMAND" "Invalid command";
   Error 17 "ERR_INVALID_IP" "Invalid IP address";
   Error 18 "ERR_INVALID_PORT" "Invalid port number";
   Error 19 "ERR_INVALID_FILE" "Invalid file";
   Error 20 "ERR_INVALID_DIRECTORY" "Invalid directory";
   Error 21 "ERR_INVALID_FILE_PATH" "Invalid file path";
   Error 22 "ERR_INVALID_DIRECTORY_PATH" "Invalid directory path";
   Error 23 "ERR_INVALID_FILE_NAME" "Invalid file name";
   Error 24 "ERR_INVALID_DIRECTORY_NAME" "Invalid directory name";
   Error 25 "ERR_INVALID_FILE_EXTENSION" "Invalid file extension";
   Error 26 "ERR_INVALID_DIRECTORY_EXTENSION" "Invalid directory extension";
   Error 27 "ERR_INVALID_FILE_SIZE" "Invalid file size";
   Error 28 "ERR_INVALID_DIRECTORY_SIZE" "Invalid directory size";
   Error 29 "ERR_INVALID_FILE_CONTENT" "Invalid file content";
   Error 30 "ERR_INVALID_DIRECTORY_CONTENT" "Invalid directory content";
   Error 31 "ERR_INVALID_FILE_PERMISSION" "Invalid file permission";
   Error 32 "ERR_INVALID_DIRECTORY_PERMISSION" "Invalid directory permission";
   Error 33 "ERR_INVALID_FILE_OWNER" "Invalid file owner";
   Error 34 "ERR_INVALID_DIRECTORY_OWNER" "Invalid directory owner";
   Error 35 "ERR_INVALID_FILE_GROUP" "Invalid file group";
   Error 36 "FFPLAY_FAIL" "ffplay failed.";
   Error 37 "SS_NO_RESPONSE" "Storage Server not responding";
   Error 38 "BACKUP1_FAIL" "Failed to send command to backup server 1";
   Error 39 "SSINFO_FAIL/CLIENT_DISCONN" "Failed to receive storage server info or client disconnected";
   Error 40 "LISTEN_FAIL" "listen failed.";
   Error 41 "BIND_FAIL" "Bind failed.";
   Error 42 "ACCEPT_FAIL" "Accept failed.";
   Error 43 "THREAD_FAIL" "Failed to create thread";
   Error 44 "SETSOCKOPT_FAIL" "setsockopt failed.";
   Error 45 "SS_CONN_FAIL" "Storage server connection failed";
   Error 46 "PING_SEND_FAIL" "Failed to send ping command";
   Error 47 "PING_REC_FAIL" "Failed to recive ping command";
   Error 48 "BUFFER_DUP_FAIL" "Failed to duplicate the buffer";
   Error 49 "SEND_TO_SS_FAIL" "Failed to send to source storage seerver";
   Error 50 "RECV_FROM_SS_FAIL" "Failed to receive from source storage server";
   Error 51 "CLIENT_NO_RESP" "Client is not responding";
   Error 52 "FAIL_SEND_CLIENT" "failed to send response to client";
   Error 53 "RECV_FROM_CLIENT_FAIL" "Failed to receive client";
   Error 54 "SS_NO_RESP" "storage server not responding";
   Error 55 "NS_CONN_FAIL" "Connection to Naming Server Failed";
   Error 56 "BACKUP_CREAT_FAIL" "Failed to create backup folder";
   Error 57 "GETSOCKNAME_FAIL" "getsockname failed.";
   Error 69 "FORMAT_ERR" "Incorrect Input Format!"].

(** The first entry with the code. *)
Fixpoint find_error (errorCode : Z) (table : list Error_entry) : option Error_entry :=
  match table with
  | [] => None
  | e :: rest => if bool_decide (code e = errorCode) then Some e else find_error errorCode rest
  end.

Definition RED : bytes := ESC :: "[0;31m".
Definition RESET : bytes := ESC :: "[0m".

(** What [printErrorDetails] prints. *)
Definition printErrorDetails (errorCode : Z) : bytes :=
  match find_error errorCode errors with
  | Some e =>
      RED ++ "Error Number: " ++ print_Z (code e) ++ [LF] ++
      "Error Code: " ++ name e ++ [LF] ++
      "Error Message: " ++ message e ++ [LF] ++ RESET
  | None => RED ++ "Error: Invalid error code (" ++ print_Z errorCode ++ ")" ++ [LF] ++ RESET
  end.

Lemma find_error_unique table e :
  NoDup (code <$> table) -> e ∈ table -> find_error (code e) table = Some e.
Proof.
  induction table as [|x table IH]; intros Hnd He; [by apply not_elem_of_nil in He|].
  apply NoDup_cons in Hnd as [Hx Hnd]. cbn [find_error].
  apply elem_of_cons in He as [->|He]; [by rewrite bool_decide_eq_true_2|].
  rewrite bool_decide_eq_false_2; [by apply IH|]. intros Heq. apply Hx. rewrite Heq.
  by apply list_elem_of_fmap_2.
Qed.

(** Every code of the table is found under its own entry. *)
Lemma errors_found e : e ∈ errors -> find_error (code e) errors = Some e.
Proof. apply find_error_unique. by apply (bool_decide_unpack _). Qed.

(** The codes the programs use. *)
Definition used_codes : list Z :=
  [3; 7; 8; 9; 10; 11; 17; 36; 38; 39; 40; 41; 42; 43; 44; 45; 48; 49; 50; 51; 52; 54; 55; 56; 57; 69].

(** None of them is unknown to the table. *)
Lemma used_codes_known : Forall (fun c => is_Some (find_error c errors)) used_codes.
Proof. by apply (bool_decide_unpack _). Qed.
