(* ===== verification/IO.v ===== *)
(** * Interaction with the network

    The sockets, other processes and the log file are the environment of the
    three programs.  A handler is a tree of system calls [io A]; each call is
    a node whose continuation takes the environment's answer, so every error
    return of every call is a branch of the model.  [run] executes a handler
    against a list of answers; [wp] states what holds whatever the answers. *)
From S2P Require Export Libc.

(** ** System calls and their answers *)

(** [send]: the number of bytes taken, or -1 with [errno]. *)
Inductive sres :=
  | SSent (n : nat)
  | SAgain
  | SErr.

(** [recv]: some bytes, 0 at end of stream, or -1 with [errno]. *)
Inductive rres :=
  | RData (b : bytes)
  | REof
  | RAgain
  | RErr.

(** [socket]; [inet_pton]; [connect]: the step that failed, or the descriptor. *)
Inductive cnres :=
  | SockFail
  | AddrFail
  | ConnFail
  | Connected (fd : Z).

Inductive io (A : Type) : Type :=
  | Ret (a : A)
  | Bad (u : ub)                                  (** undefined behaviour *)
  | Stuck                                         (** blocked for good, or out of fuel *)
  | Send (s : Z) (m : bytes) (k : sres -> io A)
  | Recv (s : Z) (n : nat) (k : rres -> io A)
  | Connect (ip : bytes) (port : Z) (k : cnres -> io A)
  | Close (s : Z) (p : io A)
  | Log (m : bytes) (p : io A).
Arguments Ret {A} a.
Arguments Bad {A} u.
Arguments Stuck {A}.
Arguments Send {A} s m k.
Arguments Recv {A} s n k.
Arguments Connect {A} ip port k.
Arguments Close {A} s p.
Arguments Log {A} m p.

#[export] Instance io_ret : MRet io := @Ret.
#[export] Instance io_bind : MBind io := fun A B f =>
  fix go p := match p with
  | Ret a => f a
  | Bad u => Bad u
  | Stuck => Stuck
  | Send s m k => Send s m (fun r => go (k r))
  | Recv s n k => Recv s n (fun r => go (k r))
  | Connect ip port k => Connect ip port (fun r => go (k r))
  | Close s p => Close s (go p)
  | Log m p => Log m (go p)
  end.

Definition io_of {A} (x : cres A) : io A :=
  match x with
  | Val a => Ret a
  | Undef u => Bad u
  end.

(** ** Traces *)

Inductive event :=
  | ESend (s : Z) (m : bytes) (r : sres)
  | ERecv (s : Z) (n : nat) (r : rres)
  | EConnect (ip : bytes) (port : Z) (r : cnres)
  | EClose (s : Z)
  | ELog (m : bytes).

(** What the environment may answer: a [recv] of [n] bytes yields between one
    and [n] bytes. *)
Definition rres_ok (n : nat) (r : rres) : Prop :=
  match r with
  | RData b => 0 < length b <= n
  | _ => True
  end.

#[export] Instance rres_ok_dec n r : Decision (rres_ok n r).
Proof. destruct r; simpl; apply _. Defined.

(** Everything sent to one socket, in order. *)
Fixpoint sent_to (s : Z) (tr : list event) : list bytes :=
  match tr with
  | [] => []
  | ESend s' m _ :: tr' => (if (s =? s')%Z then cons m else id) (sent_to s tr')
  | _ :: tr' => sent_to s tr'
  end.

Lemma sent_to_app s tr1 tr2 : sent_to s (tr1 ++ tr2) = sent_to s tr1 ++ sent_to s tr2.
Proof.
  induction tr1 as [|e tr1 IH]; [done|]. destruct e; simpl; try done.
  destruct (s =? s0)%Z; simpl; by rewrite IH.
Qed.

(** ** Execution against given answers *)

Inductive answer :=
  | ASend (r : sres)
  | ARecv (r : rres)
  | AConn (r : cnres).

Inductive outcome (A : Type) :=
  | Done (a : A)
  | Undefined (u : ub)
  | Blocked.                (** no further answer, a mismatched one, or [Stuck] *)
Arguments Done {A} a.
Arguments Undefined {A} u.
Arguments Blocked {A}.

Fixpoint run {A} (p : io A) (ans : list answer) : list event * outcome A :=
  match p with
  | Ret a => ([], Done a)
  | Bad u => ([], Undefined u)
  | Stuck => ([], Blocked)
  | Send s m k =>
      match ans with
      | ASend r :: ans' => let '(tr, o) := run (k r) ans' in (ESend s m r :: tr, o)
      | _ => ([], Blocked)
      end
  | Recv s n k =>
      match ans with
      | ARecv r :: ans' => let '(tr, o) := run (k r) ans' in (ERecv s n r :: tr, o)
      | _ => ([], Blocked)
      end
  | Connect ip port k =>
      match ans with
      | AConn r :: ans' => let '(tr, o) := run (k r) ans' in (EConnect ip port r :: tr, o)
      | _ => ([], Blocked)
      end
  | Close s p' => let '(tr, o) := run p' ans in (EClose s :: tr, o)
  | Log m p' => let '(tr, o) := run p' ans in (ELog m :: tr, o)
  end.

(** ** Weakest preconditions *)

(** What is assumed of the environment's answers, and what a handler may end
    in besides returning. *)
Record regime := Regime {
  env : event -> Prop;
  may_go_wrong : Prop;     (** undefined behaviour is tolerated *)
  may_block : Prop         (** blocking for good, or missing fuel, is tolerated *)
}.

(** Total correctness whatever the environment answers. *)
Definition total : regime := Regime (fun _ => True) False False.

(** No undefined behaviour whatever the environment answers. *)
Definition safe : regime := Regime (fun _ => True) False True.

(** Partial correctness: the handler's effect whenever it returns. *)
Definition partial : regime := Regime (fun _ => True) True True.

Definition answer_ok (R : regime) (e : event) : Prop :=
  match e with ERecv _ n r => rres_ok n r | _ => True end /\ env R e.

(** [wp R p tr Q]: from trace [tr], for all answers [R] admits, [p] ends with a
    trace and a value satisfying [Q], or in a way [R] tolerates. *)
Fixpoint wp {A} (R : regime) (p : io A) (tr : list event)
    (Q : list event -> A -> Prop) : Prop :=
  match p with
  | Ret a => Q tr a
  | Bad _ => may_go_wrong R
  | Stuck => may_block R
  | Send s m k =>
      forall r, answer_ok R (ESend s m r) -> wp R (k r) (tr ++ [ESend s m r]) Q
  | Recv s n k =>
      forall r, answer_ok R (ERecv s n r) -> wp R (k r) (tr ++ [ERecv s n r]) Q
  | Connect ip port k =>
      forall r, answer_ok R (EConnect ip port r) -> wp R (k r) (tr ++ [EConnect ip port r]) Q
  | Close s p' => wp R p' (tr ++ [EClose s]) Q
  | Log m p' => wp R p' (tr ++ [ELog m]) Q
  end.

Lemma wp_mono {A} R (p : io A) tr (Q Q' : list event -> A -> Prop) :
  (forall tr' a, Q tr' a -> Q' tr' a) -> wp R p tr Q -> wp R p tr Q'.
Proof. intros HQ. revert tr. induction p; simpl; intros tr Hp; eauto. Qed.

Lemma wp_bind {A B} R (p : io A) (f : A -> io B) tr Q :
  wp R p tr (fun tr' a => wp R (f a) tr' Q) -> wp R (p ≫= f) tr Q.
Proof. revert tr. induction p; simpl; intros tr Hp; eauto. Qed.

Lemma wp_and {A} R (p : io A) tr Q Q' :
  wp R p tr Q -> wp R p tr Q' -> wp R p tr (fun tr' a => Q tr' a /\ Q' tr' a).
Proof. revert tr. induction p; simpl; intros tr Hp Hp'; eauto. Qed.

(** A specification under weaker assumptions holds under stronger ones. *)
Definition regime_le (R R' : regime) : Prop :=
  (forall e, env R' e -> env R e) /\
  (may_go_wrong R -> may_go_wrong R') /\ (may_block R -> may_block R').

Lemma wp_regime {A} R R' (p : io A) tr Q :
  regime_le R R' -> wp R p tr Q -> wp R' p tr Q.
Proof.
  intros (He & Hw & Hb). revert tr.
  induction p; simpl; intros tr Hp; auto.
  all: intros r [Hok Henv]; apply H; apply Hp; split; auto.
Qed.

Lemma total_le R : regime_le total R.
Proof. by repeat split. Qed.

Lemma wp_total {A} R (p : io A) tr Q : wp total p tr Q -> wp R p tr Q.
Proof. apply wp_regime, total_le. Qed.

(** [wp] is sound for [run]. *)
Lemma wp_run {A} R (p : io A) tr0 Q ans tr o :
  wp R p tr0 Q -> run p ans = (tr, o) -> Forall (answer_ok R) tr ->
  match o with
  | Done a => Q (tr0 ++ tr) a
  | Undefined _ => may_go_wrong R
  | Blocked => True
  end.
Proof.
  revert tr0 ans tr o.
  induction p as [a|u| |s m k IH|s n k IH|ip port k IH|s p IH|m p IH];
    simpl; intros tr0 ans tr o Hp Hr Hok; try (by simplify_eq; rewrite ?app_nil_r).
  1-3: destruct ans as [|[r|r|r] ans]; simplify_eq; try done;
    destruct (run (k r) ans) as [tr1 o1] eqn:Hrun; simplify_eq;
    apply Forall_cons in Hok as [Hr Hok]; rewrite cons_middle, app_assoc; by eapply IH; eauto.
  all: destruct (run p ans) as [tr1 o1] eqn:Hrun; simplify_eq;
    apply Forall_cons in Hok as [_ Hok]; rewrite cons_middle, app_assoc; by eapply IH; eauto.
Qed.

(** ** The socket wrappers of helper.c *)

(** [recv_good(sock, buf, len)]: the return value and the bytes received. *)
Definition recv_good (sock : Z) (len : nat) : io (Z * bytes) :=
  Recv sock len (fun r =>
    match r with
    | RData b => Ret (Z.of_nat (length b), b)
    | REof => Ret (0%Z, [])
    | RAgain => Ret (0%Z, [])
    | RErr => Ret ((-1)%Z, [])
    end).

(** [send_good(sock, buf, len)] of the [len] bytes [m]. *)
Definition send_good (sock : Z) (m : bytes) : io Z :=
  Send sock m (fun r =>
    match r with
    | SSent n => Ret (Z.of_nat n)
    | SAgain => Ret 0%Z
    | SErr => Ret (-1)%Z
    end).

(** ** Handlers over a state *)

Definition M (S A : Type) : Type := S -> io (A * S).

#[export] Instance M_ret {S} : MRet (M S) := fun A a st => Ret (a, st).
#[export] Instance M_bind {S} : MBind (M S) := fun A B f m st =>
  m st ≫= (fun x => f x.1 x.2).

Definition getS {S} : M S S := fun st => Ret (st, st).
Definition putS {S} (st : S) : M S unit := fun _ => Ret (tt, st).
Definition modifyS {S} (f : S -> S) : M S unit := fun st => Ret (tt, f st).
Definition liftIO {S A} (p : io A) : M S A := fun st => p ≫= (fun a => Ret (a, st)).
Definition liftC {S A} (x : cres A) : M S A := liftIO (io_of x).
Definition logM {S} (m : bytes) : M S unit := fun st => Log m (Ret (tt, st)).
Definition closeM {S} (s : Z) : M S unit := fun st => Close s (Ret (tt, st)).
Definition connectM {S} (ip : bytes) (port : Z) : M S cnres :=
  fun st => Connect ip port (fun r => Ret (r, st)).
Definition blockM {S A} : M S A := fun _ => Stuck.

(** The specification of a handler from a state. *)
Definition wpM {S A} (R : regime) (m : M S A) (st : S) (tr : list event)
    (Q : list event -> A -> S -> Prop) : Prop :=
  wp R (m st) tr (fun tr' x => Q tr' x.1 x.2).

Lemma wpM_mono {S A} R (m : M S A) st tr (Q Q' : list event -> A -> S -> Prop) :
  wpM R m st tr Q -> (forall tr' a st', Q tr' a st' -> Q' tr' a st') -> wpM R m st tr Q'.
Proof. intros Hm HQ. unfold wpM in *. eapply wp_mono; [|exact Hm]. eauto. Qed.

Lemma wpM_bind {S A B} R (m : M S A) (f : A -> M S B) st tr Q :
  wpM R m st tr (fun tr' a st' => wpM R (f a) st' tr' Q) ->
  wpM R (m ≫= f) st tr Q.
Proof. intros Hm. apply wp_bind. exact Hm. Qed.

Lemma wpM_ret {S A} R (a : A) (st : S) tr (Q : list event -> A -> S -> Prop) :
  Q tr a st -> wpM R (mret a) st tr Q.
Proof. done. Qed.

Lemma wpM_total {S A} R (m : M S A) st tr Q : wpM total m st tr Q -> wpM R m st tr Q.
Proof. apply wp_total. Qed.

(** The value of [send_good] for each answer. *)
Definition send_value (r : sres) : Z :=
  match r with SSent n => Z.of_nat n | SAgain => 0%Z | SErr => (-1)%Z end.

Definition recv_value (r : rres) : Z * bytes :=
  match r with
  | RData b => (Z.of_nat (length b), b)
  | REof | RAgain => (0%Z, [])
  | RErr => ((-1)%Z, [])
  end.

Lemma wpM_send {S} R (st : S) sock m tr Q :
  (forall r, env R (ESend sock m r) -> Q (tr ++ [ESend sock m r]) (send_value r) st) ->
  wpM R (liftIO (send_good sock m)) st tr Q.
Proof. intros HQ r [_ Hr]. specialize (HQ r Hr). by destruct r. Qed.

Lemma wpM_recv {S} R (st : S) sock n tr Q :
  (forall r, rres_ok n r -> env R (ERecv sock n r) ->
     Q (tr ++ [ERecv sock n r]) (recv_value r) st) ->
  wpM R (liftIO (recv_good sock n)) st tr Q.
Proof. intros HQ r [Hok Hr]. specialize (HQ r Hok Hr). by destruct r. Qed.

Lemma wpM_connect {S} R (st : S) ip port tr (Q : list event -> cnres -> S -> Prop) :
  (forall r, env R (EConnect ip port r) -> Q (tr ++ [EConnect ip port r]) r st) ->
  wpM R (connectM ip port) st tr Q.
Proof. intros HQ r [_ Hr]. by apply HQ. Qed.

Lemma wpM_liftC {S A} R (x : cres A) (st : S) tr (Q : list event -> A -> S -> Prop) :
  match x with Val a => Q tr a st | Undef _ => may_go_wrong R end ->
  wpM R (liftC x) st tr Q.
Proof. by destruct x. Qed.

(** One step of symbolic execution of a handler. *)
Ltac wpM_step :=
  lazymatch goal with
  | |- wpM _ (_ ≫= _) _ _ _ => apply wpM_bind
  | |- wpM _ (mret _) _ _ _ => apply wpM_ret
  | |- wpM _ (liftIO (send_good _ _)) _ _ _ => apply wpM_send; intros ? ?
  | |- wpM _ (liftIO (recv_good _ _)) _ _ _ => apply wpM_recv; intros ? ? ?
  | |- wpM _ (connectM _ _) _ _ _ => apply wpM_connect; intros ? ?
  | |- wpM _ (liftC _) _ _ _ => apply wpM_liftC
  | |- wpM _ getS _ _ _ => red; simpl
  | |- wpM _ (putS _) _ _ _ => red; simpl
  | |- wpM _ (modifyS _) _ _ _ => red; simpl
  | |- wpM _ (logM _) _ _ _ => red; simpl
  | |- wpM _ (closeM _) _ _ _ => red; simpl
  | |- wpM _ blockM _ _ _ => red; simpl
  | |- wpM _ (if ?c then _ else _) _ _ _ => destruct c eqn:?
  end.

(** All the steps that take no decision. *)
Ltac wpM_pure :=
  repeat lazymatch goal with
  | |- wpM _ (_ ≫= _) _ _ _ => apply wpM_bind; cbv beta
  | |- wpM _ (mret _) _ _ _ => apply wpM_ret
  | |- wpM _ getS _ _ _ => red; cbn [getS wp fst snd]
  | |- wpM _ (modifyS _) _ _ _ => red; cbn [modifyS wp fst snd]
  | |- wpM _ (logM _) _ _ _ => red; cbn [logM wp fst snd]
  | |- wpM _ (closeM _) _ _ _ => red; cbn [closeM wp fst snd]
  | |- wpM _ (liftC (nonnull (Some _))) _ _ _ => apply wpM_liftC; cbn [nonnull]
  end.

(** Equations of execution, for handlers run on concrete answers. *)
Lemma run_recvM {S A} sock n (f : Z * bytes -> M S A) st c ans :
  run ((liftIO (recv_good sock n) ≫= f) st) (ARecv (RData c) :: ans) =
    (let '(tr, o) := run (f (Z.of_nat (length c), c) st) ans in (ERecv sock n (RData c) :: tr, o)).
Proof. done. Qed.

Lemma liftC_Val {S A B} (a : A) (f : A -> M S B) st : (liftC (Val a) ≫= f) st = f a st.
Proof. done. Qed.

(** Appending a computation without system calls. *)
Lemma run_bind_Ret {A B} (p : io A) (f : A -> io B) ans tr a b :
  run p ans = (tr, Done a) -> f a = Ret b -> run (p ≫= f) ans = (tr, Done b).
Proof.
  intros Hp Hf. revert ans tr Hp.
  induction p as [a'|u| |s m k IH|s n k IH|ip port k IH|s p IH|m p IH];
    simpl; intros ans tr Hp; simplify_eq.
  - by rewrite Hf.
  - destruct ans as [|[r|r|r] ans]; simplify_eq.
    destruct (run (k r) ans) as [tr1 o1] eqn:Hr. simplify_eq. apply IH in Hr. by setoid_rewrite Hr.
  - destruct ans as [|[r|r|r] ans]; simplify_eq.
    destruct (run (k r) ans) as [tr1 o1] eqn:Hr. simplify_eq. apply IH in Hr. by setoid_rewrite Hr.
  - destruct ans as [|[r|r|r] ans]; simplify_eq.
    destruct (run (k r) ans) as [tr1 o1] eqn:Hr. simplify_eq. apply IH in Hr. by setoid_rewrite Hr.
  - destruct (run p ans) as [tr1 o1] eqn:Hr. simplify_eq. apply IH in Hr. by setoid_rewrite Hr.
  - destruct (run p ans) as [tr1 o1] eqn:Hr. simplify_eq. apply IH in Hr. by setoid_rewrite Hr.
Qed.

Lemma run_recvM_bind {S A B} sock n (g : Z * bytes -> M S A) (f : A -> M S B) st c ans :
  run (((liftIO (recv_good sock n) ≫= g) ≫= f) st) (ARecv (RData c) :: ans) =
    (let '(tr, o) := run ((g (Z.of_nat (length c), c) ≫= f) st) ans in
     (ERecv sock n (RData c) :: tr, o)).
Proof. done. Qed.

(** ** Combining specifications *)

(** Answers restricted to those satisfying [E]: always returning, and
    whenever it returns. *)
Definition returns (E : event -> Prop) : regime := Regime E False False.
Definition whenever (E : event -> Prop) : regime := Regime E True True.

(** A total and a partial specification of the same handler. *)
Lemma wpM_returns_and {S A} E (m : M S A) st tr (Q Q' : list event -> A -> S -> Prop) :
  wpM (returns E) m st tr Q -> wpM (whenever E) m st tr Q' ->
  wpM (returns E) m st tr (fun tr' a st' => Q tr' a st' /\ Q' tr' a st').
Proof.
  unfold wpM. revert tr. induction (m st); simpl; intros tr Hp Hp'; eauto; try done.
Qed.

Lemma wpM_and {S A} R (m : M S A) st tr (Q Q' : list event -> A -> S -> Prop) :
  wpM R m st tr Q -> wpM R m st tr Q' ->
  wpM R m st tr (fun tr' a st' => Q tr' a st' /\ Q' tr' a st').
Proof. apply wp_and. Qed.

(** New connections do not get the descriptor of an open one. *)
Definition away (c : Z) (e : event) : Prop :=
  match e with EConnect _ _ (Connected fd) => fd <> c | _ => True end.

Lemma sent_to_snoc s tr e :
  sent_to s (tr ++ [e]) =
    match e with
    | ESend s' m _ => if (s =? s')%Z then sent_to s tr ++ [m] else sent_to s tr
    | _ => sent_to s tr
    end.
Proof.
  rewrite sent_to_app. destruct e; simpl; rewrite ?app_nil_r; try done.
  destruct (s =? s0)%Z; simpl; by rewrite ?app_nil_r.
Qed.

(** Traces only grow. *)
Lemma wp_prefix {A} R (p : io A) tr Q :
  wp R p tr Q -> wp R p tr (fun tr' a => Q tr' a /\ tr `prefix_of` tr').
Proof.
  enough (forall tr0, tr0 `prefix_of` tr -> wp R p tr Q ->
    wp R p tr (fun tr' a => Q tr' a /\ tr0 `prefix_of` tr')) as H by (by apply H).
  revert tr. induction p; simpl; intros tr tr0 Htr Hp; eauto using prefix_app_r.
Qed.

Lemma wpM_prefix {S A} R (m : M S A) st tr Q :
  wpM R m st tr Q -> wpM R m st tr (fun tr' a st' => Q tr' a st' /\ tr `prefix_of` tr').
Proof. apply wp_prefix. Qed.

Lemma wpM_regime {S A} R R' (m : M S A) st tr Q :
  regime_le R R' -> wpM R m st tr Q -> wpM R' m st tr Q.
Proof. apply wp_regime. Qed.

(** Every execution runs into undefined behaviour: with this regime and a
    postcondition that never holds. *)
Definition doomed (E : event -> Prop) : regime := Regime E True False.

Lemma returns_doomed E : regime_le (returns E) (doomed E).
Proof. by repeat split. Qed.

(** The environment's answers are shorter than the buffers they are read
    into. *)
Definition short_answers (e : event) : Prop :=
  match e with ERecv _ n (RData b) => (length b < n)%nat | _ => True end.

(** What was answered in a trace. *)
Fixpoint answers_of (tr : list event) : list answer :=
  match tr with
  | [] => []
  | ESend _ _ r :: tr' => ASend r :: answers_of tr'
  | ERecv _ _ r :: tr' => ARecv r :: answers_of tr'
  | EConnect _ _ r :: tr' => AConn r :: answers_of tr'
  | _ :: tr' => answers_of tr'
  end.

(** A handler that has returned is the run on the answers of its trace. *)
Definition replays {A} (p : io A) (tr : list event) (a : A) : Prop := run p (answers_of tr) = (tr, Done a).

Lemma wp_replays {A} (p : io A) tr0 :
  wp partial p tr0 (fun tr' a => exists tr, tr' = tr0 ++ tr /\ replays p tr a).
Proof.
  unfold replays. revert tr0. induction p as [a|u| |s m k IH|s n k IH|ip port k IH|s p IH|m p IH]; intros tr0; cbn [wp].
  - exists []. by rewrite app_nil_r.
  - done.
  - done.
  - intros r _. eapply wp_mono; [|apply IH]. intros tr' a (tr & -> & Hr). exists (ESend s m r :: tr).
    split; [by rewrite <- app_assoc|cbn; by rewrite Hr].
  - intros r _. eapply wp_mono; [|apply IH]. intros tr' a (tr & -> & Hr). exists (ERecv s n r :: tr).
    split; [by rewrite <- app_assoc|cbn; by rewrite Hr].
  - intros r _. eapply wp_mono; [|apply IH]. intros tr' a (tr & -> & Hr). exists (EConnect ip port r :: tr).
    split; [by rewrite <- app_assoc|cbn; by rewrite Hr].
  - eapply wp_mono; [|apply IH]. intros tr' a (tr & -> & Hr). exists (EClose s :: tr).
    split; [by rewrite <- app_assoc|cbn; by rewrite Hr].
  - eapply wp_mono; [|apply IH]. intros tr' a (tr & -> & Hr). exists (ELog m :: tr).
    split; [by rewrite <- app_assoc|cbn; by rewrite Hr].
Qed.

Lemma wpM_replays {S A} (m : M S A) st tr0 Q :
  wpM partial m st tr0 Q -> wpM partial m st tr0 (fun tr' a st' =>
    Q tr' a st' /\ exists tr, tr' = tr0 ++ tr /\ replays (m st) tr (a, st')).
Proof.
  intros Hm. unfold wpM. eapply wp_mono; [|apply (wp_and _ _ _ _ _ Hm (wp_replays (m st) tr0))].
  by intros tr' [a st'].
Qed.
