(* ===== verification/Accept.v ===== *)
(** * The accept loops (naming_server.c: handle_ss, handling_client, main;
    storage_server.c: listen_to_client; client.c: async_setup)

    Every loop accepts a connection into a local variable and starts a thread
    for it.  [handle_ss] gives the thread a copy of the descriptor on the heap,
    [listen_to_client] the descriptor itself, the three others the address of
    the variable, which the thread reads when it runs.  Each loop is the list
    of its statements; the loop, its threads and the rest of the process take
    turns in any order, and the kernel hands out descriptors again once they
    are closed. *)
From S2P Require Export Prelude.

Open Scope Z_scope.

(** ** The statements *)

(** The last argument of [pthread_create]. *)
Inductive passing := By_address | By_copy | By_value.

Inductive cleanup := Close_socket | Free_copy.

Inductive stmt :=
  | Listen                                  (** [listen]; the process exits when it fails *)
  | Accept                                  (** [v = accept(..)]; [continue] when negative *)
  | Copy                                    (** [p = malloc(..); p->socket = v] *)
  | Create (p : passing) (failed : list cleanup). (** [pthread_create], and what follows its failure *)

Definition handle_ss : list stmt := [Accept; Copy; Create By_copy [Close_socket; Free_copy]].
Definition listen_to_client : list stmt := [Listen; Accept; Create By_value [Close_socket]].
Definition handling_client : list stmt := [Accept; Create By_address [Close_socket]].
Definition accept_async : list stmt := [Accept; Create By_address []].
Definition async_setup : list stmt := [Accept; Create By_address []].

(** ** The process *)

(** What a descriptor refers to: a connection, by the order in which they were
    accepted, or another file of the process. *)
Inductive file := Conn (c : nat) | Other.

#[export] Instance file_eq_dec : EqDecision file.
Proof. solve_decision. Defined.

(** What a thread was given: the variable of an iteration of the loop, a
    place on the heap, or a number. *)
Inductive argument := Variable_of (iteration : nat) | Cell (l : nat) | Number (fd : Z).

Inductive status :=
  | Starting (a : argument)   (** has not read its argument *)
  | Serving (fd : Z)          (** works on this descriptor *)
  | Ended
  | Lost.                     (** has read something that is no object any more *)

(** A thread, with the connection it was started for. *)
Record thread := Thread { meant_for : nat; does : status }.

(** [todo] is what is left of the iteration numbered [iteration]; [var] is
    what the place of the loop's variable holds; [ptr] the last copy. *)
Record process := Process {
  iteration : nat;
  todo : list stmt;
  var : Z;
  heap : gmap nat Z;
  ptr : nat;
  fds : gmap Z file;
  accepted : nat;
  threads : list thread;
  running : bool
}.

(** The process before the loop, with the descriptors it has already. *)
Definition started (f : gset Z) : process := Process 0 [] 0 ∅ 0 (gset_to_gmap Other f) 0 [] true.

(** What a call returns. *)
Inductive call_result := Fails | Works | Gives (fd : Z) | At (l : nat).

Definition clean (w : process) (c : cleanup) : process :=
  let '(Process i t v h p f n ts r) := w in
  match c with
  | Close_socket => Process i t v h p (delete v f) n ts r
  | Free_copy => Process i t v (delete p h) p f n ts r
  end.

Definition argument_of (p : passing) (w : process) : argument :=
  match p with
  | By_address => Variable_of (iteration w)
  | By_copy => Cell (ptr w)
  | By_value => Number (var w)
  end.

(** One statement; the rest of the body is [t]. *)
Definition exec (s : stmt) (a : call_result) (t : list stmt) (w : process) : option process :=
  let '(Process i _ v h p f n ts r) := w in
  match s, a with
  | Listen, Works => Some (Process i t v h p f n ts r)
  | Listen, Fails => Some (Process i t v h p f n ts false)
  | Accept, Gives fd =>
      if decide (0 <= fd /\ f !! fd = None)
      then Some (Process i t fd h p (<[fd:=Conn n]> f) (S n) ts r) else None
  | Accept, Fails => Some (Process i [] (-1) h p f n ts r)
  | Copy, At l =>
      if decide (h !! l = None) then Some (Process i t v (<[l:=v]> h) l f n ts r) else None
  | Copy, Fails => Some (Process i t v h p f n ts false)     (** a write through a null pointer *)
  | Create arg _, Works =>
      Some (Process i t v h p f n (ts ++ [Thread (n - 1) (Starting (argument_of arg w))]) r)
  | Create _ failed, Fails => Some (foldl clean (Process i t v h p f n ts r) failed)
  | _, _ => None
  end.

(** Whose turn it is. *)
Inductive move :=
  | Loop (a : call_result)         (** the next statement of the loop, with what its call returns *)
  | Reads (k : nat)           (** thread [k] reads its argument *)
  | Closes (k : nat)          (** thread [k] closes its descriptor, which is the last use of it *)
  | Opens (fd : Z)            (** another part of the process opens a file *)
  | Releases (fd : Z).        (** ... and closes it *)

Section runs.
(** What reading the variable of an iteration that is over yields, when its
    place holds [v]: in C nothing, and on a stack that the loop uses the same
    way in each iteration, [v]. *)
Variable after_scope : Z -> cres Z.

Definition read_argument (w : process) (a : argument) : cres Z :=
  match a with
  | Variable_of i => if bool_decide (i = iteration w) then Val (var w) else after_scope (var w)
  | Cell l => match heap w !! l with Some v => Val v | None => Undef BadRead end
  | Number fd => Val fd
  end.

Definition set_thread (k : nat) (t : thread) (w : process) : process :=
  let '(Process i td v h p f n ts r) := w in Process i td v h p f n (<[k:=t]> ts) r.

Definition set_fds (f : gmap Z file) (w : process) : process :=
  let '(Process i td v h p _ n ts r) := w in Process i td v h p f n ts r.

Definition next_iteration (body : list stmt) (w : process) : process :=
  let '(Process i _ v h p f n ts r) := w in Process (S i) body v h p f n ts r.

(** One turn.  The end of the body is the start of the next iteration. *)
Definition loop_turn (body : list stmt) (m : move) (w : process) : option process :=
  if running w then
    match m with
    | Loop a =>
        match todo w with
        | [] => Some (next_iteration body w)
        | s :: t => exec s a t w
        end
    | Reads k =>
        match threads w !! k with
        | Some (Thread c (Starting arg)) =>
            Some (set_thread k (Thread c (match read_argument w arg with Val fd => Serving fd | Undef _ => Lost end)) w)
        | _ => None
        end
    | Closes k =>
        match threads w !! k with
        | Some (Thread c (Serving fd)) => Some (set_fds (delete fd (fds w)) (set_thread k (Thread c Ended) w))
        | _ => None
        end
    | Opens fd =>
        if decide (0 <= fd /\ fds w !! fd = None) then Some (set_fds (<[fd:=Other]> (fds w)) w) else None
    | Releases fd => if decide (fds w !! fd = Some Other) then Some (set_fds (delete fd (fds w)) w) else None
    end
  else None.

Fixpoint run_loop (body : list stmt) (ms : list move) (w : process) : option process :=
  match ms with
  | [] => Some w
  | m :: ms' => w' ← loop_turn body m w; run_loop body ms' w'
  end.
End runs.

(** Thread [k] works on connection [c]. *)
Definition serves (w : process) (k c : nat) : Prop :=
  exists c' fd, threads w !! k = Some (Thread c' (Serving fd)) /\ fds w !! fd = Some (Conn c).

(** ** Loops that hand out the descriptor or a copy *)

(** What a thread was given or has read is the connection it was started for. *)
Definition holds (h : gmap nat Z) (f : gmap Z file) (a : argument) (c : nat) : Prop :=
  match a with
  | Variable_of _ => False
  | Cell l => exists fd, h !! l = Some fd /\ f !! fd = Some (Conn c)
  | Number fd => f !! fd = Some (Conn c)
  end.

Definition keeps (h : gmap nat Z) (f : gmap Z file) (t : thread) : Prop :=
  match does t with
  | Starting a => holds h f a (meant_for t)
  | Serving fd => f !! fd = Some (Conn (meant_for t))
  | Ended => True
  | Lost => False
  end.

(** Between [accept] and [pthread_create]: the connection that was accepted is
    open, and no thread is for it yet. *)
Definition pending (w : process) : Prop :=
  fds w !! var w = Some (Conn (accepted w - 1)) /\ (0 < accepted w)%nat /\
  Forall (fun t => meant_for t <> (accepted w - 1)%nat) (threads w).

(** Its copy is on the heap, and no thread has it. *)
Definition copied (w : process) : Prop :=
  heap w !! ptr w = Some (var w) /\ Forall (fun t => does t <> Starting (Cell (ptr w))) (threads w).

Definition ready (w : process) : Prop :=
  match todo w with
  | Copy :: _ => pending w
  | Create By_copy _ :: _ => pending w /\ copied w
  | Create By_value _ :: _ => pending w
  | Create By_address _ :: _ => False
  | _ => True
  end.

Record apart (w : process) : Prop := {
  apart_keeps : Forall (keeps (heap w) (fds w)) (threads w);
  apart_nodup : NoDup (meant_for <$> threads w);
  apart_below : Forall (fun t => meant_for t < accepted w)%nat (threads w);
  apart_ready : ready w
}.

Lemma keeps_mono h f h' f' t :
  keeps h f t -> (forall l v, does t = Starting (Cell l) -> h !! l = Some v -> h' !! l = Some v) ->
  (forall fd, f !! fd = Some (Conn (meant_for t)) -> f' !! fd = Some (Conn (meant_for t))) -> keeps h' f' t.
Proof.
  unfold keeps, holds. intros Hk Hh Hf. destruct (does t) as [[i|l|fd]|fd| |]; try done; auto.
  destruct Hk as (fd & Hl & Hfd). exists fd. auto.
Qed.

Lemma Forall_keeps_fds h f f' ts :
  Forall (keeps h f) ts ->
  (forall t fd, t ∈ ts -> f !! fd = Some (Conn (meant_for t)) -> f' !! fd = Some (Conn (meant_for t))) ->
  Forall (keeps h f') ts.
Proof.
  rewrite !Forall_forall. intros Hk Hf t Ht. eapply keeps_mono; [by apply Hk|done|]. intros fd. by apply Hf.
Qed.

Lemma apart_accept i t v h p f n ts fd :
  f !! fd = None -> ready (Process i t fd h p (<[fd:=Conn n]> f) (S n) ts true) \/
    (exists b, t = Copy :: b) \/ (exists fl b, t = Create By_value fl :: b) ->
  apart (Process i (Accept :: t) v h p f n ts true) ->
  apart (Process i t fd h p (<[fd:=Conn n]> f) (S n) ts true).
Proof.
  intros Hfd Ht [Hk Hn Hb _]; cbn [heap fds threads accepted] in *.
  assert (pending (Process i t fd h p (<[fd:=Conn n]> f) (S n) ts true)) as Hp.
  { unfold pending; cbn [fds var accepted threads]. rewrite lookup_insert_eq, Nat.sub_succ, Nat.sub_0_r.
    split; [done|]. split; [lia|]. eapply Forall_impl; [exact Hb|]. cbn. lia. }
  split; cbn [heap fds threads accepted].
  - eapply Forall_keeps_fds; [exact Hk|]. intros t' fd' _ Hfd'. rewrite lookup_insert_ne by congruence. done.
  - done.
  - eapply Forall_impl; [exact Hb|]. cbn. lia.
  - destruct Ht as [Ht|[[b ->]|(fl & b & ->)]]; done.
Qed.

Lemma apart_copy i fl v h p f n ts l :
  h !! l = None -> apart (Process i [Copy; Create By_copy fl] v h p f n ts true) ->
  apart (Process i [Create By_copy fl] v (<[l:=v]> h) l f n ts true).
Proof.
  intros Hl [Hk Hn Hb Hr]; cbn [heap fds threads accepted] in *.
  assert (forall t l' x, does t = Starting (Cell l') -> h !! l' = Some x -> <[l:=v]> h !! l' = Some x) as Hh.
  { intros t l' x _ Hx. rewrite lookup_insert_ne by congruence. done. }
  split; cbn [heap fds threads accepted]; [|done..|].
  - eapply Forall_impl; [exact Hk|]. intros t Ht. by eapply keeps_mono; eauto.
  - split; [done|]. split; cbn [heap ptr var threads]; [apply lookup_insert_eq|].
    eapply Forall_impl; [exact Hk|]. intros t Ht Hd. unfold keeps in Ht. rewrite Hd in Ht.
    destruct Ht as (fd & Hx & _). congruence.
Qed.

(** The thread that was created has what it needs. *)
Lemma apart_create i p0 fl v h p f n ts (w := Process i [Create p0 fl] v h p f n ts true) :
  p0 <> By_address -> apart w ->
  apart (Process i [] v h p f n (ts ++ [Thread (n - 1) (Starting (argument_of p0 w))]) true).
Proof.
  intros Hp0 [Hk Hn Hb Hr]. subst w. cbn [heap fds threads accepted] in *.
  assert (pending (Process i [Create p0 fl] v h p f n ts true)) as (Hv & Hpos & Hnew) by (destruct p0; [done|apply Hr..]).
  cbn [fds var accepted threads] in *.
  split; cbn [heap fds threads accepted]; [| | |done].
  - apply Forall_app. split; [done|]. apply Forall_singleton. unfold keeps, holds, argument_of.
    cbn [does meant_for ptr var]. destruct p0; [done| |done]. destruct Hr as [_ [Hc _]]. by exists v.
  - rewrite fmap_app. apply NoDup_app. split; [done|]. split; [|apply NoDup_singleton].
    intros c Hc Hc'. apply list_elem_of_singleton in Hc'. cbn in Hc'. subst c.
    apply list_elem_of_fmap in Hc as (t & Ht & Hin). rewrite Forall_forall in Hnew. by apply (Hnew t).
  - apply Forall_app. split; [done|]. apply Forall_singleton. cbn. lia.
Qed.

(** Without a thread the connection is closed, and its copy freed. *)
Lemma apart_close i td v h p f n ts :
  pending (Process i td v h p f n ts true) -> Forall (keeps h f) ts -> Forall (keeps h (delete v f)) ts.
Proof.
  intros (Hv & _ & Hnew) Hk. eapply Forall_keeps_fds; [exact Hk|]. intros t fd Ht Hfd.
  rewrite lookup_delete_ne; [done|]. intros ->. cbn in Hv, Hnew. rewrite Forall_forall in Hnew.
  apply (Hnew t Ht). congruence.
Qed.

Lemma apart_free h f p ts :
  Forall (fun t => does t <> Starting (Cell p)) ts -> Forall (keeps h f) ts -> Forall (keeps (delete p h) f) ts.
Proof.
  intros Hp Hk. rewrite Forall_forall in *. intros t Ht. eapply keeps_mono; [by apply Hk| |done].
  intros l x Hd Hx. rewrite lookup_delete_ne; [done|]. intros ->. by apply (Hp t).
Qed.

(** The bodies of the two loops. *)
Definition by_descriptor (body : list stmt) : Prop := body = handle_ss \/ body = listen_to_client.

Lemma apart_exec body k s t a w w' :
  by_descriptor body -> drop k body = s :: t -> todo w = s :: t -> running w = true -> apart w ->
  exec s a t w = Some w' -> running w' = true -> apart w' /\ exists k', todo w' = drop k' body.
Proof.
  intros Hb Hk Htd Hrun Ha He Hrun'. destruct w as [i td v h p f n ts r]. cbn in Htd, Hrun. subst td r.
  assert (exists k', t = drop k' body) as Hrest.
  { exists (S k). change (S k) with (1 + k)%nat. rewrite Nat.add_comm, <- drop_drop, Hk. done. }
  assert (exists k', @nil stmt = drop k' body) as Hnil by (exists 3%nat; by destruct Hb as [-> | ->]).
  destruct Hb as [-> | ->]; (destruct k as [|[|[|k]]]; cbn in Hk; [injection Hk as <- <-..|by rewrite drop_nil in Hk]);
    destruct a; cbn in He; try done; try case_decide; simplify_eq; cbn in Hrun'; try done.
  - split; [|done]. split; apply Ha || done.
  - split; [|done]. apply (apart_accept _ _ v); [naive_solver|naive_solver|done].
  - split; [|done]. by apply (apart_copy i [Close_socket; Free_copy] v h p).
  - split; [|done]. destruct Ha as [Hk Hn Hbl [Hp [_ Hc]]]. cbn [heap fds threads accepted ptr] in *.
    split; cbn [heap fds threads accepted]; [|done..]. apply apart_free; [done|].
    by apply (apart_close _ _ _ _ _ _ _ _ Hp).
  - split; [|done]. by apply (apart_create i By_copy [Close_socket; Free_copy]).
  - split; [|done]. split; apply Ha || done.
  - split; [|done]. split; apply Ha || done.
  - split; [|done]. apply (apart_accept _ _ v); [naive_solver|naive_solver|done].
  - split; [|done]. destruct Ha as [Hk Hn Hbl Hp]. cbn [heap fds threads accepted ptr] in *.
    split; cbn [heap fds threads accepted]; [|done..].
    by apply (apart_close _ _ _ _ _ _ _ _ Hp).
  - split; [|done]. by apply (apart_create i By_value [Close_socket]).
Qed.

Lemma fmap_meant k c s s' (ts : list thread) :
  ts !! k = Some (Thread c s) -> meant_for <$> (<[k:=Thread c s']> ts) = meant_for <$> ts.
Proof. intros Hk. rewrite list_fmap_insert. apply list_insert_id. by rewrite list_lookup_fmap, Hk. Qed.

Lemma Forall_meant (P : nat -> Prop) ts ts' :
  meant_for <$> ts' = meant_for <$> ts -> Forall (fun t => P (meant_for t)) ts -> Forall (fun t => P (meant_for t)) ts'.
Proof.
  intros Hm H. rewrite Forall_forall in *. intros t Ht.
  assert (meant_for t ∈ meant_for <$> ts) as Hin by (rewrite <- Hm; apply list_elem_of_fmap; by exists t).
  apply list_elem_of_fmap in Hin as (t' & -> & Ht'). by apply H.
Qed.

(** A turn that is not the loop's changes the threads' states and the
    descriptors they own, or files that are no connections. *)
Lemma apart_update i td v h p f n ts f' ts' :
  apart (Process i td v h p f n ts true) ->
  meant_for <$> ts' = meant_for <$> ts -> Forall (keeps h f') ts' ->
  (forall t l, t ∈ ts' -> does t = Starting (Cell l) -> exists t', t' ∈ ts /\ does t' = does t) ->
  (forall fd c, f !! fd = Some (Conn c) -> Forall (fun t => meant_for t <> c) ts -> f' !! fd = Some (Conn c)) ->
  apart (Process i td v h p f' n ts' true).
Proof.
  intros [Hk Hn Hb Hr] Hm Hk' Hc Hf. cbn [heap fds threads accepted] in *.
  split; cbn [heap fds threads accepted]; [done|by rewrite Hm|by apply (Forall_meant (fun c => c < n)%nat ts)|].
  assert (pending (Process i td v h p f n ts true) -> pending (Process i td v h p f' n ts' true)) as Hpend.
  { intros (H1 & H2 & H3). cbn in *. split; [by apply Hf|]. split; [done|].
    by apply (Forall_meant (fun c => c <> n - 1)%nat ts). }
  assert (copied (Process i td v h p f n ts true) -> copied (Process i td v h p f' n ts' true)) as Hcop.
  { intros [H1 H2]. cbn in *. split; [done|]. cbn. rewrite Forall_forall in *.
    intros t Ht Hd. destruct (Hc t p Ht Hd) as (t' & Ht' & Hd'). apply (H2 t' Ht'). congruence. }
  unfold ready in *. cbn [todo] in *. destruct td as [|[| | |[] fl] ?]; naive_solver.
Qed.

Lemma apart_reads i td v h p f n ts j c a fd :
  apart (Process i td v h p f n ts true) -> ts !! j = Some (Thread c (Starting a)) -> f !! fd = Some (Conn c) ->
  apart (Process i td v h p f n (<[j:=Thread c (Serving fd)]> ts) true).
Proof.
  intros Ha Hj Hfd. eapply apart_update; [exact Ha|by eapply fmap_meant| | |done].
  - apply Forall_insert; [apply Ha|exact Hfd].
  - intros t l Ht Hl. apply list_elem_of_lookup in Ht as [x Hx].
    apply list_lookup_insert_Some in Hx as [(-> & <- & _)|[_ Hx]]; [done|].
    exists t. split; [by eapply list_elem_of_lookup_2|done].
Qed.

Lemma apart_closes i td v h p f n ts j c fd :
  apart (Process i td v h p f n ts true) -> ts !! j = Some (Thread c (Serving fd)) -> f !! fd = Some (Conn c) ->
  apart (Process i td v h p (delete fd f) n (<[j:=Thread c Ended]> ts) true).
Proof.
  intros Ha Hj Hfd.
  assert (forall fd' c', f !! fd' = Some (Conn c') -> c' <> c -> delete fd f !! fd' = Some (Conn c')) as Hdel
    by (intros fd' c' Hfd' Hne; rewrite lookup_delete_ne by congruence; done).
  eapply apart_update; [exact Ha|by eapply fmap_meant| | |].
  - apply Forall_forall. intros t Hin. apply list_elem_of_lookup in Hin as [x Hx].
    apply list_lookup_insert_Some in Hx as [(-> & <- & _)|[Hne Hx]]; [done|].
    eapply keeps_mono; [exact (Forall_lookup_1 _ _ _ _ (apart_keeps _ Ha) Hx)|done|].
    intros fd' Hfd'. apply Hdel; [done|]. intros Hm. apply Hne.
    apply (NoDup_lookup _ j x c (apart_nodup _ Ha)); cbn [threads]; rewrite list_lookup_fmap;
      [by rewrite Hj|by rewrite Hx, <- Hm].
  - intros t l Ht Hl. apply list_elem_of_lookup in Ht as [x Hx].
    apply list_lookup_insert_Some in Hx as [(-> & <- & _)|[_ Hx]]; [done|].
    exists t. split; [by eapply list_elem_of_lookup_2|done].
  - intros fd' c' Hfd' Hne. apply Hdel; [done|]. intros ->. exact (Forall_lookup_1 _ _ _ _ Hne Hj eq_refl).
Qed.

Lemma apart_files i td v h p f n ts f' :
  apart (Process i td v h p f n ts true) -> (forall fd c, f !! fd = Some (Conn c) -> f' !! fd = Some (Conn c)) ->
  apart (Process i td v h p f' n ts true).
Proof.
  intros Ha Hf. eapply apart_update; [exact Ha|done| | |].
  - eapply Forall_keeps_fds; [apply Ha|]. auto.
  - eauto.
  - auto.
Qed.

Section descriptor_loops.
Variable after_scope : Z -> cres Z.
Implicit Types w : process.

Lemma running_turn body m w w' : loop_turn after_scope body m w = Some w' -> running w = true.
Proof. unfold loop_turn. by destruct (running w). Qed.

Lemma fetch_held w a c :
  holds (heap w) (fds w) a c -> exists fd, read_argument after_scope w a = Val fd /\ fds w !! fd = Some (Conn c).
Proof.
  destruct a as [|l|fd]; [done| |by exists fd]. intros (fd & Hl & Hfd). exists fd. cbn. by rewrite Hl.
Qed.

Lemma apart_turn body k m w w' :
  by_descriptor body -> todo w = drop k body -> apart w -> loop_turn after_scope body m w = Some w' ->
  running w' = true -> apart w' /\ exists k', todo w' = drop k' body.
Proof.
  intros Hb Htd Ha Ht Hrun'. pose proof (running_turn _ _ _ _ Ht) as Hrun.
  assert (forall j t, threads w !! j = Some t -> keeps (heap w) (fds w) t) as Hkeep
    by (intros j t Hj; exact (Forall_lookup_1 _ _ _ _ (apart_keeps _ Ha) Hj)).
  unfold loop_turn in Ht. rewrite Hrun in Ht. destruct m as [a|j|j|fd|fd].
  - destruct (todo w) as [|s t] eqn:Hw; [|by eapply (apart_exec body k s t a w w')].
    injection Ht as <-. destruct w as [i td v h p f n ts r]. cbn in *. split; [|by exists 0%nat].
    destruct Ha as [Hk Hn Hbl _]. split; [done..|]. by destruct Hb as [-> | ->].
  - destruct (threads w !! j) as [[c [arg| | |]]|] eqn:Hj; try done. injection Ht as <-.
    destruct (fetch_held w arg c (Hkeep _ _ Hj)) as (fd & -> & Hfd).
    destruct w as [i td v h p f n ts r]. cbn in *. subst r. split; [|by exists k]. by eapply apart_reads.
  - destruct (threads w !! j) as [[c [|fd| |]]|] eqn:Hj; try done. injection Ht as <-.
    pose proof (Hkeep _ _ Hj) as Hfd. unfold keeps in Hfd. cbn in Hfd.
    destruct w as [i td v h p f n ts r]. cbn in *. subst r. split; [|by exists k]. by apply apart_closes.
  - case_decide as Hfd; [|done]. injection Ht as <-. destruct w as [i td v h p f n ts r]. cbn in *. subst r.
    split; [|by exists k]. eapply apart_files; [exact Ha|]. intros fd' c' Hfd'.
    rewrite lookup_insert_ne; [done|]. naive_solver.
  - case_decide as Hfd; [|done]. injection Ht as <-. destruct w as [i td v h p f n ts r]. cbn in *. subst r.
    split; [|by exists k]. eapply apart_files; [exact Ha|]. intros fd' c' Hfd'.
    rewrite lookup_delete_ne; [done|]. naive_solver.
Qed.

Lemma apart_run body k ms w w' :
  by_descriptor body -> todo w = drop k body -> apart w -> run_loop after_scope body ms w = Some w' ->
  running w' = true -> apart w'.
Proof.
  intros Hb. revert k w; induction ms as [|m ms IH]; intros k w Htd Ha Hr Hrun'; cbn in Hr; [congruence|].
  apply bind_Some in Hr as (w1 & H1 & Hr).
  assert (running w1 = true) as Hrun1.
  { destruct ms as [|m' ms]; [by injection Hr as ->|]. cbn in Hr. apply bind_Some in Hr as (w2 & H2 & _).
    by eapply running_turn. }
  destruct (apart_turn body k m w w1) as [Ha1 [k1 Htd1]]; try done. by eapply IH.
Qed.

Lemma apart_started open : apart (started open).
Proof. split; cbn; [constructor|constructor|constructor|done]. Qed.
End descriptor_loops.

(** ** Loops that hand out the address *)

Definition by_address (body : list stmt) : Prop :=
  body = handling_client \/ body = accept_async \/ body = async_setup.

(** Nobody can reach descriptor [fd]: not through the loop's variable, and no
    thread has it. *)
Definition unaware (fd : Z) (t : thread) : Prop :=
  match does t with Starting (Variable_of _) | Ended | Lost => True | Starting _ => False | Serving fd' => fd' <> fd end.

Definition forsaken (fd : Z) (c : nat) (w : process) : Prop :=
  fds w !! fd = Some (Conn c) /\ (forall fd', fds w !! fd' = Some (Conn c) -> fd' = fd) /\
  (c < accepted w)%nat /\ 0 <= fd /\ var w <> fd /\ Forall (unaware fd) (threads w).

Lemma forsaken_unserved fd c k w : forsaken fd c w -> ~ serves w k c.
Proof.
  intros (_ & Hu & _ & _ & _ & Ht) (c' & fd' & Hk & Hfd'). rewrite (Hu _ Hfd') in Hk.
  by apply (Forall_lookup_1 _ _ _ _ Ht Hk).
Qed.

Lemma forsaken_exec fd c body k s t a w w' :
  by_address body -> drop k body = s :: t -> forsaken fd c w -> exec s a t w = Some w' ->
  forsaken fd c w' /\ exists k', todo w' = drop k' body.
Proof.
  intros Hb Hk (H1 & H2 & H3 & H4 & H5 & H6) He. destruct w as [i td v h p f n ts r]. cbn in *.
  assert (exists k', @nil stmt = drop k' body) as Hnil by (exists 2%nat; by destruct Hb as [-> | [-> | ->]]).
  assert (exists k', t = drop k' body) as Hrest.
  { exists (S k). change (S k) with (1 + k)%nat. rewrite Nat.add_comm, <- drop_drop, Hk. done. }
  assert (s = Accept \/ exists fl, s = Create By_address fl /\ (fl = [] \/ fl = [Close_socket])) as Hs.
  { destruct Hb as [-> | [-> | ->]]; (destruct k as [|[|k]]; cbn in Hk; [injection Hk as <- _; eauto..|by rewrite drop_nil in Hk]). }
  destruct Hs as [->|(fl & -> & Hfl)]; destruct a as [| |fd2|l]; cbn in He; try done.
  - injection He as <-. split; [|done]. repeat split; cbn; try done. lia.
  - case_decide as Hd; [|done]. injection He as <-. split; [|done].
    assert (fd2 <> fd) as Hne by naive_solver.
    repeat split; cbn; [by rewrite lookup_insert_ne| |lia|done..].
    intros fd' Hfd'. destruct (decide (fd' = fd2)) as [->|]; [rewrite lookup_insert_eq in Hfd'; injection Hfd'; lia|].
    rewrite lookup_insert_ne in Hfd' by done. auto.
  - injection He as <-. destruct Hfl as [-> | ->]; (split; [|done]); repeat split; cbn; try done.
    + by rewrite lookup_delete_ne.
    + intros fd' [_ Hfd']%lookup_delete_Some. auto.
  - injection He as <-. split; [|done]. repeat split; cbn; try done. apply Forall_app. split; [done|].
    by apply Forall_singleton.
Qed.

Lemma forsaken_turn fd c body k m w w' :
  by_address body -> todo w = drop k body -> forsaken fd c w -> loop_turn Val body m w = Some w' ->
  forsaken fd c w' /\ exists k', todo w' = drop k' body.
Proof.
  intros Hb Htd Hf Ht. unfold loop_turn in Ht. destruct (running w); [|done]. destruct m as [a|j|j|fd2|fd2].
  - destruct (todo w) as [|s t] eqn:Hw; [|by eapply (forsaken_exec fd c body k s t a w w')].
    injection Ht as <-. destruct w. split; [exact Hf|by exists 0%nat].
  - destruct Hf as (H1 & H2 & H3 & H4 & H5 & H6).
    destruct (threads w !! j) as [[c' [arg| | |]]|] eqn:Hj; try done. injection Ht as <-.
    pose proof (Forall_lookup_1 _ _ _ _ H6 Hj) as Hu. destruct arg as [i'| |]; try done.
    destruct w as [i td v h p f n ts r]. cbn in *. split; [|by exists k]. repeat split; cbn; try done.
    apply Forall_insert; [done|]. by case_bool_decide.
  - destruct Hf as (H1 & H2 & H3 & H4 & H5 & H6).
    destruct (threads w !! j) as [[c' [|fd2| |]]|] eqn:Hj; try done. injection Ht as <-.
    pose proof (Forall_lookup_1 _ _ _ _ H6 Hj) as Hu. unfold unaware in Hu. cbn in Hu.
    destruct w as [i td v h p f n ts r]. cbn in *. split; [|by exists k]. repeat split; cbn; try done.
    + by rewrite lookup_delete_ne.
    + intros fd' [_ Hfd']%lookup_delete_Some. auto.
    + by apply Forall_insert.
  - case_decide as Hd; [|done]. injection Ht as <-. destruct Hf as (H1 & H2 & H3 & H4 & H5 & H6).
    destruct w as [i td v h p f n ts r]. cbn in *. split; [|by exists k]. repeat split; cbn; try done.
    + rewrite lookup_insert_ne; [done|naive_solver].
    + intros fd' [[? ?]|[_ Hfd']]%lookup_insert_Some; [done|auto].
  - case_decide as Hd; [|done]. injection Ht as <-. destruct Hf as (H1 & H2 & H3 & H4 & H5 & H6).
    destruct w as [i td v h p f n ts r]. cbn in *. split; [|by exists k]. repeat split; cbn; try done.
    + rewrite lookup_delete_ne; [done|naive_solver].
    + intros fd' [_ Hfd']%lookup_delete_Some. auto.
Qed.

Lemma forsaken_run fd c body k ms w w' :
  by_address body -> todo w = drop k body -> forsaken fd c w -> run_loop Val body ms w = Some w' -> forsaken fd c w'.
Proof.
  intros Hb. revert k w; induction ms as [|m ms IH]; intros k w Htd Hf Hr; cbn in Hr; [congruence|].
  apply bind_Some in Hr as (w1 & H1 & Hr).
  destruct (forsaken_turn fd c body k m w w1) as [Hf1 [k1 Htd1]]; try done. by eapply IH.
Qed.

(** Two clients connect before the first thread runs. *)
Definition two_clients : list move :=
  [Loop Works; Loop (Gives 4); Loop Works; Loop Works; Loop (Gives 5); Loop Works; Reads 0; Reads 1].

(** After the first client, [accept] fails before the thread runs. *)
Definition then_failure : list move :=
  [Loop Works; Loop (Gives 4); Loop Works; Loop Works; Loop Fails; Reads 0].

(** The next iteration has begun before the thread runs. *)
Definition late_thread : list move := [Loop Works; Loop (Gives 4); Loop Works; Loop Works; Reads 0].

Lemma two_clients_forsaken body :
  by_address body -> exists w, run_loop Val body two_clients (started ∅) = Some w /\
    meant_for <$> threads w = [0; 1]%nat /\ serves w 0 1 /\ serves w 1 1 /\ todo w = drop 2 body /\ forsaken 4 0 w.
Proof.
  intros Hb. eexists. split; [by destruct Hb as [-> | [-> | ->]]|]. split; [done|].
  split; [by exists 0%nat, 5|]. split; [by exists 1%nat, 5|]. split; [by destruct Hb as [-> | [-> | ->]]|].
  repeat split; try done.
  - intros fd'. cbn. rewrite !lookup_insert_Some. intros [[_ ?]|[_ [[? _]|[_ H]]]]; [done|done|].
    by rewrite gset_to_gmap_empty in H.
  - cbn. lia.
  - by repeat constructor.
Qed.

(** ** Properties *)

