(* ===== verification/Trie.v ===== *)
(** * The path trie of the naming server (tries.c, tries.h)

    A node holds a fixed array of [MAX_FOLDERS] child pointers, the flag
    [isLeaf] and its name.  Nodes are never shared, so a trie is a tree and
    an update in place is a function from the tree to the new tree.  A node
    that no pointer reaches any more (freed or leaked) disappears from it. *)
From S2P Require Export IO.

(** ** Data *)

Definition MAX_FOLDERS : nat := 256.
Definition MAX_PATH : nat := 256.

#[warnings="-register-all"]
Inductive trienode := Node {
  childeren : list (option trienode);
  isLeaf : bool;
  data : bytes
}.

Definition CreateNode (data : bytes) : trienode :=
  Node (replicate MAX_FOLDERS None) true data.

(** ** Paths *)

(** [ParsePath] fills [path_arr], an array of [MAX_PATH] pointers of the
    caller, with the components that are not ["~"], and then writes the
    terminating [NULL]: that must still fit. *)
Definition ParsePath (path : bytes) : cres (list bytes) :=
  let path_arr := filter (fun t : bytes => t <> lit "~") (tokens "/"%char path) in
  _ ← within (bool_decide (length path_arr < MAX_PATH));
  mret path_arr.

(** ** Walking down *)

(** The inner loop over [childeren[j]]: the first child with that name. *)
Fixpoint find_child (cs : list (option trienode)) (name : bytes)
    : option (nat * trienode) :=
  match cs with
  | [] => None
  | Some c :: cs' =>
      if strcmp_eq (data c) name then Some (0, c)
      else match find_child cs' name with
           | Some (j, c') => Some (S j, c')
           | None => None
           end
  | None :: cs' =>
      match find_child cs' name with
      | Some (j, c') => Some (S j, c')
      | None => None
      end
  end.

(** The inner loop that looks for a null entry. *)
Fixpoint free_slot (cs : list (option trienode)) : option nat :=
  match cs with
  | [] => None
  | None :: _ => Some 0
  | Some _ :: cs' => S <$> free_slot cs'
  end.

Definition set_child (n : trienode) (j : nat) (c : option trienode) : trienode :=
  Node (<[j:=c]> (childeren n)) (isLeaf n) (data n).

(** The outer loop of [AddPathToTrie] from node [curr]: follow the component
    when a child has its name; otherwise create a node, hang it into the first
    null entry, and go on from the new node.  With no null entry the new node
    and all below it stay unreachable. *)
Fixpoint add_path (path_arr : list bytes) (curr : trienode) : trienode :=
  match path_arr with
  | [] => curr
  | p :: rest =>
      match find_child (childeren curr) p with
      | Some (j, c) => set_child curr j (Some (add_path rest c))
      | None =>
          let new_node := add_path rest (CreateNode p) in
          match free_slot (childeren curr) with
          | Some j => Node (<[j:=Some new_node]> (childeren curr)) false (data curr)
          | None => curr
          end
      end
  end.

Definition AddPathToTrie (path : bytes) (root : trienode) : cres trienode :=
  path_arr ← ParsePath path;
  mret (add_path path_arr root).

(** [SearchPathHelperTries]: returns 1 or 0. *)
Fixpoint SearchPathHelperTries (curr : trienode) (path_arr : list bytes) : bool :=
  match path_arr with
  | [] => true
  | p :: rest =>
      match find_child (childeren curr) p with
      | Some (_, c) => SearchPathHelperTries c rest
      | None => false
      end
  end.

Definition SearchPath (root : trienode) (path : bytes) : cres Z :=
  path_arr ← ParsePath path;
  mret (if SearchPathHelperTries root path_arr then 1%Z else (-1)%Z).

(** The walk of [DeletePath]: when the inner loop finds the component,
    [prev], [prev_child_index] and [curr] move; otherwise they stay.  The
    result is the trie with [prev->childeren[prev_child_index]] cleared, or
    [None] when [prev] was still null at the end. *)
Fixpoint delete_walk (path_arr : list bytes) (curr : trienode) : option trienode :=
  match path_arr with
  | [] => None
  | p :: rest =>
      match find_child (childeren curr) p with
      | Some (j, c) => Some (set_child curr j (delete_walk rest c))
      | None => delete_walk rest curr
      end
  end.

Definition DeletePath (path : bytes) (root : trienode) : cres trienode :=
  path_arr ← ParsePath path;
  r ← SearchPath root path;
  if (r =? -1)%Z then mret root
  else nonnull (delete_walk path_arr root).

(** ** Well-formed tries *)

(** What [ParsePath] yields: non-empty, without ['/'], and not ["~"]. *)
Definition component (p : bytes) : Prop := word "/"%char p /\ p <> lit "~".

#[export] Instance component_dec p : Decision (component p).
Proof. apply and_dec; apply _. Defined.

(** The type invariant: arrays of the declared length, no two children of a
    node with the same name, and leaves without children. *)
Inductive wf_trie : trienode -> Prop :=
  | wf_node cs leaf name :
      length cs = MAX_FOLDERS ->
      (forall i j c d, cs !! i = Some (Some c) -> cs !! j = Some (Some d) ->
         data c = data d -> i = j) ->
      (leaf = true -> forall i c, cs !! i <> Some (Some c)) ->
      (forall i c, cs !! i = Some (Some c) -> component (data c)) ->
      (forall i c, cs !! i = Some (Some c) -> wf_trie c) ->
      wf_trie (Node cs leaf name).

(** Every node on the way to [path_arr] that must get a new child has a null
    entry left. *)
Fixpoint has_room (path_arr : list bytes) (curr : trienode) : bool :=
  match path_arr with
  | [] => true
  | p :: rest =>
      match find_child (childeren curr) p with
      | Some (_, c) => has_room rest c
      | None => bool_decide (free_slot (childeren curr) <> None)
      end
  end.

(** Induction over tries: the hypothesis for every child. *)
Lemma trie_ind (P : trienode -> Prop) :
  (forall cs leaf name,
     (forall i c, cs !! i = Some (Some c) -> P c) -> P (Node cs leaf name)) ->
  forall n, P n.
Proof.
  intros H. fix IH 1. intros [cs leaf name]. apply H.
  induction cs as [|[c|] cs IHcs]; intros [|i] d Hi; simpl in Hi; try discriminate.
  - injection Hi as <-. apply IH.
  - by eapply IHcs.
  - by eapply IHcs.
Qed.

(** ** The loops over one array *)

Lemma find_child_Some cs p j c :
  find_child cs p = Some (j, c) -> cs !! j = Some (Some c) /\ data c = p.
Proof.
  revert j; induction cs as [|[d|] cs IH]; intros j; simpl; [done| |].
  - destruct (strcmp_eq (data d) p) eqn:Hd.
    + intros [= <- <-]. split; [done|]. by apply strcmp_eq_true.
    + destruct (find_child cs p) as [[k e]|]; [|done]. intros [= <- <-].
      by apply IH.
  - destruct (find_child cs p) as [[k e]|]; [|done]. intros [= <- <-].
    by apply IH.
Qed.

Lemma find_child_None cs p :
  find_child cs p = None <-> (forall i c, cs !! i = Some (Some c) -> data c <> p).
Proof.
  induction cs as [|[d|] cs IH]; simpl.
  - split; [intros _ i c Hi; by rewrite lookup_nil in Hi | done].
  - destruct (strcmp_eq (data d) p) eqn:Hd.
    + apply strcmp_eq_true in Hd. split; [done|]. intros H. exfalso. by apply (H 0 d).
    + destruct (find_child cs p) as [[k e]|].
      * split; [done|]. intros H. assert (Some (k, e) = None) as He; [|done].
        apply IH. intros i c Hi. by apply (H (S i)).
      * split; [|done]. intros _ [|i] c Hi; simplify_eq/=.
        -- intros <-. by rewrite strcmp_eq_refl in Hd.
        -- by eapply IH.
  - destruct (find_child cs p) as [[k e]|].
    + split; [done|]. intros H. assert (Some (k, e) = None) as He; [|done].
      apply IH. intros i c Hi. by apply (H (S i)).
    + split; [|done]. intros _ [|i] c Hi; simplify_eq/=. by eapply IH.
Qed.

(** The two facts about sibling names of the invariant, for one array. *)
Definition names_unique (cs : list (option trienode)) : Prop :=
  forall i j c d, cs !! i = Some (Some c) -> cs !! j = Some (Some d) ->
    data c = data d -> i = j.

(** With unique names the first match is the only one. *)
Lemma find_child_unique cs p j c :
  names_unique cs ->
  (find_child cs p = Some (j, c) <-> cs !! j = Some (Some c) /\ data c = p).
Proof.
  intros Hu. split; [apply find_child_Some|]. intros [Hj Hp].
  destruct (find_child cs p) as [[k d]|] eqn:Hf.
  - apply find_child_Some in Hf as [Hk Hd].
    assert (k = j) as -> by (eapply Hu; eauto; congruence). congruence.
  - exfalso. by eapply find_child_None.
Qed.

Lemma free_slot_Some cs j : free_slot cs = Some j -> cs !! j = Some None.
Proof.
  revert j; induction cs as [|[c|] cs IH]; intros j; simpl; [done| |by intros [= <-]].
  destruct (free_slot cs) as [k|] eqn:?; [|done]. intros [= <-]. by apply IH.
Qed.

Lemma free_slot_None cs :
  free_slot cs = None <-> (forall i, cs !! i <> Some None).
Proof.
  induction cs as [|[c|] cs IH]; simpl.
  - by split; [intros _ i|].
  - destruct (free_slot cs).
    + split; [done|]. intros H. assert (Some n = None); [|done].
      apply IH. intros i. apply (H (S i)).
    + split; [|done]. intros _ [|i]; [done|]. simpl. by apply IH.
  - split; [done|]. intros H. by specialize (H 0).
Qed.

(** ** One array update and the search in that array *)

Definition has_name (o : option trienode) (q : bytes) : bool :=
  match o with Some c => strcmp_eq (data c) q | None => false end.

Lemma find_child_insert cs j o o' q :
  cs !! j = Some o -> names_unique cs -> names_unique (<[j:=o']> cs) ->
  find_child (<[j:=o']> cs) q =
    if has_name o' q then (fun c => (j, c)) <$> o'
    else if has_name o q then None
    else find_child cs q.
Proof.
  intros Hj Hu Hu'. pose proof (lookup_lt_Some _ _ _ Hj) as Hlt.
  apply option_eq. intros [k d]. rewrite find_child_unique by done.
  destruct (has_name o' q) eqn:Ho'.
  - destruct o' as [c'|]; [|done]. apply strcmp_eq_true in Ho'. simpl. split.
    + intros [Hk Hd]. f_equal.
      assert (k = j) as -> by (eapply Hu'; [done|by apply list_lookup_insert_eq|congruence]).
      rewrite list_lookup_insert_eq in Hk by done. congruence.
    + intros [= <- <-]. by rewrite list_lookup_insert_eq.
  - destruct (has_name o q) eqn:Ho.
    + split; [|done]. intros [Hk Hd]. exfalso.
      destruct o as [c|]; [|done]. apply strcmp_eq_true in Ho.
      destruct (decide (k = j)) as [->|].
      * rewrite list_lookup_insert_eq in Hk by done. injection Hk as ->.
        simpl in Ho'. by rewrite Hd, strcmp_eq_refl in Ho'.
      * rewrite list_lookup_insert_ne in Hk by done.
        assert (k = j); [|done]. eapply Hu; eauto. congruence.
    + rewrite find_child_unique by done.
      destruct (decide (k = j)) as [->|].
      * rewrite list_lookup_insert_eq, Hj by done.
        split; intros [[= ->] <-]; simpl in *; by rewrite strcmp_eq_refl in *.
      * by rewrite list_lookup_insert_ne.
Qed.

Lemma names_unique_replace cs j o c' :
  names_unique cs -> cs !! j = Some o ->
  (has_name o (data c') = true \/ find_child cs (data c') = None) ->
  names_unique (<[j:=Some c']> cs).
Proof.
  intros Hu Hj Hc i k a b Hi Hk Hab.
  pose proof (lookup_lt_Some _ _ _ Hj) as Hlt.
  assert (forall m d, m <> j -> cs !! m = Some (Some d) -> data d <> data c') as Hno.
  { intros m d Hm Hd Heq. destruct Hc as [Hc|Hc].
    - destruct o as [e|]; [|done]. apply strcmp_eq_true in Hc.
      apply Hm. eapply Hu; eauto. congruence.
    - by eapply find_child_None. }
  destruct (decide (i = j)) as [->|]; destruct (decide (k = j)) as [->|]; try done.
  - rewrite list_lookup_insert_eq in Hi by done.
    rewrite list_lookup_insert_ne in Hk by done. simplify_eq. by destruct (Hno k b).
  - rewrite list_lookup_insert_eq in Hk by done.
    rewrite list_lookup_insert_ne in Hi by done. simplify_eq. by destruct (Hno i a).
  - rewrite list_lookup_insert_ne in Hi by done.
    rewrite list_lookup_insert_ne in Hk by done. by eapply Hu.
Qed.

Lemma names_unique_clear cs j : names_unique cs -> names_unique (<[j:=None]> cs).
Proof.
  intros Hu i k a b Hi Hk Hab.
  apply list_lookup_insert_Some in Hi as [(_ & ? & _)|[_ Hi]]; [done|].
  apply list_lookup_insert_Some in Hk as [(_ & ? & _)|[_ Hk]]; [done|].
  by eapply Hu.
Qed.

(** ** Preservation of the invariant *)

Lemma wf_trie_unfold n :
  wf_trie n <->
    length (childeren n) = MAX_FOLDERS /\ names_unique (childeren n) /\
    (isLeaf n = true -> forall i c, childeren n !! i <> Some (Some c)) /\
    (forall i c, childeren n !! i = Some (Some c) -> component (data c) /\ wf_trie c).
Proof.
  destruct n as [cs leaf name]; simpl. split.
  - inversion 1; subst. split; [done|]. split; [done|]. split; [done|].
    intros i c Hi. eauto.
  - intros (? & ? & ? & Hc). constructor; eauto; intros i c Hi; by apply (Hc i c).
Qed.

Lemma wf_trie_names n : wf_trie n -> names_unique (childeren n).
Proof. intros H. apply wf_trie_unfold in H as (_ & H & _). exact H. Qed.

Lemma wf_trie_child n j c :
  wf_trie n -> childeren n !! j = Some (Some c) -> wf_trie c.
Proof. intros H Hj. apply wf_trie_unfold in H as (_ & _ & _ & H). by eapply H. Qed.

Lemma lookup_CreateNode p i c : childeren (CreateNode p) !! i <> Some (Some c).
Proof. intros H. by apply lookup_replicate in H as [? ?]. Qed.

Lemma wf_CreateNode p : wf_trie (CreateNode p).
Proof.
  apply wf_trie_unfold. split; [|split; [|split]].
  - apply length_replicate.
  - intros i j c d Hi. by apply lookup_CreateNode in Hi.
  - intros _ i c. apply lookup_CreateNode.
  - intros i c Hi. by apply lookup_CreateNode in Hi.
Qed.

(** Writing one entry of a well-formed node. *)
Lemma wf_trie_write n j o c' leaf :
  wf_trie n -> childeren n !! j = Some o ->
  (has_name o (data c') = true \/ find_child (childeren n) (data c') = None) ->
  component (data c') -> wf_trie c' -> leaf = false ->
  wf_trie (Node (<[j:=Some c']> (childeren n)) leaf (data n)).
Proof.
  intros Hn Hj Hc Hp Hc' ->. apply wf_trie_unfold in Hn as (Hl & Hu & _ & Hch).
  apply wf_trie_unfold; simpl. split; [by rewrite length_insert|].
  split; [by eapply names_unique_replace|]. split; [done|].
  intros i c Hi. apply list_lookup_insert_Some in Hi as [(_ & ? & _)|[_ Hi]].
  - by simplify_eq.
  - by eapply Hch.
Qed.

Lemma data_add_path p n : data (add_path p n) = data n.
Proof.
  destruct p as [|p rest]; simpl; [done|].
  destruct (find_child (childeren n) p) as [[j c]|]; [done|].
  by destruct (free_slot (childeren n)).
Qed.

Lemma isLeaf_child n j c : wf_trie n -> childeren n !! j = Some (Some c) -> isLeaf n = false.
Proof.
  intros H Hj. apply wf_trie_unfold in H as (_ & _ & H & _).
  destruct (isLeaf n); [|done]. by destruct (H eq_refl j c).
Qed.

Lemma wf_add_path p n : Forall component p -> wf_trie n -> wf_trie (add_path p n).
Proof.
  revert n; induction p as [|p rest IH]; simpl; intros n Hp Hn; [done|].
  apply Forall_cons in Hp as [Hp Hrest].
  destruct (find_child (childeren n) p) as [[j c]|] eqn:Hf.
  - apply find_child_Some in Hf as [Hj Hc]. unfold set_child.
    eapply wf_trie_write; eauto using wf_trie_child, isLeaf_child.
    + left; simpl. rewrite data_add_path. apply strcmp_eq_refl.
    + rewrite data_add_path. by subst.
  - destruct (free_slot (childeren n)) as [j|] eqn:Hj; [|done].
    eapply wf_trie_write; eauto using free_slot_Some, wf_CreateNode.
    + right. by rewrite data_add_path.
    + by rewrite data_add_path.
Qed.

Lemma data_delete_walk p n n' : delete_walk p n = Some n' -> data n' = data n.
Proof.
  revert n; induction p as [|p rest IH]; intros n; simpl; [done|].
  destruct (find_child (childeren n) p) as [[j c]|]; [by intros [= <-] | apply IH].
Qed.

Lemma wf_delete_walk p n n' : wf_trie n -> delete_walk p n = Some n' -> wf_trie n'.
Proof.
  revert n n'; induction p as [|p rest IH]; intros n n' Hn; simpl; [done|].
  destruct (find_child (childeren n) p) as [[j c]|] eqn:Hf; [|by apply IH].
  intros [= <-]. apply find_child_Some in Hf as [Hj Hc].
  pose proof (isLeaf_child _ _ _ Hn Hj) as Hleaf.
  destruct (delete_walk rest c) as [c'|] eqn:Hd.
  - pose proof (data_delete_walk _ _ _ Hd) as Hname.
    unfold set_child. eapply wf_trie_write; eauto using wf_trie_child.
    + left. simpl. rewrite Hname. apply strcmp_eq_refl.
    + rewrite Hname. apply wf_trie_unfold in Hn as (_ & _ & _ & Hn). by eapply Hn.
  - apply wf_trie_unfold in Hn as (Hl & Hu & _ & Hch).
    apply wf_trie_unfold; simpl. split; [by rewrite length_insert|].
    split; [by apply names_unique_clear|]. split; [by rewrite Hleaf|].
    intros i d Hi. apply list_lookup_insert_Some in Hi as [(_ & ? & _)|[_ Hi]]; [done|].
    by eapply Hch.
Qed.

(** ** What insertion and deletion do to the search *)

Definition prefixb (q p : list bytes) : bool := bool_decide (q `prefix_of` p).

Lemma prefixb_nil p : prefixb [] p = true.
Proof. apply bool_decide_eq_true, prefix_nil. Qed.

Lemma prefixb_cons_nil x q : prefixb (x :: q) [] = false.
Proof. apply bool_decide_eq_false. by intros ?%prefix_nil_inv. Qed.

Lemma prefixb_cons x q y p : prefixb (x :: q) (y :: p) = strcmp_eq x y && prefixb q p.
Proof.
  apply eq_true_iff_eq. unfold prefixb.
  rewrite andb_true_iff, !bool_decide_eq_true, strcmp_eq_true. split.
  - intros H. split; [by eapply prefix_cons_inv_1 | by eapply prefix_cons_inv_2].
  - intros [-> H]. by apply prefix_cons.
Qed.

Create Rewrite HintDb nfs_prefix.
#[export] Hint Rewrite prefixb_nil prefixb_cons_nil prefixb_cons : nfs_prefix.

Lemma find_child_CreateNode p q : find_child (childeren (CreateNode p)) q = None.
Proof. apply find_child_None. intros i c Hi. by apply lookup_CreateNode in Hi. Qed.

Lemma search_CreateNode p q :
  SearchPathHelperTries (CreateNode p) q = bool_decide (q = []).
Proof. by destruct q. Qed.

Lemma has_room_CreateNode rest p : has_room rest (CreateNode p) = true.
Proof. destruct rest as [|q rest]; [done|]. cbn [has_room]. by rewrite find_child_CreateNode. Qed.

(** The search in a node after its entry [j] was overwritten with a node of
    the name [p]. *)
Lemma search_written n j o c' x q leaf :
  wf_trie n -> childeren n !! j = Some o ->
  (has_name o (data c') = true \/ find_child (childeren n) (data c') = None) ->
  (has_name o x = true -> data c' = x) ->
  SearchPathHelperTries (Node (<[j:=Some c']> (childeren n)) leaf (data n)) (x :: q) =
    if strcmp_eq (data c') x then SearchPathHelperTries c' q
    else SearchPathHelperTries n (x :: q).
Proof.
  intros Hn Hj Hc Ho. cbn [SearchPathHelperTries childeren].
  rewrite (find_child_insert _ _ _ _ _ Hj)
    by eauto using wf_trie_names, names_unique_replace.
  cbn [has_name]. destruct (strcmp_eq (data c') x) eqn:Hx; [done|].
  destruct (has_name o x) eqn:Hox; [|done].
  rewrite Ho, strcmp_eq_refl in Hx by done. done.
Qed.

Lemma search_add_path p n q :
  wf_trie n -> Forall component p -> has_room p n = true ->
  SearchPathHelperTries (add_path p n) q = SearchPathHelperTries n q || prefixb q p.
Proof.
  revert n q; induction p as [|p rest IH]; intros n q Hn Hp Hroom.
  { destruct q; autorewrite with nfs_prefix; by rewrite ?orb_true_r, ?orb_false_r. }
  apply Forall_cons in Hp as [Hp Hrest].
  destruct q as [|x q]; [by autorewrite with nfs_prefix; rewrite orb_true_r|].
  cbn [add_path has_room] in *. rewrite prefixb_cons.
  destruct (find_child (childeren n) p) as [[j c]|] eqn:Hf.
  - apply find_child_Some in Hf as Hjc. destruct Hjc as [Hj Hc].
    unfold set_child. rewrite (search_written n j (Some c)); simpl; rewrite ?data_add_path;
      auto using strcmp_eq_refl; [|by rewrite strcmp_eq_true].
    rewrite Hc. destruct (strcmp_eq p x) eqn:Hx.
    + apply strcmp_eq_true in Hx as <-. rewrite Hf, strcmp_eq_refl.
      by rewrite IH by eauto using wf_trie_child.
    + replace (strcmp_eq x p) with false; [by rewrite orb_false_r|].
      symmetry. apply not_true_iff_false. rewrite strcmp_eq_true. intros ->.
      by rewrite strcmp_eq_refl in Hx.
  - destruct (free_slot (childeren n)) as [j|] eqn:Hj; [|done].
    rewrite (search_written n j None); auto using free_slot_Some.
    + rewrite data_add_path. cbn [data CreateNode].
      destruct (strcmp_eq p x) eqn:Hx.
      * apply strcmp_eq_true in Hx as <-. cbn [SearchPathHelperTries].
        rewrite Hf, strcmp_eq_refl. simpl.
        rewrite IH by auto using wf_CreateNode, has_room_CreateNode.
        rewrite search_CreateNode. destruct q; [|done]. by autorewrite with nfs_prefix.
      * replace (strcmp_eq x p) with false; [by rewrite orb_false_r|].
        symmetry. apply not_true_iff_false. rewrite strcmp_eq_true. intros ->.
        by rewrite strcmp_eq_refl in Hx.
    + rewrite data_add_path. by right.
    + done.
Qed.

(** With a full node on the way nothing changes at all. *)
Lemma add_path_full p n : has_room p n = false -> add_path p n = n.
Proof.
  revert n; induction p as [|p rest IH]; intros n; [done|]. cbn [add_path has_room].
  destruct (find_child (childeren n) p) as [[j c]|] eqn:Hf; intros Hroom.
  - rewrite IH by done. apply find_child_Some in Hf as [Hj _].
    destruct n; unfold set_child; simpl in *. by rewrite list_insert_id.
  - by destruct (free_slot (childeren n)).
Qed.

Lemma delete_walk_found p n :
  SearchPathHelperTries n p = true -> p <> [] -> exists n', delete_walk p n = Some n'.
Proof.
  destruct p as [|p rest]; [done|]. simpl.
  destruct (find_child (childeren n) p) as [[j c]|]; [eauto | done].
Qed.

Lemma search_delete_walk p n n' q :
  wf_trie n -> SearchPathHelperTries n p = true -> delete_walk p n = Some n' ->
  SearchPathHelperTries n' q = SearchPathHelperTries n q && negb (prefixb p q).
Proof.
  revert n n' q; induction p as [|p rest IH]; intros n n' q Hn Hs Hd; [done|].
  cbn [SearchPathHelperTries delete_walk] in Hs, Hd.
  destruct (find_child (childeren n) p) as [[j c]|] eqn:Hf; [|done].
  apply find_child_Some in Hf as Hjc. destruct Hjc as [Hj Hc]. injection Hd as <-.
  destruct q as [|x q]; [by rewrite prefixb_cons_nil|]. rewrite prefixb_cons.
  destruct (delete_walk rest c) as [c'|] eqn:Hd; unfold set_child.
  - pose proof (data_delete_walk _ _ _ Hd) as Hname.
    rewrite (search_written n j (Some c)); simpl; rewrite ?Hname;
      auto using strcmp_eq_refl; [|by rewrite strcmp_eq_true].
    rewrite Hc. destruct (strcmp_eq p x) eqn:Hx; simpl; [|by rewrite andb_true_r].
    apply strcmp_eq_true in Hx as <-. rewrite Hf.
    by rewrite (IH c c' q); eauto using wf_trie_child.
  - cbn [SearchPathHelperTries childeren].
    rewrite (find_child_insert _ _ _ _ _ Hj)
      by eauto using wf_trie_names, names_unique_clear.
    cbn [has_name]. rewrite Hc. destruct (strcmp_eq p x) eqn:Hx; simpl; [|by rewrite andb_true_r].
    destruct rest as [|y rest]; [by rewrite prefixb_nil, andb_false_r|].
    destruct (delete_walk_found (y :: rest) c Hs) as [? ?]; [done|congruence].
Qed.

(** ** Entry points in terms of parsed paths *)

Lemma ParsePath_Val path arr :
  ParsePath path = Val arr <->
    arr = filter (fun t : bytes => t <> lit "~") (tokens "/"%char path) /\ length arr < MAX_PATH.
Proof.
  unfold ParsePath. set (fs := filter _ _). clearbody fs.
  case_bool_decide; simpl.
  - split; [by intros [= ->] | by intros [-> _]].
  - split; [done | intros [-> ?]; lia].
Qed.

Lemma ParsePath_component path arr : ParsePath path = Val arr -> Forall component arr.
Proof.
  intros [-> _]%ParsePath_Val. apply Forall_forall. intros t Ht.
  apply list_elem_of_filter in Ht as [? Ht]. split; [|done].
  pose proof (tokens_Forall "/"%char path) as Hw. rewrite Forall_forall in Hw. auto.
Qed.

Lemma SearchPath_Val root path arr :
  ParsePath path = Val arr ->
  SearchPath root path = Val (if SearchPathHelperTries root arr then 1%Z else (-1)%Z).
Proof. intros H. unfold SearchPath. by rewrite H. Qed.

Lemma DeletePath_Val path root arr :
  ParsePath path = Val arr ->
  DeletePath path root =
    if SearchPathHelperTries root arr then nonnull (delete_walk arr root) else Val root.
Proof.
  intros H. unfold DeletePath. rewrite (SearchPath_Val _ _ _ H), H. simpl.
  by destruct (SearchPathHelperTries root arr).
Qed.

(** ** The directory a trie stands for *)

(** Abstractly the naming server keeps, per storage server, a set of paths:
    inserting a path adds its prefixes, deleting one removes all it is a
    prefix of. *)
Abbreviation directory := (gset (list bytes)).

Definition dir_add (p : list bytes) (d : directory) : directory :=
  list_to_set (prefixes p) ∪ d.

Definition dir_delete (p : list bytes) (d : directory) : directory :=
  filter (fun q => ~ p `prefix_of` q) d.

(** The simulation relation. *)
Definition represents (t : trienode) (d : directory) : Prop :=
  wf_trie t /\ forall q, SearchPathHelperTries t q = bool_decide (q ∈ d).

Lemma represents_new name : represents (CreateNode name) {[ [] ]}.
Proof.
  split; [apply wf_CreateNode|]. intros q. rewrite search_CreateNode.
  apply bool_decide_ext. set_solver.
Qed.

Lemma represents_add t d p :
  represents t d -> Forall component p -> has_room p t = true ->
  represents (add_path p t) (dir_add p d).
Proof.
  intros [Hwf Hd] Hp Hr. split; [by apply wf_add_path|]. intros q.
  rewrite search_add_path, Hd by done. unfold prefixb.
  apply eq_true_iff_eq. rewrite orb_true_iff, !bool_decide_eq_true.
  unfold dir_add. rewrite elem_of_union, elem_of_list_to_set, elem_of_prefixes. tauto.
Qed.

Lemma represents_delete t d p t' :
  represents t d -> SearchPathHelperTries t p = true -> delete_walk p t = Some t' ->
  represents t' (dir_delete p d).
Proof.
  intros [Hwf Hd] Hs Hw. split; [by eapply wf_delete_walk|]. intros q.
  rewrite (search_delete_walk p t t') by done. rewrite Hd. unfold prefixb.
  apply eq_true_iff_eq. rewrite andb_true_iff, negb_true_iff, bool_decide_eq_false.
  rewrite !bool_decide_eq_true. unfold dir_delete. rewrite elem_of_filter. tauto.
Qed.

(** Sequences of updates on both sides. *)
Inductive trie_op :=
  | OpAdd (path : bytes)
  | OpDelete (path : bytes).

Definition run_op (o : trie_op) (t : trienode) : cres trienode :=
  match o with
  | OpAdd path => AddPathToTrie path t
  | OpDelete path => DeletePath path t
  end.

Definition dir_op (o : trie_op) (d : directory) : directory :=
  match o with
  | OpAdd path => match ParsePath path with Val p => dir_add p d | Undef _ => d end
  | OpDelete path =>
      match ParsePath path with
      | Val p => if bool_decide (p ∈ d) then dir_delete p d else d
      | Undef _ => d
      end
  end.

(** What an update needs: a path the parser has room for, a null entry
    wherever a node must be added, and for a deletion not the root itself. *)
Definition op_ready (o : trie_op) (t : trienode) : bool :=
  match o with
  | OpAdd path => match ParsePath path with Val p => has_room p t | Undef _ => false end
  | OpDelete path =>
      match ParsePath path with Val p => bool_decide (p <> []) | Undef _ => false end
  end.

Lemma run_op_sim o t d :
  represents t d -> op_ready o t = true ->
  exists t', run_op o t = Val t' /\ represents t' (dir_op o d).
Proof.
  intros Ht Hr. destruct o as [path|path]; simpl in *;
    destruct (ParsePath path) as [p|] eqn:Hp; try done.
  - unfold AddPathToTrie. rewrite Hp. eexists. split; [done|].
    eauto using represents_add, ParsePath_component.
  - apply bool_decide_eq_true in Hr. rewrite (DeletePath_Val _ _ _ Hp).
    destruct Ht as [Hwf Hd]. rewrite <- Hd.
    destruct (SearchPathHelperTries t p) eqn:Hs; [|by exists t].
    destruct (delete_walk_found p t Hs Hr) as [t' Ht']. rewrite Ht'.
    exists t'. split; [done|]. by eapply represents_delete.
Qed.

Fixpoint run_ops (os : list trie_op) (t : trienode) : cres trienode :=
  match os with
  | [] => Val t
  | o :: os' => t' ← run_op o t; run_ops os' t'
  end.

Fixpoint ops_ready (os : list trie_op) (t : trienode) : bool :=
  match os with
  | [] => true
  | o :: os' =>
      op_ready o t && match run_op o t with Val t' => ops_ready os' t' | Undef _ => false end
  end.

Lemma run_ops_sim os t d :
  represents t d -> ops_ready os t = true ->
  exists t', run_ops os t = Val t' /\ represents t' (foldl (fun d o => dir_op o d) d os).
Proof.
  revert t d; induction os as [|o os IH]; intros t d Ht Hr; simpl in *; [eauto|].
  apply andb_true_iff in Hr as [Ho Hr].
  destruct (run_op_sim o t d Ht Ho) as (t' & Hrun & Ht').
  rewrite Hrun in *. simpl. by apply IH.
Qed.

(** ** The search is closed under prefixes *)

Lemma search_app n p q :
  SearchPathHelperTries n (p ++ q) = true -> SearchPathHelperTries n p = true.
Proof.
  revert n; induction p as [|x p IH]; intros n; simpl; [done|].
  destruct (find_child (childeren n) x) as [[j c]|]; [apply IH | done].
Qed.

Lemma search_prefixb n p q :
  SearchPathHelperTries n p = false -> SearchPathHelperTries n q && negb (prefixb p q)
    = SearchPathHelperTries n q.
Proof.
  intros Hp. destruct (prefixb p q) eqn:Hpq; [|by rewrite andb_true_r].
  apply bool_decide_eq_true in Hpq as [k ->]. rewrite andb_false_r. symmetry.
  apply not_true_iff_false. intros H%search_app. congruence.
Qed.

Lemma has_room_false_search p n : has_room p n = false -> SearchPathHelperTries n p = false.
Proof.
  revert n; induction p as [|x p IH]; intros n; simpl; [done|].
  destruct (find_child (childeren n) x) as [[j c]|]; [apply IH | done].
Qed.

(** ** Rendering a path *)

(** The components joined by ["/"], as the storage servers and the clients
    write them. *)
Fixpoint render (comps : list bytes) : bytes :=
  match comps with
  | [] => []
  | [c] => c
  | c :: cs => c ++ "/"%char :: render cs
  end.

Lemma tokens_render comps :
  Forall (word "/"%char) comps -> tokens "/"%char (render comps) = comps.
Proof.
  induction comps as [|c [|d comps] IH]; intros Hw; [done| |].
  - apply Forall_cons in Hw as [[? ?] _]. by apply tokens_word.
  - apply Forall_cons in Hw as [Hc Hw]. cbn [render]. rewrite tokens_word_cons by done.
    f_equal. by apply IH.
Qed.

Lemma filter_components comps :
  Forall component comps -> filter (fun t : bytes => t <> lit "~") comps = comps.
Proof.
  intros Hc. apply filter_Forall. eapply Forall_impl; [exact Hc|]. by intros ? [_ ?].
Qed.

(** ** Properties of the trie *)

(** C4. The trie refines a set of paths: after any sequence of insertions and
    deletions whose paths can be parsed, whose insertions find a null entry
    and whose deletions do not name the root, the updates are defined, the
    invariant holds, and [SearchPath] answers 1 exactly for the members of the
    set the same sequence builds abstractly, and -1 for all other paths. *)
Theorem trie_refines_directory os :
  ops_ready os (CreateNode ".") = true ->
  exists t, run_ops os (CreateNode ".") = Val t /\ wf_trie t /\
    forall path p, ParsePath path = Val p ->
      SearchPath t path =
        Val (if bool_decide (p ∈ foldl (fun d o => dir_op o d) ({[ [] ]} : directory) os)
             then 1%Z else (-1)%Z).
Proof.
  intros Hr. destruct (run_ops_sim os _ _ (represents_new ".") Hr) as (t & Hrun & Hwf & Ht).
  exists t. split; [done|]. split; [done|]. intros path p Hp.
  by rewrite (SearchPath_Val _ _ _ Hp), Ht.
Qed.

Lemma trie_refines_directory_witness :
  exists t, run_ops [OpAdd "./a/b"; OpAdd "./a/c/~/d"; OpDelete "./a/b"; OpDelete "./zz"]
              (CreateNode ".") = Val t /\ wf_trie t /\
    forall path p, ParsePath path = Val p ->
      SearchPath t path =
        Val (if bool_decide (p ∈ foldl (fun d o => dir_op o d) ({[ [] ]} : directory)
                [OpAdd "./a/b"; OpAdd "./a/c/~/d"; OpDelete "./a/b"; OpDelete "./zz"])
             then 1%Z else (-1)%Z).
Proof. apply trie_refines_directory. vm_compute. reflexivity. Defined.

(** Insertion: into a well-formed trie with room on the way,
    [AddPathToTrie] keeps the invariant and the name of the root, and from
    then on exactly the old paths and the prefixes of the new one are found. *)
Theorem AddPathToTrie_search root path p :
  wf_trie root -> ParsePath path = Val p -> has_room p root = true ->
  exists root', AddPathToTrie path root = Val root' /\ wf_trie root' /\
    data root' = data root /\
    forall q, SearchPathHelperTries root' q = SearchPathHelperTries root q || prefixb q p.
Proof.
  intros Hwf Hp Hr. pose proof (ParsePath_component _ _ Hp) as Hc.
  exists (add_path p root). unfold AddPathToTrie. rewrite Hp. split; [done|].
  split; [by apply wf_add_path|]. split; [apply data_add_path|].
  intros q. by apply search_add_path.
Qed.

Lemma AddPathToTrie_search_witness :
  exists root', AddPathToTrie "./a/b" (CreateNode ".") = Val root' /\ wf_trie root' /\
    data root' = data (CreateNode ".") /\
    forall q, SearchPathHelperTries root' q =
      SearchPathHelperTries (CreateNode ".") q || prefixb q [lit "."; lit "a"; lit "b"].
Proof.
  apply (AddPathToTrie_search (CreateNode ".") "./a/b" [lit "."; lit "a"; lit "b"]).
  - apply wf_CreateNode.
  - vm_compute. reflexivity.
  - vm_compute. reflexivity.
Defined.

(** A full directory loses the insertion: when a node on the way has all
    [MAX_FOLDERS] entries in use and none has the wanted name,
    [AddPathToTrie] reports nothing, changes nothing, and the path is not
    found afterwards. *)
Theorem AddPathToTrie_full root path p :
  ParsePath path = Val p -> has_room p root = false ->
  AddPathToTrie path root = Val root /\ SearchPath root path = Val (-1)%Z.
Proof.
  intros Hp Hr. unfold AddPathToTrie. rewrite Hp. simpl.
  rewrite (add_path_full _ _ Hr), (SearchPath_Val _ _ _ Hp).
  by rewrite (has_room_false_search _ _ Hr).
Qed.

(** A root with all 256 entries in use. *)
Definition full_root : trienode :=
  Node ((fun i => Some (CreateNode (print_Z (Z.of_nat i)))) <$> seq 0 256) false ".".

Lemma AddPathToTrie_full_witness :
  AddPathToTrie "new" full_root = Val full_root /\ SearchPath full_root "new" = Val (-1)%Z.
Proof.
  apply (AddPathToTrie_full full_root "new" [lit "new"]); vm_compute; reflexivity.
Defined.

(** C33. Deletion: a path that is not found leaves the trie as it is; a path
    that is found disappears with everything below it and nothing else does;
    a path without components (["~"], ["/"], [""]) makes [DeletePath]
    dereference the null [prev]. *)
Theorem DeletePath_spec root path p :
  wf_trie root -> ParsePath path = Val p ->
  (p = [] -> DeletePath path root = Undef NullDeref) /\
  (p <> [] -> exists root', DeletePath path root = Val root' /\ wf_trie root' /\
     (SearchPathHelperTries root p = false -> root' = root) /\
     forall q, SearchPathHelperTries root' q =
       SearchPathHelperTries root q && negb (prefixb p q)).
Proof.
  intros Hwf Hp. rewrite (DeletePath_Val _ _ _ Hp). split; [by intros ->|]. intros Hne.
  destruct (SearchPathHelperTries root p) eqn:Hs.
  - destruct (delete_walk_found p root Hs Hne) as [root' Hd]. rewrite Hd. exists root'.
    split; [done|]. split; [by eapply wf_delete_walk|]. split; [done|].
    intros q. by apply search_delete_walk.
  - exists root. split; [done|]. split; [done|]. split; [done|].
    intros q. by rewrite search_prefixb.
Qed.

Lemma DeletePath_spec_witness :
  (([] : list bytes) = [] -> DeletePath "~/" (CreateNode ".") = Undef NullDeref) /\
  (([] : list bytes) <> [] -> exists root', DeletePath "~/" (CreateNode ".") = Val root' /\
     wf_trie root' /\
     (SearchPathHelperTries (CreateNode ".") [] = false -> root' = CreateNode ".") /\
     forall q, SearchPathHelperTries root' q =
       SearchPathHelperTries (CreateNode ".") q && negb (prefixb [] q)).
Proof.
  apply (DeletePath_spec (CreateNode ".") "~/" []);
    [apply wf_CreateNode | vm_compute; reflexivity].
Defined.

(** C39. The path array: [ParsePath] stays inside the caller's [MAX_PATH]
    entries for every path of at most 510 bytes, whatever it contains, and
    yields proper components; it leaves the array as soon as there are 256
    components. *)
Theorem ParsePath_bounds path :
  (length path <= 510 -> exists arr, ParsePath path = Val arr /\ Forall component arr) /\
  (MAX_PATH <= length (filter (fun t : bytes => t <> lit "~") (tokens "/"%char path)) ->
   ParsePath path = Undef OutOfBounds).
Proof.
  split; intros Hl.
  - destruct (ParsePath path) as [arr|u] eqn:Hp.
    + exists arr. split; [done|]. by eapply ParsePath_component.
    + exfalso. unfold ParsePath in Hp. case_bool_decide as Hc; [done|]. apply Hc.
      eapply Nat.le_lt_trans; [apply length_filter|].
      pose proof (tokens_length "/"%char path). unfold MAX_PATH. lia.
  - unfold ParsePath. by rewrite bool_decide_eq_false_2 by lia.
Qed.

(** Round trip: a relative path written from components, as the storage
    servers send it, is parsed back to the leading ["."] and the components. *)
Theorem ParsePath_render comps :
  Forall component comps -> comps <> [] -> length comps < 255 ->
  ParsePath ("./" ++ render comps) = Val (lit "." :: comps).
Proof.
  intros Hc Hne Hl. apply ParsePath_Val.
  assert (Forall component (lit "." :: comps)) as Hc'.
  { constructor; [|done]. decide_closed. }
  replace ("./" ++ render comps) with (render (lit "." :: comps)) by (by destruct comps).
  rewrite tokens_render by (eapply Forall_impl; [exact Hc'|]; by intros ? [? _]).
  rewrite filter_components by done. split; [done|]. simpl. unfold MAX_PATH. lia.
Qed.

Lemma ParsePath_render_witness :
  ParsePath ("./" ++ render [lit "gr1"; lit "docs"; lit "a.txt"]) =
    Val (lit "." :: [lit "gr1"; lit "docs"; lit "a.txt"]).
Proof.
  apply (ParsePath_render [lit "gr1"; lit "docs"; lit "a.txt"]).
  - decide_closed.
  - discriminate.
  - simpl. lia.
Defined.
