(* ===== verification/TrieListing.v ===== *)
(** * Listings of a trie (tries.c: PrintTree, CountItems, DisplayTrie and the
    network versions)

    The same traversal exists twice: printing to the terminal, and sending one
    message per node through a fixed buffer.  The theorems relate the two,
    relate the lines to the totals of [CountItems], and bound what the fixed
    buffers can take. *)
From S2P Require Export Trie.

(** ** Printing and counting *)

Definition is_null (c : option trienode) : bool :=
  match c with Some _ => false | None => true end.

(** [isLastChild(node, parent)], for the node in entry [nodeIndex] of the
    parent's array, or for a null parent. *)
Definition isLastChild (parent : option (nat * list (option trienode))) : bool :=
  match parent with
  | None => true
  | Some (nodeIndex, cs) => forallb is_null (drop (S nodeIndex) cs)
  end.

Definition YELLOW : bytes := ESC :: "[33m".
Definition WHITE : bytes := ESC :: "[37m".
Definition BLUE : bytes := ESC :: "[34m".
Definition COLOR_OFF : bytes := ESC :: "[0m".

(** The bytes of the UTF-8 box drawing characters used as connectors. *)
Definition BAR : bytes := ["226"; "148"; "130"]%char.
Definition CORNER : bytes := ["226"; "148"; "148"]%char.
Definition TEE : bytes := ["226"; "148"; "156"]%char.
Definition DASHES : bytes := ["226"; "148"; "128"; "226"; "148"; "128"]%char.

Definition indent_piece (b : bool) : bytes :=
  if b then YELLOW ++ BAR ++ "   " ++ COLOR_OFF else lit "    ".

(** The texts printed for one node, one per call of [printf]; [prefix] has
    one flag per level above the node, so [depth] is its length. *)
Definition line_pieces (n : trienode) (prefix : list bool)
    (parent : option (nat * list (option trienode))) : list bytes :=
  (indent_piece <$> prefix) ++
  match prefix with
  | [] => [BLUE ++ data n ++ COLOR_OFF ++ [LF]]
  | _ => [YELLOW ++ (if isLastChild parent then CORNER else TEE) ++ DASHES ++ " " ++ COLOR_OFF;
          (if isLeaf n then WHITE else BLUE) ++ data n ++ COLOR_OFF ++ [LF]]
  end.

(** [new_prefix], an array of [MAX_PATH] characters: entry [depth] and the
    terminator after it must fit. *)
Definition extend_prefix (prefix : list bool)
    (parent : option (nat * list (option trienode))) : cres (list bool) :=
  _ ← within (bool_decide (S (length prefix) < MAX_PATH));
  mret (prefix ++ [negb (isLastChild parent)]).

(** The loops over the non-null entries of [childeren], with the index of
    each entry. *)
Section visit.
Context {B : Type} (f : nat -> trienode -> cres (list B)).

Fixpoint visit_children (i : nat) (cs : list (option trienode)) : cres (list B) :=
  match cs with
  | [] => mret []
  | None :: cs' => visit_children (S i) cs'
  | Some c :: cs' =>
      here ← f i c;
      rest ← visit_children (S i) cs';
      mret (here ++ rest)
  end.
End visit.

(** [PrintTree]: the lines printed for the node and all below it, in order. *)
Fixpoint PrintTree (n : trienode) (prefix : list bool)
    (parent : option (nat * list (option trienode))) : cres (list bytes) :=
  new_prefix ← extend_prefix prefix parent;
  below ← visit_children
            (fun i c => PrintTree c new_prefix (Some (i, childeren n))) 0 (childeren n);
  mret (concat (line_pieces n prefix parent) :: below).

Section sum_children.
Context (f : trienode -> Z * Z).

Fixpoint sum_children (cs : list (option trienode)) : Z * Z :=
  match cs with
  | [] => (0, 0)
  | None :: cs' => sum_children cs'
  | Some c :: cs' =>
      ((f c).1 + (sum_children cs').1, (f c).2 + (sum_children cs').2)
  end%Z.
End sum_children.

(** [CountItems]: the increments of [*dirs] and [*files]. *)
Fixpoint CountItems (n : trienode) : Z * Z :=
  let below := sum_children CountItems (childeren n) in
  if isLeaf n then (below.1, below.2 + 1)%Z else (below.1 + 1, below.2)%Z.

(** [DisplayTrie]: the printed tree and the two totals. *)
Definition DisplayTrie (root : trienode) : cres (list bytes * Z * Z) :=
  lines ← PrintTree root [] None;
  let '(totalDirs, totalFiles) := CountItems root in
  mret (lines, totalDirs, totalFiles).

(** ** Sending a listing *)

(** [len += snprintf(buffer + len, sizeof(buffer) - len, s)] on the text
    stored so far: a buffer of 1024 bytes; past its end the pointer and the
    size are both out of range. *)
Definition append_snprintf (b : bytes * nat) (s : bytes) : cres (bytes * nat) :=
  let '(buffer, len) := b in
  if bool_decide (1024 < len) then Undef OutOfBounds
  else Val (buffer ++ take (1024 - len - 1) s, len + length s).

Fixpoint append_all (b : bytes * nat) (pieces : list bytes) : cres (bytes * nat) :=
  match pieces with
  | [] => Val b
  | s :: rest => b' ← append_snprintf b s; append_all b' rest
  end.

(** The [len] bytes of [buffer] handed to [send]: with [len = 1024] the last
    of them is the terminator; beyond that the read leaves the buffer. *)
Definition network_line (n : trienode) (prefix : list bool)
    (parent : option (nat * list (option trienode))) : cres bytes :=
  b ← append_all ([], 0) (line_pieces n prefix parent);
  let '(buffer, len) := b in
  if bool_decide (len < 1024) then Val buffer
  else if bool_decide (len = 1024) then Val (buffer ++ [NUL])
  else Undef OutOfBounds.

Section send_children.
Context (f : nat -> trienode -> io unit).

Fixpoint send_children (i : nat) (cs : list (option trienode)) : io unit :=
  match cs with
  | [] => mret tt
  | None :: cs' => send_children (S i) cs'
  | Some c :: cs' => _ ← f i c; send_children (S i) cs'
  end.
End send_children.

(** [PrintTreeNetwork]: one [send] per node; a failed [send] gives up the
    subtree of the node. *)
Fixpoint PrintTreeNetwork (sock : Z) (n : trienode) (prefix : list bool)
    (parent : option (nat * list (option trienode))) : io unit :=
  line ← io_of (network_line n prefix parent);
  Send sock line (fun r =>
    match r with
    | SSent _ =>
        new_prefix ← io_of (extend_prefix prefix parent);
        send_children
          (fun i c => PrintTreeNetwork sock c new_prefix (Some (i, childeren n)))
          0 (childeren n)
    | _ => mret tt
    end).

Definition DisplayTrieNetwork (sock : Z) (root : trienode) : io unit :=
  PrintTreeNetwork sock root [] None.

(** ** Listings *)

Lemma visit_children_length {B} (f : nat -> trienode -> cres (list B)) (g : trienode -> Z * Z) i cs ls :
  (forall k j c ks, cs !! k = Some (Some c) -> f j c = Val ks ->
     Z.of_nat (length ks) = ((g c).1 + (g c).2)%Z) ->
  visit_children f i cs = Val ls ->
  Z.of_nat (length ls) = ((sum_children g cs).1 + (sum_children g cs).2)%Z.
Proof.
  revert i ls; induction cs as [|[c|] cs IH]; intros i ls Hf Hv; simpl in Hv.
  - by injection Hv as <-.
  - apply cbind_Val_inv in Hv as (here & Hhere & Hv).
    apply cbind_Val_inv in Hv as (rest & Hrest & Hv). injection Hv as <-.
    apply (Hf 0) in Hhere; [|done]. simpl.
    apply IH in Hrest; [|intros k; apply (Hf (S k))]. rewrite length_app. lia.
  - simpl. apply (IH (S i)); [|done]. intros k. apply (Hf (S k)).
Qed.

Lemma PrintTree_length n prefix parent ls :
  PrintTree n prefix parent = Val ls ->
  Z.of_nat (length ls) = ((CountItems n).1 + (CountItems n).2)%Z.
Proof.
  revert prefix parent ls; induction n as [cs leaf name IH] using trie_ind.
  intros prefix parent ls H. cbn [PrintTree CountItems childeren isLeaf] in *.
  apply cbind_Val_inv in H as (pr & _ & H).
  apply cbind_Val_inv in H as (below & Hb & H). injection H as <-.
  apply visit_children_length with (g := CountItems) in Hb; [|by eauto].
  simpl. destruct leaf; simpl; lia.
Qed.

Lemma append_all_fits b pieces :
  length b + length (concat pieces) < 1024 ->
  append_all (b, length b) pieces = Val (b ++ concat pieces, length b + length (concat pieces)).
Proof.
  revert b; induction pieces as [|s pieces IH]; intros b Hl.
  - cbn. by rewrite app_nil_r, Nat.add_0_r.
  - cbn [append_all append_snprintf concat] in *. rewrite length_app in Hl.
    rewrite bool_decide_eq_false_2 by lia. simpl.
    rewrite take_ge by lia. rewrite <- length_app, IH by (rewrite length_app; lia).
    by rewrite <- app_assoc, !length_app, Nat.add_assoc.
Qed.

(** A line that fits the buffer is sent as it is printed. *)
Lemma network_line_fits n prefix parent :
  length (concat (line_pieces n prefix parent)) < 1024 ->
  network_line n prefix parent = Val (concat (line_pieces n prefix parent)).
Proof.
  intros Hl. unfold network_line. rewrite (append_all_fits []) by done.
  simpl. by rewrite bool_decide_eq_true_2.
Qed.

Definition sent_ok (e : event) : Prop :=
  match e with ESend _ _ (SSent _) => True | _ => False end.

(** The specification of the sending traversal of a (sub)tree: safe and
    terminating whatever the sends answer, and exactly [lines] is sent if all
    sends succeed. *)
Definition sends_lines (sock : Z) (lines : list bytes) (p : io unit) : Prop :=
  forall tr, wp total p tr (fun tr' _ =>
    exists new, tr' = tr ++ new /\ (Forall sent_ok new -> sent_to sock new = lines)).

Lemma sends_lines_seq sock l1 l2 p q :
  sends_lines sock l1 p -> sends_lines sock l2 q ->
  sends_lines sock (l1 ++ l2) (p ≫= (fun _ => q)).
Proof.
  intros Hp Hq tr. apply wp_bind. eapply wp_mono; [|apply Hp].
  intros tr1 _ (new1 & -> & H1). eapply wp_mono; [|apply Hq].
  intros tr2 _ (new2 & -> & H2). exists (new1 ++ new2).
  split; [by rewrite app_assoc|]. intros [? ?]%Forall_app.
  by rewrite sent_to_app, H1, H2.
Qed.

Lemma send_children_lines sock (f : nat -> trienode -> io unit)
    (g : nat -> trienode -> cres (list bytes)) i cs ls :
  (forall k j c ks, cs !! k = Some (Some c) -> g j c = Val ks ->
     Forall (fun l => length l < 1024) ks -> sends_lines sock ks (f j c)) ->
  visit_children g i cs = Val ls -> Forall (fun l => length l < 1024) ls ->
  sends_lines sock ls (send_children f i cs).
Proof.
  revert i ls; induction cs as [|[c|] cs IH]; intros i ls Hf Hv Hl; simpl in Hv |- *.
  - injection Hv as <-. intros tr. exists []. by rewrite app_nil_r.
  - apply cbind_Val_inv in Hv as (here & Hhere & Hv).
    apply cbind_Val_inv in Hv as (rest & Hrest & Hv). injection Hv as <-.
    apply Forall_app in Hl as [? ?]. apply sends_lines_seq.
    + by apply (Hf 0).
    + apply IH; [|done..]. intros k. apply (Hf (S k)).
  - apply IH; [|done..]. intros k. apply (Hf (S k)).
Qed.

Lemma PrintTreeNetwork_lines sock n prefix parent ls :
  PrintTree n prefix parent = Val ls -> Forall (fun l => length l < 1024) ls ->
  sends_lines sock ls (PrintTreeNetwork sock n prefix parent).
Proof.
  revert prefix parent ls; induction n as [cs leaf name IH] using trie_ind.
  intros prefix parent ls H Hl.
  cbn [PrintTree PrintTreeNetwork childeren] in *.
  apply cbind_Val_inv in H as (pr & Hpr & H).
  apply cbind_Val_inv in H as (below & Hb & H). injection H as <-.
  apply Forall_cons in Hl as [Hl Hbelow].
  rewrite network_line_fits by done. intros tr. simpl. intros r _.
  destruct r as [m| |].
  - rewrite Hpr. simpl.
    assert (sends_lines sock below (send_children
      (fun i c => PrintTreeNetwork sock c pr (Some (i, cs))) 0 cs)) as Hs
      by (eapply send_children_lines; [|done..]; simpl; eauto).
    eapply wp_mono; [|apply Hs].
    intros tr' _ (new & -> & Hnew). eexists. rewrite <- app_assoc. split; [done|].
    intros [_ ?]%Forall_cons. simpl. rewrite Z.eqb_refl. simpl. by rewrite Hnew.
  - eexists. split; [done|]. intros [[] _]%Forall_cons.
  - eexists. split; [done|]. intros [[] _]%Forall_cons.
Qed.

(** *** Bounds: when listings stay inside their buffers *)

(** At most [h] further levels below the node, names of at most 255 bytes. *)
Fixpoint listing_fits (h : nat) (n : trienode) : bool :=
  bool_decide (length (data n) <= 255) &&
  match h with
  | O => forallb is_null (childeren n)
  | S h' => forallb (fun o => match o with Some c => listing_fits h' c | None => true end)
              (childeren n)
  end.

Lemma length_indent prefix : length (concat (indent_piece <$> prefix)) <= 15 * length prefix.
Proof.
  induction prefix as [|b prefix IH]; [done|].
  cbn [fmap list_fmap concat]. rewrite length_app.
  assert (length (indent_piece b) <= 15) by (by destruct b; vm_compute; lia).
  simpl length. lia.
Qed.

Lemma length_line n prefix parent :
  length (concat (line_pieces n prefix parent)) <= 15 * length prefix + 29 + length (data n).
Proof.
  unfold line_pieces. rewrite concat_app, length_app.
  pose proof (length_indent prefix) as Hi.
  enough (length (concat (match prefix with
            | [] => [BLUE ++ data n ++ COLOR_OFF ++ [LF]]
            | _ => [YELLOW ++ (if isLastChild parent then CORNER else TEE) ++ DASHES ++ " " ++ COLOR_OFF;
                    (if isLeaf n then WHITE else BLUE) ++ data n ++ COLOR_OFF ++ [LF]]
            end)) <= 29 + length (data n)) by lia.
  destruct prefix; cbn [concat]; rewrite !length_app; unfold YELLOW, WHITE, BLUE, COLOR_OFF;
    [|destruct (isLastChild parent), (isLeaf n)];
    cbn -[length lit]; rewrite ?length_cons; unfold lit; cbn; lia.
Qed.

Lemma visit_children_Forall (f : nat -> trienode -> cres (list bytes)) (P : bytes -> Prop) i cs :
  (forall k j c, cs !! k = Some (Some c) -> exists ks, f j c = Val ks /\ Forall P ks) ->
  exists ls, visit_children f i cs = Val ls /\ Forall P ls.
Proof.
  revert i; induction cs as [|[c|] cs IH]; intros i Hf; simpl.
  - by exists [].
  - destruct (Hf 0 i c) as (here & -> & Hhere); [done|]. simpl.
    destruct (IH (S i)) as (rest & -> & Hrest); [intros k; apply (Hf (S k))|].
    exists (here ++ rest). split; [done|]. by apply Forall_app.
  - apply IH. intros k. apply (Hf (S k)).
Qed.

Lemma listing_fits_child h n k c :
  listing_fits h n = true -> childeren n !! k = Some (Some c) ->
  exists h', h = S h' /\ listing_fits h' c = true.
Proof.
  destruct h as [|h]; cbn [listing_fits]; intros [_ H]%andb_true_iff Hk.
  - apply Is_true_true, forallb_True in H.
    by apply (Forall_lookup_1 _ _ k (Some c)) in H.
  - apply Is_true_true, forallb_True in H.
    apply (Forall_lookup_1 _ _ k (Some c)) in H; [|done]. exists h. split; [done|]. by apply Is_true_true.
Qed.

Lemma PrintTree_fits h n prefix parent :
  listing_fits h n = true -> length prefix + h <= 49 ->
  exists ls, PrintTree n prefix parent = Val ls /\ Forall (fun l => length l < 1024) ls.
Proof.
  revert h prefix parent; induction n as [cs leaf name IH] using trie_ind.
  intros h prefix parent Hf Hh. cbn [PrintTree childeren].
  assert (length name <= 255) as Hname.
  { destruct h; cbn [listing_fits data] in Hf; apply andb_true_iff in Hf as [Hf _];
      by apply bool_decide_eq_true in Hf. }
  unfold extend_prefix. rewrite bool_decide_eq_true_2 by (unfold MAX_PATH; lia). simpl.
  edestruct (visit_children_Forall
    (fun i c => PrintTree c (prefix ++ [negb (isLastChild parent)]) (Some (i, cs)))
    (fun l => length l < 1024) 0 cs) as (below & Hb & Hbelow).
  - intros k j c Hk. destruct (listing_fits_child h _ k c Hf Hk) as (h' & -> & Hf').
    apply (IH k c Hk h'); [done|]. rewrite length_app. simpl. lia.
  - rewrite Hb. simpl. eexists. split; [done|]. constructor; [|done].
    pose proof (length_line (Node cs leaf name) prefix parent). simpl in *. lia.
Qed.

(** *** Limits: when they do not *)

Lemma append_all_length b len pieces b' len' :
  append_all (b, len) pieces = Val (b', len') -> len' = len + length (concat pieces).
Proof.
  revert b len; induction pieces as [|s pieces IH]; intros b len; simpl.
  - intros [= _ <-]. lia.
  - case_bool_decide; [done|]. simpl. intros H'%IH. rewrite length_app. lia.
Qed.

Lemma append_all_Undef b pieces u : append_all b pieces = Undef u -> u = OutOfBounds.
Proof.
  revert b; induction pieces as [|s pieces IH]; intros [b len]; simpl; [done|].
  case_bool_decide; simpl; [by intros [= <-] | apply IH].
Qed.

Lemma network_line_overflow n prefix parent :
  1024 < length (concat (line_pieces n prefix parent)) ->
  network_line n prefix parent = Undef OutOfBounds.
Proof.
  intros Hl. unfold network_line.
  destruct (append_all ([], 0) _) as [[b len]|u] eqn:Ha; simpl.
  - apply append_all_length in Ha. by rewrite !bool_decide_eq_false_2 by lia.
  - by rewrite (append_all_Undef _ _ _ Ha).
Qed.

Lemma length_indent_ge prefix : 4 * length prefix <= length (concat (indent_piece <$> prefix)).
Proof.
  induction prefix as [|b prefix IH]; [done|].
  cbn [fmap list_fmap concat]. rewrite length_app.
  assert (4 <= length (indent_piece b)) by (by destruct b; vm_compute; lia).
  simpl length. lia.
Qed.

(** A line below the root has at least its indentation, a connector and two
    colour changes. *)
Lemma length_line_ge n prefix parent :
  1 <= length prefix ->
  4 * length prefix + 29 <= length (concat (line_pieces n prefix parent)).
Proof.
  intros Hp. unfold line_pieces. rewrite concat_app, length_app.
  pose proof (length_indent_ge prefix) as Hi. destruct prefix as [|b prefix]; [simpl in Hp; lia|].
  cbn [concat]. rewrite !length_app. unfold YELLOW, WHITE, BLUE, COLOR_OFF.
  destruct (isLastChild parent), (isLeaf n);
    cbn -[length lit fmap concat] in *; rewrite ?length_cons; unfold lit; cbn -[fmap concat] in *; lia.
Qed.

Lemma PrintTreeNetwork_unfold sock n prefix parent :
  PrintTreeNetwork sock n prefix parent =
    (line ← io_of (network_line n prefix parent);
     Send sock line (fun r =>
       match r with
       | SSent _ =>
           new_prefix ← io_of (extend_prefix prefix parent);
           send_children
             (fun i c => PrintTreeNetwork sock c new_prefix (Some (i, childeren n)))
             0 (childeren n)
       | _ => mret tt
       end)).
Proof. by destruct n. Qed.

Lemma visit_children_null {B} (f : nat -> trienode -> cres (list B)) i cs :
  forallb is_null cs = true -> visit_children f i cs = Val [].
Proof.
  revert i; induction cs as [|[c|] cs IH]; intros i; simpl; [done..|]. apply IH.
Qed.

(** ** Properties of the listings *)

(** C19. A trie of at most 49 levels with names of at most 255 bytes is listed
    without leaving a buffer: [DisplayTrie] prints one line per item it
    counts, and [DisplayTrieNetwork] terminates for all answers of [send] and
    sends exactly those lines, in that order, when every [send] succeeds. *)
Theorem DisplayTrieNetwork_sends_listing sock root :
  listing_fits 49 root = true ->
  exists lines totalDirs totalFiles,
    DisplayTrie root = Val (lines, totalDirs, totalFiles) /\
    Z.of_nat (length lines) = (totalDirs + totalFiles)%Z /\
    sends_lines sock lines (DisplayTrieNetwork sock root).
Proof.
  intros Hf. destruct (PrintTree_fits 49 root [] None Hf) as (ls & Hls & Hl); [simpl; lia|].
  exists ls, (CountItems root).1, (CountItems root).2.
  unfold DisplayTrie. rewrite Hls. simpl. destruct (CountItems root) eqn:Hc.
  split; [done|]. split.
  - rewrite (PrintTree_length _ _ _ _ Hls), Hc. done.
  - by apply PrintTreeNetwork_lines.
Qed.

Definition sample_trie : trienode := add_path [lit "a"; lit "c"] (add_path [lit "a"; lit "b"] (CreateNode ".")).

Lemma DisplayTrieNetwork_sends_listing_witness :
  exists lines totalDirs totalFiles,
    DisplayTrie sample_trie = Val (lines, totalDirs, totalFiles) /\
    Z.of_nat (length lines) = (totalDirs + totalFiles)%Z /\
    sends_lines 5 lines (DisplayTrieNetwork 5 sample_trie).
Proof. apply DisplayTrieNetwork_sends_listing. vm_compute. reflexivity. Defined.

(** The line buffer is a real limit: however short the names are, sending
    a node 249 or more levels below the root, a depth [ParsePath] accepts,
    runs over the 1024-byte buffer before the [send] is reached, while the
    terminal listing has no such buffer and prints nodes down to level 254. *)
Theorem PrintTreeNetwork_deep_overflow sock n prefix parent :
  249 <= length prefix ->
  PrintTreeNetwork sock n prefix parent = Bad OutOfBounds /\
  (length prefix <= 254 -> forallb is_null (childeren n) = true ->
   PrintTree n prefix parent = Val [concat (line_pieces n prefix parent)]).
Proof.
  intros Hl. split.
  - rewrite PrintTreeNetwork_unfold, network_line_overflow; [done|].
    pose proof (length_line_ge n prefix parent ltac:(lia)). lia.
  - intros Hd Hn. destruct n as [cs leaf name]. cbn [PrintTree childeren] in *.
    unfold extend_prefix. rewrite bool_decide_eq_true_2 by (unfold MAX_PATH; lia). simpl.
    by rewrite visit_children_null.
Qed.

Lemma PrintTreeNetwork_deep_overflow_witness :
  PrintTreeNetwork 4 (CreateNode "a") (replicate 249 false) None = Bad OutOfBounds /\
  (length (replicate 249 false) <= 254 -> forallb is_null (childeren (CreateNode "a")) = true ->
   PrintTree (CreateNode "a") (replicate 249 false) None =
     Val [concat (line_pieces (CreateNode "a") (replicate 249 false) None)]).
Proof. apply PrintTreeNetwork_deep_overflow. rewrite length_replicate. lia. Defined.
