(* ===== verification/Cache.v ===== *)
(** * The lookup cache of the naming server (naming_server.c: CacheEntry,
    LRUCache and the functions on the global [cache])

    An array of [CACHE_CAPACITY] entries used as a queue: the first [csize]
    entries are in use, the least recently used one first.  The operations
    are written with the array reads and writes of the code; the refinement
    relates them to operations on the list of the entries in use. *)
From S2P Require Export IO.

(** ** Data *)

Definition CACHE_CAPACITY : nat := 3.

Record CacheEntry := Entry { key : option bytes; index : Z }.

Record LRUCache := Cache { queue : list CacheEntry; csize : nat }.

Definition initialize_cache : LRUCache :=
  Cache (replicate CACHE_CAPACITY (Entry None (-1))) 0.

(** Array reads and writes of the code. *)
Definition read {A} (a : list A) (i : nat) : cres A :=
  match a !! i with
  | Some x => Val x
  | None => Undef OutOfBounds
  end.

Definition write {A} (a : list A) (i : nat) (x : A) : cres (list A) :=
  _ ← within (bool_decide (i < length a)); mret (<[i:=x]> a).

(** ** Operations *)

(** The loop of [search_cache] from entry [i] for [n] entries. *)
Fixpoint search_loop (q : list CacheEntry) (k : bytes) (n i : nat) : cres (option nat) :=
  match n with
  | O => mret None
  | S n' =>
      e ← read q i;
      k' ← nonnull (key e);
      if strcmp_eq k' k then mret (Some i) else search_loop q k n' (S i)
  end.

(** [search_cache]: the position of the key, [None] for -1. *)
Definition search_cache (k : bytes) (c : LRUCache) : cres (option nat) :=
  search_loop (queue c) k (csize c) 0.

(** [queue[i] = queue[i + 1]] for [n] values of [i]. *)
Fixpoint shift_left (q : list CacheEntry) (n i : nat) : cres (list CacheEntry) :=
  match n with
  | O => mret q
  | S n' =>
      e ← read q (S i);
      q' ← write q i e;
      shift_left q' n' (S i)
  end.

Definition evict_lru (c : LRUCache) : cres LRUCache :=
  if bool_decide (0 < csize c) then
    q ← shift_left (queue c) (csize c - 1) 0;
    mret (Cache q (csize c - 1))
  else mret c.

Definition add_to_cache (k : bytes) (v : Z) (c : LRUCache) : cres LRUCache :=
  c' ← (if bool_decide (csize c = CACHE_CAPACITY) then evict_lru c else mret c);
  q ← write (queue c') (csize c') (Entry (Some k) v);
  mret (Cache q (S (csize c'))).

Definition move_to_back (i : nat) (c : LRUCache) : cres LRUCache :=
  temp ← read (queue c) i;
  q ← shift_left (queue c) (csize c - 1 - i) i;
  q' ← write q (csize c - 1) temp;
  mret (Cache q' (csize c)).

(** [delete_from_cache]: the new cache, and whether [storage_semaphore] was
    posted, which the code does when the key is absent. *)
Definition delete_from_cache (k : bytes) (c : LRUCache) : cres (LRUCache * bool) :=
  i ← search_cache k c;
  match i with
  | None => mret (c, true)
  | Some i =>
      q ← shift_left (queue c) (csize c - 1 - i) i;
      mret (Cache q (csize c - 1), false)
  end.

(** ** The list of entries in use *)

Definition entry_of (x : bytes * Z) : CacheEntry := Entry (Some x.1) x.2.

Record cache_repr (c : LRUCache) (l : list (bytes * Z)) : Prop := {
  repr_room : length (queue c) = CACHE_CAPACITY;
  repr_size : csize c = length l;
  repr_entries : take (csize c) (queue c) = entry_of <$> l
}.

Fixpoint lru_find (k : bytes) (l : list (bytes * Z)) : option nat :=
  match l with
  | [] => None
  | x :: l' => if strcmp_eq x.1 k then Some 0 else S <$> lru_find k l'
  end.

Definition lru_evict (l : list (bytes * Z)) : list (bytes * Z) := tail l.

Definition lru_add (k : bytes) (v : Z) (l : list (bytes * Z)) : list (bytes * Z) :=
  (if bool_decide (length l = CACHE_CAPACITY) then lru_evict l else l) ++ [(k, v)].

Definition lru_touch (i : nat) (l : list (bytes * Z)) : list (bytes * Z) :=
  match l !! i with
  | Some x => delete i l ++ [x]
  | None => l
  end.

Lemma repr_bound c l : cache_repr c l -> length l <= CACHE_CAPACITY.
Proof.
  intros [Hr Hs He]. apply (f_equal length) in He.
  rewrite length_take, length_fmap in He. lia.
Qed.

Lemma repr_lookup c l i : cache_repr c l -> i < length l -> queue c !! i = entry_of <$> (l !! i).
Proof.
  intros [Hr Hs He] Hi. rewrite <- list_lookup_fmap, <- He.
  by rewrite lookup_take_lt by lia.
Qed.

(** A representation is determined entry by entry. *)
Lemma repr_intro c l :
  length (queue c) = CACHE_CAPACITY -> csize c = length l -> length l <= CACHE_CAPACITY ->
  (forall i x, l !! i = Some x -> queue c !! i = Some (entry_of x)) -> cache_repr c l.
Proof.
  intros Hr Hs Hl He. split; [done..|]. apply list_eq. intros i.
  rewrite list_lookup_fmap. destruct (decide (i < csize c)).
  - rewrite lookup_take_lt by done. destruct (lookup_lt_is_Some_2 l i) as [x Hx]; [lia|].
    by rewrite Hx, (He i x).
  - rewrite lookup_take_ge by lia. by rewrite lookup_ge_None_2 by lia.
Qed.

Lemma repr_initialize : cache_repr initialize_cache [].
Proof. apply repr_intro; [done|done|simpl; lia|done]. Qed.

(** ** The loops *)

Lemma search_loop_spec q k l n i :
  (forall j x, l !! j = Some x -> q !! (i + j) = Some (entry_of x)) -> n = length l ->
  search_loop q k n i = Val ((fun j => i + j) <$> lru_find k l).
Proof.
  revert n i; induction l as [|x l IH]; intros n i He ->; [done|]. cbn [length search_loop lru_find].
  unfold read. pose proof (He 0 x eq_refl) as H0. rewrite Nat.add_0_r in H0. rewrite H0.
  simpl. destruct (strcmp_eq x.1 k); simpl; [by rewrite Nat.add_0_r|].
  rewrite (IH (length l) (S i)); [| |done].
  - f_equal. destruct (lru_find k l); simpl; [f_equal; lia | done].
  - intros j y Hj. rewrite <- (He (S j) y Hj). f_equal. lia.
Qed.

Lemma shift_left_spec q n i :
  i + n < length q ->
  exists q', shift_left q n i = Val q' /\ length q' = length q /\
    forall j, q' !! j = if bool_decide (i <= j < i + n) then q !! S j else q !! j.
Proof.
  revert q i; induction n as [|n IH]; intros q i Hl; cbn [shift_left].
  - exists q. repeat split. intros j. by rewrite bool_decide_eq_false_2 by lia.
  - destruct (lookup_lt_is_Some_2 q (S i)) as [e He]; [lia|].
    unfold read, write. rewrite He. simpl. rewrite bool_decide_eq_true_2 by lia. simpl.
    destruct (IH (<[i:=e]> q) (S i)) as (q' & -> & Hlen & Hq'); [rewrite length_insert; lia|].
    exists q'. split; [done|]. split; [by rewrite Hlen, length_insert|]. intros j. rewrite Hq'.
    destruct (decide (j = i)) as [->|Hj].
    + repeat case_bool_decide; try lia. rewrite list_lookup_insert_eq by lia. done.
    + repeat case_bool_decide; try lia; by rewrite list_lookup_insert_ne by lia.
Qed.

(** ** Each operation refines the list operation *)

Lemma search_cache_repr c l k : cache_repr c l -> search_cache k c = Val (lru_find k l).
Proof.
  intros Hc. unfold search_cache. rewrite (search_loop_spec _ k l); [| |apply Hc].
  - by destruct (lru_find k l).
  - intros j x Hj. pose proof (lookup_lt_Some _ _ _ Hj).
    simpl. rewrite (repr_lookup c l j Hc) by done. by rewrite Hj.
Qed.

Lemma lru_find_lt k l i : lru_find k l = Some i -> i < length l.
Proof.
  revert i; induction l as [|x l IH]; intros i; simpl; [done|].
  destruct (strcmp_eq x.1 k); [intros [= <-]; lia|].
  destruct (lru_find k l) as [j|]; [|done]. intros [= <-]. specialize (IH j eq_refl). lia.
Qed.

(** Removing entry [i] by the shift, as [evict_lru] ([i = 0]) and
    [delete_from_cache] do. *)
Lemma shift_remove c l i :
  cache_repr c l -> i < length l ->
  exists q, shift_left (queue c) (csize c - 1 - i) i = Val q /\
    length q = CACHE_CAPACITY /\ cache_repr (Cache q (csize c - 1)) (delete i l).
Proof.
  intros Hc Hi. pose proof (repr_bound _ _ Hc) as Hb.
  pose proof (repr_size _ _ Hc) as Hs. pose proof (repr_room _ _ Hc) as Hr.
  destruct (shift_left_spec (queue c) (csize c - 1 - i) i) as (q & -> & Hq & Hl); [lia|].
  exists q. split; [done|]. split; [congruence|].
  assert (length (delete i l) = length l - 1) as Hd by (rewrite length_delete; [lia|by apply lookup_lt_is_Some_2]).
  apply repr_intro; simpl; [congruence|lia|lia|].
  intros j x Hj. pose proof (lookup_lt_Some _ _ _ Hj). rewrite Hl.
  case_bool_decide.
  - rewrite list_lookup_delete_ge in Hj by lia.
    rewrite (repr_lookup c l) by (done || lia). by rewrite Hj.
  - rewrite list_lookup_delete_lt in Hj by lia.
    rewrite (repr_lookup c l) by (done || lia). by rewrite Hj.
Qed.

Lemma evict_lru_repr c l :
  cache_repr c l -> exists c', evict_lru c = Val c' /\ cache_repr c' (lru_evict l).
Proof.
  intros Hc. unfold evict_lru. pose proof (repr_size _ _ Hc) as Hs.
  case_bool_decide as H0.
  - destruct (shift_remove c l 0 Hc) as (q & Hq & _ & Hc'); [lia|].
    rewrite Nat.sub_0_r in Hq. rewrite Hq. simpl. eexists. split; [done|].
    by destruct l.
  - exists c. split; [done|]. destruct l; [done | simpl in *; lia].
Qed.

(** Appending behind the entries in use. *)
Lemma append_repr c l x :
  cache_repr c l -> length l < CACHE_CAPACITY ->
  exists q, write (queue c) (csize c) (entry_of x) = Val q /\
    cache_repr (Cache q (S (csize c))) (l ++ [x]).
Proof.
  intros Hc Hlt. pose proof (repr_size _ _ Hc) as Hs. pose proof (repr_room _ _ Hc) as Hr.
  unfold write. rewrite bool_decide_eq_true_2 by lia. simpl. eexists. split; [done|].
  apply repr_intro; simpl; rewrite ?length_insert, ?length_app; simpl; try lia.
  intros i y Hi. destruct (decide (i = csize c)) as [->|].
  - rewrite list_lookup_insert_eq by lia. rewrite Hs, list_lookup_middle in Hi by done. congruence.
  - rewrite list_lookup_insert_ne by done.
    pose proof (lookup_lt_Some _ _ _ Hi) as Hl. rewrite length_app in Hl. simpl in Hl.
    rewrite lookup_app_l in Hi by lia. rewrite (repr_lookup c l) by (done || lia). by rewrite Hi.
Qed.

Lemma add_to_cache_repr c l k v :
  cache_repr c l -> exists c', add_to_cache k v c = Val c' /\ cache_repr c' (lru_add k v l).
Proof.
  intros Hc. unfold add_to_cache, lru_add. rewrite <- (repr_size _ _ Hc).
  pose proof (repr_bound _ _ Hc) as Hb. pose proof (repr_size _ _ Hc) as Hs.
  case_bool_decide as Hfull.
  - destruct (evict_lru_repr c l Hc) as (c' & -> & Hc'). simpl.
    destruct (append_repr c' (lru_evict l) (k, v) Hc') as (q & Hq & Hc'').
    { unfold lru_evict. destruct l; simpl in *; unfold CACHE_CAPACITY in *; lia. }
    change (Entry (Some k) v) with (entry_of (k, v)). rewrite Hq. simpl. eauto.
  - simpl. destruct (append_repr c l (k, v) Hc) as (q & Hq & Hc''); [lia|].
    change (Entry (Some k) v) with (entry_of (k, v)). rewrite Hq. simpl. eauto.
Qed.

Lemma move_to_back_repr c l i :
  cache_repr c l -> i < length l ->
  exists c', move_to_back i c = Val c' /\ cache_repr c' (lru_touch i l).
Proof.
  intros Hc Hi. unfold move_to_back, lru_touch, read.
  destruct (lookup_lt_is_Some_2 l i Hi) as [x Hx]. rewrite Hx.
  rewrite (repr_lookup c l i Hc Hi), Hx. simpl.
  pose proof (repr_size _ _ Hc) as Hs. pose proof (repr_bound _ _ Hc) as Hb.
  destruct (shift_remove c l i Hc Hi) as (q & -> & Hq & Hc'). simpl.
  assert (length (delete i l) = length l - 1) as Hd by (rewrite length_delete; [lia|by eauto]).
  destruct (append_repr _ _ x Hc') as (q' & Hq' & Hc''); [lia|]. simpl in Hq'. rewrite Hq'.
  simpl. eexists. split; [done|]. simpl in Hc''.
  replace (csize c) with (S (csize c - 1)) by lia. done.
Qed.

Lemma delete_from_cache_repr c l k :
  cache_repr c l ->
  exists c' posted, delete_from_cache k c = Val (c', posted) /\
    match lru_find k l with
    | Some i => posted = false /\ cache_repr c' (delete i l)
    | None => posted = true /\ c' = c
    end.
Proof.
  intros Hc. unfold delete_from_cache. rewrite (search_cache_repr _ _ _ Hc). simpl.
  destruct (lru_find k l) as [i|] eqn:Hf.
  - apply lru_find_lt in Hf. destruct (shift_remove c l i Hc Hf) as (q & -> & _ & Hc').
    simpl. eauto.
  - simpl. eauto.
Qed.

(** ** Sequences of uses *)

(** What the naming server does with the cache: a lookup that fills it on a
    miss ([search_storage_server]), an unconditional insertion (the mkdir and
    touch branch), a deletion (the rmdir and rm branch). *)
Inductive cache_op :=
  | Access (k : bytes) (v : Z)
  | Insert (k : bytes) (v : Z)
  | Remove (k : bytes).

Definition cache_step (o : cache_op) (c : LRUCache) : cres LRUCache :=
  match o with
  | Access k v =>
      i ← search_cache k c;
      match i with Some i => move_to_back i c | None => add_to_cache k v c end
  | Insert k v => add_to_cache k v c
  | Remove k => fst <$> delete_from_cache k c
  end.

Definition lru_step (o : cache_op) (l : list (bytes * Z)) : list (bytes * Z) :=
  match o with
  | Access k v => match lru_find k l with Some i => lru_touch i l | None => lru_add k v l end
  | Insert k v => lru_add k v l
  | Remove k => match lru_find k l with Some i => delete i l | None => l end
  end.

Fixpoint cache_run (os : list cache_op) (c : LRUCache) : cres LRUCache :=
  match os with
  | [] => Val c
  | o :: os' => c' ← cache_step o c; cache_run os' c'
  end.

Definition lru_run (os : list cache_op) (l : list (bytes * Z)) : list (bytes * Z) :=
  foldl (fun l o => lru_step o l) l os.

Lemma cache_step_repr o c l :
  cache_repr c l -> exists c', cache_step o c = Val c' /\ cache_repr c' (lru_step o l).
Proof.
  intros Hc. destruct o as [k v|k v|k]; simpl.
  - rewrite (search_cache_repr _ _ _ Hc). simpl.
    destruct (lru_find k l) eqn:Hf; [|by apply add_to_cache_repr].
    apply move_to_back_repr; [done|]. by eapply lru_find_lt.
  - by apply add_to_cache_repr.
  - destruct (delete_from_cache_repr c l k Hc) as (c' & posted & -> & Hm). simpl.
    exists c'. split; [done|]. destruct (lru_find k l); by destruct Hm as [_ ?]; subst.
Qed.

Lemma cache_run_repr os c l :
  cache_repr c l -> exists c', cache_run os c = Val c' /\ cache_repr c' (lru_run os l).
Proof.
  revert c l; induction os as [|o os IH]; intros c l Hc; simpl; [eauto|].
  destruct (cache_step_repr o c l Hc) as (c' & -> & Hc'). simpl. by apply IH.
Qed.

(** ** Recency *)

(** The distinct keys of an access sequence, ordered by their last use. *)
Definition use_key (d : list bytes) (k : bytes) : list bytes :=
  filter (fun k' => k' <> k) d ++ [k].

Definition by_recency (ks : list bytes) : list bytes := foldl use_key [] ks.

Definition last_n {A} (n : nat) (l : list A) : list A := drop (length l - n) l.

Lemma last_n_app {A} n (a b : list A) : length b <= n -> last_n n (a ++ b) = last_n (n - length b) a ++ b.
Proof.
  intros Hb. unfold last_n. rewrite length_app, drop_app.
  f_equal; [f_equal; lia|]. replace (length a + length b - n - length a) with 0 by lia. done.
Qed.

Lemma last_n_ge {A} n (l : list A) : length l <= n -> last_n n l = l.
Proof. intros H. unfold last_n. by replace (length l - n) with 0 by lia. Qed.

Lemma last_n_0 {A} (l : list A) : last_n 0 l = [].
Proof. unfold last_n. by rewrite Nat.sub_0_r, drop_all. Qed.

Lemma lru_find_None k l : lru_find k l = None <-> k ∉ l.*1.
Proof.
  induction l as [|x l IH]; cbn [lru_find fmap list_fmap].
  - split; [intros _; apply not_elem_of_nil | done].
  - rewrite not_elem_of_cons. destruct (strcmp_eq x.1 k) eqn:Hx.
    + apply strcmp_eq_true in Hx. split; [done | by intros [? _]].
    + assert (k <> x.1) by (intros ->; by rewrite strcmp_eq_refl in Hx).
      destruct (lru_find k l); simpl.
      * split; [done|]. intros [_ Hk]. by apply IH in Hk.
      * split; [|done]. intros _. split; [done | by apply IH].
Qed.

Lemma lru_find_app k l l' i : lru_find k l = Some i -> lru_find k (l ++ l') = Some i.
Proof.
  revert i; induction l as [|x l IH]; intros i; simpl; [done|].
  destruct (strcmp_eq x.1 k); [done|].
  destruct (lru_find k l) as [j|]; [|done]. intros [= <-]. by rewrite (IH j eq_refl).
Qed.

Lemma lru_find_Some k l i : lru_find k l = Some i -> l.*1 !! i = Some k.
Proof.
  revert i; induction l as [|x l IH]; intros i; simpl; [done|].
  destruct (strcmp_eq x.1 k) eqn:Hx.
  - intros [= <-]. simpl. f_equal. by apply strcmp_eq_true.
  - destruct (lru_find k l) as [j|]; [|done]. intros [= <-]. by apply IH.
Qed.

(** With distinct elements, removing a position is removing the element. *)
Lemma delete_filter (l : list bytes) i k :
  NoDup l -> l !! i = Some k -> delete i l = filter (fun k' => k' <> k) l.
Proof.
  revert i; induction l as [|x l IH]; intros [|i] Hnd Hi; simplify_eq/=.
  - apply NoDup_cons in Hnd as [Hk Hnd]. rewrite filter_cons, decide_False by tauto.
    symmetry. by apply filter_not_elem_of.
  - apply NoDup_cons in Hnd as [Hx Hnd]. rewrite filter_cons, decide_True.
    + f_equal. by apply IH.
    + intros ->. apply Hx. by eapply list_elem_of_lookup_2.
Qed.

Definition access (l : list (bytes * Z)) (x : bytes * Z) : list (bytes * Z) :=
  lru_step (Access x.1 x.2) l.

Lemma keys_touch l i k :
  NoDup l.*1 -> lru_find k l = Some i ->
  (lru_touch i l).*1 = filter (fun k' => k' <> k) l.*1 ++ [k].
Proof.
  intros Hnd Hf. pose proof (lru_find_Some _ _ _ Hf) as Hi. unfold lru_touch.
  rewrite <- (delete_filter _ i) by done.
  rewrite list_lookup_fmap in Hi. destruct (l !! i) as [x|] eqn:Hx; [|done].
  rewrite fmap_app, list_fmap_delete. simpl in *. by simplify_eq.
Qed.

Lemma NoDup_use_key d k : NoDup d -> NoDup (use_key d k).
Proof.
  intros Hd. apply NoDup_app. split; [by apply NoDup_filter|]. split; [|apply NoDup_singleton].
  intros x [Hx _]%list_elem_of_filter. by rewrite list_elem_of_singleton.
Qed.

(** One access keeps the cached keys the three most recently used ones. *)
Lemma access_recency l d x :
  NoDup d -> l.*1 = last_n CACHE_CAPACITY d ->
  (access l x).*1 = last_n CACHE_CAPACITY (use_key d x.1).
Proof.
  intros Hd Hl. unfold access, use_key. cbn [lru_step].
  rewrite last_n_app by (simpl; unfold CACHE_CAPACITY; lia).
  assert (d = take (length d - CACHE_CAPACITY) d ++ l.*1) as Hsplit
    by (rewrite Hl; unfold last_n; by rewrite take_drop).
  set (a := take _ _) in Hsplit. clearbody a.
  assert (length a = length d - length l.*1) as Ha
    by (apply (f_equal length) in Hsplit; rewrite length_app in Hsplit; lia).
  assert (length l.*1 = Nat.min CACHE_CAPACITY (length d)) as Hlen
    by (rewrite Hl; unfold last_n; rewrite length_drop; lia).
  rewrite Hsplit in Hd. apply NoDup_app in Hd as (Hda & Hdis & Hdl).
  rewrite Hsplit, filter_app.
  destruct (lru_find x.1 l) as [i|] eqn:Hf.
  - rewrite (keys_touch _ _ x.1) by done. f_equal.
    pose proof (lru_find_Some _ _ _ Hf) as Hi.
    pose proof (delete_filter _ _ _ Hdl Hi) as Hdel.
    rewrite (filter_not_elem_of x.1 a).
    2: { intros Hin. by apply (Hdis x.1 Hin), list_elem_of_lookup_2 with i. }
    assert (length (filter (fun k' => k' <> x.1) l.*1) = length l.*1 - 1) as Hfl.
    { rewrite <- Hdel, length_delete by eauto. lia. }
    rewrite last_n_app by (rewrite Hfl; unfold CACHE_CAPACITY in *; simpl; lia). simpl.
    rewrite Hfl. destruct a as [|y a]; [by unfold last_n|].
    simpl in Ha. pose proof (lookup_lt_Some _ _ _ Hi). unfold CACHE_CAPACITY in *.
    replace (3 - 1 - (length l.*1 - 1)) with 0 by lia. by rewrite last_n_0.
  - apply lru_find_None in Hf. rewrite (filter_not_elem_of _ l.*1) by done.
    unfold lru_add, lru_evict. rewrite fmap_app. simpl. f_equal.
    rewrite length_fmap in *. unfold CACHE_CAPACITY in *. case_bool_decide as Hfull.
    + destruct l as [|y l]; [done|]. simpl in Hfull. simpl.
      change (?b ++ y.1 :: ?c) with (b ++ [y.1] ++ l.*1).
      rewrite app_assoc, last_n_app by (rewrite length_fmap; lia).
      rewrite length_fmap. replace (2 - length l) with 0 by lia.
      by rewrite last_n_0.
    + rewrite last_n_ge; [|rewrite length_app, length_fmap].
      * destruct a; [done | simpl in Ha; lia].
      * destruct a; [|simpl in Ha; lia]. change (length (filter _ [])) with 0. lia.
Qed.

Lemma access_run_recency xs l d :
  NoDup d -> l.*1 = last_n CACHE_CAPACITY d ->
  (foldl access l xs).*1 = last_n CACHE_CAPACITY (foldl use_key d xs.*1).
Proof.
  revert l d; induction xs as [|x xs IH]; intros l d Hd Hl; [done|]. simpl.
  apply IH; [by apply NoDup_use_key | by apply access_recency].
Qed.

Lemma lru_run_Access xs l : lru_run ((fun x => Access x.1 x.2) <$> xs) l = foldl access l xs.
Proof. revert l; induction xs as [|x xs IH]; intros l; [done|]. apply IH. Qed.

Lemma lru_find_app_last k v l : lru_find k (l ++ [(k, v)]) <> None.
Proof.
  rewrite lru_find_None, fmap_app, not_elem_of_app. intros [_ H]. apply H.
  apply list_elem_of_singleton. done.
Qed.

(** Inserting a key twice leaves it in the list after one removal. *)
Lemma lru_remove_duplicate k v v' l :
  length l <= CACHE_CAPACITY ->
  lru_find k (lru_run [Insert k v; Insert k v'; Remove k] l) <> None.
Proof.
  intros Hl. cbn [lru_run foldl lru_step].
  set (l1 := lru_add k v l).
  assert (exists l0, l1 = l0 ++ [(k, v)] /\ length l0 < CACHE_CAPACITY) as (l0 & -> & Hl0).
  { unfold l1, lru_add, lru_evict, CACHE_CAPACITY in *.
    case_bool_decide; eexists; (split; [done|]); [destruct l; simpl in *; lia | lia]. }
  unfold lru_add, lru_evict.
  set (m := if bool_decide _ then _ else _).
  assert (exists m0, m = m0 ++ [(k, v)]) as [m0 ->].
  { unfold m. case_bool_decide as Hf; [|by eexists].
    rewrite length_app in Hf. simpl in Hf. unfold CACHE_CAPACITY in *.
    destruct l0 as [|y l0]; [simpl in Hf; lia|]. by exists l0. }
  destruct (lru_find k ((m0 ++ [(k, v)]) ++ [(k, v')])) as [i|] eqn:Hf;
    [|apply lru_find_None in Hf; rewrite !fmap_app in Hf; set_solver].
  assert (i <= length m0) as Hi.
  { pose proof (lru_find_app_last k v m0) as Hs.
    destruct (lru_find k (m0 ++ [(k, v)])) as [j|] eqn:Hj; [|done].
    pose proof (lru_find_lt _ _ _ Hj) as Hlt. rewrite length_app in Hlt. simpl in Hlt.
    rewrite (lru_find_app _ _ _ _ Hj) in Hf. injection Hf as <-. lia. }
  rewrite delete_take_drop, drop_app_le by (rewrite length_app; simpl; lia).
  rewrite app_assoc. apply lru_find_app_last.
Qed.

(** ** Properties of the cache *)

(** C13. The array implements a bounded list: for every sequence of lookups,
    insertions and deletions from the initial cache, no operation reads or
    writes outside the array or follows a null key, at most [CACHE_CAPACITY]
    entries are in use, and they are the entries of the same operations on
    lists, in the same order. *)
Theorem cache_refines_list os :
  exists c, cache_run os initialize_cache = Val c /\
    csize c <= CACHE_CAPACITY /\
    take (csize c) (queue c) = entry_of <$> lru_run os [] /\
    forall k, search_cache k c = Val (lru_find k (lru_run os [])).
Proof.
  destruct (cache_run_repr os _ _ repr_initialize) as (c & Hc & Hr).
  exists c. split; [done|]. split; [|split].
  - rewrite (repr_size _ _ Hr). by eapply repr_bound.
  - apply Hr.
  - intros k. by apply search_cache_repr.
Qed.

(** C18. The eviction policy: as long as the cache is only used by lookups
    that fill it on a miss, the keys in it are the three most recently used
    distinct keys, the oldest use first. *)
Theorem cache_keeps_most_recent xs :
  exists c, cache_run ((fun x => Access x.1 x.2) <$> xs) initialize_cache = Val c /\
    key <$> take (csize c) (queue c) =
      Some <$> last_n CACHE_CAPACITY (by_recency xs.*1).
Proof.
  destruct (cache_run_repr ((fun x => Access x.1 x.2) <$> xs) _ _ repr_initialize)
    as (c & Hc & Hr).
  exists c. split; [done|]. rewrite (repr_entries _ _ Hr), lru_run_Access.
  unfold by_recency. rewrite <- (access_run_recency xs [] []) by (done || constructor).
  rewrite <- !list_fmap_compose. by apply list_fmap_ext.
Qed.

(** The mkdir and touch branch inserts without looking first: a path
    inserted twice and then deleted once is still found in the cache, whatever
    the cache held before. *)
Theorem cache_duplicate_survives_delete os k v v' :
  exists c i, cache_run (os ++ [Insert k v; Insert k v'; Remove k]) initialize_cache = Val c /\
    search_cache k c = Val (Some i).
Proof.
  destruct (cache_run_repr (os ++ [Insert k v; Insert k v'; Remove k]) _ _ repr_initialize)
    as (c & Hc & Hr).
  unfold lru_run in Hr. rewrite foldl_app in Hr. fold (lru_run os []) in Hr.
  assert (length (lru_run os []) <= CACHE_CAPACITY) as Hl.
  { destruct (cache_run_repr os _ _ repr_initialize) as (c0 & _ & Hr0). by eapply repr_bound. }
  pose proof (lru_remove_duplicate k v v' _ Hl) as Hf.
  exists c. rewrite (search_cache_repr _ _ k Hr).
  destruct (lru_find k _) as [i|] eqn:Hi; [by exists i | by rewrite <- Hi in Hf].
Qed.
