(* ===== verification/Lock.v ===== *)
(** * The per-file lock of the storage servers (lock.c, lock.h)

    A [Lock_Struct] is a mutex, a condition variable and three counters; the
    six operations are run by any number of threads.  The model interleaves
    the threads at every point where another one can run: at the mutex, in
    [pthread_cond_wait], and between an acquire and its release.  [step] is
    the transition relation; [fire] the same transitions as a function, for
    running concrete schedules. *)
From S2P Require Export IO.

Open Scope Z_scope.

(** ** Data *)

(** The three pairs of operations: read, write and delete. *)
Inductive mode := Rd | Wr | Dl.

#[export] Instance mode_eq_dec : EqDecision mode.
Proof. solve_decision. Defined.

(** Where a thread stands with respect to one lock. *)
Inductive pc :=
  | Idle                  (** outside *)
  | AtLock (m : mode)     (** acquire called, at [pthread_mutex_lock] *)
  | AtTest (m : mode)     (** holds the mutex, at the [while] condition *)
  | Waiting (m : mode)    (** in [pthread_cond_wait], mutex released *)
  | Signalled (m : mode)  (** woken, must take the mutex again *)
  | Acquired (m : mode)   (** counters updated, at [pthread_mutex_unlock] *)
  | Holding (m : mode)    (** acquire has returned *)
  | AtRelease (m : mode)  (** release called, at [pthread_mutex_lock] *)
  | Releasing (m : mode)  (** holds the mutex, counters not yet updated *)
  | Released.             (** updated and signalled, at [pthread_mutex_unlock] *)

#[export] Instance pc_eq_dec : EqDecision pc.
Proof. solve_decision. Defined.

Record Lock_Struct := Lock {
  mutex : option nat;     (** the thread that holds it *)
  readers : Z;
  is_writing : Z;
  is_deleting : Z;
  threads : list pc
}.

(** [init_lock], with [n] threads that may come to use the lock. *)
Definition init_lock (n : nat) : Lock_Struct := Lock None 0 0 0 (replicate n Idle).

(** ** The operations *)

(** The [while] conditions of the acquire functions. *)
Definition must_wait (m : mode) (s : Lock_Struct) : bool :=
  match m with
  | Rd => negb (is_writing s =? 0) || negb (is_deleting s =? 0)
  | Wr | Dl => negb (is_writing s =? 0) || negb (is_deleting s =? 0) || (0 <? readers s)
  end.

(** The counter updates after the loop. *)
Definition acquire (m : mode) (s : Lock_Struct) : Lock_Struct :=
  match m with
  | Rd => Lock (mutex s) (readers s + 1) (is_writing s) (is_deleting s) (threads s)
  | Wr => Lock (mutex s) (readers s) 1 (is_deleting s) (threads s)
  | Dl => Lock (mutex s) (readers s) (is_writing s) 1 (threads s)
  end.

(** The counter updates of the release functions. *)
Definition release (m : mode) (s : Lock_Struct) : Lock_Struct :=
  match m with
  | Rd => Lock (mutex s) (readers s - 1) (is_writing s) (is_deleting s) (threads s)
  | Wr => Lock (mutex s) (readers s) 0 (is_deleting s) (threads s)
  | Dl => Lock (mutex s) (readers s) (is_writing s) 0 (threads s)
  end.

Inductive wake := NoWake | Signal | Broadcast.

#[export] Instance wake_eq_dec : EqDecision wake.
Proof. solve_decision. Defined.

(** What a release does to the condition variable, given the state after its
    counter update: the last reader signals, a writer signals, a deleter
    broadcasts. *)
Definition wakes (m : mode) (s : Lock_Struct) : wake :=
  match m with
  | Rd => if readers s =? 0 then Signal else NoWake
  | Wr => Signal
  | Dl => Broadcast
  end.

Definition is_waiting (p : pc) : bool := match p with Waiting _ => true | _ => false end.

Definition wake_pc (p : pc) : pc := match p with Waiting m => Signalled m | _ => p end.

(** [pthread_cond_signal] wakes one of the waiting threads, if there is one;
    [pthread_cond_broadcast] wakes all. *)
Inductive woken : wake -> list pc -> list pc -> Prop :=
  | woken_not ts : woken NoWake ts ts
  | woken_none ts : (forall j m, ts !! j <> Some (Waiting m)) -> woken Signal ts ts
  | woken_one ts j m : ts !! j = Some (Waiting m) -> woken Signal ts (<[j:=Signalled m]> ts)
  | woken_all ts : woken Broadcast ts (wake_pc <$> ts).

Definition set_thread (i : nat) (p : pc) (s : Lock_Struct) : Lock_Struct :=
  Lock (mutex s) (readers s) (is_writing s) (is_deleting s) (<[i:=p]> (threads s)).

Definition set_mutex (o : option nat) (s : Lock_Struct) : Lock_Struct :=
  Lock o (readers s) (is_writing s) (is_deleting s) (threads s).

Definition set_threads (ts : list pc) (s : Lock_Struct) : Lock_Struct :=
  Lock (mutex s) (readers s) (is_writing s) (is_deleting s) ts.

(** Steps of the lock functions themselves ([internal]); the flag tells them
    from the calls of an acquire, which a thread may never make, and from the
    spurious wake-ups POSIX allows. *)
Inductive step : bool -> Lock_Struct -> Lock_Struct -> Prop :=
  | step_call s i m :
      threads s !! i = Some Idle ->
      step false s (set_thread i (AtLock m) s)
  | step_spurious s i m :
      threads s !! i = Some (Waiting m) ->
      step false s (set_thread i (Signalled m) s)
  | step_lock s i m :
      threads s !! i = Some (AtLock m) -> mutex s = None ->
      step true s (set_mutex (Some i) (set_thread i (AtTest m) s))
  | step_relock s i m :
      threads s !! i = Some (Signalled m) -> mutex s = None ->
      step true s (set_mutex (Some i) (set_thread i (AtTest m) s))
  | step_wait s i m :
      threads s !! i = Some (AtTest m) -> must_wait m s = true ->
      step true s (set_mutex None (set_thread i (Waiting m) s))
  | step_enter s i m :
      threads s !! i = Some (AtTest m) -> must_wait m s = false ->
      step true s (set_thread i (Acquired m) (acquire m s))
  | step_unlock s i m :
      threads s !! i = Some (Acquired m) ->
      step true s (set_mutex None (set_thread i (Holding m) s))
  | step_release_call s i m :
      threads s !! i = Some (Holding m) ->
      step true s (set_thread i (AtRelease m) s)
  | step_release_lock s i m :
      threads s !! i = Some (AtRelease m) -> mutex s = None ->
      step true s (set_mutex (Some i) (set_thread i (Releasing m) s))
  | step_release s i m ts :
      threads s !! i = Some (Releasing m) ->
      woken (wakes m (release m s)) (<[i:=Released]> (threads s)) ts ->
      step true s (set_threads ts (release m s))
  | step_release_unlock s i :
      threads s !! i = Some Released ->
      step true s (set_mutex None (set_thread i Idle s)).

Definition any_step (s s' : Lock_Struct) : Prop := exists b, step b s s'.

Definition reachable (n : nat) (s : Lock_Struct) : Prop := rtc any_step (init_lock n) s.

(** ** Running a schedule *)

(** A scheduler's choice for thread [i]: call an acquire, wake up spuriously,
    or go on; a release that signals picks [j] among the waiting threads. *)
Inductive choice := Call (m : mode) | Spurious | Go (j : nat).

Definition fire_wake (w : wake) (j : nat) (ts : list pc) : option (list pc) :=
  match w with
  | NoWake => Some ts
  | Broadcast => Some (wake_pc <$> ts)
  | Signal =>
      if existsb is_waiting ts
      then match ts !! j with Some (Waiting m) => Some (<[j:=Signalled m]> ts) | _ => None end
      else Some ts
  end.

Definition fire (s : Lock_Struct) (ic : nat * choice) : option Lock_Struct :=
  let '(i, c) := ic in
  let free := bool_decide (mutex s = None) in
  match threads s !! i, c with
  | Some Idle, Call m => Some (set_thread i (AtLock m) s)
  | Some (Waiting m), Spurious => Some (set_thread i (Signalled m) s)
  | Some (AtLock m), Go _ | Some (Signalled m), Go _ =>
      if free then Some (set_mutex (Some i) (set_thread i (AtTest m) s)) else None
  | Some (AtTest m), Go _ =>
      if must_wait m s then Some (set_mutex None (set_thread i (Waiting m) s))
      else Some (set_thread i (Acquired m) (acquire m s))
  | Some (Acquired m), Go _ => Some (set_mutex None (set_thread i (Holding m) s))
  | Some (Holding m), Go _ => Some (set_thread i (AtRelease m) s)
  | Some (AtRelease m), Go _ =>
      if free then Some (set_mutex (Some i) (set_thread i (Releasing m) s)) else None
  | Some (Releasing m), Go j =>
      ts ← fire_wake (wakes m (release m s)) j (<[i:=Released]> (threads s));
      Some (set_threads ts (release m s))
  | Some Released, Go _ => Some (set_mutex None (set_thread i Idle s))
  | _, _ => None
  end.

Fixpoint fire_all (s : Lock_Struct) (cs : list (nat * choice)) : option Lock_Struct :=
  match cs with
  | [] => Some s
  | c :: cs' => s' ← fire s c; fire_all s' cs'
  end.

Lemma fire_wake_sound w j ts ts' : fire_wake w j ts = Some ts' -> woken w ts ts'.
Proof.
  destruct w; simpl; [intros [= <-]; constructor| |intros [= <-]; constructor].
  destruct (existsb is_waiting ts) eqn:Hw.
  - destruct (ts !! j) as [[]|] eqn:Hj; try done. intros [= <-]. by constructor.
  - intros [= <-]. constructor. intros k m Hk. apply not_true_iff_false in Hw. apply Hw.
    apply existsb_exists. exists (Waiting m). split; [|done].
    apply list_elem_of_In. by eapply list_elem_of_lookup_2.
Qed.

Lemma fire_sound s c s' : fire s c = Some s' -> any_step s s'.
Proof.
  destruct c as [i c]. unfold fire, any_step.
  destruct (threads s !! i) as [p|] eqn:Hp; [|done].
  destruct p, c; try done; repeat case_bool_decide; try destruct (must_wait _ _) eqn:Hw;
    intros H'; simplify_eq; eauto using step.
  apply bind_Some in H' as (ts & Hts & [= <-]). eauto using step, fire_wake_sound.
Qed.

Lemma fire_all_sound s cs s' : fire_all s cs = Some s' -> rtc any_step s s'.
Proof.
  revert s; induction cs as [|c cs IH]; intros s; simpl; [by intros [= <-]|].
  intros (s1 & Hs1 & Hr)%bind_Some. eapply rtc_l; [by eapply fire_sound | by apply IH].
Qed.

(** ** The invariant *)

Definition in_mutex (p : pc) : bool :=
  match p with AtTest _ | Acquired _ | Releasing _ | Released => true | _ => false end.

(** From the counter update of an acquire to that of the release. *)
Definition holds (m : mode) (p : pc) : bool :=
  match p with
  | Acquired m' | Holding m' | AtRelease m' | Releasing m' => bool_decide (m = m')
  | _ => false
  end.

(** Woken or newly arrived, and about to look at the counters. *)
Definition in_transit (p : pc) : bool :=
  match p with Signalled _ | AtTest _ => true | _ => false end.

Record lock_inv (s : Lock_Struct) : Prop := {
  inv_owner : forall i, mutex s = Some i -> exists p, threads s !! i = Some p /\ in_mutex p = true;
  inv_mutex : forall i p, threads s !! i = Some p -> in_mutex p = true -> mutex s = Some i;
  inv_readers : readers s = count (holds Rd) (threads s);
  inv_writing : is_writing s = count (holds Wr) (threads s);
  inv_deleting : is_deleting s = count (holds Dl) (threads s);
  inv_exclusive : is_writing s + is_deleting s = 0 \/
                  (is_writing s + is_deleting s = 1 /\ readers s = 0);
  inv_wake : count is_waiting (threads s) = 0 \/ 1 <= count in_transit (threads s) \/
             1 <= readers s + is_writing s + is_deleting s
}.

Lemma count_replicate_Idle f n : f Idle = false -> count f (replicate n Idle) = 0.
Proof. intros Hf. induction n as [|n IH]; simpl; [done|]. rewrite Hf. lia. Qed.

Lemma lock_inv_init n : lock_inv (init_lock n).
Proof.
  split; simpl; rewrite ?count_replicate_Idle by done; try lia; try done.
  intros i p [-> _]%lookup_replicate. done.
Qed.

(** The mutex part under one update of thread [i]. *)
Lemma owner_set s i p q o :
  lock_inv s -> threads s !! i = Some p ->
  (in_mutex q = true /\ o = Some i /\ (mutex s = None \/ mutex s = Some i)) \/
  (in_mutex q = false /\ in_mutex p = true /\ o = None) \/
  (in_mutex q = false /\ in_mutex p = false /\ o = mutex s) ->
  (forall k, o = Some k -> exists r, <[i:=q]> (threads s) !! k = Some r /\ in_mutex r = true) /\
  (forall k r, <[i:=q]> (threads s) !! k = Some r -> in_mutex r = true -> o = Some k).
Proof.
  intros Hi Hp Hq. pose proof (lookup_lt_Some _ _ _ Hp) as Hlt.
  assert (forall k r, k <> i -> threads s !! k = Some r -> in_mutex r = true ->
            mutex s = Some k) as Hothers by (intros; by eapply inv_mutex).
  split.
  - intros k ->. destruct Hq as [(Hq & [= ->] & _)|[(_ & _ & ?)|(_ & Hpm & Ho)]]; [|done|].
    + exists q. by rewrite list_lookup_insert_eq.
    + destruct (inv_owner _ Hi k) as (r & Hr & Hm); [done|]. exists r.
      rewrite list_lookup_insert_ne; [done|]. intros <-. congruence.
  - intros k r Hk Hr. destruct (decide (k = i)) as [->|Hne].
    + rewrite list_lookup_insert_eq in Hk by done. simplify_eq.
      destruct Hq as [(_ & ? & _)|[(Hq & _)|(Hq & _)]]; congruence.
    + rewrite list_lookup_insert_ne in Hk by done.
      specialize (Hothers k r Hne Hk Hr).
      destruct Hq as [(_ & -> & [?|?])|[(_ & Hpm & ->)|(_ & _ & ->)]]; try congruence.
      pose proof (inv_mutex _ Hi i p Hp Hpm). congruence.
Qed.

(** [wake_pc] changes nothing but [is_waiting] and [in_transit]. *)
Lemma count_wake (f : pc -> bool) ts :
  (forall m, f (Waiting m) = f (Signalled m)) -> count f (wake_pc <$> ts) = count f ts.
Proof.
  intros Hf. induction ts as [|p ts IH]; [done|]. cbn [fmap list_fmap count].
  change (list_fmap pc pc wake_pc ts) with (wake_pc <$> ts). rewrite IH.
  destruct p; simpl; rewrite ?Hf; done.
Qed.

Lemma count_wake_waiting ts : count is_waiting (wake_pc <$> ts) = 0.
Proof. induction ts as [|p ts IH]; [done|]. destruct p; exact IH. Qed.

Lemma woken_count w ts ts' f :
  woken w ts ts' -> (forall m, f (Waiting m) = f (Signalled m)) -> count f ts' = count f ts.
Proof.
  intros Hw Hf. destruct Hw as [| |ts j m Hj|]; try done; [|by apply count_wake].
  rewrite (count_insert f _ _ _ _ Hj), Hf. lia.
Qed.

(** A wake-up leaves nobody waiting, or somebody on the way. *)
Lemma woken_transit w ts ts' :
  woken w ts ts' -> w <> NoWake ->
  count is_waiting ts' = 0 \/ 1 <= count in_transit ts'.
Proof.
  intros Hw Hn. destruct Hw as [|ts Hno|ts j m Hj|]; [done| | |].
  - left. pose proof (count_nonneg is_waiting ts).
    destruct (decide (count is_waiting ts = 0)); [done|].
    destruct (count_lookup_pos is_waiting ts) as (j & p & Hj & Hp); [lia|].
    destruct p; try done. by apply Hno in Hj.
  - right. apply (count_pos_lookup in_transit _ j (Signalled m)); [|done].
    apply list_lookup_insert_eq. by eapply lookup_lt_Some.
  - left. apply count_wake_waiting.
Qed.

Lemma woken_lookup w ts ts' i p :
  woken w ts ts' -> is_waiting p = false -> in_mutex p = true ->
  ts' !! i = Some p <-> ts !! i = Some p.
Proof.
  intros Hw Hp Hm. destruct Hw as [| |ts j m Hj|]; try done.
  - destruct (decide (i = j)) as [->|].
    + rewrite list_lookup_insert_eq by (by eapply lookup_lt_Some).
      split; intros ?; simplify_eq; done.
    + by rewrite list_lookup_insert_ne.
  - rewrite list_lookup_fmap. destruct (ts !! i) as [q|]; [|done]. simpl.
    split; [|by intros [= ->]; destruct p].
    destruct q; simpl; intros ?; simplify_eq; done.
Qed.

Lemma in_mutex_not_waiting p : in_mutex p = true -> is_waiting p = false.
Proof. by destruct p. Qed.

(** The mutex part under a wake-up. *)
Lemma owner_woken (o : option nat) w ts ts' :
  woken w ts ts' ->
  (forall k, o = Some k -> exists r, ts !! k = Some r /\ in_mutex r = true) ->
  (forall k r, ts !! k = Some r -> in_mutex r = true -> o = Some k) ->
  (forall k, o = Some k -> exists r, ts' !! k = Some r /\ in_mutex r = true) /\
  (forall k r, ts' !! k = Some r -> in_mutex r = true -> o = Some k).
Proof.
  intros Hw H1 H2. split.
  - intros k Hk. destruct (H1 k Hk) as (r & Hr & Hm). exists r. split; [|done].
    by apply (woken_lookup _ _ _ _ _ Hw); auto using in_mutex_not_waiting.
  - intros k r Hk Hm. apply (H2 k r); [|done].
    by apply (woken_lookup _ _ _ _ _ Hw); auto using in_mutex_not_waiting.
Qed.

Lemma must_wait_true m s :
  lock_inv s -> must_wait m s = true -> 1 <= readers s + is_writing s + is_deleting s.
Proof.
  intros Hi Hw. pose proof (inv_readers _ Hi). pose proof (inv_writing _ Hi).
  pose proof (inv_deleting _ Hi). pose proof (count_nonneg (holds Rd) (threads s)).
  pose proof (count_nonneg (holds Wr) (threads s)).
  pose proof (count_nonneg (holds Dl) (threads s)).
  destruct m; unfold must_wait in Hw;
    repeat (apply orb_true_iff in Hw as [Hw|Hw]);
    rewrite ?negb_true_iff, ?Z.eqb_neq, ?Z.ltb_lt in Hw; lia.
Qed.

Lemma must_wait_false m s :
  must_wait m s = false ->
  is_writing s = 0 /\ is_deleting s = 0 /\ (m <> Rd -> readers s <= 0).
Proof.
  unfold must_wait. destruct m; rewrite ?orb_false_iff, ?negb_false_iff, ?Z.eqb_eq, ?Z.ltb_ge;
    intuition.
Qed.

Definition b2z (b : bool) : Z := if b then 1 else 0.

(** The invariant after one thread moved from [p] to [q], from the local
    conditions on [p], [q] and the new fields. *)
Lemma lock_inv_set s i p q o rd wr dl :
  lock_inv s -> threads s !! i = Some p ->
  ((in_mutex q = true /\ o = Some i /\ (mutex s = None \/ mutex s = Some i)) \/
   (in_mutex q = false /\ in_mutex p = true /\ o = None) \/
   (in_mutex q = false /\ in_mutex p = false /\ o = mutex s)) ->
  rd = readers s - b2z (holds Rd p) + b2z (holds Rd q) ->
  wr = is_writing s - b2z (holds Wr p) + b2z (holds Wr q) ->
  dl = is_deleting s - b2z (holds Dl p) + b2z (holds Dl q) ->
  (wr + dl = 0 \/ (wr + dl = 1 /\ rd = 0)) ->
  (count is_waiting (<[i:=q]> (threads s)) = 0 \/
   1 <= count in_transit (<[i:=q]> (threads s)) \/ 1 <= rd + wr + dl) ->
  lock_inv (Lock o rd wr dl (<[i:=q]> (threads s))).
Proof.
  intros Hi Hp Hm Hr Hw Hd Hx Hk.
  destruct (owner_set _ _ _ _ _ Hi Hp Hm) as [Ho1 Ho2].
  split; simpl; try done; rewrite (count_insert _ _ _ _ _ Hp).
  - rewrite <- (inv_readers _ Hi). done.
  - rewrite <- (inv_writing _ Hi). done.
  - rewrite <- (inv_deleting _ Hi). done.
Qed.

(** A move that neither touches the counters nor leaves the way to the test. *)
Lemma lock_inv_move s i p q o :
  lock_inv s -> threads s !! i = Some p ->
  ((in_mutex q = true /\ o = Some i /\ (mutex s = None \/ mutex s = Some i)) \/
   (in_mutex q = false /\ in_mutex p = true /\ o = None) \/
   (in_mutex q = false /\ in_mutex p = false /\ o = mutex s)) ->
  (forall m, holds m p = holds m q) ->
  (is_waiting q = true -> is_waiting p = true \/ 1 <= readers s + is_writing s + is_deleting s) ->
  (in_transit p = true ->
   in_transit q = true \/ 1 <= readers s + is_writing s + is_deleting s) ->
  lock_inv (Lock o (readers s) (is_writing s) (is_deleting s) (<[i:=q]> (threads s))).
Proof.
  intros Hi Hp Hm Hh Hwait Htrans.
  eapply lock_inv_set; eauto; rewrite ?Hh; try lia; [apply Hi|].
  pose proof (inv_wake _ Hi) as Hk.
  pose proof (count_nonneg in_transit (threads s)).
  pose proof (count_pos_lookup is_waiting _ _ _ Hp).
  pose proof (count_pos_lookup in_transit _ _ _ Hp).
  rewrite !(count_insert _ _ _ _ _ Hp).
  destruct (is_waiting p), (is_waiting q), (in_transit p), (in_transit q);
    try (destruct (Hwait eq_refl)); try (destruct (Htrans eq_refl)); try discriminate; intuition lia.
Qed.

Lemma lock_inv_enter s i m :
  lock_inv s -> threads s !! i = Some (AtTest m) -> must_wait m s = false ->
  lock_inv (set_thread i (Acquired m) (acquire m s)).
Proof.
  intros Hi Hp Hm. apply must_wait_false in Hm as (Hw & Hd & Hr).
  pose proof (inv_mutex _ Hi _ _ Hp eq_refl) as Hmx.
  pose proof (inv_readers _ Hi) as Hrd. pose proof (count_nonneg (holds Rd) (threads s)).
  destruct m; unfold set_thread; simpl; eapply lock_inv_set; eauto; simpl; try lia;
    specialize (Hr ltac:(done)); lia.
Qed.

(** The release: counters down, then the wake-up. *)
Lemma lock_inv_release s i m ts :
  lock_inv s -> threads s !! i = Some (Releasing m) ->
  woken (wakes m (release m s)) (<[i:=Released]> (threads s)) ts ->
  lock_inv (set_threads ts (release m s)).
Proof.
  intros Hi Hp Hts. pose proof (inv_mutex _ Hi _ _ Hp eq_refl) as Hmx.
  assert (1 <= count (holds m) (threads s)) as Hc.
  { eapply count_pos_lookup; [done|]. simpl. by apply bool_decide_eq_true. }
  destruct (owner_set s i _ Released (mutex s) Hi Hp) as [Ho1 Ho2];
    [left; rewrite Hmx; auto|].
  destruct (owner_woken _ _ _ _ Hts Ho1 Ho2) as [Ho1' Ho2'].
  pose proof (count_insert (holds Rd) _ _ _ Released Hp) as Hr.
  pose proof (count_insert (holds Wr) _ _ _ Released Hp) as Hw.
  pose proof (count_insert (holds Dl) _ _ _ Released Hp) as Hd.
  pose proof (inv_readers _ Hi). pose proof (inv_writing _ Hi).
  pose proof (inv_deleting _ Hi). pose proof (inv_exclusive _ Hi).
  assert (forall m', count (holds m') ts = count (holds m') (<[i:=Released]> (threads s)))
    as Hcount by (intros m'; by eapply woken_count).
  pose proof (count_nonneg (holds Rd) (threads s)).
  pose proof (count_nonneg (holds Wr) (threads s)).
  pose proof (count_nonneg (holds Dl) (threads s)).
  split; simpl.
  - by destruct m.
  - by destruct m.
  - rewrite Hcount. destruct m; simpl in *; lia.
  - rewrite Hcount. destruct m; simpl in *; lia.
  - rewrite Hcount. destruct m; simpl in *; lia.
  - destruct m; simpl in *; lia.
  - destruct (decide (wakes m (release m s) = NoWake)) as [Hn|Hn].
    + right; right. destruct m; try done. simpl in *.
      destruct (Z.eqb_spec (readers s - 1) 0); [done|]. lia.
    + destruct (woken_transit _ _ _ Hts Hn); auto.
Qed.

Lemma lock_inv_step b s s' : lock_inv s -> step b s s' -> lock_inv s'.
Proof.
  intros Hi Hs.
  destruct Hs as [s i m Hp|s i m Hp|s i m Hp Hf|s i m Hp Hf|s i m Hp Hm|s i m Hp Hm|s i m Hp
    |s i m Hp|s i m Hp Hf|s i m ts Hp Hts|s i Hp].
  6: by apply lock_inv_enter.
  9: by eapply lock_inv_release.
  all: unfold set_mutex, set_thread; simpl; eapply lock_inv_move; eauto; simpl;
    try (by intuition).
  all: right; by eapply must_wait_true.
Qed.

Lemma lock_inv_reachable n s : reachable n s -> lock_inv s.
Proof.
  intros Hr. unfold reachable in Hr.
  assert (lock_inv (init_lock n)) as Hi by apply lock_inv_init.
  induction Hr as [s|s1 s2 s3 [b Hs] _ IH]; [done|]. apply IH. by eapply lock_inv_step.
Qed.

(** ** Progress *)

Lemma woken_total w ts : exists ts', woken w ts ts'.
Proof.
  destruct w; [by exists ts; constructor| |by eexists; constructor].
  destruct (decide (Exists (fun p => is_waiting p = true) ts)) as [He|He].
  - apply Exists_exists in He as (p & Hp & Hw). apply list_elem_of_lookup in Hp as [j Hj].
    destruct p; try done. eexists. by econstructor.
  - exists ts. constructor. intros j m Hj. apply He. apply Exists_exists.
    exists (Waiting m). split; [by eapply list_elem_of_lookup_2 | done].
Qed.

(** The thread in the mutex can always go on. *)
Lemma owner_steps s i p :
  threads s !! i = Some p -> in_mutex p = true -> exists s', step true s s'.
Proof.
  intros Hp Hm. destruct p; try done.
  - destruct (must_wait m s) eqn:Hw; eauto using step.
  - eauto using step.
  - destruct (woken_total (wakes m (release m s)) (<[i:=Released]> (threads s))) as [ts Hts].
    eauto using step.
  - eauto using step.
Qed.

(** With the mutex free, every thread that is neither outside nor waiting can
    go on. *)
Lemma free_steps s i p :
  lock_inv s -> mutex s = None -> threads s !! i = Some p -> p <> Idle -> is_waiting p = false ->
  exists s', step true s s'.
Proof.
  intros Hi Hf Hp Hidle Hw. destruct p; try done; eauto using step.
  all: pose proof (inv_mutex _ Hi _ _ Hp eq_refl); congruence.
Qed.

Lemma holder_active m p : holds m p = true -> p <> Idle /\ is_waiting p = false.
Proof. by destruct p. Qed.

Lemma lock_progress s :
  lock_inv s -> (exists i p, threads s !! i = Some p /\ p <> Idle) ->
  exists s', step true s s'.
Proof.
  intros Hi (i & p & Hp & Hidle). destruct (mutex s) as [k|] eqn:Hm.
  { destruct (inv_owner _ Hi k Hm) as (r & Hr & Hin). by eapply owner_steps. }
  destruct (is_waiting p) eqn:Hw; [|by eapply free_steps].
  assert (exists j q, threads s !! j = Some q /\ q <> Idle /\ is_waiting q = false)
    as (j & q & Hq & ? & ?); [|by eapply (free_steps s j q)].
  pose proof (count_pos_lookup is_waiting _ _ _ Hp Hw) as Hc.
  destruct (inv_wake _ Hi) as [?|[Ht|Hb]]; [lia| |].
  - apply count_lookup_pos in Ht as (j & q & Hq & Hq'). exists j, q. by destruct q.
  - rewrite (inv_readers _ Hi), (inv_writing _ Hi), (inv_deleting _ Hi) in Hb.
    pose proof (count_nonneg (holds Rd) (threads s)).
    pose proof (count_nonneg (holds Wr) (threads s)).
    pose proof (count_nonneg (holds Dl) (threads s)).
    assert (exists m, 1 <= count (holds m) (threads s)) as [m Hpos].
    { destruct (decide (1 <= count (holds Rd) (threads s))); [by exists Rd|].
      destruct (decide (1 <= count (holds Wr) (threads s))); [by exists Wr|].
      exists Dl. lia. }
    apply count_lookup_pos in Hpos as (j & q & Hq & Hq'). exists j, q.
    by apply holder_active in Hq'.
Qed.

(** The counter of a mode is positive as soon as one thread holds it. *)
Lemma holding_counted s i m :
  threads s !! i = Some (Holding m) -> 1 <= count (holds m) (threads s).
Proof.
  intros Hi. eapply count_pos_lookup; [done|]. simpl. by apply bool_decide_eq_true.
Qed.

Lemma exclusive_threads s i j m m' :
  lock_inv s -> i <> j -> threads s !! i = Some (Holding m) ->
  threads s !! j = Some (Holding m') -> m = Rd /\ m' = Rd.
Proof.
  intros Hi Hne Hp Hq.
  pose proof (holding_counted _ _ _ Hp) as H1. pose proof (holding_counted _ _ _ Hq) as H2.
  pose proof (inv_readers _ Hi). pose proof (inv_writing _ Hi).
  pose proof (inv_deleting _ Hi). pose proof (inv_exclusive _ Hi).
  pose proof (count_nonneg (holds Rd) (threads s)).
  pose proof (count_nonneg (holds Wr) (threads s)).
  pose proof (count_nonneg (holds Dl) (threads s)).
  assert (m = m' -> 2 <= count (holds m) (threads s)) as Hsame.
  { intros <-. eapply (count_two _ _ i j); eauto; simpl; by apply bool_decide_eq_true. }
  destruct m, m'; try done; try specialize (Hsame eq_refl); lia.
Qed.

(** ** Properties of the lock *)

(** C8. Mutual exclusion: in every state any number of threads can reach, if
    two threads are in their critical sections then both are readers; a
    writer or deleter is always alone. *)
Theorem lock_mutual_exclusion n s i j m m' :
  reachable n s -> i <> j ->
  threads s !! i = Some (Holding m) -> threads s !! j = Some (Holding m') ->
  m = Rd /\ m' = Rd.
Proof. intros Hr. apply exclusive_threads. by eapply lock_inv_reachable. Qed.

(** A run of two readers: both end up in their critical sections. *)
Definition two_readers : list (nat * choice) :=
  [(0, Call Rd); (0, Go 0); (0, Go 0); (0, Go 0);
   (1, Call Rd); (1, Go 0); (1, Go 0); (1, Go 0)]%nat.

Lemma lock_mutual_exclusion_witness : Rd = Rd /\ Rd = Rd.
Proof.
  apply (lock_mutual_exclusion 2 (Lock None 2 0 0 [Holding Rd; Holding Rd]) 0 1 Rd Rd).
  - apply (fire_all_sound _ two_readers). reflexivity.
  - discriminate.
  - reflexivity.
  - reflexivity.
Defined.

(** C34. The counters are exact: in every reachable state [readers] is the
    number of threads between the update of [acquire_read_lock] and that of
    [release_read_lock], and [is_writing] and [is_deleting], which the code
    assigns 0 and 1, are the numbers of such writers and deleters; so no
    counter is ever negative and the two flags are never both set. *)
Theorem lock_counters_exact n s :
  reachable n s ->
  readers s = count (holds Rd) (threads s) /\
  is_writing s = count (holds Wr) (threads s) /\
  is_deleting s = count (holds Dl) (threads s) /\
  0 <= readers s /\ 0 <= is_writing s /\ 0 <= is_deleting s /\
  is_writing s + is_deleting s <= 1.
Proof.
  intros Hr%lock_inv_reachable.
  pose proof (inv_readers _ Hr). pose proof (inv_writing _ Hr).
  pose proof (inv_deleting _ Hr). pose proof (inv_exclusive _ Hr).
  pose proof (count_nonneg (holds Rd) (threads s)).
  pose proof (count_nonneg (holds Wr) (threads s)).
  pose proof (count_nonneg (holds Dl) (threads s)). lia.
Qed.

Lemma lock_counters_exact_witness :
  let s := Lock None 2 0 0 [Holding Rd; Holding Rd] in
  readers s = count (holds Rd) (threads s) /\
  is_writing s = count (holds Wr) (threads s) /\
  is_deleting s = count (holds Dl) (threads s) /\
  0 <= readers s /\ 0 <= is_writing s /\ 0 <= is_deleting s /\
  is_writing s + is_deleting s <= 1.
Proof.
  apply (lock_counters_exact 2). apply (fire_all_sound _ two_readers). reflexivity.
Defined.

(** C35. No deadlock and no lost wake-up: in every reachable state in which
    some thread is using the lock, some step of the lock functions is
    possible, without any new acquire call and without a spurious wake-up;
    in particular it never happens that all threads involved sleep in
    [pthread_cond_wait], although a release signals only one of them. *)
Theorem lock_never_stuck n s i p :
  reachable n s -> threads s !! i = Some p -> p <> Idle -> exists s', step true s s'.
Proof. intros Hr Hp Hi. apply lock_progress; [by eapply lock_inv_reachable | eauto]. Qed.

(** A reader holds the lock and a writer sleeps. *)
Definition reader_then_writer : list (nat * choice) :=
  [(0, Call Rd); (0, Go 0); (0, Go 0); (0, Go 0); (1, Call Wr); (1, Go 0); (1, Go 0)]%nat.

Lemma lock_never_stuck_witness :
  exists s', step true (Lock None 1 0 0 [Holding Rd; Waiting Wr]) s'.
Proof.
  apply (lock_never_stuck 2 _ 1 (Waiting Wr)); [|reflexivity|discriminate].
  apply (fire_all_sound _ reader_then_writer). reflexivity.
Defined.

(** Signalling one thread is not enough for readers: a state is reachable
    in which the lock is held by a reader only, a second reader sleeps in
    [pthread_cond_wait] with its condition false, and no thread is on the way
    to wake it; it can only go on when the first reader has released. *)
Theorem lock_reader_left_waiting :
  exists s, reachable 3 s /\
    threads s !! 0%nat = Some Idle /\
    threads s !! 1%nat = Some (Holding Rd) /\
    threads s !! 2%nat = Some (Waiting Rd) /\
    must_wait Rd s = false /\ count in_transit (threads s) = 0.
Proof.
  exists (Lock None 1 0 0 [Idle; Holding Rd; Waiting Rd]).
  split; [|repeat split; reflexivity].
  apply (fire_all_sound _
    [(0, Call Wr); (0, Go 0); (0, Go 0); (0, Go 0);
     (1, Call Rd); (1, Go 0); (1, Go 0);
     (2, Call Rd); (2, Go 0); (2, Go 0);
     (0, Go 0); (0, Go 0); (0, Go 1); (0, Go 0);
     (1, Go 0); (1, Go 0); (1, Go 0)]%nat).
  reflexivity.
Qed.

(** Writers can starve: from a reachable state with a sleeping writer, two
    readers can take turns, each releasing the lock it took, and come back to
    the same state, without the writer ever being signalled. *)
Theorem lock_writer_starvation :
  exists s cs, reachable 3 s /\ threads s !! 2%nat = Some (Waiting Wr) /\
    cs <> [] /\ fire_all s cs = Some s /\ Forall (fun c => c.1 <> 2%nat) cs /\
    (forall k s', fire_all s (take k cs) = Some s' -> threads s' !! 2%nat = Some (Waiting Wr)).
Proof.
  exists (Lock None 1 0 0 [Holding Rd; Idle; Waiting Wr]).
  exists [(1, Call Rd); (1, Go 0); (1, Go 0); (1, Go 0);
          (0, Go 0); (0, Go 0); (0, Go 0); (0, Go 0);
          (0, Call Rd); (0, Go 0); (0, Go 0); (0, Go 0);
          (1, Go 0); (1, Go 0); (1, Go 0); (1, Go 0)]%nat.
  split; [|split; [reflexivity|split; [discriminate|split; [reflexivity|split]]]].
  - apply (fire_all_sound _
      [(0, Call Rd); (0, Go 0); (0, Go 0); (0, Go 0); (2, Call Wr); (2, Go 0); (2, Go 0)]%nat).
    reflexivity.
  - decide_closed.
  - intros k s'.
    do 16 (destruct k as [|k]; [intros H; cbv in H; by injection H as <-|]).
    intros H; cbn [take] in H. rewrite take_nil in H. cbv in H. by injection H as <-.
Qed.
