(* ===== verification/Naming.v ===== *)
(** * The naming server: its state, lookups and liveness checks
    (naming_server.c; struct types of helper.h)

    The globals of the naming server are one record; a handler is a function
    on it that also talks to the network.  Arrays are indexed as in C: an
    index outside the array is undefined behaviour. *)
From S2P Require Export Trie Cache.

Open Scope Z_scope.

(** ** Data *)

Definition MAX_STORAGE_SERVERS : nat := 10.
Definition BUFFER_SIZE : nat := 1024.
Definition MAX_PATH_SIZE : nat := 2048.

(** An IPv4 address is kept in the dotted form [inet_ntoa] prints. *)
Record sockaddr_in := Addr { sin_addr : bytes; sin_port : Z }.

Record StorageServerConnectionInfo := Conn { ci_socket : Z; ci_addr : sockaddr_in }.

Record StorageServerInfo := SSI {
  clientInfo : StorageServerConnectionInfo;
  portClient : Z;
  socket : Z;
  root : option trienode;
  backupServer1 : Z;
  backupServer2 : Z;
  isUp : Z
}.

Record naming := Naming {
  storage_servers : list StorageServerInfo;
  storage_server_index : nat;
  cache : LRUCache;
  storage_semaphore : Z
}.

(** The globals before [main], and after [initialize_cache] and [sem_init]. *)
Definition zero_server : StorageServerInfo :=
  SSI (Conn 0 (Addr "0.0.0.0" 0)) 0 0 None 0 0 0.

Definition naming_init : naming :=
  Naming (replicate MAX_STORAGE_SERVERS zero_server) 0 initialize_cache 1.

Abbreviation NM := (M naming).

(** ** Access to the globals *)

Definition server_at (st : naming) (i : Z) : cres StorageServerInfo :=
  if bool_decide (0 <= i) then read (storage_servers st) (Z.to_nat i) else Undef OutOfBounds.

Definition get_server (i : Z) : NM StorageServerInfo :=
  st ← getS; liftC (server_at st i).

Definition set_servers (l : list StorageServerInfo) (st : naming) : naming :=
  Naming l (storage_server_index st) (cache st) (storage_semaphore st).

Definition put_server (i : Z) (ss : StorageServerInfo) : NM unit :=
  _ ← get_server i;
  modifyS (fun st => set_servers (<[Z.to_nat i:=ss]> (storage_servers st)) st).

Definition with_isUp (v : Z) (ss : StorageServerInfo) : StorageServerInfo :=
  SSI (clientInfo ss) (portClient ss) (socket ss) (root ss)
      (backupServer1 ss) (backupServer2 ss) v.

Definition with_root (r : trienode) (ss : StorageServerInfo) : StorageServerInfo :=
  SSI (clientInfo ss) (portClient ss) (socket ss) (Some r)
      (backupServer1 ss) (backupServer2 ss) (isUp ss).

Definition with_backups (b1 b2 : Z) (ss : StorageServerInfo) : StorageServerInfo :=
  SSI (clientInfo ss) (portClient ss) (socket ss) (root ss) b1 b2 (isUp ss).

Definition set_isUp (i : Z) (v : Z) : NM unit :=
  ss ← get_server i; put_server i (with_isUp v ss).

Definition set_cache (c : LRUCache) (st : naming) : naming :=
  Naming (storage_servers st) (storage_server_index st) c (storage_semaphore st).

Definition set_semaphore (v : Z) (st : naming) : naming :=
  Naming (storage_servers st) (storage_server_index st) (cache st) v.

Definition on_cache (f : LRUCache -> cres LRUCache) : NM unit :=
  st ← getS; c ← liftC (f (cache st)); modifyS (set_cache c).

(** [sem_wait] on a zero semaphore blocks; in a handler run on its own nobody
    will post it. *)
Definition sem_wait : NM unit :=
  st ← getS;
  if bool_decide (0 < storage_semaphore st)
  then modifyS (fun st => set_semaphore (storage_semaphore st - 1) st)
  else blockM.

Definition sem_post : NM unit :=
  modifyS (fun st => set_semaphore (storage_semaphore st + 1) st).

Definition sendN (sock : Z) (m : bytes) : NM Z := liftIO (send_good sock m).
Definition recvN (sock : Z) (len : nat) : NM (Z * bytes) := liftIO (recv_good sock len).

(** [log_it(ip, sock, message)]: one line appended to log.txt, composed in a
    buffer of [BUFFER_SIZE]. *)
Definition log_it (ip : bytes) (sock : Z) (message : bytes) : NM unit :=
  buffer ← liftC (fits BUFFER_SIZE
    (if bool_decide (sock <> -1)
     then "IP[" ++ ip ++ "] : Port[" ++ print_Z sock ++ "] : " ++ message ++ [LF]
     else message));
  logM (buffer ++ [LF]).

(** ** Lookups *)

(** The naming server's own copy of the search. *)
Fixpoint SearchPathHelper (curr : trienode) (path_arr : list bytes) : bool :=
  match path_arr with
  | [] => true
  | p :: rest =>
      match find_child (childeren curr) p with
      | Some (_, c) => SearchPathHelper c rest
      | None => false
      end
  end.

(** [SearchPathHelper(root, path_arr)] with a root that may be null: it is only
    dereferenced for the first component. *)
Definition search_root (r : option trienode) (path_arr : list bytes) : cres bool :=
  match path_arr, r with
  | [], _ => Val true
  | _, Some t => Val (SearchPathHelper t path_arr)
  | _, None => Undef NullDeref
  end.

Fixpoint search_servers (st : naming) (path_arr : list bytes) (n i : nat) : cres Z :=
  match n with
  | O => Val (-1)
  | S n' =>
      ss ← server_at st (Z.of_nat i);
      found ← search_root (root ss) path_arr;
      if found : bool then Val (Z.of_nat i) else search_servers st path_arr n' (S i)
  end.

Definition search_in_tries (buffer : bytes) (st : naming) : cres Z :=
  path_arr ← ParsePath buffer;
  search_servers st path_arr (storage_server_index st) 0.

(** [isSSUp]: connect to the server's client port and exchange a ping; every
    outcome but a failing [socket] or [inet_pton] is recorded in [isUp]. *)
Definition isSSUp (i : Z) : NM bool :=
  ss ← get_server i;
  r ← connectM (sin_addr (ci_addr (clientInfo ss))) (htons (portClient ss));
  match r with
  | SockFail | AddrFail => mret false
  | ConnFail => _ ← set_isUp i 0; mret false
  | Connected sock =>
      n ← sendN sock "ping";
      if bool_decide (n < 0) then
        _ ← set_isUp i 0; _ ← closeM sock; mret false
      else
        nb ← recvN sock BUFFER_SIZE;
        if bool_decide (nb.1 < 0) then
          _ ← set_isUp i 0; _ ← closeM sock; mret false
        else
          _ ← set_isUp i 1; _ ← closeM sock; mret true
  end.

(** [redundantSS]: the server itself or the first of its backups that answers. *)
Definition redundantSS (i : Z) : NM Z :=
  up ← isSSUp i;
  if up : bool then mret i
  else
    ss ← get_server i;
    let indexOfBS1 := backupServer1 ss in
    up1 ← (if bool_decide (indexOfBS1 <> -1) then isSSUp indexOfBS1 else mret false);
    if up1 : bool then mret indexOfBS1
    else
      ss' ← get_server i;
      let indexOfBS2 := backupServer2 ss' in
      up2 ← (if bool_decide (indexOfBS2 <> -1) then isSSUp indexOfBS2 else mret false);
      if up2 : bool then mret indexOfBS2 else mret (-1).

(** [search_storage_server(buffer)]: the cache first, then the tries; a hit in
    the tries is cached.  The ping after a cache hit goes to the server of the
    entry that stands at the found position after [move_to_back]. *)
Definition search_storage_server (buffer : option bytes) : NM Z :=
  _ ← sem_wait;
  buffer ← liftC (nonnull buffer);
  st ← getS;
  hit ← liftC (search_cache buffer (cache st));
  match hit with
  | Some i =>
      e ← liftC (read (queue (cache st)) i);
      let k := index e in
      _ ← on_cache (move_to_back i);
      _ ← sem_post;
      st' ← getS;
      e' ← liftC (read (queue (cache st')) i);
      let indexToSend := index e' in
      _ ← isSSUp indexToSend;
      mret k
  | None =>
      found ← liftC (search_in_tries buffer st);
      if bool_decide (found <> -1) then
        _ ← on_cache (add_to_cache buffer found);
        _ ← sem_post;
        _ ← isSSUp found;
        mret found
      else
        _ ← sem_post;
        mret (-1)
  end.

(** [delete_from_cache] with its [sem_post] for an absent key. *)
Definition delete_from_cacheN (k : bytes) : NM unit :=
  st ← getS;
  cp ← liftC (delete_from_cache k (cache st));
  _ ← modifyS (set_cache cp.1);
  if cp.2 : bool then sem_post else mret tt.

(** ** States up to liveness *)

(** Pings change nothing but the [isUp] fields: two states are equivalent when
    they agree on everything else. *)
Definition erase_up (st : naming) : naming :=
  set_servers (with_isUp 0 <$> storage_servers st) st.

Definition same_but_up (st st' : naming) : Prop := erase_up st = erase_up st'.

#[export] Instance same_but_up_equiv : Equivalence same_but_up.
Proof.
  split; unfold same_but_up.
  - by intros st.
  - by intros st st' ->.
  - by intros st1 st2 st3 -> ->.
Qed.

Lemma same_but_up_index st st' :
  same_but_up st st' -> storage_server_index st = storage_server_index st'.
Proof. intros H. by apply (f_equal storage_server_index) in H. Qed.

Lemma same_but_up_cache st st' : same_but_up st st' -> cache st = cache st'.
Proof. intros H. by apply (f_equal cache) in H. Qed.

Lemma same_but_up_semaphore st st' :
  same_but_up st st' -> storage_semaphore st = storage_semaphore st'.
Proof. intros H. by apply (f_equal storage_semaphore) in H. Qed.

Lemma same_but_up_lookup st st' i ss :
  same_but_up st st' -> storage_servers st !! i = Some ss ->
  exists ss', storage_servers st' !! i = Some ss' /\ with_isUp 0 ss = with_isUp 0 ss'.
Proof.
  intros H Hi. apply (f_equal storage_servers) in H. simpl in H.
  apply (f_equal (.!! i)) in H. rewrite !list_lookup_fmap, Hi in H.
  destruct (storage_servers st' !! i) as [ss'|]; [|done]. exists ss'. split; [done|].
  by apply (inj Some) in H.
Qed.

Lemma server_at_Val st i ss :
  server_at st i = Val ss <-> 0 <= i /\ storage_servers st !! Z.to_nat i = Some ss.
Proof.
  unfold server_at, read. case_bool_decide.
  - destruct (storage_servers st !! Z.to_nat i); split; intros Heq; simplify_eq;
      intuition congruence.
  - split; [done | intros [? _]; done].
Qed.

(** Fields other than [isUp] are the same in equivalent states. *)
Lemma same_but_up_server st st' i ss :
  same_but_up st st' -> server_at st i = Val ss ->
  exists ss', server_at st' i = Val ss' /\ with_isUp 0 ss = with_isUp 0 ss'.
Proof.
  intros H [Hi Hl]%server_at_Val.
  destruct (same_but_up_lookup _ _ _ _ H Hl) as (ss' & Hl' & He).
  exists ss'. split; [|done]. by apply server_at_Val.
Qed.

Lemma with_isUp_fields ss ss' :
  with_isUp 0 ss = with_isUp 0 ss' ->
  clientInfo ss = clientInfo ss' /\ portClient ss = portClient ss' /\
  socket ss = socket ss' /\ root ss = root ss' /\
  backupServer1 ss = backupServer1 ss' /\ backupServer2 ss = backupServer2 ss'.
Proof. destruct ss, ss'. unfold with_isUp. simpl. intros H. by injection H. Qed.

(** The state after the flag of server [i] was assigned. *)
Definition upd_isUp (i : Z) (v : Z) (ss : StorageServerInfo) (st : naming) : naming :=
  set_servers (<[Z.to_nat i:=with_isUp v ss]> (storage_servers st)) st.

Lemma upd_isUp_same i v ss st :
  storage_servers st !! Z.to_nat i = Some ss -> same_but_up st (upd_isUp i v ss st).
Proof.
  intros Hi. unfold same_but_up, erase_up, upd_isUp, set_servers. simpl. f_equal.
  rewrite list_fmap_insert. symmetry. apply list_insert_id.
  by rewrite list_lookup_fmap, Hi.
Qed.

Lemma upd_isUp_server i v ss st :
  server_at st i = Val ss -> server_at (upd_isUp i v ss st) i = Val (with_isUp v ss).
Proof.
  intros [Hi Hl]%server_at_Val. apply server_at_Val. split; [done|]. simpl.
  apply list_lookup_insert_eq. by eapply lookup_lt_Some.
Qed.

(** ** Specifications of the state accesses *)

Lemma wpM_get_server R i ss st tr (Q : list event -> StorageServerInfo -> naming -> Prop) :
  server_at st i = Val ss -> Q tr ss st -> wpM R (get_server i) st tr Q.
Proof. intros Hi HQ. unfold get_server. do 2 wpM_step. wpM_step. by rewrite Hi. Qed.

Lemma wpM_set_isUp R i v ss st tr (Q : list event -> unit -> naming -> Prop) :
  server_at st i = Val ss -> Q tr tt (upd_isUp i v ss st) -> wpM R (set_isUp i v) st tr Q.
Proof.
  intros Hi HQ. unfold set_isUp, put_server. wpM_step. eapply wpM_get_server; [done|].
  wpM_step. eapply wpM_get_server; [done|]. by wpM_step.
Qed.

Lemma wpM_sem_wait R st tr (Q : list event -> unit -> naming -> Prop) :
  0 < storage_semaphore st -> Q tr tt (set_semaphore (storage_semaphore st - 1) st) ->
  wpM R sem_wait st tr Q.
Proof.
  intros Hs HQ. unfold sem_wait. do 2 wpM_step. rewrite bool_decide_eq_true_2 by done.
  by wpM_step.
Qed.

Lemma sem_wait_bind {A} (f : unit -> NM A) st :
  (sem_wait ≫= f) st =
    if bool_decide (0 < storage_semaphore st)
    then f tt (set_semaphore (storage_semaphore st - 1) st) else Stuck.
Proof.
  transitivity (((if bool_decide (0 < storage_semaphore st)
                  then modifyS (fun st => set_semaphore (storage_semaphore st - 1) st)
                  else blockM) ≫= f) st); [done|].
  by case_bool_decide.
Qed.

Lemma wpM_sem_post R st tr (Q : list event -> unit -> naming -> Prop) :
  Q tr tt (set_semaphore (storage_semaphore st + 1) st) -> wpM R sem_post st tr Q.
Proof. done. Qed.

Lemma wpM_on_cache R f c st tr (Q : list event -> unit -> naming -> Prop) :
  f (cache st) = Val c -> Q tr tt (set_cache c st) -> wpM R (on_cache f) st tr Q.
Proof.
  intros Hf HQ. unfold on_cache. do 2 wpM_step. wpM_step. wpM_step. rewrite Hf. by wpM_step.
Qed.

(** ** Pings *)

(** The events of one ping of server [ss]. *)
Definition ping_events (ss : StorageServerInfo) (es : list event) : Prop :=
  exists r es', es = EConnect (sin_addr (ci_addr (clientInfo ss))) (htons (portClient ss)) r :: es' /\
    forall e, e ∈ es' ->
      exists sock, r = Connected sock /\
        ((exists a, e = ESend sock "ping" a) \/ (exists a, e = ERecv sock BUFFER_SIZE a) \/
         e = EClose sock).

(** What a ping of server [i] yields: the flag follows the result, except that
    a failing [socket] or [inet_pton] leaves it alone. *)
Definition pinged (i : Z) (ss : StorageServerInfo) (st : naming) (up : bool) (st' : naming) : Prop :=
  exists v, st' = upd_isUp i v ss st /\
    (up = true -> v = 1) /\ (up = false -> v = 0 \/ v = isUp ss).

Lemma upd_isUp_id i ss st :
  storage_servers st !! Z.to_nat i = Some ss -> upd_isUp i (isUp ss) ss st = st.
Proof.
  intros Hi. unfold upd_isUp. replace (with_isUp (isUp ss) ss) with ss by (by destruct ss).
  rewrite list_insert_id by done. by destruct st.
Qed.

Lemma ping_end i ss st v (up : bool) r es tr :
  (up = true -> v = 1) -> (up = false -> v = 0 \/ v = isUp ss) ->
  (forall e, e ∈ es ->
     exists sock, r = Connected sock /\
       ((exists a, e = ESend sock "ping" a) \/ (exists a, e = ERecv sock BUFFER_SIZE a) \/
        e = EClose sock)) ->
  pinged i ss st up (upd_isUp i v ss st) /\
  exists es', (tr ++ [EConnect (sin_addr (ci_addr (clientInfo ss))) (htons (portClient ss)) r]) ++ es
              = tr ++ es' /\ ping_events ss es'.
Proof.
  intros H1 H0 He. split; [by exists v|].
  rewrite <- app_assoc. eexists. split; [done|]. by exists r, es.
Qed.

Lemma isSSUp_wp i ss st tr :
  server_at st i = Val ss ->
  wpM total (isSSUp i) st tr (fun tr' up st' =>
    pinged i ss st up st' /\ exists es, tr' = tr ++ es /\ ping_events ss es).
Proof.
  intros Hi. pose proof Hi as [_ Hl]%server_at_Val.
  assert (forall e : event, e ∈ [] -> False) as Hnil by (intros e ?%not_elem_of_nil; done).
  unfold isSSUp. wpM_step. eapply wpM_get_server; [done|]. do 2 wpM_step.
  destruct r as [| | |sock].
  - wpM_step. rewrite <- (upd_isUp_id i ss st Hl) at 2. rewrite <- (app_nil_r (_ ++ _)).
    by apply ping_end; [|auto|intros e ?%Hnil].
  - wpM_step. rewrite <- (upd_isUp_id i ss st Hl) at 2. rewrite <- (app_nil_r (_ ++ _)).
    by apply ping_end; [|auto|intros e ?%Hnil].
  - wpM_step. eapply wpM_set_isUp; [done|]. wpM_step. rewrite <- (app_nil_r (_ ++ _)).
    by apply ping_end; [|auto|intros e ?%Hnil].
  - unfold sendN, recvN. do 2 wpM_step. wpM_step; [|do 2 wpM_step; wpM_step].
    all: wpM_step; eapply wpM_set_isUp; [done|]; do 3 wpM_step;
      rewrite <- ?(app_assoc (_ ++ _)); apply ping_end; auto;
      set_solver.
Qed.

Lemma pinged_same i ss st up st' :
  server_at st i = Val ss -> pinged i ss st up st' -> same_but_up st st'.
Proof.
  intros [_ Hl]%server_at_Val (v & -> & _). by apply upd_isUp_same.
Qed.

Lemma pinged_up i ss st st' :
  server_at st i = Val ss -> pinged i ss st true st' ->
  exists ss', server_at st' i = Val ss' /\ isUp ss' = 1.
Proof.
  intros Hi (v & -> & Hv & _). exists (with_isUp v ss).
  split; [by apply upd_isUp_server | by rewrite Hv].
Qed.

(** A server index a handler may use: -1, or a position of the array. *)
Definition valid_or_none (st : naming) (i : Z) : Prop := i = -1 \/ exists ss, server_at st i = Val ss.

Lemma valid_or_none_same st st' i :
  same_but_up st st' -> valid_or_none st i -> valid_or_none st' i.
Proof.
  intros H [->|(ss & Hs)]; [by left|]. right.
  destruct (same_but_up_server _ _ _ _ H Hs) as (ss' & ? & _). by exists ss'.
Qed.

(** An optional ping, as [redundantSS] makes of its backups. *)
Lemma optional_ping_wp i st tr :
  valid_or_none st i ->
  wpM total (if bool_decide (i <> -1) then isSSUp i else mret false) st tr
    (fun _ up st' => same_but_up st st' /\
      (up = true -> i <> -1 /\ exists ss, server_at st' i = Val ss /\ isUp ss = 1)).
Proof.
  intros [->|(ss & Hi)]; [by split|]. wpM_step.
  - apply bool_decide_eq_true in Heqb. eapply wpM_mono; [by apply isSSUp_wp|].
    intros tr' up st' [Hp _]. split; [by eapply pinged_same|]. intros ->.
    split; [done|]. by eapply pinged_up.
  - by wpM_step.
Qed.

Lemma redundantSS_wp i ss st tr :
  server_at st i = Val ss ->
  valid_or_none st (backupServer1 ss) -> valid_or_none st (backupServer2 ss) ->
  wpM total (redundantSS i) st tr (fun _ r st' =>
    same_but_up st st' /\
    (r = i \/ r = backupServer1 ss \/ r = backupServer2 ss \/ r = -1) /\
    (r <> -1 -> exists ss', server_at st' r = Val ss' /\ isUp ss' = 1)).
Proof.
  intros Hi Hb1 Hb2. unfold redundantSS. wpM_step.
  eapply wpM_mono; [by apply isSSUp_wp|]. intros tr1 up st1 [Hp _].
  pose proof (pinged_same _ _ _ _ _ Hi Hp) as H1. destruct up.
  { wpM_step. split; [done|]. split; [by left|]. intros _. by eapply pinged_up. }
  destruct (same_but_up_server _ _ _ _ H1 Hi) as (ss1 & Hi1 & He1).
  apply with_isUp_fields in He1 as (_ & _ & _ & _ & Eb1 & Eb2).
  wpM_step. eapply wpM_get_server; [done|]. wpM_step.
  rewrite Eb1 in *. rewrite Eb2 in *.
  eapply wpM_mono; [apply optional_ping_wp; by eapply valid_or_none_same|].
  intros tr2 up st2 [H2 Hup]. assert (same_but_up st st2) as H02 by (by transitivity st1).
  destruct up.
  { wpM_step. split; [done|]. split; [auto|]. intros _. by apply Hup. }
  destruct (same_but_up_server _ _ _ _ H2 Hi1) as (ss2 & Hi2 & He2).
  apply with_isUp_fields in He2 as (_ & _ & _ & _ & _ & Eb2').
  wpM_step. eapply wpM_get_server; [done|]. wpM_step. rewrite <- Eb2'.
  eapply wpM_mono; [apply optional_ping_wp; by eapply valid_or_none_same|].
  intros tr3 up st3 [H3 Hup3]. assert (same_but_up st st3) by (by transitivity st2).
  destruct up; wpM_step; (split; [done|]); (split; [auto|]); [intros _; by apply Hup3 | done].
Qed.

(** ** Lookups in the tries *)

Lemma SearchPathHelper_eq t p : SearchPathHelper t p = SearchPathHelperTries t p.
Proof.
  revert t; induction p as [|x p IH]; intros t; simpl; [done|].
  destruct (find_child (childeren t) x) as [[j c]|]; [apply IH | done].
Qed.

(** The registered servers all have their trie. *)
Definition roots_present (st : naming) : Prop :=
  forall i, (i < storage_server_index st)%nat ->
    exists ss t, storage_servers st !! i = Some ss /\ root ss = Some t.

(** Whether the trie of server [i] has the path. *)
Definition has_path (st : naming) (p : list bytes) (i : nat) : Prop :=
  exists ss t, storage_servers st !! i = Some ss /\ root ss = Some t /\
    SearchPathHelperTries t p = true.

Lemma search_root_Some t p : search_root (Some t) p = Val (SearchPathHelperTries t p).
Proof. destruct p; [done|]. unfold search_root. by rewrite SearchPathHelper_eq. Qed.

Lemma search_servers_first st p n i :
  (forall k, (i <= k < i + n)%nat -> exists ss t, storage_servers st !! k = Some ss /\ root ss = Some t) ->
  exists r, search_servers st p n i = Val r /\
    ((r = -1 /\ forall k, (i <= k < i + n)%nat -> ~ has_path st p k) \/
     (exists k, r = Z.of_nat k /\ (i <= k < i + n)%nat /\ has_path st p k /\
        forall j, (i <= j < k)%nat -> ~ has_path st p j)).
Proof.
  revert i; induction n as [|n IH]; intros i Hr; cbn [search_servers].
  - exists (-1). split; [done|]. left. split; [done|]. intros k Hk. lia.
  - destruct (Hr i) as (ss & t & Hi & Ht); [lia|].
    assert (server_at st (Z.of_nat i) = Val ss) as ->
      by (apply server_at_Val; rewrite Nat2Z.id; split; [lia|done]).
    simpl. rewrite Ht, search_root_Some. simpl.
    destruct (SearchPathHelperTries t p) eqn:Hs.
    + exists (Z.of_nat i). split; [done|]. right. exists i.
      split; [done|]. split; [lia|]. split; [by exists ss, t|]. intros j Hj. lia.
    + assert (~ has_path st p i) as Hno by (intros (ss' & t' & ? & ? & ?); simplify_eq; congruence).
      destruct (IH (S i)) as (r & Hrun & [[-> Hn]|(k & -> & Hk & Hp & Hn)]);
        [intros k Hk; apply Hr; lia| |]; rewrite Hrun; eexists; (split; [done|]).
      * left. split; [done|]. intros k Hk. destruct (decide (k = i)) as [->|]; [done|].
        apply Hn. lia.
      * right. exists k. split; [done|]. split; [lia|]. split; [done|].
        intros j Hj. destruct (decide (j = i)) as [->|]; [done|]. apply Hn. lia.
Qed.


(** ** The lookup through the cache *)

(** What the tries say of a path: the first server that has it, or -1. *)
Definition first_with (st : naming) (p : list bytes) (r : Z) : Prop :=
  (r = -1 /\ forall k, (k < storage_server_index st)%nat -> ~ has_path st p k) \/
  (exists k, r = Z.of_nat k /\ (k < storage_server_index st)%nat /\ has_path st p k /\
     forall j, (j < k)%nat -> ~ has_path st p j).

(** What a lookup of [buffer] (components [p]) yields when the cache holds
    [l]: the cached index, or the first server whose trie has the path, or -1. *)
Definition looked_up (st : naming) (l : list (bytes * Z)) (buffer : bytes)
    (p : list bytes) (r : Z) : Prop :=
  match lru_find buffer l with
  | Some i => exists x, l !! i = Some x /\ r = x.2
  | None => first_with st p r
  end.

(** The cached indices are positions of registered servers. *)
Definition cache_valid (st : naming) (l : list (bytes * Z)) : Prop :=
  Forall (fun x => 0 <= x.2 < Z.of_nat (storage_server_index st)) l.

Lemma roots_present_server st i :
  roots_present st -> 0 <= i < Z.of_nat (storage_server_index st) ->
  exists ss, server_at st i = Val ss.
Proof.
  intros Hr Hi. destruct (Hr (Z.to_nat i)) as (ss & t & Hs & _); [lia|].
  exists ss. apply server_at_Val. split; [lia|done].
Qed.

Lemma search_in_tries_first st buffer p :
  roots_present st -> ParsePath buffer = Val p ->
  exists r, search_in_tries buffer st = Val r /\ first_with st p r.
Proof.
  intros Hr Hp. unfold search_in_tries. rewrite Hp. simpl.
  destruct (search_servers_first st p (storage_server_index st) 0) as (r & Hs & Hc);
    [intros k Hk; apply Hr; lia|].
  exists r. split; [done|]. destruct Hc as [[-> Hn]|(k & -> & Hk & Hh & Hn)]; [left|right].
  - split; [done|]. intros k Hk. apply Hn. lia.
  - exists k. split; [done|]. split; [lia|]. split; [done|]. intros j Hj. apply Hn. lia.
Qed.

Lemma search_in_tries_semaphore buffer v st :
  search_in_tries buffer (set_semaphore v st) = search_in_tries buffer st.
Proof.
  unfold search_in_tries. destruct (ParsePath buffer) as [p|]; [|done]. cbn.
  generalize 0%nat. induction (storage_server_index st) as [|n IH]; intros i; [done|].
  cbn [search_servers]. unfold server_at. cbn. case_bool_decide; [|done].
  destruct (read _ _) as [ss|]; [|done]. cbn.
  destruct (search_root _ _) as [[]|]; [done| |done]. apply IH.
Qed.

(** Any ping of a registered server leaves all but its flag. *)
Lemma ping_wp i st tr (Q : list event -> bool -> naming -> Prop) :
  (exists ss, server_at st i = Val ss) ->
  (forall tr' up st', same_but_up st st' -> Q tr' up st') ->
  wpM total (isSSUp i) st tr Q.
Proof.
  intros [ss Hi] HQ. eapply wpM_mono; [by apply isSSUp_wp|].
  intros tr' up st' [Hp _]. apply HQ. by eapply pinged_same.
Qed.

Lemma lru_touch_lookup l i x y :
  lru_touch i l !! i = Some y -> l !! i = Some x -> exists j, l !! j = Some y.
Proof.
  unfold lru_touch. intros Hy Hx. rewrite Hx in Hy.
  assert (y ∈ l) as [j Hj]%list_elem_of_lookup; [|by exists j].
  apply list_elem_of_lookup_2, elem_of_app in Hy as [Hy|Hy].
  - apply list_elem_of_lookup in Hy as [j Hj].
    destruct (decide (j < i)%nat).
    + rewrite list_lookup_delete_lt in Hj by done. by eapply list_elem_of_lookup_2.
    + rewrite list_lookup_delete_ge in Hj by lia. by eapply list_elem_of_lookup_2.
  - apply list_elem_of_singleton in Hy as ->. by eapply list_elem_of_lookup_2.
Qed.

Lemma lru_touch_length l i x : l !! i = Some x -> length (lru_touch i l) = length l.
Proof.
  intros Hi. unfold lru_touch. rewrite Hi, length_app, length_delete by eauto.
  apply lookup_lt_Some in Hi. simpl. lia.
Qed.

(** A hit: the cached index is returned, the entry moves to the back, and the
    server of the entry now at the found position is pinged. *)
Lemma search_hit_cont R st l buffer i x tr (Q : list event -> Z -> naming -> Prop) :
  roots_present st -> cache_repr (cache st) l -> cache_valid st l ->
  0 < storage_semaphore st -> lru_find buffer l = Some i -> l !! i = Some x ->
  (forall y ss c', lru_touch i l !! i = Some y -> server_at st y.2 = Val ss ->
     cache_repr c' (lru_touch i l) ->
     wpM R (isSSUp y.2) (set_cache c' st) tr (fun tr' _ st' => Q tr' x.2 st')) ->
  wpM R (search_storage_server (Some buffer)) st tr Q.
Proof.
  intros Hr Hc Hv Hs Hf Hx HQ. unfold search_storage_server.
  wpM_pure. apply wpM_sem_wait; [done|]. wpM_pure. apply wpM_liftC.
  cbn [cache set_semaphore]. rewrite (search_cache_repr _ _ buffer Hc), Hf.
  wpM_pure. apply wpM_liftC. cbn [cache set_semaphore]. unfold read at 1.
  rewrite (repr_lookup _ l i Hc), Hx by (by eapply lookup_lt_Some). cbn [fmap option_fmap option_map].
  destruct (move_to_back_repr (cache st) l i Hc) as (c' & Hm & Hc'); [by eapply lru_find_lt|].
  wpM_pure. eapply wpM_on_cache; [done|]. wpM_pure. apply wpM_sem_post. wpM_pure.
  apply wpM_liftC. cbn [cache set_semaphore set_cache].
  assert (i < length (lru_touch i l))%nat as Hi
    by (rewrite (lru_touch_length _ _ x) by done; by eapply lookup_lt_Some).
  destruct (lookup_lt_is_Some_2 _ _ Hi) as [y Hy].
  unfold read at 1. rewrite (repr_lookup _ _ i Hc' Hi), Hy.
  cbn [fmap option_fmap option_map]. destruct (lru_touch_lookup _ _ _ _ Hy Hx) as [j Hj].
  pose proof (Forall_lookup_1 _ _ _ _ Hv Hj) as Hyv. simpl in Hyv.
  destruct (roots_present_server st y.2 Hr Hyv) as [ss Hss].
  set (st1 := set_semaphore _ _).
  assert (st1 = set_cache c' st) as ->.
  { unfold st1, set_cache, set_semaphore. cbn. f_equal. lia. }
  wpM_pure. eapply wpM_mono; [by eapply HQ|]. intros tr' up st' H. by wpM_pure.
Qed.

Lemma search_hit_wp st l buffer i x tr :
  roots_present st -> cache_repr (cache st) l -> cache_valid st l ->
  0 < storage_semaphore st -> lru_find buffer l = Some i -> l !! i = Some x ->
  wpM total (search_storage_server (Some buffer)) st tr (fun tr' r st' =>
    r = x.2 /\
    exists y ss up c', lru_touch i l !! i = Some y /\ server_at st y.2 = Val ss /\
      cache_repr c' (lru_touch i l) /\ pinged y.2 ss (set_cache c' st) up st' /\
      exists es, tr' = tr ++ es /\ ping_events ss es).
Proof.
  intros Hr Hc Hv Hs Hf Hx. eapply search_hit_cont; [done..|].
  intros y ss c' Hy Hss Hc'. eapply wpM_mono; [by apply (isSSUp_wp y.2 ss)|].
  intros tr' up st' [Hp He]. split; [done|]. by exists y, ss, up, c'.
Qed.

(** A miss: the tries are searched; a server found is cached and pinged. *)
Lemma search_miss_cont R st l buffer p tr (Q : list event -> Z -> naming -> Prop) :
  roots_present st -> cache_repr (cache st) l ->
  0 < storage_semaphore st -> lru_find buffer l = None -> ParsePath buffer = Val p ->
  (first_with st p (-1) -> Q tr (-1) st) ->
  (forall r c', first_with st p r -> r <> -1 -> cache_repr c' (lru_add buffer r l) ->
     wpM R (isSSUp r) (set_cache c' st) tr (fun tr' _ st' => Q tr' r st')) ->
  wpM R (search_storage_server (Some buffer)) st tr Q.
Proof.
  intros Hr Hc Hs Hf Hp Hno Hyes. unfold search_storage_server.
  wpM_pure. apply wpM_sem_wait; [done|]. wpM_pure. apply wpM_liftC.
  cbn [cache set_semaphore]. rewrite (search_cache_repr _ _ buffer Hc), Hf.
  destruct (search_in_tries_first st buffer p Hr Hp) as (r & Hsr & Hcase).
  wpM_pure. apply wpM_liftC. rewrite search_in_tries_semaphore, Hsr.
  assert (storage_semaphore st - 1 + 1 = storage_semaphore st) as Hsem by lia.
  destruct (decide (r = -1)) as [->|Hne].
  - rewrite bool_decide_eq_false_2 by auto. wpM_pure. apply wpM_sem_post. wpM_pure.
    unfold set_semaphore. cbn. rewrite Hsem. destruct st. by apply Hno.
  - rewrite bool_decide_eq_true_2 by done.
    destruct (add_to_cache_repr _ _ buffer r Hc) as (c' & Ha & Hc').
    wpM_pure. eapply wpM_on_cache; [done|]. wpM_pure. apply wpM_sem_post. wpM_pure.
    unfold set_semaphore, set_cache. cbn. rewrite Hsem.
    eapply wpM_mono; [by apply (Hyes r c')|]. intros tr' up st' HQ. by wpM_pure.
Qed.

Lemma search_miss_wp st l buffer p tr :
  roots_present st -> cache_repr (cache st) l ->
  0 < storage_semaphore st -> lru_find buffer l = None -> ParsePath buffer = Val p ->
  wpM total (search_storage_server (Some buffer)) st tr (fun _ r st' =>
    first_with st p r /\
    same_but_up (set_cache (cache st') st) st' /\
    cache_repr (cache st') (if bool_decide (r = -1) then l else lru_add buffer r l)).
Proof.
  intros Hr Hc Hs Hf Hp. apply (search_miss_cont total st l buffer p); [done..| |].
  - intros H. split; [done|]. split; [by destruct st|done].
  - intros r c' Hfirst Hne Hc'. apply ping_wp.
    { destruct Hfirst as [[-> _]|(k & -> & Hk & _)]; [done|].
      destruct (roots_present_server st (Z.of_nat k) Hr) as [ss ?]; [lia|]. by exists ss. }
    intros tr' up st' Hsame. split; [done|].
    pose proof (same_but_up_cache _ _ Hsame) as Ec. cbn in Ec. rewrite <- Ec.
    split; [done|]. by rewrite bool_decide_eq_false_2.
Qed.

Lemma search_storage_server_wp st l buffer p tr :
  roots_present st -> cache_repr (cache st) l -> cache_valid st l ->
  0 < storage_semaphore st -> ParsePath buffer = Val p ->
  wpM total (search_storage_server (Some buffer)) st tr (fun _ r st' =>
    looked_up st l buffer p r /\
    same_but_up (set_cache (cache st') st) st' /\
    cache_repr (cache st') (if bool_decide (r = -1) then l else lru_step (Access buffer r) l)).
Proof.
  intros Hr Hc Hv Hs Hp. cbn [lru_step].
  destruct (lru_find buffer l) as [i|] eqn:Hf; [|unfold looked_up; rewrite Hf; by apply search_miss_wp].
  destruct (lookup_lt_is_Some_2 l i (lru_find_lt _ _ _ Hf)) as [x Hx].
  pose proof (Forall_lookup_1 _ _ _ _ Hv Hx) as Hxv. simpl in Hxv.
  eapply wpM_mono; [by eapply search_hit_wp|]. cbn beta.
  intros tr' r st' (-> & y & ss & up & c' & Hy & Hss & Hc' & Hp' & _).
  pose proof (pinged_same y.2 ss (set_cache c' st) up st' Hss Hp') as Hsame.
  pose proof (same_but_up_cache _ _ Hsame) as Ec. cbn in Ec. rewrite <- Ec.
  unfold looked_up. rewrite Hf. split; [by exists x|]. split; [done|].
  by rewrite bool_decide_eq_false_2 by lia.
Qed.

(** ** Properties of the lookups *)

(** A state with two registered servers, each having one file. *)
Definition example_trie (path : bytes) : option trienode :=
  match AddPathToTrie path (CreateNode ".") with Val t => Some t | Undef _ => None end.

Definition example_server (path : bytes) (port : Z) : StorageServerInfo :=
  SSI (Conn port (Addr "10.0.0.1" port)) port port (example_trie path) (-1) (-1) 1.

Definition example_cache : LRUCache :=
  Cache [Entry (Some (lit "./s0/a")) 0; Entry (Some (lit "./s1/b")) 1; Entry None (-1)] 2.

Definition example_naming : naming :=
  Naming (example_server "./s0/a" 4 :: example_server "./s1/b" 5 :: replicate 8 zero_server)
    2 example_cache 1.

Definition example_entries : list (bytes * Z) := [(lit "./s0/a", 0); (lit "./s1/b", 1)].

Lemma example_roots : roots_present example_naming.
Proof.
  intros i Hi. cbn in Hi. destruct i as [|[|i]]; [| |lia].
  all: eexists _, _; split; [reflexivity | vm_compute; reflexivity].
Qed.

Lemma example_repr : cache_repr (cache example_naming) example_entries.
Proof. by split. Qed.

Lemma example_valid : cache_valid example_naming example_entries.
Proof. repeat constructor; done. Qed.

(** A ping of a registered server returns for every behaviour of the
    network, touches no other server and nothing but the liveness flag of this
    one; the flag is 1 when the ping succeeds and otherwise 0 or unchanged,
    and all it exchanges is one connection to the server's client port on
    which it sends "ping" and reads one answer. *)
Theorem isSSUp_records_liveness i ss st :
  server_at st i = Val ss ->
  wpM total (isSSUp i) st [] (fun tr up st' => pinged i ss st up st' /\ ping_events ss tr).
Proof.
  intros Hi. eapply wpM_mono; [by apply isSSUp_wp|].
  intros tr up st' [Hp (es & -> & He)]. by split.
Qed.

Lemma isSSUp_records_liveness_witness :
  server_at example_naming 1 = Val (example_server "./s1/b" 5) /\
  wpM total (isSSUp 1) example_naming [] (fun tr up st' =>
    pinged 1 (example_server "./s1/b" 5) example_naming up st' /\
    ping_events (example_server "./s1/b" 5) tr).
Proof. split; [reflexivity | apply isSSUp_records_liveness; reflexivity]. Defined.

(** C37. The choice of a redundant server: whatever the network does,
    [redundantSS] yields the server itself, one of its two backups or -1; the
    flag [isUp] of a server it yields is 1, and nothing but liveness flags has
    changed.  This is weaker than an answer to the ping: [isSSUp] sets the flag
    also when its [recv] gets nothing, at the end of the stream or when no
    answer is there yet. *)
Theorem redundantSS_yields_live_server i ss st :
  server_at st i = Val ss ->
  valid_or_none st (backupServer1 ss) -> valid_or_none st (backupServer2 ss) ->
  wpM total (redundantSS i) st [] (fun _ r st' =>
    same_but_up st st' /\
    (r = i \/ r = backupServer1 ss \/ r = backupServer2 ss \/ r = -1) /\
    (r <> -1 -> exists ss', server_at st' r = Val ss' /\ isUp ss' = 1)).
Proof. apply redundantSS_wp. Qed.

Lemma redundantSS_yields_live_server_witness :
  let ss := with_backups 1 (-1) (example_server "./s0/a" 4) in
  let st := set_servers (<[0%nat:=ss]> (storage_servers example_naming)) example_naming in
  wpM total (redundantSS 0) st [] (fun _ r st' =>
    same_but_up st st' /\
    (r = 0 \/ r = backupServer1 ss \/ r = backupServer2 ss \/ r = -1) /\
    (r <> -1 -> exists ss', server_at st' r = Val ss' /\ isUp ss' = 1)).
Proof.
  intros ss st. apply redundantSS_yields_live_server.
  - reflexivity.
  - right. eexists. reflexivity.
  - left. reflexivity.
Defined.

(** C6. A lookup of a path: when the servers registered all have a trie and
    the cache holds positions of registered servers, the lookup returns for
    every behaviour of the network; its result is the cached index on a hit
    and otherwise the first registered server whose trie has the path, -1 when
    none has.  The cache is used as an access of the path, the semaphore is
    given back, and nothing else but liveness flags changes. *)
Theorem search_storage_server_finds_first st l buffer p :
  roots_present st -> cache_repr (cache st) l -> cache_valid st l ->
  0 < storage_semaphore st -> ParsePath buffer = Val p ->
  wpM total (search_storage_server (Some buffer)) st [] (fun _ r st' =>
    looked_up st l buffer p r /\
    same_but_up (set_cache (cache st') st) st' /\
    cache_repr (cache st') (if bool_decide (r = -1) then l else lru_step (Access buffer r) l)).
Proof. apply search_storage_server_wp. Qed.

Lemma search_storage_server_finds_first_witness :
  wpM total (search_storage_server (Some (lit "./s1"))) example_naming [] (fun _ r st' =>
    looked_up example_naming example_entries "./s1" [lit "."; lit "s1"] r /\
    same_but_up (set_cache (cache st') example_naming) st' /\
    cache_repr (cache st')
      (if bool_decide (r = -1) then example_entries
       else lru_step (Access "./s1" r) example_entries)).
Proof.
  apply search_storage_server_finds_first.
  - exact example_roots.
  - exact example_repr.
  - exact example_valid.
  - reflexivity.
  - vm_compute. reflexivity.
Defined.

(** The ping after a cache hit goes astray: when the entry found is not
    the last one, [move_to_back] has put its successor at the found position,
    so it is the successor's server that is pinged; the flag of the server
    whose index is returned is not refreshed when the two differ. *)
Theorem search_storage_server_pings_successor st l buffer i x y :
  roots_present st -> cache_repr (cache st) l -> cache_valid st l ->
  0 < storage_semaphore st ->
  lru_find buffer l = Some i -> l !! i = Some x -> l !! S i = Some y -> x.2 <> y.2 ->
  wpM total (search_storage_server (Some buffer)) st [] (fun tr r st' =>
    r = x.2 /\
    (exists ss, server_at st y.2 = Val ss /\ ping_events ss tr) /\
    server_at st' r = server_at st r).
Proof.
  intros Hr Hc Hv Hs Hf Hx Hy Hne. eapply wpM_mono; [by eapply search_hit_wp|]. cbn beta.
  intros tr r st' (-> & z & ss & up & c' & Hz & Hss & _ & (v & -> & _) & es & -> & He).
  unfold lru_touch in Hz. rewrite Hx in Hz.
  rewrite lookup_app_l, list_lookup_delete_ge in Hz
    by (try rewrite length_delete by eauto; apply lookup_lt_Some in Hy; lia).
  simplify_eq. split; [done|]. split; [by exists ss|].
  pose proof (Forall_lookup_1 _ _ _ _ Hv Hx) as Hxv. simpl in Hxv.
  pose proof (Forall_lookup_1 _ _ _ _ Hv Hy) as Hyv. simpl in Hyv.
  unfold server_at, read, upd_isUp. cbn. case_bool_decide; [|done].
  by rewrite list_lookup_insert_ne by lia.
Qed.

Lemma search_storage_server_pings_successor_witness :
  wpM total (search_storage_server (Some (lit "./s0/a"))) example_naming [] (fun tr r st' =>
    r = 0 /\
    (exists ss, server_at example_naming 1 = Val ss /\ ping_events ss tr) /\
    server_at st' r = server_at example_naming r).
Proof.
  apply (search_storage_server_pings_successor example_naming example_entries (lit "./s0/a")
           0 (lit "./s0/a", 0) (lit "./s1/b", 1)).
  - exact example_roots.
  - exact example_repr.
  - exact example_valid.
  - reflexivity.
  - vm_compute. reflexivity.
  - reflexivity.
  - reflexivity.
  - done.
Defined.
