(* ===== verification/Indexing.v ===== *)
(** * Receiving a storage server's listing (naming_server.c: indexHelper)

    A storage server sends its paths one per line, ended by a marker line; the
    naming server collects the pieces [recv] yields in a buffer of
    [MAX_PATH_SIZE] bytes and adds each complete line to a trie.  The result
    must not depend on how the stream is cut into pieces. *)
From S2P Require Export Naming.

Open Scope nat_scope.

(** ** Definitions *)

Definition END_MARKER : bytes := "@!-Finished Indexing-!@".

(** [strncat(dst, src, n)]. *)
Definition strncat (dst src : bytes) (n : nat) : bytes := dst ++ take n src.

(** The C string in a zeroed buffer after a [recv]; the caller bounds the
    number of bytes it reads from it. *)
Definition until_nul (b : bytes) : bytes :=
  match split_first NUL b with Some (a, _) => a | None => b end.

(** One pass over [temp_buffer]: [current] is the part of the current line
    already passed, the text what follows it.  Yields the trie, whether the
    marker was seen, and the partial line that stays in the buffer. *)
Fixpoint index_lines (current text : bytes) (root : trienode) : cres (trienode * bool * bytes) :=
  match text with
  | [] => mret (root, false, current)
  | c :: rest =>
      if bool_decide (c = LF) then
        if strstr END_MARKER current then mret (root, true, current)
        else
          root' ← (if bool_decide (0 < length current) then AddPathToTrie current root
                   else mret root);
          index_lines [] rest root'
      else index_lines (current ++ [c]) rest root
  end.

Fixpoint index_loop (fuel : nat) (storage_socket : Z) (temp_buffer : bytes) (root : trienode)
    : NM trienode :=
  match fuel with
  | O => blockM
  | S fuel' =>
      nb ← recvN storage_socket MAX_PATH_SIZE;
      if bool_decide (nb.1 <= 0)%Z then mret root
      else
        let temp_buffer :=
          strncat temp_buffer (until_nul nb.2) (MAX_PATH_SIZE - length temp_buffer - 1) in
        r ← liftC (index_lines [] temp_buffer root);
        let '(root', finished_indexing, partial) := r in
        if finished_indexing : bool then mret root'
        else index_loop fuel' storage_socket partial root'
  end.

(** [indexHelper], under the semaphore; [fuel] bounds the number of [recv]s. *)
Definition indexHelper (fuel : nat) (storage_socket : Z) (root : trienode) : NM trienode :=
  _ ← sem_wait;
  root' ← index_loop fuel storage_socket [] root;
  _ ← sem_post;
  mret root'.

(** ** The pass over the buffer *)

(** A pass over a text resumes where the pass over its first part stopped. *)
Lemma index_lines_app current a b root :
  index_lines current (a ++ b) root =
    (r ← index_lines current a root;
     let '(root', finished, partial) := r in
     if finished : bool then mret r else index_lines partial b root').
Proof.
  revert current root; induction a as [|c a IH]; intros current root; [done|].
  cbn [index_lines app]. case_bool_decide; [|apply IH].
  destruct (strstr END_MARKER current); [done|].
  destruct (if bool_decide (0 < length current) then _ else _) as [root'|]; [apply IH|done].
Qed.

(** A line is passed over without effect until its newline. *)
Lemma index_lines_line current line rest root :
  LF ∉ line ->
  index_lines current (line ++ rest) root = index_lines (current ++ line) rest root.
Proof.
  revert current; induction line as [|c line IH]; intros current Hn;
    [by rewrite app_nil_r|].
  apply not_elem_of_cons in Hn as [Hc Hn]. cbn [index_lines app].
  rewrite bool_decide_eq_false_2 by congruence.
  rewrite IH by done. by rewrite <- app_assoc.
Qed.

(** What stays in the buffer is a suffix of what was passed, free of
    newlines. *)
Lemma index_lines_partial current text root root' partial :
  index_lines current text root = Val (root', false, partial) ->
  exists done, current ++ text = done ++ partial.
Proof.
  revert current root; induction text as [|c text IH]; intros current root H; cbn [index_lines] in H.
  - injection H as <- <-. exists []. by rewrite app_nil_r.
  - case_bool_decide as Hc.
    + destruct (strstr END_MARKER current); [done|].
      apply cbind_Val_inv in H as (r1 & _ & H). apply IH in H as [d Hd].
      exists (current ++ c :: d). rewrite <- app_assoc. simpl in Hd |- *. by rewrite Hd.
    + apply IH in H as [d Hd]. exists d. by rewrite <- Hd, <- app_assoc.
Qed.

(** ** The text of a listing *)

Definition line_of (p : list bytes) : bytes := render p ++ [LF].

(** The stream [_indexSubFolders] and [indexSubFolder] produce for a list of
    paths. *)
Definition listing (ps : list (list bytes)) : bytes :=
  concat (line_of <$> ps) ++ END_MARKER ++ [LF].

(** A line the protocol can carry: no newline, no NUL, not the marker, and
    short enough for the receiving buffer. *)
Definition carried (l : nat) (p : list bytes) : Prop :=
  let line := render p in
  (LF ∉ line) /\ (NUL ∉ line) /\ strstr END_MARKER line = false /\
  0 < length line < l.

Definition add_ops (ps : list (list bytes)) : list trie_op := (fun p => OpAdd (render p)) <$> ps.

Lemma index_listing l ps root root' :
  Forall (carried l) ps -> run_ops (add_ops ps) root = Val root' ->
  index_lines [] (listing ps) root = Val (root', true, END_MARKER).
Proof.
  unfold listing. revert root; induction ps as [|p ps IH]; intros root Hc Hr.
  - injection Hr as <-. vm_compute. reflexivity.
  - apply Forall_cons in Hc as [(Hlf & _ & Hm & Hlen) Hc].
    cbn [fmap list_fmap concat]. unfold line_of at 1.
    rewrite <- !app_assoc, index_lines_line by done. cbn [index_lines app].
    rewrite bool_decide_eq_true_2, Hm by done.
    rewrite bool_decide_eq_true_2 by lia.
    cbn [add_ops fmap list_fmap run_ops run_op] in Hr.
    apply cbind_Val_inv in Hr as (r1 & -> & Hr). by apply IH.
Qed.

(** ** Cutting the stream *)

(** No stretch between newlines is [l] bytes long. *)
Definition short_lines (l : nat) (text : bytes) : Prop :=
  forall a m b, text = a ++ m ++ b -> LF ∉ m -> length m < l.

Lemma short_lines_suffix l a b : short_lines l (a ++ b) -> short_lines l b.
Proof. intros H a' m b' -> Hm. apply (H (a ++ a') m b'); [by rewrite <- app_assoc|done]. Qed.

Lemma short_lines_nil l : 0 < l -> short_lines l [].
Proof.
  intros Hl a m b Heq _. symmetry in Heq. apply app_eq_nil in Heq as [_ Heq].
  by apply app_eq_nil in Heq as [-> _].
Qed.

Lemma short_lines_cons l line rest :
  length line < l -> short_lines l rest -> short_lines l (line ++ LF :: rest).
Proof.
  intros Hl Hr a m b Heq Hm. symmetry in Heq. apply app_eq_inv in Heq as [(k & -> & Hk)|(k & -> & Hk)].
  - destruct k as [|c k].
    + destruct m as [|c m]; [simpl; lia|]. injection Hk as <- _. set_solver.
    + injection Hk as <- Hk. by apply (Hr k m b).
  - apply app_eq_inv in Hk as [(k' & -> & Hk)|(k' & -> & Hk)].
    + destruct k' as [|c k']; [rewrite !length_app in *; simpl; lia|].
      injection Hk as <- _. set_solver.
    + rewrite !length_app in Hl. lia.
Qed.

Lemma index_lines_no_LF current text root root' partial :
  LF ∉ current -> index_lines current text root = Val (root', false, partial) -> LF ∉ partial.
Proof.
  revert current root; induction text as [|c text IH]; intros current root Hn H; cbn [index_lines] in H.
  - by injection H as <- <-.
  - case_bool_decide as Hc.
    + destruct (strstr END_MARKER current); [done|].
      apply cbind_Val_inv in H as (r1 & _ & H). apply IH in H; [done|apply not_elem_of_nil].
    + apply IH in H; [done|]. apply not_elem_of_app. split; [done|].
      intros Heq%list_elem_of_singleton. congruence.
Qed.

Lemma until_nul_free b : NUL ∉ b -> until_nul b = b.
Proof. intros H. unfold until_nul. apply split_first_None in H. by rewrite H. Qed.

Definition pieces (cs : list bytes) : list answer := (fun c => ARecv (RData c)) <$> cs.

(** The loop computes the pass over the whole stream, however it is cut. *)
Lemma index_loop_run fuel sock temp root st cs l k root' rest :
  index_lines [] (temp ++ concat cs) root = Val (root', true, rest) ->
  LF ∉ temp -> NUL ∉ concat cs -> short_lines l (temp ++ concat cs) ->
  Forall (fun c => 0 < length c <= k) cs -> l + k <= MAX_PATH_SIZE -> length cs <= fuel ->
  exists tr, run (index_loop fuel sock temp root st) (pieces cs) = (tr, Done (root', st)).
Proof.
  revert fuel temp root; induction cs as [|c cs IH];
    intros fuel temp root Hi Hlf Hnul Hs Hc Hlk Hf.
  - cbn [concat] in Hi. rewrite app_nil_r, <- (app_nil_r temp), index_lines_line in Hi by done.
    discriminate Hi.
  - destruct fuel as [|fuel]; [simpl in Hf; lia|]. apply Forall_cons in Hc as [Hlen Hc].
    cbn [concat] in *. apply not_elem_of_app in Hnul as [Hn1 Hn2].
    rewrite (app_assoc temp) in Hi. rewrite index_lines_app in Hi.
    apply cbind_Val_inv in Hi as ([[r1 fin] part] & H1 & Hi).
    assert (length temp < l) as Ht by by apply (Hs [] temp (c ++ concat cs)).
    cbn [index_loop pieces fmap list_fmap]. unfold recvN. rewrite run_recvM. cbn [fst snd].
    rewrite bool_decide_eq_false_2 by lia.
    rewrite until_nul_free by done. unfold strncat. rewrite take_ge by lia.
    rewrite H1, liftC_Val. destruct fin.
    + injection Hi as -> _. by eexists.
    + destruct (index_lines_partial _ _ _ _ _ H1) as [d Hd]. cbn [app] in Hd.
      assert (LF ∉ part) as Hpl by (eapply index_lines_no_LF; [apply not_elem_of_nil|exact H1]).
      destruct (IH fuel part r1) as [tr Htr]; [|done|done| |done|done|simpl in Hf; lia|].
      * by rewrite index_lines_line.
      * apply (short_lines_suffix l d). by rewrite app_assoc, <- Hd, <- app_assoc.
      * unfold pieces in Htr. rewrite Htr. by eexists.
Qed.

(** The loop on one more piece, with what follows it. *)
Lemma index_loop_bind {A} c fuel sock temp root (f : trienode -> NM A) st ans :
  0 < length c ->
  run ((index_loop (S fuel) sock temp root ≫= f) st) (ARecv (RData c) :: ans) =
    let '(tr, o) := run (((r ← liftC (index_lines []
                               (strncat temp (until_nul c) (MAX_PATH_SIZE - length temp - 1)) root);
                           let '(root', finished_indexing, partial) := r in
                           if finished_indexing : bool then mret root'
                           else index_loop fuel sock partial root') ≫= f) st) ans in
    (ERecv sock MAX_PATH_SIZE (RData c) :: tr, o).
Proof.
  intros Hc. cbn [index_loop]. unfold recvN. rewrite run_recvM_bind. cbn [fst snd].
  by rewrite bool_decide_eq_false_2 by lia.
Qed.

Lemma listing_short l ps :
  24 <= l -> Forall (carried l) ps -> short_lines l (listing ps).
Proof.
  intros Hl. unfold listing. induction 1 as [|p ps (_ & _ & _ & Hp) _ IH].
  - cbn [fmap list_fmap concat app]. apply short_lines_cons; [simpl; lia|].
    apply short_lines_nil. lia.
  - cbn [fmap list_fmap concat]. unfold line_of at 1. rewrite <- !app_assoc.
    apply short_lines_cons; [lia|done].
Qed.

Lemma listing_no_nul l ps : Forall (carried l) ps -> NUL ∉ listing ps.
Proof.
  unfold listing. induction 1 as [|p ps (_ & Hp & _) _ IH].
  - apply (bool_decide_unpack _). vm_compute. done.
  - cbn [fmap list_fmap concat]. unfold line_of at 1. rewrite <- !app_assoc.
    rewrite !not_elem_of_app in *. split; [done|]. split; [|done].
    by intros ?%list_elem_of_singleton.
Qed.

Lemma indexHelper_run_trie fuel sock st l k ps cs t :
  Forall (carried l) ps -> 24 <= l -> l + k <= MAX_PATH_SIZE ->
  concat cs = listing ps -> Forall (fun c => 0 < length c <= k) cs -> length cs <= fuel ->
  run_ops (add_ops ps) (CreateNode ".") = Val t -> (0 < storage_semaphore st)%Z ->
  exists tr, run (indexHelper fuel sock (CreateNode ".") st) (pieces cs) = (tr, Done (t, st)).
Proof.
  intros Hps Hl Hlk Hcat Hcs Hf Hrun Hsem.
  set (st1 := set_semaphore (storage_semaphore st - 1) st).
  destruct (index_loop_run fuel sock [] (CreateNode ".") st1 cs l k t END_MARKER) as [tr Htr].
  - cbn [app]. rewrite Hcat. by eapply index_listing.
  - apply not_elem_of_nil.
  - rewrite Hcat. by eapply listing_no_nul.
  - cbn [app]. rewrite Hcat. by apply listing_short.
  - done.
  - done.
  - done.
  - exists tr. unfold indexHelper.
    rewrite sem_wait_bind, bool_decide_eq_true_2 by done.
    eapply run_bind_Ret; [exact Htr|]. cbn [fst snd].
    change (Ret (t, set_semaphore (storage_semaphore st1 + 1) st1) = Ret (t, st)).
    do 2 f_equal. unfold st1, set_semaphore. destruct st as [ss i c s]. cbn. f_equal. lia.
Qed.

Lemma indexHelper_run fuel sock st l k ps cs :
  Forall (carried l) ps -> 24 <= l -> l + k <= MAX_PATH_SIZE ->
  concat cs = listing ps -> Forall (fun c => 0 < length c <= k) cs -> length cs <= fuel ->
  ops_ready (add_ops ps) (CreateNode ".") = true -> (0 < storage_semaphore st)%Z ->
  exists tr t, run (indexHelper fuel sock (CreateNode ".") st) (pieces cs) = (tr, Done (t, st)) /\
    represents t (foldl (fun d o => dir_op o d) ({[ [] ]} : directory) (add_ops ps)).
Proof.
  intros Hps Hl Hlk Hcat Hcs Hf Hops Hsem.
  destruct (run_ops_sim _ _ _ (represents_new ".") Hops) as (t & Hrun & Ht).
  destruct (indexHelper_run_trie fuel sock st l k ps cs t) as [tr Htr]; [done..|]. by exists tr, t.
Qed.

(** ** Properties of the indexing protocol *)


Definition two_paths : list (list bytes) := [[lit "."; lit "s"]; [lit "."; lit "s"; lit "a"]].


(** The receiving buffer keeps one byte for its terminator, but [recv] is
    allowed to fill all [MAX_PATH_SIZE] bytes: when the stream arrives in a
    full piece, its last byte is lost, whatever it is and whatever follows, so
    a newline in that place joins two paths into one. *)
Theorem indexHelper_drops_byte fuel sock root st c b ans :
  length c = MAX_PATH_SIZE - 1 -> NUL ∉ c ++ [b] ->
  (run (indexHelper (S fuel) sock root st) (ARecv (RData (c ++ [b])) :: ans)).2 =
  (run (indexHelper (S fuel) sock root st) (ARecv (RData c) :: ans)).2.
Proof.
  intros Hc Hnul. unfold indexHelper. rewrite sem_wait_bind. case_bool_decide; [|done].
  rewrite (index_loop_bind (c ++ [b])), (index_loop_bind c);
    [|rewrite ?length_app, Hc; unfold MAX_PATH_SIZE; lia..].
  rewrite !until_nul_free by (done || set_solver).
  unfold strncat. cbn [length app].
  replace (MAX_PATH_SIZE - 0 - 1) with (length c) by (rewrite Hc; cbn; lia).
  rewrite take_app_length, firstn_all.
  match goal with |- (let '(tr, o) := ?x in _).2 = (let '(tr, o) := ?y in _).2 =>
    change x with y; by destruct y end.
Qed.

Lemma indexHelper_drops_byte_witness :
  (run (indexHelper 2 7 (CreateNode ".") naming_init)
     [ARecv (RData (replicate 2047 "a"%char ++ [LF])); ARecv REof]).2 =
  (run (indexHelper 2 7 (CreateNode ".") naming_init)
     [ARecv (RData (replicate 2047 "a"%char)); ARecv REof]).2.
Proof.
  apply (indexHelper_drops_byte 1 7 (CreateNode ".") naming_init).
  - by rewrite length_replicate.
  - rewrite not_elem_of_app. split.
    + intros [H _]%elem_of_replicate. discriminate H.
    + intros H%list_elem_of_singleton. discriminate H.
Defined.
