(* ===== verification/CopyRequest.v ===== *)
(** * Copies and backups ordered by the naming server (naming_server.c:
    handle_copy_request, create_backup_helper)

    A copy is carried out by the storage servers; the naming server checks the
    paths, rewrites the client's command, relays the answer, fetches a new
    listing from the destination and has it copy the result to its backups. *)
From S2P Require Export Indexing.

Open Scope Z_scope.

(** ** Definitions *)

(** [root->childeren[0]->childeren[0]->data]: the folder a server shares. *)
Definition first_child (t : trienode) : cres trienode :=
  c ← read (childeren t) 0; nonnull c.

Definition folder_name (r : option trienode) : cres bytes :=
  t ← nonnull r; dot ← first_child t; folder ← first_child dot; mret (data folder).

Definition folder_of (i : Z) : NM bytes :=
  ss ← get_server i; liftC (folder_name (root ss)).

(** The [ss_info] text: address and client port of a server. *)
Definition ss_info (i : Z) : NM bytes :=
  ss ← get_server i;
  mret (snprintf BUFFER_SIZE
    (" " ++ sin_addr (ci_addr (clientInfo ss)) ++ " " ++ print_Z (portClient ss))).

(** The first four bytes of the command replaced, in place. *)
Definition retitle (title buffer : bytes) : bytes := title ++ drop 4 buffer.

(** [handle_copy_request] with [client_socket == -1]. *)
Definition handle_copy_backup (buffer : bytes) (src_sock dest_index : Z) : NM unit :=
  let buffer := if starts_with "lcopy" buffer then buffer
                else retitle "copydifferent" buffer in
  info ← ss_info dest_index;
  command ← liftC (fits BUFFER_SIZE (buffer ++ info));
  n ← sendN src_sock command;
  if bool_decide (n < 0) then mret tt
  else
    nb ← recvN src_sock BUFFER_SIZE;
    if bool_decide (nb.1 <= 0) then mret tt
    else _ ← liftC (cstr_in BUFFER_SIZE nb.2); mret tt.

(** The text after the third token of a command, as far as the byte that
    [strtok] overwrote with a terminator; [None] when the text ends there. *)
Fixpoint skip_delims (d : ascii) (s : bytes) : bytes :=
  match s with
  | c :: s' => if bool_decide (c = d) then skip_delims d s' else s
  | [] => []
  end.

Definition after_token (d : ascii) (s : bytes) : option bytes :=
  snd <$> split_first d (skip_delims d s).

Definition after_third (s : bytes) : option bytes :=
  s1 ← after_token " "%char s;
  s2 ← after_token " "%char s1;
  after_token " "%char s2.

(** [dest + 2] printed with [%s]; [rest] is what follows the token [dest]. *)
Definition plus_two (dest : bytes) (rest : option bytes) : cres bytes :=
  match dest, rest with
  | _ :: _ :: s, _ => Val s
  | [_], Some s => Val s
  | _, _ => Undef OutOfBounds
  end.

(** The order to copy the destination to its backup [bs]; the answer the
    storage server will give is not read. *)
Definition copy_to_backup (bs dest_sock : Z) (src dest : bytes) (rest : option bytes) : NM unit :=
  up ← (if bool_decide (bs <> -1) then isSSUp bs else mret false);
  if up : bool then
    let name := match split_last "/"%char src with Some (_, n) => n | None => src end in
    folder ← folder_of bs;
    tail ← liftC (plus_two dest rest);
    ss ← get_server bs;
    _ ← sendN dest_sock (snprintf BUFFER_SIZE
          ("copydifferentb " ++ dest ++ "/" ++ name ++ " ./backupfolderforss/" ++ folder ++
           "/" ++ tail ++ " " ++ sin_addr (ci_addr (clientInfo ss)) ++ " " ++
           print_Z (portClient ss)));
    mret tt
  else mret tt.

Definition send_reply (client_socket : Z) (msg : bytes) : NM unit :=
  _ ← sendN client_socket msg; mret tt.

(** The part of [handle_copy_request] after the checks of the paths. *)
Definition copy_between (fuel : nat) (buffer src dest : bytes) (client_socket src_index dest_index : Z)
    : NM unit :=
  s ← get_server src_index;
  d ← get_server dest_index;
  let src_sock := ci_socket (clientInfo s) in
  let dest_sock := ci_socket (clientInfo d) in
  info ← (if bool_decide (src_index = dest_index) then mret [] else ss_info dest_index);
  command ← liftC (fits BUFFER_SIZE
    (if bool_decide (src_index = dest_index) then retitle "copysame" buffer
     else retitle "copydifferent" buffer ++ info));
  n ← sendN src_sock command;
  if bool_decide (n < 0) then mret tt
  else
    nb ← recvN src_sock BUFFER_SIZE;
    if bool_decide (nb.1 <= 0) then mret tt
    else
      response ← liftC (cstr_in BUFFER_SIZE nb.2);
      n' ← sendN client_socket response;
      if bool_decide (n' < 0) then mret tt
      else
        _ ← sendN dest_sock "reindex";
        _root ← indexHelper fuel dest_sock (CreateNode ".");
        d' ← get_server dest_index;
        _ ← put_server dest_index (with_root _root d');
        d'' ← get_server dest_index;
        let BS1 := backupServer1 d'' in
        let BS2 := backupServer2 d'' in
        _ ← copy_to_backup BS1 dest_sock src dest (after_third buffer);
        copy_to_backup BS2 dest_sock src dest (after_third buffer).

(** Whether the server of a lookup result may be used. *)
Definition usable (i : Z) : NM bool :=
  if bool_decide (i = -1) then mret false
  else ss ← get_server i; mret (bool_decide (isUp ss <> 0)).

(** [handle_copy_request] for a client. *)
Definition handle_copy_client (fuel : nat) (buffer : bytes) (client_socket : Z) : NM unit :=
  if starts_with "copy" buffer then
    match tokens " "%char buffer with
    | command :: src :: dest :: _ =>
        if strcmp_eq src "/" || strcmp_eq src "./" || strcmp_eq dest "/" || strcmp_eq dest "./"
        then send_reply client_socket "Invalid source or destination path."
        else
          src_index ← search_storage_server (Some src);
          dest_index ← search_storage_server (Some dest);
          src_up ← (if bool_decide (dest_index = -1) then mret false else usable src_index);
          dest_up ← (if src_up : bool then usable dest_index else mret false);
          if dest_up : bool
          then copy_between fuel buffer src dest client_socket src_index dest_index
          else send_reply client_socket ("Storage server not found" ++ [NUL])
    | _ => send_reply client_socket "Invalid request. Source or destination path missing."
    end
  else mret tt.

Definition handle_copy_request (fuel : nat) (buffer : bytes)
    (client_socket src_sock dest_index : Z) : NM unit :=
  if bool_decide (client_socket = -1) then handle_copy_backup buffer src_sock dest_index
  else handle_copy_client fuel buffer client_socket.

(** [create_backup_helper]: a directory for the backup on the destination,
    then the copy.  The directory is made under "backfolderforss", the copy
    goes to "backupfolderforss". *)
Definition create_backup_helper (fuel : nat) (source_server_index dest_server_index : Z) : NM unit :=
  folder ← folder_of dest_server_index;
  let backup_buffer := snprintf BUFFER_SIZE ("mkdirb ./backfolderforss/" ++ folder) in
  d ← get_server dest_server_index;
  _ ← sendN (ci_socket (clientInfo d)) backup_buffer;
  src_folder ← folder_of source_server_index;
  folder' ← folder_of dest_server_index;
  s ← get_server source_server_index;
  handle_copy_request fuel
    (snprintf BUFFER_SIZE ("copy ./" ++ src_folder ++ " ./backupfolderforss/" ++ folder'))
    (-1) (socket s) dest_server_index.
