(* ===== verification/NamingInv.v ===== *)
(** * The invariant of the naming server's globals

    What every handler relies on and keeps: the arrays have their lengths, the
    registered servers have well-formed tries, the cache holds positions of
    registered servers, and the semaphore is free between critical sections.
    [keeps] is the judgement that a piece of a handler preserves it; its rules
    follow the structure of the code. *)
From S2P Require Export CopyRequest.

Open Scope Z_scope.

(** ** The invariant *)

(** With [n] servers registered. *)
Record naming_inv (n : nat) (st : naming) : Prop := {
  inv_index : storage_server_index st = n;
  inv_length : length (storage_servers st) = MAX_STORAGE_SERVERS;
  inv_roots : forall i, (i < n)%nat ->
    exists ss t, storage_servers st !! i = Some ss /\ root ss = Some t /\ wf_trie t;
  inv_unused : forall i ss, storage_servers st !! i = Some ss -> (n <= i)%nat -> root ss = None;
  inv_cache : exists l, cache_repr (cache st) l /\ cache_valid st l;
  inv_semaphore : storage_semaphore st = 1
}.

Lemma naming_inv_init : naming_inv 0 naming_init.
Proof.
  split; try done.
  - intros i Hi. lia.
  - intros i ss Hi _. apply (lookup_replicate MAX_STORAGE_SERVERS) in Hi as [-> _]. done.
  - exists []. split; [apply repr_initialize|constructor].
Qed.

Lemma inv_roots_present n st : naming_inv n st -> roots_present st.
Proof.
  intros Hi i. rewrite (inv_index _ _ Hi). intros Hl.
  destruct (inv_roots _ _ Hi i Hl) as (ss & t & ? & ? & _). by exists ss, t.
Qed.

Lemma inv_same_but_up n st st' : same_but_up st st' -> naming_inv n st -> naming_inv n st'.
Proof.
  intros Hs Hi. pose proof (same_but_up_index _ _ Hs) as Ei.
  pose proof (same_but_up_cache _ _ Hs) as Ec. pose proof (same_but_up_semaphore _ _ Hs) as Es.
  destruct Hi as [Hix Hl Hr Hu [l [Hc Hv]] Hsem]. split.
  - congruence.
  - apply (f_equal storage_servers), (f_equal length) in Hs. cbn in Hs.
    rewrite !length_fmap in Hs. congruence.
  - intros i Hi. destruct (Hr i Hi) as (ss & t & Hss & Ht & Hwf).
    destruct (same_but_up_lookup _ _ _ _ Hs Hss) as (ss' & Hss' & He).
    apply with_isUp_fields in He as (_ & _ & _ & He & _). exists ss', t.
    split; [done|]. split; [congruence|done].
  - intros i ss Hss Hn. symmetry in Hs.
    destruct (same_but_up_lookup _ _ _ _ Hs Hss) as (ss' & Hss' & He).
    apply with_isUp_fields in He as (_ & _ & _ & He & _).
    rewrite He. by eapply Hu.
  - exists l. rewrite <- Ec. split; [done|]. unfold cache_valid. by rewrite <- Ei.
  - congruence.
Qed.

(** ** The judgement *)

Definition keeps (n : nat) {A} (m : NM A) (P : A -> Prop) : Prop :=
  forall st tr, naming_inv n st ->
    wpM partial m st tr (fun _ a st' => naming_inv n st' /\ P a).

Section rules.
Context {n : nat}.

Lemma keeps_bind {A B} (m : NM A) (f : A -> NM B) P Q :
  keeps n m P -> (forall a, P a -> keeps n (f a) Q) -> keeps n (m ≫= f) Q.
Proof.
  intros Hm Hf st tr Hi. apply wpM_bind. eapply wpM_mono; [by apply Hm|].
  intros tr' a st' [Hi' Ha]. by apply Hf.
Qed.

Lemma keeps_ret {A} (a : A) (P : A -> Prop) : P a -> keeps n (mret a) P.
Proof. by split. Qed.

Lemma keeps_weaken {A} (m : NM A) (P Q : A -> Prop) :
  (forall a, P a -> Q a) -> keeps n m P -> keeps n m Q.
Proof.
  intros H Hm st tr Hi. eapply wpM_mono; [by apply Hm|]. intros ? a ? [??]. eauto.
Qed.

Lemma keeps_if {A} (b : bool) (m1 m2 : NM A) P :
  (b = true -> keeps n m1 P) -> (b = false -> keeps n m2 P) -> keeps n (if b then m1 else m2) P.
Proof. destruct b; eauto. Qed.

Lemma keeps_liftC {A} (x : cres A) : keeps n (liftC x) (fun a => x = Val a).
Proof. intros st tr Hi. apply wpM_liftC. by destruct x. Qed.

Lemma keeps_liftIO {A} (p : io A) : keeps n (liftIO p) (fun _ => True).
Proof.
  intros st tr Hi. red. apply wp_bind. generalize dependent tr.
  induction p; simpl; intros tr; eauto.
Qed.

Lemma keeps_get_server i : keeps n (get_server i) (fun ss =>
  0 <= i < Z.of_nat n -> exists t, root ss = Some t /\ wf_trie t).
Proof.
  intros st tr Hi. destruct (server_at st i) as [ss|u] eqn:Hs.
  - eapply wpM_get_server; [done|]. split; [done|]. intros Hin.
    destruct (inv_roots _ _ Hi (Z.to_nat i)) as (ss' & t & Hss' & ?); [lia|].
    apply server_at_Val in Hs as [_ Hs]. simplify_eq. eauto.
  - unfold get_server. wpM_pure. apply wpM_liftC. by rewrite Hs.
Qed.

Lemma keeps_closeM s : keeps n (closeM s) (fun _ => True).
Proof. done. Qed.

Lemma keeps_logM m : keeps n (logM m) (fun _ => True).
Proof. done. Qed.

Lemma keeps_blockM {A} (P : A -> Prop) : keeps n blockM P.
Proof. done. Qed.

Lemma keeps_isSSUp i : keeps n (isSSUp i) (fun _ => True).
Proof.
  intros st tr Hi. destruct (server_at st i) as [ss|u] eqn:Hs.
  - apply wpM_total. eapply wpM_mono; [by apply isSSUp_wp|].
    intros tr' up st' [Hp _]. split; [|done].
    eapply inv_same_but_up; [by eapply pinged_same|done].
  - unfold isSSUp. wpM_pure. unfold get_server. wpM_pure. apply wpM_liftC. by rewrite Hs.
Qed.

Lemma keeps_log_it ip sock m : keeps n (log_it ip sock m) (fun _ => True).
Proof.
  unfold log_it. eapply keeps_bind; [apply keeps_liftC|]. intros b _. apply keeps_logM.
Qed.

(** A new trie for a registered server. *)
Lemma keeps_put_root i ss t :
  0 <= i < Z.of_nat n -> wf_trie t -> keeps n (put_server i (with_root t ss)) (fun _ => True).
Proof.
  intros Hin Hwf st tr Hi. unfold put_server.
  destruct (inv_roots _ _ Hi (Z.to_nat i)) as (ss0 & t0 & Hs & _); [lia|].
  wpM_pure. eapply wpM_get_server; [apply server_at_Val; split; [lia|done]|]. wpM_pure.
  split; [|done]. destruct Hi as [Hix Hl Hr Hu [l [Hc Hv]] Hsem]. split; cbn.
  - done.
  - by rewrite length_insert.
  - intros j Hj. destruct (decide (j = Z.to_nat i)) as [->|Hne].
    + exists (with_root t ss), t. split; [|done].
      apply list_lookup_insert_eq. by eapply lookup_lt_Some.
    + rewrite list_lookup_insert_ne by done. by apply Hr.
  - intros j s Hj Hn. rewrite list_lookup_insert_ne in Hj by lia. by eapply Hu.
  - by exists l.
  - done.
Qed.
End rules.

(** ** Rules for the operations *)

Section operations.
Context {n : nat}.

Lemma inv_search_result st l buffer p r :
  naming_inv n st -> cache_valid st l -> looked_up st l buffer p r ->
  r = -1 \/ 0 <= r < Z.of_nat n.
Proof.
  intros Hi Hv H. pose proof (inv_index _ _ Hi) as Hn. unfold looked_up in H.
  destruct (lru_find buffer l) as [i|].
  - destruct H as (x & Hx & ->). right. pose proof (Forall_lookup_1 _ _ _ _ Hv Hx) as Hxv.
    simpl in Hxv. lia.
  - destruct H as [[-> _]|(k & -> & Hk & _)]; [by left|right; lia].
Qed.

Lemma cache_valid_touch st l i : cache_valid st l -> cache_valid st (lru_touch i l).
Proof.
  intros Hl. unfold lru_touch. destruct (l !! i) as [x|] eqn:Hx; [|done].
  apply Forall_app. split; [by apply Forall_delete|].
  apply Forall_singleton. exact (Forall_lookup_1 _ _ _ _ Hl Hx).
Qed.

Lemma cache_valid_add st l k v :
  cache_valid st l -> 0 <= v < Z.of_nat (storage_server_index st) -> cache_valid st (lru_add k v l).
Proof.
  intros Hl Hv. unfold lru_add, lru_evict. apply Forall_app. split; [|by apply Forall_singleton].
  case_bool_decide; [by destruct Hl|done].
Qed.

Lemma cache_valid_access st l k v :
  cache_valid st l -> 0 <= v < Z.of_nat (storage_server_index st) ->
  cache_valid st (lru_step (Access k v) l).
Proof.
  intros Hl Hv. cbn [lru_step]. destruct (lru_find k l); eauto using cache_valid_touch, cache_valid_add.
Qed.

Lemma inv_set_cache st c l :
  naming_inv n st -> cache_repr c l -> cache_valid st l -> naming_inv n (set_cache c st).
Proof. intros [Hix Hl Hr Hu _ Hsem] Hc Hv. split; try done. by exists l. Qed.

(** The key of a successful lookup is in the cache afterwards. *)
Lemma lru_find_touch k l i : lru_find k l = Some i -> lru_find k (lru_touch i l) <> None.
Proof.
  intros Hf. pose proof (lru_find_Some _ _ _ Hf) as Hk. unfold lru_touch.
  rewrite list_lookup_fmap in Hk. destruct (l !! i) as [[k' v]|]; [|done].
  injection Hk as ->. apply lru_find_app_last.
Qed.

Lemma lru_find_access k v l : lru_find k (lru_step (Access k v) l) <> None.
Proof.
  cbn [lru_step]. destruct (lru_find k l) eqn:Hf; [by apply lru_find_touch|].
  apply lru_find_app_last.
Qed.

Definition key_cached (st : naming) (k : bytes) : Prop :=
  exists l, cache_repr (cache st) l /\ cache_valid st l /\ lru_find k l <> None.

Lemma inv_after_access st st' l k :
  naming_inv n st -> same_but_up (set_cache (cache st') st) st' ->
  cache_repr (cache st') l -> cache_valid st l -> lru_find k l <> None ->
  naming_inv n st' /\ key_cached st' k.
Proof.
  intros Hi Hs Hc Hv Hf. split.
  - eapply inv_same_but_up; [done|]. by apply inv_set_cache with l.
  - exists l. split; [done|]. split; [|done]. unfold cache_valid.
    by rewrite <- (same_but_up_index _ _ Hs).
Qed.

Lemma search_hit_inv st tr buffer l i :
  naming_inv n st -> cache_repr (cache st) l -> cache_valid st l -> lru_find buffer l = Some i ->
  wpM total (search_storage_server (Some buffer)) st tr (fun _ r st' =>
    naming_inv n st' /\ 0 <= r < Z.of_nat n /\ key_cached st' buffer).
Proof.
  intros Hi Hc Hv Hf. pose proof (inv_roots_present _ _ Hi) as Hr.
  pose proof (inv_semaphore _ _ Hi) as Hs.
  destruct (lookup_lt_is_Some_2 l i (lru_find_lt _ _ _ Hf)) as [x Hx].
  eapply wpM_mono; [by eapply search_hit_wp; [..|lia| |]|]. cbn beta.
  intros tr' r st' (-> & y & ss & up & c' & Hy & Hss & Hc' & Hp & _).
  pose proof (pinged_same y.2 ss (set_cache c' st) up st' Hss Hp) as Hsame.
  pose proof (same_but_up_cache _ _ Hsame) as Ec. cbn in Ec.
  pose proof (Forall_lookup_1 _ _ _ _ Hv Hx) as Hxv. simpl in Hxv.
  rewrite (inv_index _ _ Hi) in Hxv. rewrite Ec in *.
  destruct (inv_after_access st st' (lru_touch i l) buffer) as [? ?];
    [done..|by apply cache_valid_touch|by apply lru_find_touch|done].
Qed.

Lemma search_parsed_inv st tr buffer p :
  naming_inv n st -> ParsePath buffer = Val p ->
  wpM total (search_storage_server (Some buffer)) st tr (fun _ r st' =>
    naming_inv n st' /\ (r = -1 \/ 0 <= r < Z.of_nat n /\ key_cached st' buffer)).
Proof.
  intros Hi Hp. pose proof (inv_roots_present _ _ Hi) as Hr.
  pose proof (inv_semaphore _ _ Hi) as Hs. destruct (inv_cache _ _ Hi) as (l & Hc & Hv).
  eapply wpM_mono; [by apply search_storage_server_wp; [..|lia|]|].
  intros tr' r st' (Hl & Hsame & Hc'). cbn beta.
  destruct (inv_search_result _ _ _ _ _ Hi Hv Hl) as [->|Hres].
  - split; [|by left]. eapply inv_same_but_up; [done|]. by apply inv_set_cache with l.
  - rewrite bool_decide_eq_false_2 in Hc' by lia.
    destruct (inv_after_access st st' (lru_step (Access buffer r) l) buffer) as [? ?];
      [done..|apply cache_valid_access; [done|]|apply lru_find_access|by auto].
    by rewrite (inv_index _ _ Hi).
Qed.

Lemma search_inv st tr buffer :
  naming_inv n st ->
  wpM partial (search_storage_server (Some buffer)) st tr (fun _ r st' =>
    naming_inv n st' /\ (r = -1 \/ 0 <= r < Z.of_nat n /\ key_cached st' buffer)).
Proof.
  intros Hi. destruct (ParsePath buffer) as [p|u] eqn:Hp.
  { by apply wpM_total, search_parsed_inv with p. }
  destruct (inv_cache _ _ Hi) as (l & Hc & Hv). destruct (lru_find buffer l) as [i|] eqn:Hf.
  - apply wpM_total. eapply wpM_mono; [by eapply search_hit_inv|]. naive_solver.
  - pose proof (inv_semaphore _ _ Hi) as Hs. unfold search_storage_server. wpM_pure.
    apply wpM_sem_wait; [lia|]. wpM_pure. apply wpM_liftC. cbn [cache set_semaphore].
    rewrite (search_cache_repr _ _ buffer Hc), Hf.
    wpM_pure. apply wpM_liftC. unfold search_in_tries. by rewrite Hp.
Qed.

Lemma keeps_search buffer :
  keeps n (search_storage_server buffer) (fun r => r = -1 \/ 0 <= r < Z.of_nat n).
Proof.
  intros st tr Hi. destruct buffer as [buffer|].
  - eapply wpM_mono; [by apply search_inv|]. naive_solver.
  - unfold search_storage_server. wpM_pure. pose proof (inv_semaphore _ _ Hi).
    apply wpM_sem_wait; [lia|]. by wpM_pure; apply wpM_liftC.
Qed.

Lemma keeps_redundantSS i : keeps n (redundantSS i) (fun _ => True).
Proof.
  unfold redundantSS. eapply keeps_bind; [apply keeps_isSSUp|]. intros [] _; [by apply keeps_ret|].
  eapply keeps_bind; [apply keeps_get_server|]. intros ss _.
  eapply (keeps_bind _ _ (fun _ => True)).
  { apply keeps_if; intros _; [apply keeps_isSSUp|by apply keeps_ret]. }
  intros [] _; [by apply keeps_ret|].
  eapply keeps_bind; [apply keeps_get_server|]. intros ss' _.
  eapply (keeps_bind _ _ (fun _ => True)).
  { apply keeps_if; intros _; [apply keeps_isSSUp|by apply keeps_ret]. }
  intros [] _; by apply keeps_ret.
Qed.

(** Receiving a listing yields a well-formed trie and touches no global. *)
Lemma index_lines_wf current text root root' fin part :
  wf_trie root -> index_lines current text root = Val (root', fin, part) -> wf_trie root'.
Proof.
  revert current root; induction text as [|c text IH]; intros current root Hwf H;
    cbn [index_lines] in H; [by injection H as <- _ _|].
  case_bool_decide; [|by eapply IH].
  destruct (strstr END_MARKER current); [by injection H as <- _ _|].
  apply cbind_Val_inv in H as (r1 & H1 & H). eapply IH; [|exact H].
  case_bool_decide; [|by injection H1 as <-]. unfold AddPathToTrie in H1.
  destruct (ParsePath current) as [p|] eqn:Hp; [|done]. injection H1 as <-.
  apply wf_add_path; [by eapply ParsePath_component|done].
Qed.

Lemma index_loop_wp fuel sock temp root st tr :
  wf_trie root ->
  wpM partial (index_loop fuel sock temp root) st tr (fun _ t st' => st' = st /\ wf_trie t).
Proof.
  revert temp root tr; induction fuel as [|fuel IH]; intros temp root tr Hwf; [done|].
  cbn [index_loop]. unfold recvN. wpM_step. wpM_step.
  case_bool_decide; [by wpM_pure|]. wpM_pure. apply wpM_liftC.
  destruct (index_lines _ _ _) as [[[root' fin] part]|] eqn:Hx; [|done].
  apply index_lines_wf in Hx; [|done]. destruct fin; [by wpM_pure|]. by apply IH.
Qed.

Lemma keeps_indexHelper fuel sock root :
  wf_trie root -> keeps n (indexHelper fuel sock root) wf_trie.
Proof.
  intros Hwf st tr Hi. unfold indexHelper. wpM_pure.
  pose proof (inv_semaphore _ _ Hi) as Hs. apply wpM_sem_wait; [lia|]. wpM_pure.
  eapply wpM_mono; [by apply index_loop_wp|]. intros tr' t st' [-> Ht]. wpM_pure.
  apply wpM_sem_post. wpM_pure. split; [|done]. rewrite Hs.
  replace (set_semaphore _ _) with st; [done|].
  unfold set_semaphore. destruct st as [a b c s]. cbn in *. by subst.
Qed.
End operations.

(** ** Automation *)

Create HintDb keeps.
#[export] Hint Resolve keeps_liftC keeps_liftIO keeps_get_server keeps_closeM keeps_logM
  keeps_isSSUp keeps_log_it keeps_search keeps_redundantSS : keeps.

(** Follow the structure of a handler whose result does not matter. *)
Ltac keeps_step :=
  cbv beta zeta;
  lazymatch goal with
  | |- keeps _ (mret _) (fun _ => True) => by apply keeps_ret
  | |- keeps _ ((if _ then _ else _) ≫= _) _ =>
      eapply (keeps_bind _ _ (fun _ => True)); [|intros ? _]
  | |- keeps _ (_ ≫= _) _ => eapply keeps_bind; [solve [eauto with keeps]|intros ? ?]
  | |- keeps _ (if _ then _ else _) _ => apply keeps_if; intros ?
  | |- keeps _ _ (fun _ => True) =>
      solve [eapply keeps_weaken; [|solve [eauto with keeps]]; done]
  end.

Ltac keeps_go := repeat (keeps_step; simpl in *; subst).

Section copies.
Context {n : nat}.

Lemma keeps_sendN sock m : keeps n (sendN sock m) (fun _ => True).
Proof. apply keeps_liftIO. Qed.

Lemma keeps_recvN sock k : keeps n (recvN sock k) (fun _ => True).
Proof. apply keeps_liftIO. Qed.

Lemma keeps_folder_of i : keeps n (folder_of i) (fun _ => True).
Proof. unfold folder_of. keeps_go. Qed.

Lemma keeps_ss_info i : keeps n (ss_info i) (fun _ => True).
Proof. unfold ss_info. keeps_go. Qed.

Lemma keeps_send_reply sock m : keeps n (send_reply sock m) (fun _ => True).
Proof. unfold send_reply, sendN. keeps_go. Qed.

Lemma keeps_usable i : keeps n (usable i) (fun b => b = true -> i <> -1).
Proof.
  unfold usable. apply keeps_if; intros Hb; [by apply keeps_ret|].
  apply bool_decide_eq_false in Hb. eapply keeps_bind; [apply keeps_get_server|].
  intros ss _. by apply keeps_ret.
Qed.
End copies.

#[export] Hint Resolve keeps_sendN keeps_recvN keeps_folder_of keeps_ss_info keeps_send_reply
  keeps_usable : keeps.

Section copies2.
Context {n : nat}.

Lemma keeps_copy_backup buffer src_sock dest_index :
  keeps n (handle_copy_backup buffer src_sock dest_index) (fun _ => True).
Proof. unfold handle_copy_backup. keeps_go. Qed.

Lemma keeps_copy_to_backup bs dest_sock src dest rest :
  keeps n (copy_to_backup bs dest_sock src dest rest) (fun _ => True).
Proof. unfold copy_to_backup. keeps_go. Qed.

Lemma keeps_copy_between fuel buffer src dest client_socket src_index dest_index :
  0 <= dest_index < Z.of_nat n ->
  keeps n (copy_between fuel buffer src dest client_socket src_index dest_index) (fun _ => True).
Proof.
  intros Hd. unfold copy_between. repeat keeps_step.
  eapply keeps_bind; [apply keeps_indexHelper, wf_CreateNode|]. intros t Ht. keeps_step.
  eapply keeps_bind; [by apply keeps_put_root|]. intros _ _. keeps_step.
  eapply keeps_bind; [apply keeps_copy_to_backup|]. intros _ _. apply keeps_copy_to_backup.
Qed.

Lemma keeps_copy_request fuel buffer client_socket src_sock dest_index :
  keeps n (handle_copy_request fuel buffer client_socket src_sock dest_index) (fun _ => True).
Proof.
  unfold handle_copy_request. apply keeps_if; intros _; [apply keeps_copy_backup|].
  unfold handle_copy_client. apply keeps_if; intros _; [|by apply keeps_ret].
  destruct (tokens " "%char buffer) as [|c [|src [|dest ts]]]; try apply keeps_send_reply.
  apply keeps_if; intros _; [apply keeps_send_reply|].
  eapply keeps_bind; [apply keeps_search|]. intros si Hsi.
  eapply keeps_bind; [apply keeps_search|]. intros di Hdi.
  eapply (keeps_bind _ _ (fun _ => True)).
  { apply keeps_if; intros _; [by apply keeps_ret|].
    eapply keeps_weaken; [|apply keeps_usable]. done. }
  intros src_up _. eapply (keeps_bind _ _ (fun b => b = true -> di <> -1)).
  { destruct src_up; [apply keeps_usable | by apply keeps_ret]. }
  intros [] Hup; [|apply keeps_send_reply]. apply keeps_copy_between.
  specialize (Hup eq_refl). by destruct Hdi.
Qed.
End copies2.

#[export] Hint Resolve keeps_copy_request keeps_copy_backup keeps_copy_to_backup : keeps.
