(* ===== verification/ProcessClient.v ===== *)
(** * Commands of the clients (naming_server.c: process_client, listen_async)

    One iteration of the loop of [process_client] per message of a client,
    split into the branches of the code.  Some branches read
    [storage_servers[-1]]; what stands before the array is a parameter. *)
From S2P Require Export TrieListing NamingInv.

Open Scope Z_scope.

(** ** Definitions *)

(** [storage_servers[-1]]: undefined by the language; [Val g] describes a
    build in which the memory before the array reads as [g]. *)
Class Platform := { before_servers : cres StorageServerInfo }.

#[export] Instance strict_platform : Platform := {| before_servers := Undef OutOfBounds |}.

Definition NOT_FOUND : bytes := "Storage server not found".
Definition LIST_END : bytes := "@#!@#over@$".

Definition log_line (m : bytes) : NM unit :=
  message ← liftC (fits BUFFER_SIZE m); log_it [] (-1) message.

Definition logged_reply (client_socket : Z) (m : bytes) : NM unit :=
  _ ← sendN client_socket m;
  log_line ("Sending: '" ++ m ++ "' -to- Client fd[" ++ print_Z client_socket ++ "]").

(** [ls]: the listing of each server's folder. *)
Fixpoint list_servers (client_socket : Z) (n i : nat) : NM unit :=
  match n with
  | O => mret tt
  | S n' =>
      ss ← get_server (Z.of_nat i);
      t ← liftC (nonnull (root ss));
      dot ← liftC (first_child t);
      o ← liftC (read (childeren dot) 0);
      _ ← (match o with
           | Some folder => liftIO (DisplayTrieNetwork client_socket folder)
           | None => mret tt
           end);
      list_servers client_socket n' (S i)
  end.

Definition ls_branch (client_socket : Z) : NM unit :=
  st ← getS;
  _ ← list_servers client_socket (storage_server_index st) 0;
  send_reply client_socket LIST_END.

(** [write]: where to send the data; [flag] and [path] are the second and
    third token. *)
Definition write_branch (client_socket : Z) (flag : bytes) (path : option bytes) : NM unit :=
  ssindex ← search_storage_server path;
  up ← usable ssindex;
  if up : bool then
    ss ← get_server ssindex;
    let info := snprintf BUFFER_SIZE
      ("|" ++ sin_addr (ci_addr (clientInfo ss)) ++ "|" ++ print_Z (portClient ss)) in
    let title := if strcmp_eq flag "-s" then lit "PATH_OK_SYNC"
                 else if strcmp_eq flag "-a" then lit "PATH_OK_ASYNC" else [] in
    send_buffer ← liftC (fits BUFFER_SIZE (title ++ info));
    send_reply client_socket (send_buffer ++ [NUL])
  else logged_reply client_socket NOT_FOUND.

(** Forwarding a change to a backup: the command with a "b" appended to its
    name. *)
Definition forward_to_backup (bs : Z) (command path : bytes) : NM unit :=
  up ← (if bool_decide (bs <> -1) then isSSUp bs else mret false);
  if up : bool then
    ss ← get_server bs;
    _ ← sendN (ci_socket (clientInfo ss)) (snprintf BUFFER_SIZE (command ++ "b " ++ path));
    mret tt
  else mret tt.

(** The same for the second backup of [rm], which is also logged. *)
Definition forward_to_backup2 (bs : Z) (command path : bytes) : NM unit :=
  up ← (if bool_decide (bs <> -1) then isSSUp bs else mret false);
  if up : bool then
    ss ← get_server bs;
    let backup_buffer := snprintf BUFFER_SIZE (command ++ "b " ++ path) in
    let sock := ci_socket (clientInfo ss) in
    _ ← sendN sock backup_buffer;
    log_line ("Sending: '" ++ backup_buffer ++ "' -to- Storage Server fd[" ++ print_Z sock ++ "]")
  else mret tt.

(** [AddPathToTrie(path, root)] with a root that may be null. *)
Definition add_to_root (path : bytes) (r : option trienode) : cres (option trienode) :=
  match r with
  | Some t => Some <$> AddPathToTrie path t
  | None => p ← ParsePath path; if bool_decide (p = []) then mret None else Undef NullDeref
  end.

Definition with_root_opt (r : option trienode) (ss : StorageServerInfo) : StorageServerInfo :=
  match r with Some t => with_root t ss | None => ss end.

Definition bad_path (p : bytes) : bool :=
  strcmp_eq p "./" || strcmp_eq p "." || strcmp_eq p "/" || strcmp_eq p [] || strcmp_eq p " ".

(** The path up to its last slash. *)
Definition parent_of (path : bytes) : bytes :=
  match split_last "/"%char path with Some (a, _) => a | None => path end.

(** A storage server's answer in a zeroed buffer, terminated by
    [response[bytes] = 0]. *)
Definition response_of (nb : Z * bytes) : cres bytes :=
  _ ← within (bool_decide (nb.1 < Z.of_nat BUFFER_SIZE)); mret (until_nul nb.2).

Definition NO_ANSWER : bytes := "Storage server not responding".
Definition COULD_NOT : bytes := "Could not".

(** [mkdir] and [touch]; [false] when the thread returns. *)
Definition mkdir_branch (client_socket : Z) (buffer command path : bytes) : NM bool :=
  let temp_path := parent_of path in
  if bad_path temp_path then
    n ← sendN client_socket "Invalid Path"; mret (bool_decide (0 <= n))
  else
    ssindex ← search_storage_server (Some temp_path);
    _ ← (if bool_decide (ssindex <> -1) then on_cache (add_to_cache path ssindex) else mret tt);
    up ← usable ssindex;
    if up : bool then
      ss ← get_server ssindex;
      let ss_sock := ci_socket (clientInfo ss) in
      n ← sendN ss_sock buffer;
      if bool_decide (n < 0) then mret true
      else
        nb ← recvN ss_sock BUFFER_SIZE;
        if bool_decide (nb.1 <= 0) then
          _ ← sendN client_socket NO_ANSWER; mret true
        else
          response ← liftC (response_of nb);
          _ ← sendN client_socket response;
          if starts_with COULD_NOT response then mret true
          else
            ss ← get_server ssindex;
            _ ← forward_to_backup (backupServer1 ss) command path;
            _ ← forward_to_backup (backupServer2 ss) command path;
            ss ← get_server ssindex;
            r ← liftC (add_to_root path (root ss));
            _ ← put_server ssindex (with_root_opt r ss);
            mret true
    else _ ← sendN client_socket NOT_FOUND; mret true.

(** [delete_from_cache] of the code on the globals. *)
Definition forget (ssindex : Z) (path : bytes) : NM unit :=
  if bool_decide (ssindex <> -1) then delete_from_cacheN path else mret tt.

(** [rmdir] and [rm]; [false] when the thread returns. *)
Definition rm_branch (client_socket : Z) (buffer command path : bytes) : NM bool :=
  if bad_path path then
    n ← sendN client_socket "Invalid Path";
    if bool_decide (n < 0) then mret false
    else
      _ ← log_line ("Sending: '" ++ "Invalid Path" ++ "' -to- Client fd[" ++ print_Z client_socket ++ "]");
      mret true
  else
    ssindex ← search_storage_server (Some path);
    _ ← forget ssindex path;
    up ← usable ssindex;
    if up : bool then
      ss ← get_server ssindex;
      let ss_sock := ci_socket (clientInfo ss) in
      n ← sendN ss_sock buffer;
      if bool_decide (n < 0) then mret true
      else
        _ ← log_line ("Sending: '" ++ buffer ++ "' -to- Storage Server fd[" ++ print_Z ss_sock ++ "]");
        nb ← recvN ss_sock BUFFER_SIZE;
        if bool_decide (nb.1 <= 0) then
          _ ← sendN client_socket NO_ANSWER;
          _ ← log_line ("recieved: '" ++ NO_ANSWER ++ "' -from- Storage Server fd[" ++ print_Z ss_sock ++ "]");
          mret true
        else
          logged ← liftC (cstr_in BUFFER_SIZE nb.2);
          _ ← log_line ("recieved: '" ++ logged ++ "' -from- Storage Server fd[" ++ print_Z ss_sock ++ "]");
          response ← liftC (response_of nb);
          _ ← logged_reply client_socket response;
          if starts_with COULD_NOT response then mret true
          else
            ss ← get_server ssindex;
            _ ← liftC (match root ss with Some t => DisplayTrie t | None => mret ([], 0, 0) end);
            _ ← forward_to_backup (backupServer1 ss) command path;
            _ ← forward_to_backup2 (backupServer2 ss) command path;
            ss ← get_server ssindex;
            t ← liftC (nonnull (root ss));
            t' ← liftC (DeletePath path t);
            _ ← put_server ssindex (with_root t' ss);
            mret true
    else _ ← logged_reply client_socket NOT_FOUND; mret true.

Definition server_or_before `{Platform} (i : Z) : NM StorageServerInfo :=
  if bool_decide (i = -1) then liftC before_servers else get_server i.

(** All other commands: where the server of the path is. *)
Definition other_branch `{Platform} (client_socket : Z) (path : bytes) : NM unit :=
  ssindex ← search_storage_server (Some path);
  s ← server_or_before ssindex;
  if bool_decide (ssindex <> -1) then
    _index ← (if bool_decide (isUp s = 0) then redundantSS ssindex else mret ssindex);
    s' ← (if bool_decide (isUp s = 0) then server_or_before _index else mret s);
    let ipToSend := sin_addr (ci_addr (clientInfo s')) in
    let portToSend := print_Z (portClient s') in
    if bool_decide (_index <> ssindex) then
      folder ← liftC (folder_name (root s'));
      send_reply client_socket (snprintf BUFFER_SIZE
        ("Backup " ++ ipToSend ++ "," ++ portToSend ++ "," ++ folder))
    else if bool_decide (_index <> -1) then
      logged_reply client_socket (snprintf BUFFER_SIZE (ipToSend ++ "," ++ portToSend ++ " "))
    else logged_reply client_socket NOT_FOUND
  else logged_reply client_socket NOT_FOUND.

(** The command word decides; a [write] falls through to the last branch with
    its flag in the place of the path. *)
Definition command_branch `{Platform} (client_socket : Z) (buffer command path : bytes)
    (rest : list bytes) : NM bool :=
  _ ← (if starts_with "write" buffer then write_branch client_socket path (head rest)
       else mret tt);
  if strcmp_eq command "mkdir" || strcmp_eq command "touch"
  then mkdir_branch client_socket buffer command path
  else if strcmp_eq command "rmdir" || strcmp_eq command "rm"
  then rm_branch client_socket buffer command path
  else _ ← other_branch client_socket path; mret true.

(** One message; [false] when the thread returns. *)
Definition client_message `{Platform} (fuel : nat) (client_socket : Z) (buffer : bytes) : NM bool :=
  _ ← log_line ("Recieved: '" ++ buffer ++ "' -from- Client fd[" ++ print_Z client_socket ++ "]");
  if strcmp_eq buffer "ls ~" || strcmp_eq buffer "ls ." then
    _ ← ls_branch client_socket; mret true
  else if starts_with "copy" buffer then
    _ ← handle_copy_request fuel buffer client_socket (-1) (-1); mret true
  else
    match tokens " "%char buffer with
    | command :: path :: rest =>
        if strcmp_eq path "/" || strcmp_eq path "./"
        then _ ← send_reply client_socket NOT_FOUND; mret true
        else command_branch client_socket buffer command path rest
    | _ => _ ← send_reply client_socket NOT_FOUND; mret true
    end.

(** [process_client], for at most [fuel] messages. *)
Fixpoint process_client `{Platform} (fuel : nat) (client_socket : Z) : NM unit :=
  match fuel with
  | O => blockM
  | S fuel' =>
      nb ← recvN client_socket BUFFER_SIZE;
      if bool_decide (nb.1 <= 0) then closeM client_socket
      else
        buffer ← liftC (cstr_in BUFFER_SIZE nb.2);
        again ← client_message fuel' client_socket buffer;
        if again : bool then process_client fuel' client_socket else mret tt
  end.

(** ** [listen_async] *)

(** The order to copy a written file to backup [bs]. *)
Definition backup_written `{Platform} (fuel : nat) (ssindex bs : Z) (path : bytes) : NM unit :=
  up ← (if bool_decide (bs <> -1) then isSSUp bs else mret false);
  if up : bool then
    folder ← folder_of bs;
    s ← server_or_before ssindex;
    handle_copy_request fuel
      (snprintf BUFFER_SIZE ("lcopy " ++ path ++ " ./backupfolderforss/" ++ folder))
      (-1) (socket s) bs
  else mret tt.

Definition backup_both `{Platform} (fuel : nat) (path : option bytes) : NM unit :=
  ssindex ← search_storage_server path;
  s ← server_or_before ssindex;
  path ← liftC (nonnull path);
  _ ← backup_written fuel ssindex (backupServer1 s) path;
  backup_written fuel ssindex (backupServer2 s) path.

Definition WRITE_SYNC : bytes := "WRITE_SYNC".
Definition WRITE_ASYNC : bytes := "writeasync".

(** [create_client_socket], the acknowledgement, [close]. *)
Definition send_ack_to_client (ip : bytes) (port : Z) (ack : bytes) : NM unit :=
  c ← connectM ip (htons port);
  match c with
  | Connected client_sock => _ ← sendN client_sock ack; closeM client_sock
  | _ => mret tt
  end.

Definition listen_async `{Platform} (fuel : nat) (client : Z) : NM unit :=
  nb ← recvN client BUFFER_SIZE;
  if bool_decide (nb.1 <= 0) then closeM client
  else
    buffer ← liftC (cstr_in BUFFER_SIZE nb.2);
    if starts_with WRITE_SYNC buffer then
      backup_both fuel (tokens "|"%char buffer !! 1%nat)
    else if starts_with WRITE_ASYNC buffer then
      let args := tokens " "%char buffer in
      _ ← backup_both fuel (args !! 1%nat);
      src_path ← liftC (nonnull (args !! 1%nat));
      client_ip ← liftC (nonnull (args !! 2%nat));
      client_port ← liftC (nonnull (args !! 3%nat));
      send_ack_to_client client_ip (atoi client_port)
        (snprintf BUFFER_SIZE ("ACK: Backup completed for " ++ src_path))
    else mret tt.

(** ** The invariant is kept *)

Section kept.
Context {n : nat} `{Platform}.

Lemma keeps_getS : keeps n getS (fun _ => True).
Proof. by intros st tr Hi. Qed.

Lemma keeps_log_line m : keeps n (log_line m) (fun _ => True).
Proof. unfold log_line. keeps_go. Qed.
Local Hint Resolve keeps_getS keeps_log_line : keeps.

Lemma keeps_logged_reply s m : keeps n (logged_reply s m) (fun _ => True).
Proof. unfold logged_reply. keeps_go. Qed.
Local Hint Resolve keeps_logged_reply : keeps.

Lemma keeps_list_servers sock k i : keeps n (list_servers sock k i) (fun _ => True).
Proof.
  revert i; induction k as [|k IH]; intros i; cbn [list_servers]; [by apply keeps_ret|].
  do 4 keeps_step. eapply (keeps_bind _ _ (fun _ => True)); [|intros _ _; apply IH].
  destruct a2; keeps_go.
Qed.
Local Hint Resolve keeps_list_servers : keeps.

Lemma keeps_write_branch sock flag path : keeps n (write_branch sock flag path) (fun _ => True).
Proof. unfold write_branch. keeps_go. Qed.

Lemma keeps_forward bs command path :
  keeps n (forward_to_backup bs command path) (fun _ => True).
Proof. unfold forward_to_backup. keeps_go. Qed.

Lemma keeps_forward2 bs command path :
  keeps n (forward_to_backup2 bs command path) (fun _ => True).
Proof. unfold forward_to_backup2. keeps_go. Qed.
Local Hint Resolve keeps_write_branch keeps_forward keeps_forward2 : keeps.

Lemma keeps_cache_add k v :
  0 <= v < Z.of_nat n -> keeps n (on_cache (add_to_cache k v)) (fun _ => True).
Proof.
  intros Hv st tr Hi. destruct (inv_cache _ _ Hi) as (l & Hc & Hl).
  destruct (add_to_cache_repr _ _ k v Hc) as (c' & Ha & Hc').
  eapply wpM_on_cache; [done|]. split; [|done]. apply inv_set_cache with (lru_add k v l); [done|done|].
  apply cache_valid_add; [done|]. by rewrite (inv_index _ _ Hi).
Qed.

Lemma AddPathToTrie_wf path t t' : AddPathToTrie path t = Val t' -> wf_trie t -> wf_trie t'.
Proof.
  unfold AddPathToTrie. destruct (ParsePath path) as [p|] eqn:Hp; [|done]. intros [= <-] Hwf.
  apply wf_add_path; [by eapply ParsePath_component|done].
Qed.

Lemma DeletePath_wf path t t' : DeletePath path t = Val t' -> wf_trie t -> wf_trie t'.
Proof.
  intros Hd Hwf. destruct (ParsePath path) as [p|] eqn:Hp; [|by unfold DeletePath in Hd; rewrite Hp in Hd].
  rewrite (DeletePath_Val _ _ _ Hp) in Hd.
  destruct (SearchPathHelperTries t p); [|by injection Hd as <-].
  destruct (delete_walk p t) eqn:Hw; [|done]. injection Hd as <-. by eapply wf_delete_walk.
Qed.

(** The updates of a server's trie at the end of the two branches. *)
Lemma keeps_add_root i path :
  0 <= i < Z.of_nat n ->
  keeps n (ss ← get_server i; r ← liftC (add_to_root path (root ss));
           _ ← put_server i (with_root_opt r ss); mret true) (fun _ => True).
Proof.
  intros Hr. eapply keeps_bind; [apply keeps_get_server|]. intros ss Hss.
  destruct (Hss Hr) as (t & Ht & Hwf). rewrite Ht. cbn [add_to_root].
  eapply keeps_bind; [apply keeps_liftC|]. intros r Hadd. cbv beta in Hadd.
  destruct (AddPathToTrie path t) as [t'|] eqn:Ha; [|done]. injection Hadd as <-.
  eapply keeps_bind; [|intros _ _; by apply keeps_ret].
  cbn [with_root_opt]. apply keeps_put_root; [done|]. by eapply AddPathToTrie_wf.
Qed.

Lemma keeps_delete_root i path :
  0 <= i < Z.of_nat n ->
  keeps n (ss ← get_server i; t ← liftC (nonnull (root ss)); t' ← liftC (DeletePath path t);
           _ ← put_server i (with_root t' ss); mret true) (fun _ => True).
Proof.
  intros Hr. eapply keeps_bind; [apply keeps_get_server|]. intros ss Hss.
  destruct (Hss Hr) as (t & Ht & Hwf). rewrite Ht.
  eapply keeps_bind; [apply keeps_liftC|]. intros t1 [= <-].
  eapply keeps_bind; [apply keeps_liftC|]. intros t' Hd.
  eapply keeps_bind; [|intros _ _; by apply keeps_ret].
  apply keeps_put_root; [done|]. by apply (DeletePath_wf path t).
Qed.

Lemma keeps_mkdir sock buffer command path :
  keeps n (mkdir_branch sock buffer command path) (fun _ => True).
Proof.
  unfold mkdir_branch. keeps_step; [keeps_go|].
  eapply keeps_bind; [apply keeps_search|]. intros r Hr. cbv beta in Hr.
  eapply (keeps_bind _ _ (fun _ => True)).
  { apply keeps_if; intros Hb; [|by apply keeps_ret]. apply bool_decide_eq_true in Hb.
    apply keeps_cache_add. by destruct Hr. }
  intros _ _. eapply keeps_bind; [apply keeps_usable|]. intros up Hup.
  apply keeps_if; intros ->; [|keeps_go]. specialize (Hup eq_refl). destruct Hr as [|Hr]; [done|].
  repeat (first [by apply keeps_add_root | keeps_step]).
Qed.

(** A successful lookup makes the deletion from the cache find its key, so
    that [delete_from_cache] does not post the semaphore. *)
Lemma keeps_search_forget {B} path (k : Z -> NM B) Q :
  (forall r, r = -1 \/ 0 <= r < Z.of_nat n -> keeps n (k r) Q) ->
  keeps n (ssindex ← search_storage_server (Some path);
           _ ← forget ssindex path; k ssindex) Q.
Proof.
  intros Hk st tr Hi. wpM_pure. eapply wpM_mono; [by apply (search_inv (n:=n))|]. cbn beta.
  intros tr' r st' (Hi' & Hr). wpM_pure. unfold forget.
  destruct Hr as [->|(Hr & l & Hc & Hv & Hf)]; [by apply Hk; [left|]|].
  rewrite bool_decide_eq_true_2 by lia. unfold delete_from_cacheN. wpM_pure. apply wpM_liftC.
  destruct (delete_from_cache_repr _ _ path Hc) as (c' & posted & -> & Hm).
  destruct (lru_find path l) as [i|]; [|done]. destruct Hm as [-> Hc']. wpM_pure.
  apply Hk; [by right|]. apply inv_set_cache with (delete i l); [done..|]. by apply Forall_delete.
Qed.

Lemma keeps_rm sock buffer command path :
  keeps n (rm_branch sock buffer command path) (fun _ => True).
Proof.
  unfold rm_branch. keeps_step; [keeps_go|]. apply keeps_search_forget. intros r Hr.
  eapply keeps_bind; [apply keeps_usable|]. intros up Hup.
  apply keeps_if; intros ->; [|keeps_go]. specialize (Hup eq_refl). destruct Hr as [|Hr]; [done|].
  repeat (first [by apply keeps_delete_root | keeps_step]).
Qed.
Local Hint Resolve keeps_mkdir keeps_rm : keeps.

Lemma keeps_server_or_before i : keeps n (server_or_before i) (fun _ => True).
Proof. unfold server_or_before. keeps_go. Qed.
Local Hint Resolve keeps_server_or_before : keeps.

Lemma keeps_other sock path : keeps n (other_branch sock path) (fun _ => True).
Proof. unfold other_branch. keeps_go. Qed.
Local Hint Resolve keeps_other : keeps.

Lemma keeps_ls sock : keeps n (ls_branch sock) (fun _ => True).
Proof. unfold ls_branch. keeps_go. Qed.
Local Hint Resolve keeps_ls : keeps.

Lemma keeps_command sock buffer command path rest :
  keeps n (command_branch sock buffer command path rest) (fun _ => True).
Proof. unfold command_branch. keeps_go. Qed.
Local Hint Resolve keeps_command : keeps.

Lemma keeps_client_message fuel sock buffer :
  keeps n (client_message fuel sock buffer) (fun _ => True).
Proof.
  unfold client_message. keeps_step. keeps_step; [keeps_go|]. keeps_step; [keeps_go|].
  destruct (tokens " "%char buffer) as [|command [|path rest]]; keeps_go.
Qed.

Lemma keeps_process_client fuel sock : keeps n (process_client fuel sock) (fun _ => True).
Proof.
  revert sock; induction fuel as [|fuel IH]; intros sock; [apply keeps_blockM|].
  cbn [process_client]. keeps_step. keeps_step; [keeps_go|]. keeps_step.
  eapply keeps_bind; [apply keeps_client_message|]. intros [] _; [apply IH|by apply keeps_ret].
Qed.

Lemma keeps_backup_written fuel i bs path :
  keeps n (backup_written fuel i bs path) (fun _ => True).
Proof. unfold backup_written. keeps_go. Qed.
Local Hint Resolve keeps_backup_written : keeps.

Lemma keeps_backup_both fuel path : keeps n (backup_both fuel path) (fun _ => True).
Proof. unfold backup_both. keeps_go. Qed.
Local Hint Resolve keeps_backup_both : keeps.

Lemma keeps_send_ack ip port ack : keeps n (send_ack_to_client ip port ack) (fun _ => True).
Proof.
  unfold send_ack_to_client. eapply (keeps_bind _ _ (fun _ => True)).
  - by intros st tr Hi r _.
  - intros [| | |s] _; keeps_go.
Qed.
Local Hint Resolve keeps_send_ack : keeps.

Lemma keeps_listen_async fuel sock : keeps n (listen_async fuel sock) (fun _ => True).
Proof. unfold listen_async. keeps_go. Qed.
End kept.
