(* ===== verification/ClientReplies.v ===== *)
(** * What clients are told (naming_server.c: process_client)

    The replies of the branches of [process_client] on the client's socket and
    the changes they make to the tries.  Lookups and pings are separated from
    replies by a framing judgement: they send nothing on the client's socket
    and change nothing but flags, the cache and the semaphore. *)
From S2P Require Export ProcessClient.

Open Scope Z_scope.

(** ** Framing *)

(** Agreement on everything but liveness flags, the cache and the semaphore. *)
Definition same_data (st st' : naming) : Prop :=
  same_but_up (set_cache initialize_cache (set_semaphore 0 st))
              (set_cache initialize_cache (set_semaphore 0 st')).

#[export] Instance same_data_equiv : Equivalence same_data.
Proof.
  split; unfold same_data.
  - by intros st.
  - by intros st st' ->.
  - by intros st1 st2 st3 -> ->.
Qed.

Lemma same_data_same_but_up st st' : same_but_up st st' -> same_data st st'.
Proof.
  unfold same_data, same_but_up, erase_up. intros H.
  apply (f_equal (fun s => set_cache initialize_cache (set_semaphore 0 s))) in H. exact H.
Qed.

Lemma same_data_lookup st st' i ss :
  same_data st st' -> storage_servers st !! i = Some ss ->
  exists ss', storage_servers st' !! i = Some ss' /\ with_isUp 0 ss = with_isUp 0 ss'.
Proof. intros H Hi. exact (same_but_up_lookup _ _ _ _ H Hi). Qed.

Lemma same_data_index st st' : same_data st st' -> storage_server_index st = storage_server_index st'.
Proof. intros H. exact (same_but_up_index _ _ H). Qed.

(** The tries of all servers. *)
Definition roots (st : naming) : list (option trienode) := root <$> storage_servers st.

Lemma same_data_roots st st' : same_data st st' -> roots st = roots st'.
Proof.
  intros H. unfold same_data, same_but_up in H. apply (f_equal storage_servers) in H. cbn in H.
  unfold roots. apply (f_equal (fmap root)) in H. by rewrite <- !list_fmap_compose in H.
Qed.

(** The sockets of the storage servers are not the client's. *)
Definition sockets_away (c : Z) (st : naming) : Prop :=
  forall i ss, storage_servers st !! i = Some ss -> ci_socket (clientInfo ss) <> c.

Lemma sockets_away_same c st st' : same_data st st' -> sockets_away c st -> sockets_away c st'.
Proof.
  intros H Hc i ss Hi. symmetry in H. destruct (same_data_lookup _ _ _ _ H Hi) as (ss' & Hi' & He).
  apply with_isUp_fields in He as (-> & _). by apply (Hc i).
Qed.

(** [m] sends nothing to [c] and changes no data. *)
Definition frames (c : Z) {A} (m : NM A) (P : A -> Prop) : Prop :=
  forall st tr, sockets_away c st ->
    wpM (whenever (away c)) m st tr (fun tr' a st' =>
      same_data st st' /\ sent_to c tr' = sent_to c tr /\ P a).

Section rules.
Context {c : Z}.

Lemma frames_bind {A B} (m : NM A) (f : A -> NM B) P Q :
  frames c m P -> (forall a, P a -> frames c (f a) Q) -> frames c (m ≫= f) Q.
Proof.
  intros Hm Hf st tr Hc. apply wpM_bind. eapply wpM_mono; [by apply Hm|].
  intros tr' a st' (Hs & Ht & Ha). eapply wpM_mono; [apply (Hf a Ha); by eapply sockets_away_same|].
  intros tr'' b st'' (Hs' & Ht' & Hb). split; [by transitivity st'|]. split; [congruence|done].
Qed.

Lemma frames_ret {A} (a : A) (P : A -> Prop) : P a -> frames c (mret a) P.
Proof. by split. Qed.

Lemma frames_weaken {A} (m : NM A) (P Q : A -> Prop) :
  (forall a, P a -> Q a) -> frames c m P -> frames c m Q.
Proof.
  intros H Hm st tr Hc. eapply wpM_mono; [by apply Hm|]. intros ? a ? (?&?&?). eauto.
Qed.

Lemma frames_if {A} (b : bool) (m1 m2 : NM A) P :
  (b = true -> frames c m1 P) -> (b = false -> frames c m2 P) -> frames c (if b then m1 else m2) P.
Proof. destruct b; eauto. Qed.

Lemma frames_liftC {A} (x : cres A) : frames c (liftC x) (fun a => x = Val a).
Proof. intros st tr Hc. apply wpM_liftC. by destruct x. Qed.

Lemma frames_sendN sock m : sock <> c -> frames c (sendN sock m) (fun _ => True).
Proof.
  intros Hs st tr Hc. unfold sendN. wpM_step. split; [done|]. split; [|done].
  rewrite sent_to_snoc. destruct (Z.eqb_spec c sock); [congruence|done].
Qed.

Lemma frames_recvN sock n : frames c (recvN sock n) (fun _ => True).
Proof. intros st tr Hc. unfold recvN. wpM_step. by rewrite sent_to_snoc. Qed.

Lemma frames_get_server i :
  frames c (get_server i) (fun ss => ci_socket (clientInfo ss) <> c).
Proof.
  intros st tr Hc. unfold get_server. wpM_pure. apply wpM_liftC.
  destruct (server_at st i) as [ss|] eqn:Hs; [|done].
  apply server_at_Val in Hs as [_ Hs]. split; [done|]. split; [done|]. by eapply Hc.
Qed.

Lemma frames_closeM s : frames c (closeM s) (fun _ => True).
Proof. intros st tr Hc. wpM_pure. by rewrite sent_to_snoc. Qed.

Lemma frames_logM m : frames c (logM m) (fun _ => True).
Proof. intros st tr Hc. wpM_pure. by rewrite sent_to_snoc. Qed.

(** A connection, which is not the client's. *)
Lemma frames_connectM ip port :
  frames c (connectM ip port) (fun r => forall fd, r = Connected fd -> fd <> c).
Proof.
  intros st tr Hc. apply wpM_connect. intros r Hr. split; [done|].
  split; [by rewrite sent_to_snoc|]. by intros fd ->.
Qed.

Lemma frames_modify (f : naming -> naming) :
  (forall st, same_data st (f st)) -> frames c (modifyS f) (fun _ => True).
Proof. intros Hf st tr Hc. wpM_pure. split; [apply Hf|done]. Qed.

Lemma frames_getS : frames c getS (fun _ => True).
Proof. by intros st tr Hc. Qed.
End rules.

Create HintDb frames.
#[export] Hint Resolve frames_liftC frames_recvN frames_get_server frames_closeM frames_logM
  frames_connectM frames_getS frames_sendN : frames.

(** Follow the structure of a handler whose result does not matter. *)
Ltac frames_step :=
  cbv beta zeta;
  lazymatch goal with
  | |- frames _ (mret _) (fun _ => True) => by apply frames_ret
  | |- frames _ ((if _ then _ else _) ≫= _) _ =>
      eapply (frames_bind _ _ (fun _ => True)); [|intros ? _]
  | |- frames _ (_ ≫= _) _ => eapply frames_bind; [solve [eauto with frames]|intros ? ?]
  | |- frames _ (if _ then _ else _) _ => apply frames_if; intros ?
  | |- frames _ (match ?x with _ => _ end) _ => destruct x eqn:?
  | |- frames _ _ (fun _ => True) =>
      solve [eapply frames_weaken; [|solve [eauto with frames]]; done]
  end.

Ltac frames_go := repeat frames_step.

Section framed.
Context {c : Z}.

Lemma frames_set_isUp i v : frames c (set_isUp i v) (fun _ => True).
Proof.
  intros st tr Hc. unfold set_isUp. wpM_pure.
  destruct (server_at st i) as [ss|] eqn:Hs.
  - eapply wpM_get_server; [done|]. unfold put_server. wpM_pure.
    eapply wpM_get_server; [done|]. wpM_pure. split; [|done].
    apply same_data_same_but_up. apply server_at_Val in Hs as [_ Hs]. by apply upd_isUp_same.
  - unfold get_server. wpM_pure. apply wpM_liftC. by rewrite Hs.
Qed.
Local Hint Resolve frames_set_isUp : frames.

Lemma frames_isSSUp i : frames c (isSSUp i) (fun _ => True).
Proof.
  unfold isSSUp. frames_step. frames_step. destruct a0; frames_go.
  all: eapply frames_bind; [apply frames_sendN; by eauto|intros ? _]; frames_go.
Qed.
Local Hint Resolve frames_isSSUp : frames.

Lemma frames_redundantSS i : frames c (redundantSS i) (fun _ => True).
Proof. unfold redundantSS. frames_go. Qed.

Lemma frames_on_cache f : frames c (on_cache f) (fun _ => True).
Proof.
  unfold on_cache. frames_step. frames_step. eapply frames_weaken; [done|].
  by apply frames_modify.
Qed.

Lemma frames_sem_wait : frames c sem_wait (fun _ => True).
Proof.
  unfold sem_wait. frames_step. apply frames_if; intros _; [|done].
  by apply frames_modify.
Qed.

Lemma frames_sem_post : frames c sem_post (fun _ => True).
Proof. by apply frames_modify. Qed.
Local Hint Resolve frames_on_cache frames_sem_wait frames_sem_post : frames.

Lemma frames_search buffer : frames c (search_storage_server buffer) (fun _ => True).
Proof. unfold search_storage_server. frames_go. Qed.

Lemma frames_forget i path : frames c (forget i path) (fun _ => True).
Proof.
  unfold forget, delete_from_cacheN. frames_step; [|frames_go]. frames_step. frames_step.
  eapply frames_bind; [by apply frames_modify|]. intros _ _. frames_go.
Qed.

Lemma frames_usable i : frames c (usable i) (fun _ => True).
Proof. unfold usable. frames_go. Qed.

Lemma frames_log_line m : frames c (log_line m) (fun _ => True).
Proof. unfold log_line, log_it. frames_go. Qed.

Lemma frames_forward bs command path : frames c (forward_to_backup bs command path) (fun _ => True).
Proof. unfold forward_to_backup. frames_go. Qed.
Local Hint Resolve frames_log_line : frames.

Lemma frames_forward2 bs command path : frames c (forward_to_backup2 bs command path) (fun _ => True).
Proof. unfold forward_to_backup2. frames_go. Qed.
End framed.

#[export] Hint Resolve frames_isSSUp frames_redundantSS frames_on_cache frames_sem_wait
  frames_sem_post frames_search frames_forget frames_usable frames_log_line frames_forward
  frames_forward2 : frames.

(** ** Using frames in a symbolic execution *)

Lemma wpM_frame {A B} c (m : NM A) (f : A -> NM B) P st tr Q :
  frames c m P -> sockets_away c st ->
  (forall tr' a st', same_data st st' -> sockets_away c st' -> sent_to c tr' = sent_to c tr ->
     tr `prefix_of` tr' -> P a -> wpM (whenever (away c)) (f a) st' tr' Q) ->
  wpM (whenever (away c)) (m ≫= f) st tr Q.
Proof.
  intros Hm Hc HQ. apply wpM_bind. eapply wpM_mono; [by apply wpM_prefix, Hm|]. cbn beta.
  intros tr' a st' [(Hs & Ht & Ha) Hp]. apply HQ; try done. by eapply sockets_away_same.
Qed.

Lemma wpM_get_server_whenever {B} E i (f : StorageServerInfo -> NM B) st tr Q :
  (forall ss, server_at st i = Val ss -> wpM (whenever E) (f ss) st tr Q) ->
  wpM (whenever E) (get_server i ≫= f) st tr Q.
Proof.
  intros H. apply wpM_bind. destruct (server_at st i) as [ss|] eqn:Hs.
  - eapply wpM_get_server; [done|]. by apply H.
  - unfold get_server. wpM_pure. apply wpM_liftC. by rewrite Hs.
Qed.

Lemma wpM_liftC_whenever {A B} E (x : cres A) (f : A -> NM B) st tr Q :
  (forall a, x = Val a -> wpM (whenever E) (f a) st tr Q) ->
  wpM (whenever E) (liftC x ≫= f) st tr Q.
Proof. intros H. apply wpM_bind, wpM_liftC. destruct x; [by apply H|done]. Qed.

Lemma wpM_sendN {B} E sock m (f : Z -> NM B) st tr Q :
  (forall r, wpM (whenever E) (f (send_value r)) st (tr ++ [ESend sock m r]) Q) ->
  wpM (whenever E) (sendN sock m ≫= f) st tr Q.
Proof. intros H. apply wpM_bind. unfold sendN. apply wpM_send. intros r _. apply H. Qed.

Lemma wpM_recvN {B} E sock k (f : Z * bytes -> NM B) st tr Q :
  (forall r, rres_ok k r -> wpM (whenever E) (f (recv_value r)) st (tr ++ [ERecv sock k r]) Q) ->
  wpM (whenever E) (recvN sock k ≫= f) st tr Q.
Proof. intros H. apply wpM_bind. unfold recvN. apply wpM_recv. intros r Hr _. by apply H. Qed.

Lemma sent_to_self c tr m r : sent_to c (tr ++ [ESend c m r]) = sent_to c tr ++ [m].
Proof. by rewrite sent_to_snoc, Z.eqb_refl. Qed.

Lemma sent_to_other c s tr m r : s <> c -> sent_to c (tr ++ [ESend s m r]) = sent_to c tr.
Proof. intros Hs. rewrite sent_to_snoc. destruct (Z.eqb_spec c s); congruence. Qed.

Lemma sockets_away_server c st i ss :
  sockets_away c st -> server_at st i = Val ss -> ci_socket (clientInfo ss) <> c.
Proof. intros Hc [_ Hs]%server_at_Val. by eapply Hc. Qed.

(** ** Changes of the tries *)

(** The storage server behind [sock] answered [m]. *)
Definition answered (tr : list event) (sock : Z) (m : bytes) : Prop :=
  exists b, ERecv sock BUFFER_SIZE (RData b) ∈ tr /\ m = until_nul b /\ starts_with COULD_NOT m = false.

Lemma answered_prefix tr tr' sock m :
  tr `prefix_of` tr' -> answered tr sock m -> answered tr' sock m.
Proof. intros [k ->] (b & Hb & ?). exists b. split; [|done]. apply elem_of_app. by left. Qed.

(** What a [mkdir], [touch], [rmdir] or [rm] of [c] may do to the tries [rs]
    of the servers [ss]: nothing, or, after the server that has the path
    answered with a success that is relayed to the client, one update of its
    trie by [op]. *)
Definition changes_after_success (op : trienode -> cres trienode) (c : Z) (st : naming)
    (tr : list event) (st' : naming) : Prop :=
  roots st' = roots st /\ (length (sent_to c tr) <= 1)%nat \/
  exists i ss t t' m,
    server_at st i = Val ss /\ root ss = Some t /\ op t = Val t' /\
    roots st' = <[Z.to_nat i:=Some t']> (roots st) /\
    answered tr (ci_socket (clientInfo ss)) m /\ sent_to c tr = [m].

Lemma roots_put_root st i ss t :
  server_at st i = Val ss ->
  roots (set_servers (<[Z.to_nat i:=with_root t ss]> (storage_servers st)) st)
  = <[Z.to_nat i:=Some t]> (roots st).
Proof. intros _. unfold roots. cbn. by rewrite list_fmap_insert. Qed.

Lemma same_data_server st st' i ss ss' :
  same_data st st' -> server_at st i = Val ss -> server_at st' i = Val ss' ->
  root ss' = root ss /\ clientInfo ss' = clientInfo ss.
Proof.
  intros H [_ Hs]%server_at_Val [_ Hs']%server_at_Val.
  destruct (same_data_lookup _ _ _ _ H Hs) as (ss2 & Hs2 & He).
  apply with_isUp_fields in He as (? & _ & _ & ? & _). simplify_eq. split; congruence.
Qed.

(** Storing an updated trie. *)
Lemma put_root_wp E i t ss st tr (Q : list event -> bool -> naming -> Prop) :
  server_at st i = Val ss ->
  Q tr true (set_servers (<[Z.to_nat i:=with_root t ss]> (storage_servers st)) st) ->
  wpM (whenever E) (_ ← put_server i (with_root t ss); mret true) st tr Q.
Proof.
  intros Hs HQ. unfold put_server. wpM_pure. eapply wpM_get_server; [done|]. by wpM_pure.
Qed.

Lemma wpM_logged_reply {B} c m (f : unit -> NM B) st tr Q :
  sockets_away c st ->
  (forall tr' st', same_data st st' -> sockets_away c st' -> sent_to c tr' = sent_to c tr ++ [m] ->
     tr `prefix_of` tr' -> wpM (whenever (away c)) (f tt) st' tr' Q) ->
  wpM (whenever (away c)) (logged_reply c m ≫= f) st tr Q.
Proof.
  intros Hc HQ. apply wpM_bind. unfold logged_reply. apply wpM_sendN. intros r.
  eapply wpM_mono; [by apply wpM_prefix, frames_log_line|]. cbn beta.
  intros tr' [] st' [(Hs & Ht & _) Hp]. rewrite sent_to_self in Ht. apply HQ; try done.
  - by eapply sockets_away_same.
  - etrans; [|exact Hp]. by apply prefix_app_r.
Qed.

(** The last step of both branches. *)
Lemma update_changes op c st st3 st6 i ss3 ss6 t t' m tr :
  same_data st st3 -> same_data st3 st6 ->
  server_at st3 i = Val ss3 -> server_at st6 i = Val ss6 ->
  root ss6 = Some t -> op t = Val t' ->
  answered tr (ci_socket (clientInfo ss3)) m -> sent_to c tr = [m] ->
  changes_after_success op c st tr
    (set_servers (<[Z.to_nat i:=with_root t' ss6]> (storage_servers st6)) st6).
Proof.
  intros S03 S36 Hss3 Hss6 Ht Hop Ha Hm. right.
  assert (same_data st3 st) as S30 by by symmetry.
  destruct (same_data_lookup st3 st (Z.to_nat i) ss3 S30) as (ss & Hss & He);
    [by apply server_at_Val|].
  assert (server_at st i = Val ss) as Hs.
  { apply server_at_Val. split; [by apply server_at_Val in Hss3 as [? _]|done]. }
  destruct (same_data_server _ _ _ _ _ S03 Hs Hss3) as [_ Eci].
  destruct (same_data_server _ _ _ _ _ S36 Hss3 Hss6) as [Er3 _].
  destruct (same_data_server _ _ _ _ _ S03 Hs Hss3) as [Er0 _].
  exists i, ss, t, t', m. split; [done|]. split; [congruence|]. split; [done|].
  split; [|split; [by rewrite <- Eci|done]].
  rewrite roots_put_root by done. f_equal. symmetry. apply same_data_roots. by etrans.
Qed.

Lemma mkdir_branch_wp c buffer command path st :
  sockets_away c st ->
  wpM (whenever (away c)) (mkdir_branch c buffer command path) st [] (fun tr _ st' =>
    changes_after_success (AddPathToTrie path) c st tr st').
Proof.
  intros Hc. unfold mkdir_branch. cbv zeta. case_match.
  { apply wpM_sendN. intros r. wpM_pure. left. split; [done|]. by rewrite sent_to_self. }
  eapply wpM_frame; [apply frames_search|done|]. intros tr1 i st1 S1 C1 T1 _ _.
  eapply (wpM_frame _ _ _ (fun _ => True)); [|done|].
  { apply frames_if; intros _; [apply frames_on_cache|by apply frames_ret]. }
  intros tr2 _ st2 S2 C2 T2 _ _. eapply wpM_frame; [apply frames_usable|done|].
  intros tr3 up st3 S3 C3 T3 _ _. rewrite T2, T1 in T3. cbn in T3.
  assert (same_data st st3) as S03 by (etrans; [done|]; by etrans).
  destruct up.
  2:{ apply wpM_sendN. intros r. wpM_pure. left. rewrite sent_to_self, T3.
      split; [symmetry; by apply same_data_roots|done]. }
  apply wpM_get_server_whenever. intros ss3 Hss3. cbv zeta.
  pose proof (sockets_away_server _ _ _ _ C3 Hss3) as Hne.
  apply wpM_sendN. intros r1. case_bool_decide.
  { wpM_pure. left. rewrite sent_to_other, T3 by done.
    split; [symmetry; by apply same_data_roots|simpl; lia]. }
  apply wpM_recvN. intros r2 Hr2. case_bool_decide as Hpos.
  { apply wpM_sendN. intros r3. wpM_pure. left.
    rewrite sent_to_self, sent_to_snoc, sent_to_other, T3 by done.
    split; [symmetry; by apply same_data_roots|done]. }
  apply wpM_liftC_whenever. intros m Hm. apply wpM_sendN. intros r3.
  set (tr4 := _ ++ [ESend c m r3]).
  assert (sent_to c tr4 = [m]) as T4
    by (unfold tr4; by rewrite sent_to_self, sent_to_snoc, sent_to_other, T3).
  destruct (starts_with COULD_NOT m) eqn:Hcn.
  { wpM_pure. left. rewrite T4. split; [symmetry; by apply same_data_roots|done]. }
  assert (answered tr4 (ci_socket (clientInfo ss3)) m) as A4.
  { unfold response_of in Hm. apply cbind_Val_inv in Hm as (_ & _ & Hm). injection Hm as <-.
    destruct r2 as [b| | |]; try (simpl in Hpos; lia). exists b.
    split; [|done]. unfold tr4. rewrite !elem_of_app. set_solver. }
  clearbody tr4. apply wpM_get_server_whenever. intros ss4 Hss4.
  eapply wpM_frame; [apply frames_forward|done|]. intros tr5 _ st5 S5 C5 T5 P5 _.
  eapply wpM_frame; [apply frames_forward|done|]. intros tr6 _ st6 S6 C6 T6 P6 _.
  apply wpM_get_server_whenever. intros ss6 Hss6.
  apply wpM_liftC_whenever. intros o Ho.
  assert (same_data st3 st6) as S36 by by etrans.
  assert (sent_to c tr6 = [m]) as T6' by congruence.
  destruct (root ss6) as [t|] eqn:Ht; cbn [add_to_root] in Ho.
  - destruct (AddPathToTrie path t) as [t'|] eqn:Ha; [|done]. injection Ho as <-.
    cbn [with_root_opt]. apply put_root_wp; [done|].
    apply (update_changes _ _ _ st3 _ i ss3 _ t t' m); try done. apply (answered_prefix tr4); [by etrans|done].
  - apply cbind_Val_inv in Ho as (p & _ & Ho). case_bool_decide; [|done]. injection Ho as <-.
    unfold put_server. wpM_pure. eapply wpM_get_server; [done|]. wpM_pure. left.
    rewrite T6'. split; [|done]. unfold roots. cbn. rewrite list_fmap_insert.
    rewrite list_insert_id; [|apply server_at_Val in Hss6 as [_ Hss6]; by rewrite list_lookup_fmap, Hss6].
    symmetry. apply same_data_roots. by etrans.
Qed.

Lemma rm_branch_wp c buffer command path st :
  sockets_away c st ->
  wpM (whenever (away c)) (rm_branch c buffer command path) st [] (fun tr _ st' =>
    changes_after_success (DeletePath path) c st tr st').
Proof.
  intros Hc. unfold rm_branch. case_match.
  { apply wpM_sendN. intros r. case_bool_decide.
    - wpM_pure. left. split; [done|]. by rewrite sent_to_self.
    - eapply wpM_frame; [apply frames_log_line|done|]. intros tr1 _ st1 S1 C1 T1 _ _. wpM_pure.
      left. rewrite T1, sent_to_self. split; [symmetry; by apply same_data_roots|done]. }
  eapply wpM_frame; [apply frames_search|done|]. intros tr1 i st1 S1 C1 T1 _ _.
  eapply wpM_frame; [apply frames_forget|done|].
  intros tr2 _ st2 S2 C2 T2 _ _. eapply wpM_frame; [apply frames_usable|done|].
  intros tr3 up st3 S3 C3 T3 _ _. rewrite T2, T1 in T3. cbn in T3.
  assert (same_data st st3) as S03 by (etrans; [done|]; by etrans).
  destruct up.
  2:{ apply wpM_logged_reply; [done|]. intros tr4 st4 S4 C4 T4 _. wpM_pure. left.
      rewrite T4, T3. split; [symmetry; apply same_data_roots; by etrans|done]. }
  apply wpM_get_server_whenever. intros ss3 Hss3. cbv zeta.
  pose proof (sockets_away_server _ _ _ _ C3 Hss3) as Hne.
  apply wpM_sendN. intros r1. case_bool_decide.
  { wpM_pure. left. rewrite sent_to_other, T3 by done.
    split; [symmetry; by apply same_data_roots|simpl; lia]. }
  eapply wpM_frame; [apply frames_log_line|done|]. intros tr4 _ st4 S4 C4 T4 _ _.
  rewrite sent_to_other, T3 in T4 by done.
  assert (same_data st st4) as S04 by by etrans.
  apply wpM_recvN. intros r2 Hr2. case_bool_decide as Hpos.
  { apply wpM_sendN. intros r3. eapply wpM_frame; [apply frames_log_line|done|].
    intros tr5 _ st5 S5 C5 T5 _ _. wpM_pure. left.
    rewrite T5, sent_to_self, sent_to_snoc, T4.
    split; [symmetry; apply same_data_roots; by etrans|done]. }
  apply wpM_liftC_whenever. intros logged _.
  eapply wpM_frame; [apply frames_log_line|done|]. intros tr5 _ st5 S5 C5 T5 P5 _.
  rewrite sent_to_snoc, T4 in T5.
  assert (same_data st st5) as S05 by by etrans.
  apply wpM_liftC_whenever. intros m Hm. apply wpM_logged_reply; [done|].
  intros tr6 st6 S6 C6 T6 P6. rewrite T5 in T6. cbn in T6.
  assert (same_data st st6) as S06 by by etrans.
  destruct (starts_with COULD_NOT m) eqn:Hcn.
  { wpM_pure. left. rewrite T6. split; [symmetry; by apply same_data_roots|done]. }
  assert (answered tr6 (ci_socket (clientInfo ss3)) m) as A6.
  { unfold response_of in Hm. apply cbind_Val_inv in Hm as (_ & _ & Hm). injection Hm as <-.
    destruct r2 as [b| | |]; try (simpl in Hpos; lia). eapply answered_prefix; [exact P6|].
    eapply answered_prefix; [exact P5|]. exists b.
    split; [|done]. apply elem_of_app. right. by apply list_elem_of_singleton. }
  apply wpM_get_server_whenever. intros ss7 Hss7.
  apply wpM_liftC_whenever. intros _ _.
  eapply wpM_frame; [apply frames_forward|done|]. intros tr7 _ st7 S7 C7 T7 P7 _.
  eapply wpM_frame; [apply frames_forward2|done|]. intros tr8 _ st8 S8 C8 T8 P8 _.
  apply wpM_get_server_whenever. intros ss8 Hss8.
  apply wpM_liftC_whenever. intros t Ht. apply wpM_liftC_whenever. intros t' Hd.
  apply put_root_wp; [done|]. apply (update_changes _ _ _ st3 _ i ss3 _ t t' m); try done.
  - do 2 (etrans; [done|]). by do 2 (etrans; [done|]).
  - by destruct (root ss8); simplify_eq/=.
  - apply (answered_prefix tr6); [by etrans|done].
  - congruence.
Qed.

(** ** The example state *)

Lemma example_trie_wf path t : example_trie path = Some t -> wf_trie t.
Proof.
  unfold example_trie. destruct (AddPathToTrie path (CreateNode ".")) eqn:Ha; [|done].
  intros [= <-]. eapply AddPathToTrie_wf; [done|apply wf_CreateNode].
Qed.

Lemma example_inv : naming_inv 2 example_naming.
Proof.
  split; try done.
  - intros i Hi. destruct i as [|[|i]]; [| |lia].
    + exists (example_server "./s0/a" 4). destruct (example_trie "./s0/a") as [t|] eqn:Ht;
        [|vm_compute in Ht; done]. exists t. split; [done|]. split; [done|]. by eapply example_trie_wf.
    + exists (example_server "./s1/b" 5). destruct (example_trie "./s1/b") as [t|] eqn:Ht;
        [|vm_compute in Ht; done]. exists t. split; [done|]. split; [done|]. by eapply example_trie_wf.
  - intros i ss Hi Hn. destruct i as [|[|i]]; [lia|lia|]. cbn in Hi.
    apply (lookup_replicate 8) in Hi as [-> _]. done.
  - exists example_entries. split; [apply example_repr|apply example_valid].
Qed.

Lemma example_away : sockets_away 9 example_naming.
Proof.
  intros i ss Hi. destruct i as [|[|i]]; [injection Hi as <-; done..|]. cbn in Hi.
  apply (lookup_replicate 8) in Hi as [-> _]. done.
Qed.

(** ** Properties of the commands *)

(** C5. The globals stay consistent: whatever clients send and however the
    network and the storage servers answer, whenever a client's thread ends
    the registered servers still have well-formed tries, the cache still holds
    positions of registered servers within its capacity, the unused entries
    are still empty, and the semaphore is free again. *)
Theorem process_client_keeps_invariant `{Platform} n fuel client_socket st tr :
  naming_inv n st ->
  wpM partial (process_client fuel client_socket) st tr (fun _ _ st' => naming_inv n st').
Proof.
  intros Hi. eapply wpM_mono; [by apply (keeps_process_client (n:=n))|]. by intros tr' [] st' [? _].
Qed.

Lemma process_client_keeps_invariant_witness :
  naming_inv 2 example_naming /\
  wpM partial (process_client 5 9) example_naming [] (fun _ _ st' => naming_inv 2 st').
Proof.
  split; [exact example_inv|]. apply process_client_keeps_invariant. exact example_inv.
Defined.

(** C38. The same for the threads that handle the messages of storage servers
    after a write. *)
Theorem listen_async_keeps_invariant `{Platform} n fuel client st tr :
  naming_inv n st ->
  wpM partial (listen_async fuel client) st tr (fun _ _ st' => naming_inv n st').
Proof.
  intros Hi. eapply wpM_mono; [by apply (keeps_listen_async (n:=n))|]. by intros tr' [] st' [? _].
Qed.

Lemma listen_async_keeps_invariant_witness :
  naming_inv 2 example_naming /\
  wpM partial (listen_async 5 9) example_naming [] (fun _ _ st' => naming_inv 2 st').
Proof.
  split; [exact example_inv|]. apply listen_async_keeps_invariant. exact example_inv.
Defined.

(** C14. [mkdir] and [touch] change a trie only after success: whenever the
    branch ends, either all tries are as before and the client was sent at
    most one message, or the client was sent exactly the answer of a storage
    server, which does not start with "Could not", and that server's trie, and
    no other, is the old one with the path added. *)
Theorem mkdir_changes_trie_after_success c buffer command path st :
  sockets_away c st ->
  wpM (whenever (away c)) (mkdir_branch c buffer command path) st [] (fun tr _ st' =>
    changes_after_success (AddPathToTrie path) c st tr st').
Proof. apply mkdir_branch_wp. Qed.

Lemma mkdir_changes_trie_after_success_witness :
  wpM (whenever (away 9)) (mkdir_branch 9 "mkdir ./s0/d" "mkdir" "./s0/d") example_naming []
    (fun tr _ st' => changes_after_success (AddPathToTrie "./s0/d") 9 example_naming tr st').
Proof. apply mkdir_changes_trie_after_success. exact example_away. Defined.

(** C15. [rmdir] and [rm] likewise delete the path from one server's trie, and
    only after that server's success was relayed to the client. *)
Theorem rm_changes_trie_after_success c buffer command path st :
  sockets_away c st ->
  wpM (whenever (away c)) (rm_branch c buffer command path) st [] (fun tr _ st' =>
    changes_after_success (DeletePath path) c st tr st').
Proof. apply rm_branch_wp. Qed.

Lemma rm_changes_trie_after_success_witness :
  wpM (whenever (away 9)) (rm_branch 9 "rm ./s0/a" "rm" "./s0/a") example_naming []
    (fun tr _ st' => changes_after_success (DeletePath "./s0/a") 9 example_naming tr st').
Proof. apply rm_changes_trie_after_success. exact example_away. Defined.
