(* ===== verification/Redirection.v ===== *)
(** * Where clients are sent (naming_server.c: the write branch and the last
    branch of process_client)

    The functional behaviour of the replies that tell a client which storage
    server to contact: when servers are up, when the path is unknown, and when
    no server answers. *)
From S2P Require Export ClientReplies.

Open Scope Z_scope.

(** ** Lookups, replies and logs that return *)

Lemma returns_weaken {A} (E : event -> Prop) (m : NM A) st tr Q :
  wpM total m st tr Q -> wpM (returns E) m st tr Q.
Proof. apply wpM_total. Qed.

(** The entries after a lookup. *)
Definition after_lookup (b : bytes) (r : Z) (l : list (bytes * Z)) : list (bytes * Z) :=
  if bool_decide (r = -1) then l else lru_step (Access b r) l.

(** A lookup at full strength. *)
Lemma lookup_returns c n st l b p tr :
  naming_inv n st -> cache_repr (cache st) l -> cache_valid st l -> ParsePath b = Val p ->
  sockets_away c st ->
  wpM (returns (away c)) (search_storage_server (Some b)) st tr (fun tr' r st' =>
    naming_inv n st' /\ looked_up st l b p r /\ same_data st st' /\ sent_to c tr' = sent_to c tr /\
    cache_repr (cache st') (after_lookup b r l) /\ cache_valid st' (after_lookup b r l)).
Proof.
  intros Hi Hc Hv Hp Haway.
  pose proof (inv_roots_present _ _ Hi) as Hr. pose proof (inv_semaphore _ _ Hi) as Hs.
  eapply wpM_mono.
  - apply wpM_returns_and; [apply wpM_and; apply returns_weaken|].
    + apply (search_parsed_inv (n:=n) st tr b p Hi Hp).
    + apply (search_storage_server_wp st l b p tr); (done || lia).
    + by apply frames_search.
  - cbn beta. intros tr' r st' [[[Hi' _] (Hl & _ & Hc')] (Hd & Ht & _)].
    do 5 (split; [done|]). unfold cache_valid, after_lookup.
    rewrite <- (same_data_index _ _ Hd). fold (cache_valid st).
    destruct (inv_search_result _ _ _ _ _ Hi Hv Hl) as [->|Hrange]; [done|].
    rewrite bool_decide_eq_false_2 by lia. apply cache_valid_access; [done|].
    by rewrite (inv_index _ _ Hi).
Qed.

Lemma after_lookup_keys b b' r l :
  b' <> b -> lru_find b' l = None -> lru_find b' (after_lookup b r l) = None.
Proof.
  intros Hne. rewrite !lru_find_None. intros Hn Hin. apply Hn. clear Hn.
  unfold after_lookup in Hin. case_bool_decide; [done|]. cbn [lru_step] in Hin.
  apply list_elem_of_fmap in Hin as (x & -> & Hx). apply list_elem_of_fmap. exists x. split; [done|].
  destruct (lru_find b l) as [i|] eqn:Hf.
  - apply list_elem_of_lookup in Hx as [j Hj]. unfold lru_touch in Hj.
    destruct (l !! i) as [y|] eqn:Hy; [|by eapply list_elem_of_lookup_2].
    apply list_elem_of_lookup_2, elem_of_app in Hj as [Hj|Hj].
    + apply elem_of_submseteq with (delete i l); [done|]. apply sublist_submseteq, sublist_delete.
    + apply list_elem_of_singleton in Hj as ->. by eapply list_elem_of_lookup_2.
  - unfold lru_add, lru_evict in Hx. apply elem_of_app in Hx as [Hx|Hx].
    + case_bool_decide; [|done]. destruct l; [done|]. by right.
    + apply list_elem_of_singleton in Hx as ->. done.
Qed.

Lemma log_line_wp R m st tr (Q : list event -> unit -> naming -> Prop) :
  (length m < BUFFER_SIZE)%nat -> Q (tr ++ [ELog (m ++ [LF])]) tt st ->
  wpM R (log_line m) st tr Q.
Proof.
  intros Hm HQ. unfold log_line, log_it. wpM_pure. apply wpM_liftC. unfold fits.
  rewrite bool_decide_eq_true_2 by done. wpM_pure. apply wpM_liftC.
  rewrite (bool_decide_eq_false_2 (-1 <> -1)) by (by intros H; apply H).
  rewrite bool_decide_eq_true_2 by done. by wpM_pure.
Qed.

(** The descriptors the programs print are short. *)
Definition small_fd (c : Z) : Prop := (length (print_Z c) <= 20)%nat.

Lemma logged_reply_wp E c m st tr (Q : list event -> unit -> naming -> Prop) :
  small_fd c -> (length m <= 960)%nat ->
  (forall tr', sent_to c tr' = sent_to c tr ++ [m] -> Q tr' tt st) ->
  wpM (returns E) (logged_reply c m) st tr Q.
Proof.
  intros Hfd Hm HQ. unfold logged_reply, sendN. wpM_step. wpM_step. apply log_line_wp.
  - unfold small_fd in Hfd. rewrite !length_app. unfold lit, BUFFER_SIZE.
    cbn [length list_ascii_of_string]. lia.
  - apply HQ. by rewrite sent_to_snoc, sent_to_self.
Qed.

Lemma send_reply_wp E c m st tr (Q : list event -> unit -> naming -> Prop) :
  (forall tr', sent_to c tr' = sent_to c tr ++ [m] -> Q tr' tt st) ->
  wpM (returns E) (send_reply c m) st tr Q.
Proof.
  intros HQ. unfold send_reply, sendN. wpM_step. wpM_step. wpM_pure. apply HQ. apply sent_to_self.
Qed.

Lemma length_NOT_FOUND : length NOT_FOUND = 24%nat.
Proof. reflexivity. Qed.

(** ** Unknown paths *)

(** A path no server and no cache entry has. *)
Definition unknown (st : naming) (b : bytes) : Prop :=
  exists p, ParsePath b = Val p /\
    (forall k, (k < storage_server_index st)%nat -> ~ has_path st p k) /\
    exists l, cache_repr (cache st) l /\ cache_valid st l /\ lru_find b l = None.

Lemma has_path_same st st' p k : same_data st st' -> has_path st p k -> has_path st' p k.
Proof.
  intros H (ss & t & Hs & Ht & Hp). destruct (same_data_lookup _ _ _ _ H Hs) as (ss' & Hs' & He).
  apply with_isUp_fields in He as (_ & _ & _ & He & _). exists ss', t. by rewrite <- He.
Qed.

Lemma looked_up_unknown st l b p r :
  (forall k, (k < storage_server_index st)%nat -> ~ has_path st p k) ->
  lru_find b l = None -> looked_up st l b p r -> r = -1.
Proof.
  intros Hno Hf. unfold looked_up. rewrite Hf. intros [[-> _]|(k & -> & Hk & Hp & _)]; [done|].
  by destruct (Hno k Hk).
Qed.

(** The lookup of an unknown path. *)
Lemma lookup_unknown c n st b tr :
  naming_inv n st -> unknown st b -> sockets_away c st ->
  wpM (returns (away c)) (search_storage_server (Some b)) st tr (fun tr' r st' =>
    r = -1 /\ naming_inv n st' /\ same_data st st' /\ sent_to c tr' = sent_to c tr).
Proof.
  intros Hi (p & Hp & Hno & l & Hc & Hv & Hf) Haway. eapply wpM_mono; [by apply lookup_returns|].
  cbn beta. intros tr' r st' (Hi' & Hl & Hs & Ht & _).
  split; [by eapply looked_up_unknown|done].
Qed.

Lemma server_or_before_none `{Platform} R st tr (Q : list event -> StorageServerInfo -> naming -> Prop) :
  match before_servers with Val g => Q tr g st | Undef _ => may_go_wrong R end ->
  wpM R (server_or_before (-1)) st tr Q.
Proof. intros HQ. unfold server_or_before. cbn. apply wpM_liftC. by destruct before_servers. Qed.

Lemma other_unknown `{Platform} c n st b g tr :
  before_servers = Val g -> naming_inv n st -> unknown st b -> sockets_away c st -> small_fd c ->
  wpM (returns (away c)) (other_branch c b) st tr (fun tr' _ st' =>
    sent_to c tr' = sent_to c tr ++ [NOT_FOUND] /\ same_data st st').
Proof.
  intros Hg Hi Hu Haway Hfd. unfold other_branch. wpM_pure.
  eapply wpM_mono; [by apply (lookup_unknown c n)|]. cbn beta. intros tr1 r st1 (-> & Hi1 & Hs & Ht).
  wpM_pure. apply server_or_before_none. rewrite Hg.
  rewrite bool_decide_eq_false_2 by (by intros H'; apply H').
  apply logged_reply_wp; [done|rewrite length_NOT_FOUND; lia|]. intros tr' ->. by rewrite Ht.
Qed.

(** ** The write branch *)

(** The addresses of the servers are short enough for every message. *)
Definition addresses_short (st : naming) : Prop :=
  forall i ss, storage_servers st !! i = Some ss ->
    (length (sin_addr (ci_addr (clientInfo ss))) + length (print_Z (portClient ss)) <= 900)%nat.

(** What a [write] is told first: to contact a server, or that none is there. *)
Definition write_answer (flag : bytes) (st : naming) (m : bytes) : Prop :=
  m = NOT_FOUND \/
  exists i ss, server_at st i = Val ss /\
    m = (if strcmp_eq flag "-s" then lit "PATH_OK_SYNC"
         else if strcmp_eq flag "-a" then lit "PATH_OK_ASYNC" else []) ++
        "|" ++ sin_addr (ci_addr (clientInfo ss)) ++ "|" ++ print_Z (portClient ss) ++ [NUL].

Lemma unknown_after_lookup st st' l b r b' :
  same_data st st' -> b' <> b ->
  cache_repr (cache st') (after_lookup b r l) -> cache_valid st' (after_lookup b r l) ->
  lru_find b' l = None ->
  (exists p, ParsePath b' = Val p /\
     forall k, (k < storage_server_index st)%nat -> ~ has_path st p k) ->
  unknown st' b'.
Proof.
  intros Hd Hne Hc Hv Hf (p & Hp & Hno). exists p. split; [done|]. split.
  - intros k Hk Hh. rewrite <- (same_data_index _ _ Hd) in Hk. apply (Hno k Hk).
    eapply has_path_same; [|done]. by symmetry.
  - exists (after_lookup b r l). split; [done|]. split; [done|]. by apply after_lookup_keys.
Qed.

Lemma usable_wp R n i st tr (Q : list event -> bool -> naming -> Prop) :
  naming_inv n st -> i = -1 \/ 0 <= i < Z.of_nat n ->
  (i <> -1 -> forall ss, server_at st i = Val ss -> Q tr (bool_decide (isUp ss <> 0)) st) ->
  (i = -1 -> Q tr false st) ->
  wpM R (usable i) st tr Q.
Proof.
  intros Hi Hr Hyes Hno. unfold usable. case_bool_decide as Hb; [wpM_pure; by apply Hno|].
  destruct (roots_present_server st i) as [ss Hss]; [by eapply inv_roots_present| |].
  - rewrite (inv_index _ _ Hi). by destruct Hr.
  - wpM_pure. eapply wpM_get_server; [done|]. wpM_pure. by apply Hyes.
Qed.

Lemma same_data_server_back st st' i ss' :
  same_data st st' -> server_at st' i = Val ss' ->
  exists ss, server_at st i = Val ss /\ clientInfo ss = clientInfo ss' /\
    portClient ss = portClient ss' /\ root ss = root ss'.
Proof.
  intros H [Hi Hs]%server_at_Val. symmetry in H.
  destruct (same_data_lookup _ _ _ _ H Hs) as (ss & Hss & He).
  apply with_isUp_fields in He as (? & ? & _ & ? & _). exists ss.
  split; [by apply server_at_Val|]. done.
Qed.

(** The text of a server's address, with its separators. *)
Lemma address_length st i ss :
  addresses_short st -> server_at st i = Val ss ->
  (length (sin_addr (ci_addr (clientInfo ss))) + length (print_Z (portClient ss)) <= 900)%nat.
Proof. intros H [_ Hs]%server_at_Val. by eapply H. Qed.

Lemma write_branch_wp c n st l flag path p tr :
  naming_inv n st -> cache_repr (cache st) l -> cache_valid st l -> ParsePath path = Val p ->
  sockets_away c st -> small_fd c -> addresses_short st ->
  wpM (returns (away c)) (write_branch c flag (Some path)) st tr (fun tr' _ st' =>
    (exists m, sent_to c tr' = sent_to c tr ++ [m] /\ write_answer flag st m) /\
    naming_inv n st' /\ same_data st st' /\ exists r,
      cache_repr (cache st') (after_lookup path r l) /\ cache_valid st' (after_lookup path r l)).
Proof.
  intros Hi Hc Hv Hp Haway Hfd Hshort. unfold write_branch. wpM_pure.
  eapply wpM_mono; [by apply (lookup_returns c n st l path p)|]. cbn beta.
  intros tr1 r st1 (Hi1 & Hl & Hs & Ht & Hc1). wpM_pure.
  eapply usable_wp; [done|exact (inv_search_result _ _ _ _ _ Hi Hv Hl)| |].
  - intros Hne ss Hss. case_bool_decide.
    + wpM_pure. eapply wpM_get_server; [done|]. cbv zeta.
      destruct (same_data_server_back _ _ _ _ Hs Hss) as (ss0 & Hss0 & Eci & Ep & _).
      pose proof (address_length _ _ _ Hshort Hss0) as Hlen. rewrite Eci, Ep in Hlen.
      set (title := if strcmp_eq flag "-s" then _ else _).
      assert (length title <= 13)%nat as Htitle
        by (unfold title; repeat case_match; vm_compute; lia).
      rewrite snprintf_all
        by (rewrite !length_app; unfold BUFFER_SIZE, lit; cbn [length list_ascii_of_string]; lia).
      wpM_pure. apply wpM_liftC. unfold fits. rewrite bool_decide_eq_true_2
        by (rewrite !length_app; unfold BUFFER_SIZE, lit; cbn [length list_ascii_of_string]; lia).
      apply send_reply_wp. intros tr' ->. split; [|eauto].
      eexists. split; [by rewrite Ht|]. right. exists r, ss0. split; [done|].
      rewrite Eci, Ep. fold title. by rewrite <- !app_assoc.
    + apply logged_reply_wp; [done|rewrite length_NOT_FOUND; lia|]. intros tr' ->.
      split; [exists NOT_FOUND; split; [by rewrite Ht|by left]|]. eauto.
  - intros _. apply logged_reply_wp; [done|rewrite length_NOT_FOUND; lia|]. intros tr' ->.
    split; [exists NOT_FOUND; split; [by rewrite Ht|by left]|]. eauto.
Qed.

(** ** Servers that are up *)

(** Every ping is answered. *)
Definition healthy (c : Z) (e : event) : Prop :=
  match e with
  | EConnect _ _ r => exists fd, r = Connected fd /\ fd <> c
  | ESend s _ r => s = c \/ r <> SErr
  | ERecv s _ r => s = c \/ r <> RErr
  | _ => True
  end.

Definition all_up (st : naming) : Prop :=
  forall i ss, (i < storage_server_index st)%nat -> storage_servers st !! i = Some ss -> isUp ss = 1.

(** Nobody answers. *)
Definition refused (e : event) : Prop :=
  match e with EConnect _ _ r => r = ConnFail | _ => True end.

Lemma isSSUp_healthy c i ss st tr :
  server_at st i = Val ss ->
  wpM (returns (healthy c)) (isSSUp i) st tr (fun tr' up st' =>
    up = true /\ st' = upd_isUp i 1 ss st /\ sent_to c tr' = sent_to c tr).
Proof.
  intros Hi. unfold isSSUp. wpM_pure. eapply wpM_get_server; [done|]. wpM_pure.
  apply wpM_connect. intros r (fd & -> & Hfd). wpM_pure. unfold sendN. apply wpM_send. intros r1 Hr1.
  rewrite bool_decide_eq_false_2 by (destruct Hr1; destruct r1; simpl; congruence || lia).
  wpM_pure. unfold recvN. apply wpM_recv. intros r2 _ Hr2.
  rewrite bool_decide_eq_false_2 by (destruct Hr2; destruct r2; simpl; congruence || lia).
  wpM_pure. eapply wpM_set_isUp; [done|]. wpM_pure. split; [done|]. split; [done|].
  rewrite !sent_to_snoc. destruct (Z.eqb_spec c fd); congruence.
Qed.

Lemma isSSUp_refused i ss st tr :
  server_at st i = Val ss ->
  wpM (returns refused) (isSSUp i) st tr (fun _ up st' => up = false /\ st' = upd_isUp i 0 ss st).
Proof.
  intros Hi. unfold isSSUp. wpM_pure. eapply wpM_get_server; [done|]. wpM_pure.
  apply wpM_connect. intros r ->. wpM_pure. by eapply wpM_set_isUp.
Qed.

(** With nobody answering, no redundant server is found. *)
Lemma redundantSS_refused i ss st tr :
  server_at st i = Val ss ->
  valid_or_none st (backupServer1 ss) -> valid_or_none st (backupServer2 ss) ->
  wpM (returns refused) (redundantSS i) st tr (fun _ r st' => r = -1).
Proof.
  intros Hi Hb1 Hb2.
  assert (forall j st1 tr1, valid_or_none st1 j -> same_but_up st st1 ->
    wpM (returns refused) (if bool_decide (j <> -1) then isSSUp j else mret false) st1 tr1
      (fun _ up st2 => up = false /\ same_but_up st st2)) as Hping.
  { intros j st1 tr1 [->|(s & Hs)] Hsame; [by wpM_pure|].
    case_bool_decide; [|by wpM_pure].
    eapply wpM_mono; [by apply isSSUp_refused|]. cbn beta. intros tr2 up st2 [-> ->].
    split; [done|]. etrans; [done|]. apply server_at_Val in Hs as [_ Hs]. by apply upd_isUp_same. }
  unfold redundantSS. wpM_pure.
  eapply wpM_mono; [by apply isSSUp_refused|]. cbn beta. intros tr1 up st1 [-> ->].
  assert (same_but_up st (upd_isUp i 0 ss st)) as S1
    by (apply server_at_Val in Hi as [_ Hi']; by apply upd_isUp_same).
  wpM_pure. eapply wpM_get_server; [by apply upd_isUp_server|]. wpM_pure. cbn [backupServer1 with_isUp].
  eapply wpM_mono; [apply Hping; [by eapply valid_or_none_same|done]|]. cbn beta.
  intros tr2 up st2 [-> S2]. destruct (same_but_up_server _ _ _ _ S2 Hi) as (ss2 & Hi2 & He2).
  apply with_isUp_fields in He2 as (_ & _ & _ & _ & _ & Eb2).
  wpM_pure. eapply wpM_get_server; [done|]. wpM_pure. rewrite <- Eb2.
  eapply wpM_mono; [apply Hping; [by eapply valid_or_none_same|done]|]. cbn beta.
  intros tr3 up st3 [-> S3]. by wpM_pure.
Qed.

Lemma all_up_ping i ss st : all_up st -> all_up (upd_isUp i 1 ss st).
Proof.
  intros H j s Hj Hs. cbn in *. destruct (decide (Z.to_nat i = j)) as [<-|Hne].
  - destruct (decide (Z.to_nat i < length (storage_servers st))%nat).
    + rewrite list_lookup_insert_eq in Hs by done. by simplify_eq.
    + rewrite list_insert_ge in Hs by lia. by eapply H.
  - rewrite list_lookup_insert_ne in Hs by done. by eapply H.
Qed.

Lemma same_data_ping i v ss st c :
  server_at st i = Val ss -> same_data st (upd_isUp i v ss (set_cache c st)).
Proof.
  intros [_ Hs]%server_at_Val. transitivity (set_cache c st); [done|].
  apply same_data_same_but_up. by apply upd_isUp_same.
Qed.

(** A lookup while everybody answers leaves everybody up. *)
Lemma search_healthy c n st l b p tr :
  naming_inv n st -> cache_repr (cache st) l -> cache_valid st l -> ParsePath b = Val p ->
  all_up st ->
  wpM (returns (healthy c)) (search_storage_server (Some b)) st tr (fun tr' r st' =>
    looked_up st l b p r /\ sent_to c tr' = sent_to c tr /\ all_up st' /\ same_data st st').
Proof.
  intros Hi Hc Hv Hp Hup.
  pose proof (inv_roots_present _ _ Hi) as Hr. pose proof (inv_semaphore _ _ Hi) as Hs.
  assert (forall j ss c', server_at st j = Val ss ->
    wpM (returns (healthy c)) (isSSUp j) (set_cache c' st) tr (fun tr' _ st' =>
      sent_to c tr' = sent_to c tr /\ all_up st' /\ same_data st st')) as Hping.
  { intros j ss c' Hss. eapply wpM_mono; [by apply (isSSUp_healthy c j ss)|]. cbn beta.
    intros tr' up st' (_ & -> & Ht). split; [done|]. split; [by apply all_up_ping|].
    by apply same_data_ping. }
  unfold looked_up. destruct (lru_find b l) as [i|] eqn:Hf.
  - destruct (lookup_lt_is_Some_2 l i (lru_find_lt _ _ _ Hf)) as [x Hx].
    eapply search_hit_cont; [done..|lia|done|done|]. intros y ss c' Hy Hss Hc'.
    eapply wpM_mono; [by eapply Hping|]. cbn beta. eauto.
  - eapply search_miss_cont; [done..|lia|done|done|done|].
    intros r c' Hfirst Hne Hc'.
    destruct (roots_present_server st r Hr) as [ss Hss].
    { destruct Hfirst as [[-> _]|(k & -> & Hk & _)]; [done|lia]. }
    eapply wpM_mono; [by eapply Hping|]. cbn beta. eauto.
Qed.

(** ** Properties of the redirections *)

(** C16. The normal answer: while all servers are up and answer their pings, a
    client asking for a path is told, in exactly one message, the address and
    client port of the server the lookup yields, which is the cached one or
    the first that has the path. *)
Theorem other_branch_redirects `{Platform} c n st l b p :
  naming_inv n st -> cache_repr (cache st) l -> cache_valid st l -> ParsePath b = Val p ->
  all_up st -> small_fd c -> addresses_short st -> ~ looked_up st l b p (-1) ->
  wpM (returns (healthy c)) (other_branch c b) st [] (fun tr _ st' =>
    exists r ss, looked_up st l b p r /\ server_at st r = Val ss /\
      sent_to c tr = [sin_addr (ci_addr (clientInfo ss)) ++ "," ++ print_Z (portClient ss) ++ " "] /\
      roots st' = roots st).
Proof.
  intros Hi Hc Hv Hp Hup Hfd Hshort Hknown. unfold other_branch. wpM_pure.
  eapply wpM_mono; [by apply (search_healthy c n st l b p)|]. cbn beta.
  intros tr1 r st1 (Hl & Ht & Hup1 & Hs).
  assert (r <> -1) as Hr by (intros ->; done).
  destruct (inv_search_result _ _ _ _ _ Hi Hv Hl) as [|Hrange]; [done|].
  destruct (roots_present_server st r) as [ss Hss];
    [by eapply inv_roots_present|by rewrite (inv_index _ _ Hi)|].
  assert (same_data st1 st) as Hs' by by symmetry.
  destruct (same_data_server_back _ _ _ _ Hs' Hss) as (ss1 & Hss1 & Eci & Ep & _).
  assert (isUp ss1 = 1) as Hu.
  { apply server_at_Val in Hss1 as [_ Hss1]. apply (Hup1 (Z.to_nat r)); [|done].
    rewrite <- (same_data_index _ _ Hs), (inv_index _ _ Hi). lia. }
  pose proof (address_length _ _ _ Hshort Hss) as Hlen.
  unfold server_or_before. wpM_pure. rewrite bool_decide_eq_false_2 by done.
  eapply wpM_get_server; [done|]. rewrite bool_decide_eq_true_2 by done.
  rewrite Hu. cbn [bool_decide]. rewrite bool_decide_eq_false_2 by done. wpM_pure. cbv zeta.
  rewrite (bool_decide_eq_false_2 (r <> r)) by (intros H'; by apply H').
  rewrite bool_decide_eq_true_2 by done. rewrite Eci, Ep.
  rewrite snprintf_all by (rewrite !length_app; unfold BUFFER_SIZE, lit; cbn [length list_ascii_of_string]; lia).
  apply logged_reply_wp;
    [done|rewrite !length_app; unfold lit; cbn [length list_ascii_of_string]; lia|].
  intros tr' ->. exists r, ss. split; [done|]. split; [done|].
  split; [by rewrite Ht|]. symmetry. by apply same_data_roots.
Qed.

Lemma example_all_up : all_up example_naming.
Proof. intros i ss Hi Hs. destruct i as [|[|i]]; [by injection Hs as <-..|cbn in Hi; lia]. Qed.

Lemma example_short : addresses_short example_naming.
Proof.
  intros i ss Hs. destruct i as [|[|i]]; [injection Hs as <-; vm_compute; lia..|].
  cbn in Hs. apply (lookup_replicate 8) in Hs as [-> _]. vm_compute. lia.
Qed.

Lemma other_branch_redirects_witness :
  wpM (returns (healthy 9)) (other_branch 9 "./s0/a") example_naming [] (fun tr _ st' =>
    exists r ss, looked_up example_naming example_entries "./s0/a" [lit "."; lit "s0"; lit "a"] r /\
      server_at example_naming r = Val ss /\
      sent_to 9 tr = [sin_addr (ci_addr (clientInfo ss)) ++ "," ++ print_Z (portClient ss) ++ " "] /\
      roots st' = roots example_naming).
Proof.
  apply (other_branch_redirects 9 2).
  - exact example_inv.
  - exact example_repr.
  - exact example_valid.
  - vm_compute. reflexivity.
  - exact example_all_up.
  - vm_compute. lia.
  - exact example_short.
  - unfold looked_up.
    assert (lru_find "./s0/a" example_entries = Some 0%nat) as -> by (vm_compute; reflexivity).
    intros (x & [= <-] & H). done.
Defined.

(** An unknown path, in a build where the word before the array
    [storage_servers] can be read: the client is told in exactly one message
    that no storage server was found, and no trie changes. *)
Theorem other_branch_not_found `{Platform} c n st b g :
  before_servers = Val g -> naming_inv n st -> unknown st b -> sockets_away c st -> small_fd c ->
  wpM (returns (away c)) (other_branch c b) st [] (fun tr _ st' =>
    sent_to c tr = [NOT_FOUND] /\ roots st' = roots st).
Proof.
  intros Hg Hi Hu Ha Hfd. eapply wpM_mono; [by apply (other_unknown c n st b g)|].
  intros tr [] st' [Ht Hs]. split; [done|]. symmetry. by apply same_data_roots.
Qed.

Definition lenient_platform : Platform := {| before_servers := Val zero_server |}.

Lemma example_unknown : unknown example_naming "-s".
Proof.
  exists [lit "-s"]. split; [vm_compute; reflexivity|]. split.
  - intros k Hk (ss & t & Hs & Ht & Hp).
    destruct k as [|[|k]]; [| |cbn in Hk; lia]; injection Hs as <-; cbn in Ht;
      unfold example_trie in Ht; vm_compute in Ht; injection Ht as <-; vm_compute in Hp; done.
  - exists example_entries. split; [exact example_repr|]. split; [exact example_valid|].
    vm_compute. reflexivity.
Qed.

Lemma other_branch_not_found_witness :
  wpM (returns (away 9)) (@other_branch lenient_platform 9 "-s") example_naming [] (fun tr _ st' =>
    sent_to 9 tr = [NOT_FOUND] /\ roots st' = roots example_naming).
Proof.
  apply (other_branch_not_found 9 2 example_naming "-s" zero_server).
  - reflexivity.
  - exact example_inv.
  - exact example_unknown.
  - exact example_away.
  - vm_compute. lia.
Defined.

(** The same request by the language's rules: the last branch reads
    [storage_servers[-1].portClient] before it looks at the index, so for an
    unknown path every execution runs into undefined behaviour. *)
Theorem other_branch_unknown_undefined `{Platform} c n st b u :
  before_servers = Undef u -> naming_inv n st -> unknown st b -> sockets_away c st ->
  wpM (doomed (away c)) (other_branch c b) st [] (fun _ _ _ => False).
Proof.
  intros Hu Hi Hb Ha. unfold other_branch. wpM_pure. eapply wpM_mono.
  - eapply wpM_regime; [apply returns_doomed|]. by apply (lookup_unknown c n).
  - cbn beta. intros tr1 r st1 (-> & _). wpM_pure. apply server_or_before_none. by rewrite Hu.
Qed.

Lemma other_branch_unknown_undefined_witness :
  wpM (doomed (away 9)) (other_branch 9 "-s") example_naming [] (fun _ _ _ => False).
Proof.
  apply (other_branch_unknown_undefined 9 2 example_naming "-s" OutOfBounds).
  - reflexivity.
  - exact example_inv.
  - exact example_unknown.
  - exact example_away.
Defined.

(** When no server accepts a connection, [redundantSS] yields -1 and the
    last branch reads [storage_servers[-1]]; the message for that case, in the
    innermost [else], is never sent: on the path of a registered server that
    is not cached, every execution runs into undefined behaviour. *)
Theorem other_branch_all_down_undefined `{Platform} c n st l b p u :
  before_servers = Undef u -> naming_inv n st -> cache_repr (cache st) l ->
  ParsePath b = Val p -> lru_find b l = None -> ~ first_with st p (-1) ->
  (forall i ss, (i < n)%nat -> storage_servers st !! i = Some ss ->
     valid_or_none st (backupServer1 ss) /\ valid_or_none st (backupServer2 ss)) ->
  wpM (doomed refused) (other_branch c b) st [] (fun _ _ _ => False).
Proof.
  intros Hu Hi Hc Hp Hf Hknown Hb. unfold other_branch. wpM_pure.
  pose proof (inv_roots_present _ _ Hi) as Hr. pose proof (inv_semaphore _ _ Hi) as Hs.
  eapply search_miss_cont; [done..|lia|done|done|done|].
  intros r c' Hfirst Hne Hc'.
  assert (0 <= r < Z.of_nat n) as Hrange.
  { destruct Hfirst as [[-> _]|(k & -> & Hk & _)]; [done|]. rewrite (inv_index _ _ Hi) in Hk. lia. }
  destruct (roots_present_server st r) as [ss Hss]; [done|by rewrite (inv_index _ _ Hi)|].
  eapply wpM_mono; [eapply wpM_regime; [apply returns_doomed|by apply (isSSUp_refused r ss)]|].
  cbn beta. intros tr1 up st1 [_ ->]. set (st1 := upd_isUp _ _ _ _).
  assert (server_at st1 r = Val (with_isUp 0 ss)) as Hss1 by by apply upd_isUp_server.
  assert (forall j, valid_or_none st j -> valid_or_none st1 j) as Hvalid.
  { intros j Hj. apply (valid_or_none_same (set_cache c' st)); [|done].
    apply server_at_Val in Hss as [_ Hss]. by apply upd_isUp_same. }
  wpM_pure. unfold server_or_before at 1. rewrite bool_decide_eq_false_2 by done.
  eapply wpM_get_server; [done|]. rewrite bool_decide_eq_true_2 by done. cbn [isUp with_isUp].
  rewrite bool_decide_eq_true_2 by done. wpM_pure.
  destruct (Hb (Z.to_nat r) ss) as [Hb1 Hb2]; [lia|by apply server_at_Val in Hss as [_ ?]|].
  eapply wpM_mono; [eapply wpM_regime; [apply returns_doomed|]|].
  - apply (redundantSS_refused r (with_isUp 0 ss)); [done|by apply Hvalid..].
  - cbn beta. intros tr2 i2 st2 ->. wpM_pure. apply server_or_before_none. by rewrite Hu.
Qed.

Lemma other_branch_all_down_undefined_witness :
  wpM (doomed refused) (other_branch 9 "./s1") example_naming [] (fun _ _ _ => False).
Proof.
  apply (other_branch_all_down_undefined 9 2 example_naming example_entries "./s1"
           [lit "."; lit "s1"] OutOfBounds).
  - reflexivity.
  - exact example_inv.
  - exact example_repr.
  - vm_compute. reflexivity.
  - vm_compute. reflexivity.
  - intros [[_ H]|(k & Hk & _)]; [|lia]. apply (H 1%nat); [cbn; lia|].
    eexists _, _. split; [reflexivity|]. split; vm_compute; reflexivity.
  - intros i ss Hi Hs. destruct i as [|[|i]]; [| |lia]; injection Hs as <-; split; by left.
Defined.

Lemma starts_with_other p q s :
  starts_with p s = true -> head p <> head q -> p <> [] -> q <> [] -> starts_with q s = false.
Proof.
  destruct p as [|a p], q as [|b q], s as [|x s]; simpl; try done.
  intros H Hne _ _. repeat case_bool_decide; try done; congruence.
Qed.

(** C36. A [write] is answered twice.  After the first answer, the address of a
    server or the refusal, the code falls through to the last branch, which
    takes the flag for the path: where the word before the array can be read,
    the client is sent a second message saying that no server was found, even
    when the write was accepted. *)
Theorem write_is_answered_twice `{Platform} c n st l fuel buffer flag path rest p g :
  before_servers = Val g -> naming_inv n st -> cache_repr (cache st) l -> cache_valid st l ->
  sockets_away c st -> small_fd c -> addresses_short st ->
  flag = lit "-s" \/ flag = lit "-a" -> unknown st flag -> lru_find flag l = None ->
  flag <> path -> ParsePath path = Val p ->
  starts_with "write" buffer = true -> (length buffer <= 900)%nat ->
  tokens " "%char buffer = lit "write" :: flag :: path :: rest ->
  wpM (returns (away c)) (client_message fuel c buffer) st [] (fun tr again st' =>
    again = true /\ roots st' = roots st /\
    exists m, sent_to c tr = [m; NOT_FOUND] /\ write_answer flag st m).
Proof.
  intros Hg Hi Hc Hv Ha Hfd Hshort Hflag (pf & Hpf & Hno & _) Hf Hne Hp Hw Hlen Htok.
  unfold client_message. wpM_pure. apply log_line_wp.
  { unfold small_fd in Hfd. rewrite !length_app. unfold lit, BUFFER_SIZE.
    cbn [length list_ascii_of_string]. lia. }
  assert (strcmp_eq buffer "ls ~" || strcmp_eq buffer "ls ." = false) as ->.
  { apply orb_false_iff; split; apply bool_decide_eq_false; intros ->; vm_compute in Hw; done. }
  rewrite (starts_with_other (lit "write")) by done.
  rewrite Htok.
  assert (strcmp_eq flag "/" || strcmp_eq flag "./" = false) as ->
    by (by destruct Hflag as [-> | ->]).
  unfold command_branch. rewrite Hw. cbn [head]. wpM_pure.
  eapply wpM_mono; [by apply (write_branch_wp c n st l flag path p)|]. cbn beta.
  intros tr1 _ st1 ((m & Ht & Hm) & Hi1 & Hs & r & Hc1 & Hv1).
  assert (unknown st1 flag) as Hu1.
  { eapply unknown_after_lookup; [done|exact Hne|done|done|done|]. by exists pf. }
  cbn [orb]. repeat change (strcmp_eq (lit "write") _) with false. cbn [orb].
  wpM_pure. eapply wpM_mono; [eapply (other_unknown c n); try done; by eapply sockets_away_same|].
  cbn beta. intros tr2 _ st2 [Ht2 Hs2]. wpM_pure. split; [done|].
  split; [symmetry; apply same_data_roots; by etrans|].
  exists m. split; [|done]. rewrite Ht2, Ht, sent_to_snoc. done.
Qed.

Lemma write_is_answered_twice_witness :
  wpM (returns (away 9)) (@client_message lenient_platform 0 9 "write -s ./s1/b hello")
    example_naming [] (fun tr again st' =>
    again = true /\ roots st' = roots example_naming /\
    exists m, sent_to 9 tr = [m; NOT_FOUND] /\ write_answer "-s" example_naming m).
Proof.
  apply (write_is_answered_twice 9 2 example_naming example_entries 0 "write -s ./s1/b hello" "-s"
           "./s1/b" [lit "hello"] [lit "."; lit "s1"; lit "b"] zero_server).
  - reflexivity.
  - exact example_inv.
  - exact example_repr.
  - exact example_valid.
  - exact example_away.
  - vm_compute. lia.
  - exact example_short.
  - by left.
  - exact example_unknown.
  - vm_compute. reflexivity.
  - done.
  - vm_compute. reflexivity.
  - vm_compute. reflexivity.
  - vm_compute. lia.
  - vm_compute. reflexivity.
Defined.
