(* ===== verification/Registration.v ===== *)
(** * Registration of storage servers (naming_server.c:
    register_storage_server)

    A storage server connects, sends a record with its client port, then its
    listing; it is appended to the array, or takes the place of a server that
    shares a folder of the same name.  From the third server on, backups are
    ordered. *)
From S2P Require Export TrieListing NamingInv.

Open Scope Z_scope.

(** ** Definitions *)

(** The layout of [StorageServerInfo] on x86-64: its size, and the offset of
    the 32-bit little-endian field [portClient]. *)
Definition SIZEOF_StorageServerInfo : nat := 56.
Definition OFFSET_portClient : nat := 20.

Fixpoint decode_le (b : bytes) : Z :=
  match b with
  | [] => 0
  | c :: b' => Z.of_N (N_of_ascii c) + 256 * decode_le b'
  end.

(** [ss_info.portClient] after receiving [b]: uninitialised when the record
    was cut before its end. *)
Definition portClient_of (b : bytes) : cres Z :=
  if bool_decide (OFFSET_portClient + 4 <= length b)%nat
  then Val (to_int32 (decode_le (take 4 (drop OFFSET_portClient b))))
  else Undef BadRead.

(** The redundancy loop: the first entry with a trie whose folder has the name
    of the new server's. *)
Fixpoint find_redundancy (st : naming) (new_root : trienode) (n i : nat) : cres (option nat) :=
  match n with
  | O => mret None
  | S n' =>
      ss ← server_at st (Z.of_nat i);
      match root ss with
      | None => find_redundancy st new_root n' (S i)
      | Some t =>
          a ← folder_name (Some new_root);
          b ← folder_name (Some t);
          if strcmp_eq a b then mret (Some i) else find_redundancy st new_root n' (S i)
      end
  end.

(** The fields a server coming back overwrites. *)
Definition with_connection (ci : StorageServerConnectionInfo) (port : Z)
    (ss : StorageServerInfo) : StorageServerInfo :=
  SSI ci port (ci_socket ci) (root ss) (backupServer1 ss) (backupServer2 ss) 1.

Definition set_backups (i b1 b2 : Z) : NM unit :=
  ss ← get_server i; put_server i (with_backups b1 b2 ss).

(** The backups ordered after the server at [k] was stored. *)
Definition order_backups (fuel : nat) (k : Z) : NM unit :=
  if bool_decide (k = 2) then
    _ ← set_backups 0 1 2;
    _ ← set_backups 1 0 2;
    _ ← set_backups 2 0 1;
    _ ← create_backup_helper fuel 0 1;
    _ ← create_backup_helper fuel 0 2;
    _ ← create_backup_helper fuel 1 2;
    _ ← create_backup_helper fuel 1 0;
    _ ← create_backup_helper fuel 1 2;
    _ ← create_backup_helper fuel 2 0;
    create_backup_helper fuel 2 1
  else if bool_decide (2 < k) then
    _ ← set_backups k (k - 1) (k - 2);
    _ ← create_backup_helper fuel k (k - 1);
    _ ← create_backup_helper fuel k (k - 2);
    _ ← create_backup_helper fuel (k - 1) k;
    create_backup_helper fuel (k - 2) k
  else mret tt.

Definition set_index (n : nat) (st : naming) : naming :=
  Naming (storage_servers st) n (cache st) (storage_semaphore st).

(** The end of the registration, under the semaphore.  The index is increased
    also when the array is full. *)
Definition store_server (fuel : nat) (new_info : StorageServerInfo) : NM unit :=
  _ ← sem_wait;
  st ← getS;
  let k := storage_server_index st in
  _ ← (if bool_decide (MAX_STORAGE_SERVERS <= k)%nat then mret tt
       else _ ← put_server (Z.of_nat k) new_info; order_backups fuel (Z.of_nat k));
  _ ← modifyS (fun st => set_index (S (storage_server_index st)) st);
  sem_post.

Definition register_storage_server (fuel : nat) (ssc_info : StorageServerConnectionInfo) : NM unit :=
  let storage_socket := ci_socket ssc_info in
  log_message ← liftC (fits BUFFER_SIZE
    ("Registered a Storage Server with fd [" ++ print_Z storage_socket ++ "]"));
  _ ← log_it (sin_addr (ci_addr ssc_info)) (sin_port (ci_addr ssc_info)) log_message;
  nb ← recvN storage_socket SIZEOF_StorageServerInfo;
  if bool_decide (nb.1 <= 0) then closeM storage_socket
  else
    new_root ← indexHelper fuel storage_socket (CreateNode ".");
    _ ← liftC (DisplayTrie new_root);
    st ← getS;
    same ← liftC (find_redundancy st new_root MAX_STORAGE_SERVERS 0);
    match same with
    | Some i =>
        port ← liftC (portClient_of nb.2);
        ss ← get_server (Z.of_nat i);
        put_server (Z.of_nat i) (with_connection ssc_info port ss)
    | None =>
        port ← liftC (portClient_of nb.2);
        store_server fuel (SSI ssc_info port storage_socket (Some new_root) (-1) (-1) 1)
    end.

(** ** Ordering backups changes the numbers of the backup servers only *)

Definition without_backups (ss : StorageServerInfo) : StorageServerInfo := with_backups (-1) (-1) ss.

(** Agreement on everything but the backup servers. *)
Definition same_tries (st st' : naming) : Prop :=
  without_backups <$> storage_servers st' = without_backups <$> storage_servers st /\
  storage_server_index st' = storage_server_index st /\
  cache st' = cache st /\ storage_semaphore st' = storage_semaphore st.

#[export] Instance same_tries_preorder : PreOrder same_tries.
Proof.
  split.
  - by intros st.
  - intros st1 st2 st3 (?&?&?&?) (?&?&?&?). unfold same_tries. repeat split; congruence.
Qed.

Definition leaves {A} (m : NM A) (P : A -> Prop) : Prop :=
  forall st tr, wpM partial m st tr (fun _ a st' => same_tries st st' /\ P a).

Lemma leaves_bind {A B} (m : NM A) (f : A -> NM B) P Q :
  leaves m P -> (forall a, P a -> leaves (f a) Q) -> leaves (m ≫= f) Q.
Proof.
  intros Hm Hf st tr. apply wpM_bind. eapply wpM_mono; [by apply Hm|]. cbn beta.
  intros tr' a st' [Hs Ha]. eapply wpM_mono; [by apply Hf|]. cbn beta.
  intros tr'' b st'' [Hs' Hb]. split; [by etrans|done].
Qed.

Lemma leaves_pure {A} (m : NM A) :
  (forall st tr, wpM partial m st tr (fun _ _ st' => st' = st)) -> leaves m (fun _ => True).
Proof. intros Hm st tr. eapply wpM_mono; [apply Hm|]. by intros tr' a st' ->. Qed.

Lemma leaves_liftIO {A} (p : io A) : leaves (liftIO p) (fun _ => True).
Proof.
  apply leaves_pure. intros st tr. red. apply wp_bind. generalize dependent tr.
  induction p; simpl; intros tr; eauto.
Qed.

Lemma leaves_get_server i : leaves (get_server i) (fun _ => True).
Proof. unfold get_server. eapply leaves_bind; [by apply leaves_pure|intros; apply leaves_liftIO]. Qed.

Lemma leaves_ret {A} (a : A) : leaves (mret a) (fun _ => True).
Proof. by apply leaves_pure. Qed.

Lemma leaves_if {A} (b : bool) (m1 m2 : NM A) P :
  leaves m1 P -> leaves m2 P -> leaves (if b then m1 else m2) P.
Proof. by destruct b. Qed.

Ltac leaves_go :=
  repeat (cbv beta zeta; lazymatch goal with
  | |- leaves (mret _) _ => apply leaves_ret
  | |- leaves (_ ≫= _) _ => eapply leaves_bind; [|intros ? _]
  | |- leaves (if _ then _ else _) _ => apply leaves_if
  | |- leaves (get_server _) _ => apply leaves_get_server
  | |- leaves (liftC _) _ => apply leaves_liftIO
  | |- leaves (sendN _ _) _ => apply leaves_liftIO
  | |- leaves (recvN _ _) _ => apply leaves_liftIO
  end).

Lemma leaves_copy_backup buffer src_sock dest_index :
  leaves (handle_copy_backup buffer src_sock dest_index) (fun _ => True).
Proof. unfold handle_copy_backup, ss_info. leaves_go. Qed.

Lemma leaves_create_backup fuel i j : leaves (create_backup_helper fuel i j) (fun _ => True).
Proof.
  unfold create_backup_helper, folder_of. leaves_go. apply leaves_copy_backup.
Qed.

Lemma leaves_set_backups i b1 b2 : leaves (set_backups i b1 b2) (fun _ => True).
Proof.
  intros st tr. unfold set_backups, put_server. wpM_pure.
  destruct (server_at st i) as [ss|] eqn:Hs.
  - eapply wpM_get_server; [done|]. wpM_pure. eapply wpM_get_server; [done|]. wpM_pure.
    split; [|done]. repeat split. cbn. rewrite list_fmap_insert.
    apply list_insert_id. apply server_at_Val in Hs as [_ Hs]. by rewrite list_lookup_fmap, Hs.
  - unfold get_server. wpM_pure. apply wpM_liftC. by rewrite Hs.
Qed.

Lemma leaves_order_backups fuel k : leaves (order_backups fuel k) (fun _ => True).
Proof.
  unfold order_backups. repeat first
    [ apply leaves_if | apply leaves_ret | apply leaves_create_backup
    | apply leaves_set_backups
    | eapply leaves_bind; [first [apply leaves_set_backups|apply leaves_create_backup]|intros ? _] ].
Qed.

(** ** The outcome of a registration *)

(** The folder of server [i] has the name of the first folder of [t]. *)
Definition same_folder (st : naming) (t : trienode) (i : nat) : Prop :=
  exists ss t' name, storage_servers st !! i = Some ss /\ root ss = Some t' /\
    folder_name (Some t') = Val name /\ folder_name (Some t) = Val name.

Lemma find_redundancy_spec st t n i o :
  find_redundancy st t n i = Val o ->
  match o with
  | Some j => same_folder st t j /\ forall k, (i <= k < j)%nat -> ~ same_folder st t k
  | None => forall k, (i <= k < i + n)%nat -> ~ same_folder st t k
  end.
Proof.
  revert i; induction n as [|n IH]; intros i H; cbn [find_redundancy] in H.
  - injection H as <-. intros k ?. lia.
  - apply cbind_Val_inv in H as (ss & Hss & H).
    apply server_at_Val in Hss as [_ Hss]. rewrite Nat2Z.id in Hss.
    assert (~ same_folder st t i -> find_redundancy st t n (S i) = Val o ->
      match o with
      | Some j => same_folder st t j /\ forall k, (i <= k < j)%nat -> ~ same_folder st t k
      | None => forall k, (i <= k < i + S n)%nat -> ~ same_folder st t k
      end) as Hnext.
    { intros Hno Hr. specialize (IH (S i) Hr). destruct o as [j|].
      - destruct IH as [Hj Hk]. split; [done|]. intros k Hik. destruct (decide (k = i)) as [->|]; [done|apply Hk; lia].
      - intros k Hik. destruct (decide (k = i)) as [->|]; [done|apply IH; lia]. }
    destruct (root ss) as [t'|] eqn:Ht.
    2:{ apply Hnext; [|done]. intros (ss' & t' & name & Hss' & Ht' & _). congruence. }
    apply cbind_Val_inv in H as (a & Ha & H). apply cbind_Val_inv in H as (b & Hb & H).
    destruct (strcmp_eq a b) eqn:Hab.
    + injection H as <-. apply strcmp_eq_true in Hab as ->. split; [by exists ss, t', b|]. intros k ?. lia.
    + apply Hnext; [|done]. intros (ss' & t2 & name & Hss' & Ht' & Hn & Hm). simplify_eq.
      rewrite Hb in Hn. rewrite Ha in Hm. simplify_eq. by rewrite strcmp_eq_refl in Hab.
Qed.

(** The list of servers with the new one, whose backups may be set. *)
Definition appended (n : nat) (info : StorageServerInfo) (st st' : naming) : Prop :=
  without_backups <$> storage_servers st' = <[n:=info]> (without_backups <$> storage_servers st) /\
  storage_server_index st' = S n /\ cache st' = cache st /\ storage_semaphore st' = storage_semaphore st.

(** What a registration has done, by what it received: [tr] is the whole
    conversation. *)
Inductive registered (fuel : nat) (ci : StorageServerConnectionInfo) (st : naming) (tr : list event) (st' : naming)
    : Prop :=
  | Gave_up line r :
      tr = [ELog line; ERecv (ci_socket ci) SIZEOF_StorageServerInfo r; EClose (ci_socket ci)] ->
      ~ (exists record, r = RData record) -> st' = st -> registered fuel ci st tr st'
  | Went_on line record listing orders t port :
      tr = ELog line :: ERecv (ci_socket ci) SIZEOF_StorageServerInfo (RData record) :: listing ++ orders ->
      replays (indexHelper fuel (ci_socket ci) (CreateNode ".") st) listing (t, st) ->
      wf_trie t -> portClient_of record = Val port ->
      ((exists i ss, same_folder st t i /\ (forall k, (k < i)%nat -> ~ same_folder st t k) /\
          storage_servers st !! i = Some ss /\ orders = [] /\
          st' = set_servers (<[i:=with_connection ci port ss]> (storage_servers st)) st) \/
       (forall i, (i < MAX_STORAGE_SERVERS)%nat -> ~ same_folder st t i) /\
         (if bool_decide (storage_server_index st < MAX_STORAGE_SERVERS)%nat
          then appended (storage_server_index st) (SSI ci port (ci_socket ci) (Some t) (-1) (-1) 1) st st'
          else orders = [] /\ st' = set_index (S (storage_server_index st)) st)) ->
      registered fuel ci st tr st'.

Lemma store_server_wp fuel info st tr :
  without_backups info = info ->
  wpM partial (store_server fuel info) st tr (fun tr' _ st' =>
    if bool_decide (storage_server_index st < MAX_STORAGE_SERVERS)%nat
    then appended (storage_server_index st) info st st'
    else tr' = tr /\ st' = set_index (S (storage_server_index st)) st).
Proof.
  intros Hinfo. unfold store_server. wpM_pure.
  unfold sem_wait. wpM_pure. case_bool_decide; [|done]. wpM_pure. cbn [storage_server_index set_semaphore].
  assert (forall s, s - 1 + 1 = s) as Hsem by (intros; lia). case_bool_decide as Hfull.
  - wpM_pure. unfold sem_post. wpM_pure. rewrite bool_decide_eq_false_2 by lia. split; [done|].
    unfold set_index, set_semaphore. cbn. by rewrite Hsem.
  - wpM_pure. unfold put_server, get_server. wpM_pure. apply wpM_liftC.
    destruct (server_at _ _) as [old|]; [|done]. wpM_pure.
    eapply wpM_mono; [apply leaves_order_backups|]. cbn beta.
    intros tr' _ st' [(Er & Ei & Ec & Es) _]. wpM_pure. unfold sem_post. wpM_pure.
    rewrite Nat2Z.id in Er. cbn in Er, Ei, Ec, Es. rewrite bool_decide_eq_true_2 by lia.
    unfold appended. cbn. rewrite Ei, Ec, Es, Hsem, Er. cbn. by rewrite list_fmap_insert, Hinfo.
Qed.

Lemma indexHelper_wp fuel sock root st tr :
  wf_trie root ->
  wpM partial (indexHelper fuel sock root) st tr (fun _ t st' => st' = st /\ wf_trie t).
Proof.
  intros Hwf. unfold indexHelper. wpM_pure. unfold sem_wait. wpM_pure.
  case_bool_decide; [|done]. wpM_pure. eapply wpM_mono; [by apply index_loop_wp|]. cbn beta.
  intros tr' t st' [-> Ht]. wpM_pure. unfold sem_post. wpM_pure. split; [|done].
  unfold set_semaphore. cbn. destruct st as [a b c s]. cbn. f_equal. lia.
Qed.

Lemma register_wp fuel ci st :
  wpM partial (register_storage_server fuel ci) st [] (fun tr _ st' => registered fuel ci st tr st').
Proof.
  unfold register_storage_server. wpM_pure. apply wpM_liftC.
  destruct (fits _ _) as [msg|]; [|done]. unfold log_it. wpM_pure. apply wpM_liftC.
  destruct (fits _ _) as [line|]; [|done]. wpM_pure. unfold recvN. apply wpM_recv. intros r Hr _.
  case_bool_decide as Hgot; [wpM_pure; eapply Gave_up; [done| |done]|].
  { intros [record ->]. cbn in Hr, Hgot. lia. }
  assert (exists record, r = RData record) as [record ->] by (destruct r; cbn in Hgot; [by eexists|lia..]).
  wpM_pure. eapply wpM_mono; [apply wpM_replays, indexHelper_wp, wf_CreateNode|]. cbn beta.
  intros tr1 t st1 [[-> Hwf] (listing & -> & Hlisting)].
  wpM_pure. apply wpM_liftC. destruct (DisplayTrie t); [|done]. wpM_pure. apply wpM_liftC.
  destruct (find_redundancy _ _ _ _) as [o|] eqn:Hf; [|done]. apply find_redundancy_spec in Hf.
  destruct o as [i|]; wpM_pure; apply wpM_liftC; cbn [snd recv_value];
    destruct (portClient_of record) as [port|] eqn:Hport; try done.
  - destruct Hf as [(ss & t' & name & Hss & Hsame) Hfirst].
    assert (server_at st (Z.of_nat i) = Val ss) as Hs
      by (apply server_at_Val; rewrite Nat2Z.id; split; [lia|done]).
    wpM_pure. eapply wpM_get_server; [done|]. unfold put_server. wpM_pure.
    eapply wpM_get_server; [done|]. wpM_pure. rewrite Nat2Z.id.
    eapply Went_on with (orders := []); [by rewrite app_nil_r|done..|]. left. exists i, ss.
    split; [by exists ss, t', name|]. split; [|done]. intros k Hk. apply Hfirst. lia.
  - eapply wpM_mono; [apply wpM_prefix, store_server_wp; reflexivity|]. cbn beta.
    intros tr2 _ st' [Hst' [orders ->]].
    eapply Went_on with (orders := orders); [by rewrite <- app_assoc|done..|]. right. split.
    { intros k Hk. apply Hf. lia. }
    case_bool_decide; [done|]. destruct Hst' as [Ho ->]. split; [|done].
    apply (f_equal length) in Ho. rewrite length_app in Ho. apply nil_length_inv. lia.
Qed.

(** ** The invariant *)

Lemma reconnected_inv n ci st i ss t port :
  naming_inv n st -> storage_servers st !! i = Some ss -> root ss = Some t ->
  naming_inv n (set_servers (<[i:=with_connection ci port ss]> (storage_servers st)) st).
Proof.
  intros [Hix Hl Hr Hu Hc Hsem] Hss Ht. split; cbn; try done.
  - by rewrite length_insert.
  - intros j Hj. destruct (decide (i = j)) as [<-|Hne].
    + destruct (Hr i Hj) as (ss' & t' & Hss' & Ht' & Hwf).
      assert (ss' = ss) as -> by congruence.
      eexists _, _. split; [apply list_lookup_insert_eq; by eapply lookup_lt_Some|].
      split; [exact Ht'|done].
    + rewrite list_lookup_insert_ne by done. by apply Hr.
  - intros j s Hs Hj. destruct (decide (i = j)) as [<-|Hne].
    + exfalso. rewrite (Hu i ss) in Ht; done.
    + rewrite list_lookup_insert_ne in Hs by done. by eapply Hu.
Qed.

(** The entry at [j] up to its backups. *)
Lemma appended_entry n info st st' j s :
  appended n info st st' -> storage_servers st' !! j = Some s ->
  exists s0, root s = root s0 /\
    (j = n /\ s0 = info \/ j <> n /\ storage_servers st !! j = Some s0).
Proof.
  intros (Er & _) Hs. pose proof (f_equal (fun l => l !! j) Er) as E. cbn beta in E.
  rewrite list_lookup_fmap, Hs in E. cbn [fmap option_fmap option_map] in E. symmetry in E.
  apply list_lookup_insert_Some in E as [(<- & -> & _)|(Hne & E)];
    [by exists (without_backups s); split; [|left]|].
  apply list_lookup_fmap_Some in E as (s0 & Hs0 & H0). exists s0. split; [|right; by split].
  by apply (f_equal root) in Hs0.
Qed.

Lemma appended_inv n info t st st' :
  naming_inv n st -> (n < MAX_STORAGE_SERVERS)%nat -> root info = Some t -> wf_trie t ->
  appended n info st st' -> naming_inv (S n) st'.
Proof.
  intros [Hix Hl Hr Hu (l & Hc & Hv) Hsem] Hn Hroot Hwf Ha. pose proof Ha as (Er & Ei & Ec & Es).
  assert (length (storage_servers st') = MAX_STORAGE_SERVERS) as Hlen.
  { rewrite <- Hl, <- (length_fmap without_backups (storage_servers st')), Er.
    by rewrite length_insert, length_fmap. }
  split; try done.
  - intros j Hj. assert (exists s, storage_servers st' !! j = Some s) as [s Hs] by (apply lookup_lt_is_Some; lia).
    destruct (appended_entry n info st st' j s Ha Hs) as (s0 & Hs0 & [[-> ->]|[Hne H0]]).
    + exists s, t. by rewrite Hs0.
    + destruct (Hr j) as (s1 & t1 & Hs1 & Ht1 & Hwf1); [lia|]. exists s, t1.
      split; [done|]. split; [congruence|done].
  - intros j s Hs Hj. destruct (appended_entry n info st st' j s Ha Hs) as (s0 & Hs0 & [[-> ->]|[Hne H0]]); [lia|].
    rewrite Hs0. eapply Hu; [done|lia].
  - exists l. rewrite Ec. split; [done|]. unfold cache_valid in *. rewrite Ei.
    eapply Forall_impl; [exact Hv|]. cbn beta. intros x Hx. lia.
  - congruence.
Qed.

Lemma registered_inv fuel n ci st tr st' :
  naming_inv n st -> (n < MAX_STORAGE_SERVERS)%nat -> registered fuel ci st tr st' ->
  naming_inv n st' \/ naming_inv (S n) st'.
Proof.
  intros Hi Hn [line r _ _ ->|line record listing orders t port _ _ Hwf _ Hend]; [by left|].
  destruct Hend as [(i & ss & (ss' & t' & name & Hss' & Ht' & _) & _ & Hss & _ & ->)|[_ Hend]].
  - left. eapply reconnected_inv; [done..|]. replace ss with ss' by congruence. exact Ht'.
  - right. rewrite (inv_index _ _ Hi), bool_decide_eq_true_2 in Hend by done.
    eapply (appended_inv n _ t); [exact Hi|exact Hn| |exact Hwf|exact Hend]. reflexivity.
Qed.

(** ** Beyond the limit *)

Lemma search_servers_beyond st p n i :
  (forall k, (i <= k < length (storage_servers st))%nat ->
     (exists ss t, storage_servers st !! k = Some ss /\ root ss = Some t) /\ ~ has_path st p k) ->
  (i <= length (storage_servers st) < i + n)%nat ->
  search_servers st p n i = Undef OutOfBounds.
Proof.
  revert i; induction n as [|n IH]; intros i Hk Hi; [lia|]. cbn [search_servers].
  destruct (decide (i = length (storage_servers st))) as [->|Hne].
  - unfold server_at, read. rewrite bool_decide_eq_true_2 by lia.
    by rewrite Nat2Z.id, lookup_ge_None_2 by done.
  - destruct (Hk i) as [(ss & t & Hs & Ht) Hno]; [lia|].
    assert (server_at st (Z.of_nat i) = Val ss) as ->
      by (apply server_at_Val; rewrite Nat2Z.id; split; [lia|done]).
    cbn. rewrite Ht, search_root_Some. cbn.
    destruct (SearchPathHelperTries t p) eqn:Hp; [destruct Hno; by exists ss, t|].
    apply IH; [|lia]. intros k ?. apply Hk. lia.
Qed.

(** ** Properties of the registration *)

(** C17. One registration, whenever it ends: it gave up because the record did
    not arrive; or, with [t] the trie that [indexHelper] builds from what was
    received after the record, it reconnected the first server whose folder
    has the same name as the first folder of [t], keeping the trie of the old
    registration and discarding [t]; or no server has a folder of that name,
    and it appended the server with the trie [t], its connection and the port
    of the record, changing of the others at most their backup servers, and
    increased the index by one.  While the array has room the invariant is
    kept, with the new number of servers. *)
Theorem register_outcome fuel ci st n :
  naming_inv n st -> (n < MAX_STORAGE_SERVERS)%nat ->
  wpM partial (register_storage_server fuel ci) st [] (fun tr _ st' =>
    registered fuel ci st tr st' /\ (naming_inv n st' \/ naming_inv (S n) st')).
Proof.
  intros Hi Hn. eapply wpM_mono; [apply register_wp|]. cbn beta.
  intros tr _ st' H. split; [done|]. by apply (registered_inv fuel n ci st tr).
Qed.

Lemma register_outcome_witness :
  wpM partial (register_storage_server 4 (Conn 7 (Addr "10.0.0.2" 4000))) naming_init []
    (fun tr _ st' => registered 4 (Conn 7 (Addr "10.0.0.2" 4000)) naming_init tr st' /\
       (naming_inv 0 st' \/ naming_inv 1 st')).
Proof. apply register_outcome; [apply naming_inv_init | unfold MAX_STORAGE_SERVERS; lia]. Defined.

(** The limit of the array is not respected by the counter: when an
    eleventh server registers, nothing is stored but the index becomes eleven,
    and from then on every search for a path that none of the ten servers has
    reads past the end of the array. *)
Theorem store_server_full_breaks_search fuel info st :
  naming_inv MAX_STORAGE_SERVERS st ->
  wpM total (store_server fuel info) st [] (fun _ _ st' =>
    storage_server_index st' = S MAX_STORAGE_SERVERS /\
    forall b p, ParsePath b = Val p ->
      (forall k, (k < MAX_STORAGE_SERVERS)%nat -> ~ has_path st p k) ->
      search_in_tries b st' = Undef OutOfBounds).
Proof.
  intros Hi. unfold store_server. wpM_pure. pose proof (inv_semaphore _ _ Hi) as Hs.
  apply wpM_sem_wait; [lia|]. wpM_pure. cbn [storage_server_index set_semaphore].
  pose proof (inv_index _ _ Hi) as Hn. rewrite Hn. rewrite bool_decide_eq_true_2 by done.
  wpM_pure. unfold sem_post. wpM_pure. cbn [storage_server_index set_index set_semaphore].
  split; [by rewrite Hn|]. intros b p Hp Hno. unfold search_in_tries. rewrite Hp. cbn [mbind cres_bind].
  cbn [storage_server_index set_index set_semaphore]. rewrite Hn.
  apply search_servers_beyond; cbn [storage_servers set_index set_semaphore];
    rewrite (inv_length _ _ Hi); [|lia].
  intros k Hk. split; [|by apply Hno; destruct Hk].
  destruct (inv_roots _ _ Hi k) as (ss & t & Hss & Ht & _); [lia|]. by exists ss, t.
Qed.

Definition full_naming : naming :=
  Naming (replicate MAX_STORAGE_SERVERS (example_server "./s0/a" 4)) MAX_STORAGE_SERVERS
    initialize_cache 1.

Lemma full_naming_inv : naming_inv MAX_STORAGE_SERVERS full_naming.
Proof.
  split; try done.
  - intros i Hi. exists (example_server "./s0/a" 4).
    destruct (AddPathToTrie "./s0/a" (CreateNode ".")) as [t|] eqn:Ha; [|vm_compute in Ha; done].
    exists t. split; [by apply (lookup_replicate_2 MAX_STORAGE_SERVERS)|].
    split; [unfold example_server, example_trie; cbn [root]; by rewrite Ha|].
    unfold AddPathToTrie in Ha. destruct (ParsePath "./s0/a") as [p|] eqn:Hp; [|done].
    injection Ha as <-. apply wf_add_path; [by eapply ParsePath_component|apply wf_CreateNode].
  - intros i ss Hs Hi. apply (lookup_replicate MAX_STORAGE_SERVERS) in Hs as [_ ?]. lia.
  - exists []. split; [apply repr_initialize|constructor].
Qed.

Lemma store_server_full_breaks_search_witness :
  wpM total (store_server 0 zero_server) full_naming [] (fun _ _ st' =>
    storage_server_index st' = S MAX_STORAGE_SERVERS /\
    forall b p, ParsePath b = Val p ->
      (forall k, (k < MAX_STORAGE_SERVERS)%nat -> ~ has_path full_naming p k) ->
      search_in_tries b st' = Undef OutOfBounds).
Proof. apply store_server_full_breaks_search. exact full_naming_inv. Defined.

(** C40. What a backup order sends: a request to the destination to make a
    directory under "backfolderforss", and one to the source to copy its
    folder, which goes to "backupfolderforss"; the directory made is not the
    one written to. *)
Theorem create_backup_orders fuel i j st s d fs fd :
  server_at st i = Val s -> server_at st j = Val d ->
  folder_name (root s) = Val fs -> folder_name (root d) = Val fd ->
  (length fs + length fd + length (sin_addr (ci_addr (clientInfo d)))
     + length (print_Z (portClient d)) <= 900)%nat ->
  wpM (returns short_answers) (create_backup_helper fuel i j) st [] (fun tr _ st' =>
    st' = st /\ exists r1 r2 rest,
      tr = ESend (ci_socket (clientInfo d)) ("mkdirb ./backfolderforss/" ++ fd) r1 ::
           ESend (socket s) ("copydifferent ./" ++ fs ++ " ./backupfolderforss/" ++ fd ++ " " ++
             sin_addr (ci_addr (clientInfo d)) ++ " " ++ print_Z (portClient d)) r2 :: rest /\
      (rest = [] \/ exists r, rest = [ERecv (socket s) BUFFER_SIZE r])).
Proof.
  intros Hs Hd Hfs Hfd Hlen. unfold create_backup_helper, folder_of.
  wpM_pure. eapply wpM_get_server; [done|]. apply wpM_liftC. rewrite Hfd.
  wpM_pure. eapply wpM_get_server; [done|]. wpM_pure. unfold sendN. apply wpM_send. intros r1 _.
  wpM_pure. eapply wpM_get_server; [done|]. apply wpM_liftC. rewrite Hfs.
  wpM_pure. eapply wpM_get_server; [done|]. apply wpM_liftC. rewrite Hfd.
  wpM_pure. eapply wpM_get_server; [done|]. cbv zeta.
  unfold handle_copy_request. change (bool_decide (-1 = -1)) with true. cbn match.
  unfold handle_copy_backup, ss_info. rewrite !snprintf_all
    by (rewrite !length_app; unfold BUFFER_SIZE, lit; cbn [length list_ascii_of_string]; lia).
  change (starts_with "lcopy" (lit "copy ./" ++ fs ++ lit " ./backupfolderforss/" ++ fd)) with false.
  change (retitle "copydifferent" (lit "copy ./" ++ fs ++ lit " ./backupfolderforss/" ++ fd))
    with (lit "copydifferent" ++ lit " ./" ++ fs ++ lit " ./backupfolderforss/" ++ fd).
  cbn match. wpM_pure. eapply wpM_get_server; [done|]. wpM_pure. rewrite snprintf_all
    by (rewrite !length_app; unfold BUFFER_SIZE, lit; cbn [length list_ascii_of_string]; lia).
  apply wpM_liftC. unfold fits. rewrite bool_decide_eq_true_2
    by (rewrite !length_app; unfold BUFFER_SIZE, lit; cbn [length list_ascii_of_string]; lia).
  set (command := _ ++ _).
  assert (command = "copydifferent ./" ++ fs ++ " ./backupfolderforss/" ++ fd ++ " " ++
    sin_addr (ci_addr (clientInfo d)) ++ " " ++ print_Z (portClient d)) as ->.
  { unfold command. rewrite <- !app_assoc. done. }
  wpM_pure. unfold sendN. apply wpM_send. intros r2 _.
  case_bool_decide; [wpM_pure; split; [done|]; exists r1, r2, []; eauto|].
  wpM_pure. unfold recvN. apply wpM_recv. intros r Hr Hshort.
  case_bool_decide; [wpM_pure; split; [done|]; exists r1, r2, [ERecv (socket s) BUFFER_SIZE r]; eauto|].
  wpM_pure. apply wpM_liftC. destruct (cstr_in BUFFER_SIZE (recv_value r).2) as [resp|] eqn:Hresp.
  - wpM_pure. split; [done|]. exists r1, r2, [ERecv (socket s) BUFFER_SIZE r]. eauto.
  - exfalso. destruct (cstr_in_short BUFFER_SIZE (recv_value r).2) as [x Hx]; [|congruence].
    destruct r; cbn in *; unfold BUFFER_SIZE in *; lia.
Qed.

Lemma create_backup_orders_witness :
  wpM (returns short_answers) (create_backup_helper 0 0 1) example_naming [] (fun tr _ st' =>
    st' = example_naming /\ exists r1 r2 rest,
      tr = ESend 5 ("mkdirb ./backfolderforss/" ++ lit "s1") r1 ::
           ESend 4 ("copydifferent ./" ++ lit "s0" ++ " ./backupfolderforss/" ++ lit "s1" ++ " " ++
             lit "10.0.0.1" ++ " " ++ print_Z 5) r2 :: rest /\
      (rest = [] \/ exists r, rest = [ERecv 4 BUFFER_SIZE r])).
Proof.
  apply (create_backup_orders 0 0 1 example_naming (example_server "./s0/a" 4)
           (example_server "./s1/b" 5) "s0" "s1").
  - reflexivity.
  - reflexivity.
  - vm_compute. reflexivity.
  - vm_compute. reflexivity.
  - vm_compute. lia.
Defined.
