(* ===== verification/Posix.v ===== *)
(** * The file system interface

    What helper.c and storage_server.c use of the operating system's file
    system: a class of operations on an abstract state, the documented laws
    the theorems rely on, and an instance in which files are a finite map, so
    that the definitions of the other files run on concrete inputs. *)
From S2P Require Export IO.
From stdpp Require Export strings.

(** ** Operations *)

Inductive kind := IsDir | IsReg | IsOther.

#[export] Instance kind_eq_dec : EqDecision kind.
Proof. solve_decision. Defined.

(** What [send_file_metadata] uses of a [struct stat]: the nine permission
    bits of the owner, the group and the others, and the times as [ctime]
    prints them. *)
Record FileStat := {
  st_isdir : bool;
  st_perm : list bool;
  st_size : Z;
  st_blocks : Z;
  st_blksize : Z;
  st_nlink : Z;
  st_uid : Z;
  st_gid : Z;
  st_atime : bytes;
  st_mtime : bytes;
  st_ctime : bytes
}.

(** Each operation yields [None] where the call returns its error value. *)
Class Posix (F : Type) := {
  kind_of : F -> bytes -> option kind;          (** [stat] *)
  stat : F -> bytes -> option FileStat;
  entry_kind : F -> bytes -> option kind;       (** [d_type] of the entry with this path *)
  opens : F -> bytes -> bool;                   (** [open] for reading succeeds *)
  contents : F -> bytes -> option bytes;        (** the bytes of a regular file that can be read *)
  file_size : F -> bytes -> Z;                  (** [st_size] *)
  entries : F -> bytes -> option (list bytes);  (** [opendir] and [readdir], in its order *)
  make_dir : bytes -> F -> option F;            (** [mkdir] *)
  remove_dir : bytes -> F -> option F;          (** [rmdir] *)
  remove_path : bytes -> F -> option F;              (** [remove] *)
  truncate : bytes -> F -> option F;            (** [fopen] with "w" or "wb" *)
  append_to : bytes -> bytes -> F -> option F      (** [fopen] with "a", or a write at the end *)
}.

(** What the code relies on.  A file that was truncated need not be one that
    can be read: its mode may allow writing only, or it is a device. *)
Class PosixLaws (F : Type) `{Posix F} := {
  contents_truncate p f f' c : truncate p f = Some f' -> contents f' p = Some c -> c = [];
  contents_append p d c f f' :
    contents f p = Some c -> append_to p d f = Some f' -> contents f' p = Some (c ++ d);
  opens_contents p f c : contents f p = Some c -> opens f p = true;
  size_contents p f c : contents f p = Some c -> file_size f p = Z.of_nat (length c);
  kind_contents p f c : contents f p = Some c -> kind_of f p = Some IsReg;
  kind_make_dir p f f' : make_dir p f = Some f' -> kind_of f' p = Some IsDir
}.

Lemma truncated_empty {F} `{PosixLaws F} p (f f' : F) :
  truncate p f = Some f' -> is_Some (contents f' p) -> contents f' p = Some [].
Proof. intros Ht [c Hc]. by rewrite (contents_truncate _ _ _ _ Ht Hc) in Hc. Qed.

(** A disk with room, whose files can be written when they can be read:
    writing to such a file does not fail.  Not a law of POSIX, but what a
    theorem about a successful write has to assume. *)
Class DiskRoom (F : Type) `{Posix F} :=
  append_succeeds p d c f : contents f p = Some c -> exists f', append_to p d f = Some f'.

(** ** The instance *)

Inductive node := Dir | Reg (c : bytes).

(** Nodes by their paths in a normal form; the root folder always exists. *)
Abbreviation files := (gmap bytes node).

Definition components (p : bytes) : list bytes := filter (fun c => c <> lit ".") (tokens "/"%char p).

Definition key_of (cs : list bytes) : bytes := concat (cons "/"%char <$> cs).

Definition path_key (p : bytes) : bytes := key_of (components p).

Definition node_at_key (f : files) (k : bytes) : option node :=
  match k with [] => Some Dir | _ => f !! k end.

Definition node_at (f : files) (p : bytes) : option node := node_at_key f (path_key p).

Definition is_dir (n : option node) : bool := match n with Some Dir => true | _ => false end.

Definition parent_is_dir (f : files) (p : bytes) : bool :=
  is_dir (node_at_key f (key_of (removelast (components p)))).

Definition children_of (f : files) (p : bytes) : list bytes :=
  omap last (filter (fun k => k <> [] /\ removelast k = components p)
               (components <$> (map_to_list f).*1)).

Definition node_kind (n : node) : kind := match n with Dir => IsDir | Reg _ => IsReg end.

(** The map stores no metadata besides kind and size. *)
Definition plain_stat (n : node) : FileStat := {|
  st_isdir := match n with Dir => true | Reg _ => false end;
  st_perm := replicate 9 true;
  st_size := match n with Dir => 4096 | Reg c => Z.of_nat (length c) end;
  st_blocks := 8; st_blksize := 4096; st_nlink := 1; st_uid := 0; st_gid := 0;
  st_atime := [LF]; st_mtime := [LF]; st_ctime := [LF] |}%Z.

#[export] Instance map_posix : Posix files := {|
  stat f p := plain_stat <$> node_at f p;
  kind_of f p := node_kind <$> node_at f p;
  entry_kind f p := node_kind <$> node_at f p;
  opens f p := bool_decide (is_Some (node_at f p));
  file_size f p := match node_at f p with Some (Reg c) => Z.of_nat (length c) | _ => 4096%Z end;
  contents f p := match node_at f p with Some (Reg c) => Some c | _ => None end;
  entries f p := if is_dir (node_at f p) then Some (children_of f p) else None;
  make_dir p f := match node_at f p with
                  | None => if parent_is_dir f p then Some (<[path_key p:=Dir]> f) else None
                  | Some _ => None
                  end;
  remove_dir p f := if is_dir (node_at f p) && bool_decide (path_key p <> []) && bool_decide (children_of f p = [])
                    then Some (delete (path_key p) f) else None;
  remove_path p f := match node_at f p with
                | Some _ => if bool_decide (path_key p <> []) && bool_decide (children_of f p = [])
                            then Some (delete (path_key p) f) else None
                | None => None
                end;
  truncate p f := match node_at f p with
                  | Some Dir => None
                  | _ => if parent_is_dir f p then Some (<[path_key p:=Reg []]> f) else None
                  end;
  append_to p d f := match node_at f p with
                  | Some Dir => None
                  | Some (Reg c) => Some (<[path_key p:=Reg (c ++ d)]> f)
                  | None => if parent_is_dir f p then Some (<[path_key p:=Reg d]> f) else None
                  end
|}.

Lemma node_at_insert f p n :
  node_at f p <> Some Dir \/ n = Dir -> node_at (<[path_key p:=n]> f) p = Some n.
Proof.
  unfold node_at, node_at_key. destruct (path_key p) as [|c k]; [intros [?| ->]; done|].
  intros _. apply lookup_insert_eq.
Qed.

#[export] Instance map_posix_laws : PosixLaws files.
Proof.
  split; cbn.
  - intros p f f' c H Hc. destruct (node_at f p) as [[|c']|] eqn:Hp; [done|..];
      destruct (parent_is_dir f p); simplify_eq; rewrite node_at_insert in Hc; try (left; congruence); by simplify_eq.
  - intros p d c f f' Hc H. destruct (node_at f p) as [[|c']|] eqn:Hp; simplify_eq.
    rewrite node_at_insert; auto; left; congruence.
  - intros p f c Hc. apply bool_decide_eq_true_2. destruct (node_at f p); [by eexists|done].
  - intros p f c Hc. destruct (node_at f p) as [[|c']|]; by simplify_eq.
  - intros p f c Hc. by destruct (node_at f p) as [[|c']|].
  - intros p f f' H. destruct (node_at f p) as [?|] eqn:Hp; [done|].
    destruct (parent_is_dir f p); simplify_eq. by rewrite node_at_insert; [|right].
Qed.

#[export] Instance map_disk_room : DiskRoom files.
Proof.
  intros p d c f Hc. cbn in *. destruct (node_at f p) as [[|c']|]; simplify_eq. by eexists.
Qed.
