(* ===== verification/FileCommands.v ===== *)
(** * File commands of the storage server (helper.c)

    The functions behind the commands of the naming server and of clients,
    over the file system interface.  A command yields the new file system and
    what it left in [buffer2], the text that will be sent back. *)
From S2P Require Export Posix ProcessClient.

Open Scope Z_scope.

(** ** Parsing of commands *)

Definition parse_command (command : bytes) : list bytes := tokens " "%char command.

Section commands.
Context {F : Type} `{Posix F}.

(** ** Directories and files *)

Definition INVALID_FORMAT : bytes := "Invalid command format" ++ [LF].

(** The common shape of the four commands: a null path, a failing call, a
    succeeding call. *)
Definition answering (path : option bytes) (f : F) (call : bytes -> F -> option F)
    (failure success : bytes) : F * bytes :=
  match path with
  | None => (f, INVALID_FORMAT)
  | Some p =>
      match call p f with
      | None => (f, snprintf BUFFER_SIZE (failure ++ p ++ [LF]))
      | Some f' => (f', snprintf BUFFER_SIZE (success ++ p ++ [LF]))
      end
  end.

Definition create_directory (path : option bytes) (f : F) : F * bytes :=
  answering path f make_dir "Could not create folder @ " "Created folder @ ".

Definition delete_directory (path : option bytes) (f : F) : F * bytes :=
  answering path f remove_dir "Could not delete folder @ " "Deleted folder @ ".

Definition create_file (path : option bytes) (f : F) : F * bytes :=
  answering path f truncate "Could not create file @ " "Created file @ ".

Definition remove_file (path : option bytes) (f : F) : F * bytes :=
  answering path f remove_path "Could not remove file @ " "Removed file @ ".

(** ** Listing a directory *)

Definition color_code (k : option kind) : bytes :=
  match k with Some IsDir => ESC :: "[34m" | _ => ESC :: "[0m" end.

Definition entry_line (f : F) (dir name : bytes) : bytes :=
  color_code (entry_kind f (dir ++ "/" ++ name)) ++ name ++ (ESC :: "[0m") ++ [LF].

(** The [readdir] loop: lines are collected in a buffer of [BUFFER_SIZE]
    bytes, sent when the next one does not fit.  A line that does not fit the
    empty buffer would move the offset out of it. *)
Fixpoint list_lines (sock : Z) (lines : list bytes) (buffer : bytes) : io Z :=
  match lines with
  | [] =>
      if bool_decide (0 < length buffer)%nat then
        n ← send_good sock buffer; mret (if bool_decide (n < 0) then -1 else 0)
      else mret 0
  | l :: rest =>
      if bool_decide (BUFFER_SIZE - length buffer <= length l)%nat then
        n ← send_good sock buffer;
        if bool_decide (n < 0) then mret (-1)
        else
          _ ← io_of (within (bool_decide (length l < BUFFER_SIZE)%nat));
          list_lines sock rest l
      else list_lines sock rest (buffer ++ l)
  end.

Definition list_file (path : option bytes) (sock : Z) (f : F) : io Z :=
  match path with
  | None =>
      n ← send_good sock "Invalid Command Format"; mret (-1)
  | Some p =>
      match entries f p with
      | None =>
          n ← send_good sock (snprintf BUFFER_SIZE ("Could not list folder @ " ++ p ++ [LF]));
          if bool_decide (n < 0) then Bad NullDeref   (** [closedir] of a null pointer *)
          else mret (-1)
      | Some names => list_lines sock (entry_line f p <$> names) []
      end
  end.

(** ** Reading a file *)

(** The [read] loop: one [send] per piece of the file. *)
Fixpoint send_pieces (sock : Z) (pieces : list bytes) : io bool :=
  match pieces with
  | [] => mret true
  | c :: rest =>
      n ← send_good sock c;
      if bool_decide (n < 0) then mret false else send_pieces sock rest
  end.

Definition closing (sock : Z) (r : Z) : io Z := Close sock (Ret r).

(** [read_file] and [read_mp3_file], which differ in the size of the buffer. *)
Definition send_contents (size : nat) (path : option bytes) (sock : Z) (f : F) : io Z :=
  match path with
  | None =>
      n ← send_good sock "Invalid Command Format";
      if bool_decide (n < 0) then mret (-1) else closing sock (-1)
  | Some p =>
      if opens f p then
        match contents f p with
        | None => closing sock (-1)   (* the first [read] fails, as for a directory *)
        | Some c =>
            ok ← send_pieces sock (chunks size c);
            closing sock (if ok : bool then 0 else -1)
        end
      else
        _ ← send_good sock (snprintf size ("Could not open file: " ++ p ++ [LF]));
        closing sock (-1)
  end.

Definition BUFFER_SIZE_FOR_MUSIC : nat := 8 * BUFFER_SIZE.

Definition read_file : option bytes -> Z -> F -> io Z := send_contents BUFFER_SIZE.
Definition read_mp3_file : option bytes -> Z -> F -> io Z := send_contents BUFFER_SIZE_FOR_MUSIC.

(** ** Metadata of a file *)

Definition permission_text (st : FileStat) : bytes :=
  (if st_isdir st then "d"%char else "-"%char) ::
  zip_with (fun (b : bool) c => if b then c else "-"%char) (st_perm st) "rwxrwxrwx".

Definition metadata_text (path : bytes) (st : FileStat) : bytes :=
  let rule := lit "-----------------------------------" ++ [LF] in
  "Metadata for file or path: " ++ path ++ [LF] ++ rule ++
  "File Size: " ++ print_Z (st_size st) ++ " bytes" ++ [LF] ++
  "Number of Blocks: " ++ print_Z (st_blocks st) ++ [LF] ++
  "Block Size: " ++ print_Z (st_blksize st) ++ " bytes" ++ [LF] ++
  "File Permissions: " ++ permission_text st ++ [LF] ++
  "Number of Links: " ++ print_Z (st_nlink st) ++ [LF] ++
  "File Owner (UID): " ++ print_Z (st_uid st) ++ [LF] ++
  "File Group (GID): " ++ print_Z (st_gid st) ++ [LF] ++
  "Last Access Time: " ++ st_atime st ++
  "Last Modification Time: " ++ st_mtime st ++
  "Last Status Change Time: " ++ st_ctime st ++ rule.

(** [send_file_metadata]; [stat] of a null pointer is undefined. *)
Definition send_file_metadata (filepath : option bytes) (sock : Z) (f : F) : io unit :=
  p ← io_of (nonnull filepath);
  let text :=
    match stat f p with
    | None => snprintf 1024 ("Error retrieving file metadata for " ++ p ++ [LF])
    | Some st => snprintf 1024 (metadata_text p st)
    end in
  Send sock text (fun _ => mret tt).

(** ** Sending the listing of the shared folder *)

Definition hidden (name : bytes) : bool := starts_with "." name.

(** [_indexSubFolders]; [fuel] bounds the depth.  A failed [send] gives up the
    folder. *)
Fixpoint index_entries (rec : bytes -> io unit) (sock : Z) (f : F) (basePath : bytes)
    (names : list bytes) : io unit :=
  match names with
  | [] => mret tt
  | name :: rest =>
      if hidden name then index_entries rec sock f basePath rest
      else
        let path := basePath ++ "/" ++ name in
        n ← send_good sock (snprintf MAX_PATH_SIZE (path ++ [LF]));
        if bool_decide (n < 0) then mret tt
        else
          _ ← (match entry_kind f path with
               | Some IsDir => rec (removelast (snprintf MAX_PATH_SIZE (path ++ [LF])))
               | _ => mret tt
               end);
          index_entries rec sock f basePath rest
  end.

Fixpoint _indexSubFolders (fuel : nat) (basePath : bytes) (sock : Z) (f : F) : io unit :=
  match fuel with
  | O => Stuck
  | S fuel' =>
      match entries f basePath with
      | None => mret tt
      | Some names =>
          n ← send_good sock (snprintf MAX_PATH_SIZE (basePath ++ [LF]));
          if bool_decide (n < 0) then mret tt
          else index_entries (fun p => _indexSubFolders fuel' p sock f) sock f basePath names
      end
  end.

Definition indexSubFolder (fuel : nat) (basePath : bytes) (sock : Z) (f : F) : io unit :=
  _ ← _indexSubFolders fuel basePath sock f;
  _ ← send_good sock (END_MARKER ++ [LF]);
  mret tt.

(** ** Copies within one server *)

(** [copy_file]: nothing happens when the source cannot be opened; the
    destination is emptied and then written piece by piece. *)
Fixpoint write_pieces (dest : bytes) (pieces : list bytes) (f : F) : F :=
  match pieces with
  | [] => f
  | c :: rest => match append_to dest c f with Some f' => write_pieces dest rest f' | None => f end
  end.

Definition COPY_BUFFER : nat := 4 * BUFFER_SIZE.

Definition copy_file (src dest : bytes) (f : F) : F :=
  if opens f src then
    match truncate dest f with
    | None => f
    | Some f1 =>
        (* the source is read after the destination was emptied *)
        match contents f1 src with
        | Some c => write_pieces dest (chunks COPY_BUFFER c) f1
        | None => f1
        end
    end
  else f.

(** [copy_directory]; [fuel] bounds the depth. *)
Fixpoint copy_entries (rec : bytes -> bytes -> F -> F) (src dest : bytes) (names : list bytes)
    (f : F) : F :=
  match names with
  | [] => f
  | name :: rest =>
      if strcmp_eq name "." || strcmp_eq name ".." then copy_entries rec src dest rest f
      else
        let src_path := snprintf MAX_PATH_SIZE (src ++ "/" ++ name) in
        let dest_path := snprintf MAX_PATH_SIZE (dest ++ "/" ++ name) in
        let f' := match entry_kind f src_path with
                  | Some IsDir => rec src_path dest_path f
                  | Some IsReg => copy_file src_path dest_path f
                  | _ => f
                  end in
        copy_entries rec src dest rest f'
  end.

Fixpoint copy_directory (fuel : nat) (src dest : bytes) (f : F) : F :=
  match fuel with
  | O => f
  | S fuel' =>
      let made := match kind_of f dest with
                  | Some _ => Some f
                  | None => make_dir dest f
                  end in
      match made with
      | None => f
      | Some f1 =>
          match entries f1 src with
          | None => f1
          | Some names => copy_entries (copy_directory fuel') src dest names f1
          end
      end
  end.

(** [copy_same] on a command: the new file system and [buffer2]. *)
Definition copy_same (fuel : nat) (buffer : bytes) (f : F) : cres (F * bytes) :=
  let parsed :=
    match scan_s (drop 8 buffer) with
    | Some (src, r) => match scan_s r with Some (dest, _) => Some (src, dest) | None => None end
    | None => None
    end in
  match (if starts_with "copysame" buffer then parsed else None) with
  | None => mret (f, "Invalid input format. Expected: copysame <srcpath> <destpath>" ++ [LF])
  | Some (src, dest) =>
      match kind_of f src with
      | None => mret (f, "Source path does not exist" ++ [LF])
      | Some IsOther => mret (f, "Unsupported file type" ++ [LF])
      | Some k =>
          name ← nonnull (snd <$> split_last "/"%char src);
          let final_dest := snprintf MAX_PATH_SIZE (dest ++ "/" ++ name) in
          let f' := match k with
                    | IsDir => copy_directory fuel src final_dest f
                    | _ => copy_file src final_dest f
                    end in
          mret (f', "Finished Copying" ++ [LF])
      end
  end.
End commands.

(** ** What is sent when no [send] fails *)

Definition all_sent (e : event) : Prop :=
  match e with ESend _ _ r => exists n, r = SSent n | _ => True end.

Definition emits {A} (sock : Z) (ms : list bytes) (p : io A) (a : A) : Prop :=
  forall tr, wp (returns all_sent) p tr (fun tr' b =>
    b = a /\ sent_to sock tr' = sent_to sock tr ++ ms).

Lemma emits_bind {A B} sock ms1 ms2 (p : io A) (k : A -> io B) a b :
  emits sock ms1 p a -> emits sock ms2 (k a) b -> emits sock (ms1 ++ ms2) (p ≫= k) b.
Proof.
  intros Hp Hk tr. apply wp_bind. eapply wp_mono; [|apply Hp]. intros tr1 a' [-> H1].
  eapply wp_mono; [|apply Hk]. intros tr2 b' [-> H2]. split; [done|].
  by rewrite H2, H1, app_assoc.
Qed.

Lemma emits_ret {A} sock (a : A) : emits sock [] (mret a) a.
Proof. intros tr. split; [done|]. by rewrite app_nil_r. Qed.

Lemma emits_close {A} sock (a : A) : emits sock [] (Close sock (Ret a)) a.
Proof. intros tr. split; [done|]. by rewrite sent_to_snoc, app_nil_r. Qed.

Lemma emits_send {A} sock m ms (k : Z -> io A) a :
  (forall n, 0 <= n -> emits sock ms (k n) a) -> emits sock (m :: ms) (send_good sock m ≫= k) a.
Proof.
  intros Hk tr. apply wp_bind. intros r [_ [n ->]]. cbn [wp].
  eapply wp_mono; [|apply (Hk (Z.of_nat n)); lia]. intros tr' b [-> H']. split; [done|].
  rewrite H', sent_to_snoc, Z.eqb_refl. by rewrite <- app_assoc.
Qed.

Lemma emits_pieces sock cs : emits sock cs (send_pieces sock cs) true.
Proof.
  induction cs as [|c cs IH]; [apply emits_ret|]. cbn [send_pieces]. apply emits_send.
  intros n Hn. by rewrite bool_decide_eq_false_2 by lia.
Qed.

Lemma emits_list_lines sock lines buffer :
  Forall (fun l => (length l < BUFFER_SIZE)%nat) lines -> (length buffer < BUFFER_SIZE)%nat ->
  exists ms, emits sock ms (list_lines sock lines buffer) 0 /\ concat ms = buffer ++ concat lines /\
    Forall (fun m => (length m < BUFFER_SIZE)%nat) ms.
Proof.
  intros Hl. revert buffer; induction Hl as [|l lines Hll Hl IH]; intros buffer Hb; cbn [list_lines].
  - case_bool_decide.
    + exists [buffer]. split; [|split; [done|by apply Forall_singleton]].
      apply emits_send. intros n Hn. rewrite bool_decide_eq_false_2 by lia. apply emits_ret.
    + exists []. destruct buffer; [|simpl in *; lia]. split; [apply emits_ret|]. by split.
  - case_bool_decide.
    + destruct (IH l Hll) as (ms & He & Hc & Hf). exists (buffer :: ms). split.
      * apply emits_send. intros n Hn. rewrite bool_decide_eq_false_2 by lia.
        rewrite bool_decide_eq_true_2 by done. apply (emits_bind sock [] ms _ _ tt); [apply emits_ret|done].
      * cbn [concat]. rewrite Hc. by split; [|constructor].
    + destruct (IH (buffer ++ l)) as (ms & He & Hc & Hf); [rewrite length_app; lia|].
      exists ms. split; [done|]. rewrite Hc, <- app_assoc. done.
Qed.

Section index.
Context {F : Type} `{Posix F}.

(** The paths [_indexSubFolders] visits: the folder, and after each entry that
    is a folder the same below it, which starts with that folder again. *)
Fixpoint entry_paths (rec : bytes -> option (list bytes)) (f : F) (base : bytes)
    (names : list bytes) : option (list bytes) :=
  match names with
  | [] => Some []
  | name :: rest =>
      if hidden name then entry_paths rec f base rest
      else
        let path := base ++ "/" ++ name in
        below ← (match entry_kind f path with Some IsDir => rec path | _ => Some [] end);
        after ← entry_paths rec f base rest;
        Some (path :: below ++ after)
  end.

Fixpoint folder_paths (fuel : nat) (f : F) (base : bytes) : option (list bytes) :=
  match fuel with
  | O => None
  | S fuel' =>
      match entries f base with
      | None => Some []
      | Some names => cons base <$> entry_paths (folder_paths fuel' f) f base names
      end
  end.

Definition short_paths (paths : list bytes) : Prop :=
  Forall (fun p => (length p + 1 < MAX_PATH_SIZE)%nat) paths.

Lemma snprintf_line p :
  (length p + 1 < MAX_PATH_SIZE)%nat -> snprintf MAX_PATH_SIZE (p ++ [LF]) = p ++ [LF].
Proof. intros Hp. apply snprintf_all. rewrite length_app. simpl. lia. Qed.

Lemma emits_entries (rec : bytes -> io unit) (rec_paths : bytes -> option (list bytes))
    sock f base names paths :
  (forall p ps, rec_paths p = Some ps -> short_paths ps ->
     emits sock ((fun q => q ++ [LF]) <$> ps) (rec p) tt) ->
  entry_paths rec_paths f base names = Some paths -> short_paths paths ->
  emits sock ((fun q => q ++ [LF]) <$> paths) (index_entries rec sock f base names) tt.
Proof.
  intros Hrec. revert paths; induction names as [|name names IH]; intros paths Hp Hs;
    cbn [entry_paths index_entries] in *.
  - injection Hp as <-. apply emits_ret.
  - destruct (hidden name); [by apply IH|].
    set (path := base ++ "/" ++ name) in *.
    apply bind_Some in Hp as (below & Hb & Hp). apply bind_Some in Hp as (after & Ha & Hp).
    injection Hp as <-. apply Forall_cons in Hs as [Hpath Hs]. apply Forall_app in Hs as [Hs1 Hs2].
    rewrite snprintf_line by done. cbn [fmap list_fmap]. apply emits_send. intros n Hn.
    rewrite bool_decide_eq_false_2 by lia. rewrite fmap_app.
    apply emits_bind with tt; [|by apply IH].
    rewrite removelast_last.
    destruct (entry_kind f path) as [[]|]; simplify_eq; try apply emits_ret. by apply Hrec.
Qed.

Lemma emits_folder fuel sock f base paths :
  folder_paths fuel f base = Some paths -> short_paths paths ->
  emits sock ((fun q => q ++ [LF]) <$> paths) (_indexSubFolders fuel base sock f) tt.
Proof.
  revert base paths; induction fuel as [|fuel IH]; intros base paths Hp Hs;
    cbn [folder_paths _indexSubFolders] in *; [done|].
  destruct (entries f base) as [names|]; [|injection Hp as <-; apply emits_ret].
  apply fmap_Some in Hp as (ps & Hps & ->). apply Forall_cons in Hs as [Hb Hs].
  rewrite snprintf_line by done. cbn [fmap list_fmap]. apply emits_send. intros n Hn.
  rewrite bool_decide_eq_false_2 by lia. eapply emits_entries; [|done|done].
  intros p ps' Hp' Hs'. by apply IH.
Qed.
End index.

(** ** Copies *)

Section copies.
Context {F : Type} `{PosixLaws F} `{!DiskRoom F}.

Lemma write_pieces_contents dest cs f c :
  contents f dest = Some c -> contents (write_pieces dest cs f) dest = Some (c ++ concat cs).
Proof.
  revert f c; induction cs as [|d cs IH]; intros f c Hc; cbn [write_pieces concat].
  - by rewrite app_nil_r.
  - destruct (append_succeeds dest d c f Hc) as [f' Hf']. rewrite Hf', app_assoc.
    apply IH. by eapply contents_append.
Qed.
End copies.

Lemma take_prefix_of {A} k (p s : list A) : (length p <= k)%nat -> p `prefix_of` s -> p `prefix_of` take k s.
Proof.
  intros Hk [r ->]. rewrite take_app_ge by lia. by apply prefix_app_r.
Qed.

Lemma answers_could_not s : starts_with COULD_NOT (snprintf BUFFER_SIZE ("Could not " ++ s)) = true.
Proof.
  apply starts_with_prefix, take_prefix_of; [vm_compute; lia|].
  exists (" "%char :: s). done.
Qed.

Lemma answers_otherwise c d s :
  d <> "o"%char -> starts_with COULD_NOT (snprintf BUFFER_SIZE (c :: d :: s)) = false.
Proof.
  intros Hd. unfold snprintf, COULD_NOT, lit, BUFFER_SIZE. cbn.
  case_bool_decide; [|done]. by rewrite bool_decide_eq_false_2 by congruence.
Qed.

Lemma answering_effect {F} p (f : F) call failure success :
  (answering (Some p) f call failure success).1 = default f (call p f).
Proof. cbn [answering]. by destruct (call p f). Qed.

(** The answers of the four commands tell their outcome. *)
Lemma answering_outcome {F} p (f : F) call failure success s c d t :
  failure = "Could not " ++ s -> success = c :: d :: t -> d <> "o"%char ->
  let r := answering (Some p) f call failure success in
  (starts_with COULD_NOT r.2 = true <-> call p f = None) /\ r.1 = default f (call p f).
Proof.
  intros -> -> Hd. cbn [answering]. destruct (call p f) as [f'|]; cbn [fst snd default].
  - split; [|done]. cbn [app]. rewrite answers_otherwise by done. by split.
  - split; [|done]. split; [done|]. intros _. rewrite <- app_assoc. apply answers_could_not.
Qed.

(** ** Properties of the file commands *)

Section properties.
Context {F : Type} `{Posix F}.

Lemma emits_contents size p sock f c :
  opens f p = true -> contents f p = Some c ->
  emits sock (chunks size c) (send_contents size (Some p) sock f) 0.
Proof.
  intros Ho Hc. cbn [send_contents]. rewrite Ho, Hc.
  rewrite <- (app_nil_r (chunks size c)) at 1.
  eapply emits_bind; [apply emits_pieces|]. apply emits_close.
Qed.

(** The naming server decides whether a command succeeded by the first
    words of the answer, and this is sound and complete for the four commands
    on a path: the answer starts with "Could not" exactly when the call
    failed, and the file system is changed exactly by the call. *)
Theorem commands_report_outcome (p : bytes) (f : F) :
  Forall (fun x : (option bytes -> F -> F * bytes) * (bytes -> F -> option F) =>
    (starts_with COULD_NOT (x.1 (Some p) f).2 = true <-> x.2 p f = None) /\
    (x.1 (Some p) f).1 = default f (x.2 p f))
  [(create_directory, make_dir); (delete_directory, remove_dir);
   (create_file, truncate); (remove_file, remove_path)].
Proof.
  repeat apply Forall_cons_2; [..|constructor]; eapply answering_outcome; reflexivity || done.
Qed.

(** Listing a folder loses nothing: while sends succeed, the messages are
    the lines of the entries in the order of [readdir], cut only between
    lines, none of them longer than the buffer. *)
Theorem list_file_sends_entries p sock f names :
  entries f p = Some names ->
  Forall (fun name => (length (entry_line f p name) < BUFFER_SIZE)%nat) names ->
  exists ms, emits sock ms (list_file (Some p) sock f) 0 /\
    concat ms = concat (entry_line f p <$> names) /\
    Forall (fun m => (length m < BUFFER_SIZE)%nat) ms.
Proof.
  intros He Hl. cbn [list_file]. rewrite He.
  apply (emits_list_lines sock (entry_line f p <$> names) []); [|simpl; unfold BUFFER_SIZE; lia].
  by apply Forall_fmap.
Qed.

(** Reading a file sends it unchanged: while sends succeed, [read_file]
    and [read_mp3_file] send the contents in order, in non-empty pieces of at
    most the size of their buffer, and return 0. *)
Theorem send_contents_sends_file size p sock f c :
  (0 < size)%nat -> opens f p = true -> contents f p = Some c ->
  exists ms, emits sock ms (send_contents size (Some p) sock f) 0 /\
    concat ms = c /\ Forall (fun m => (0 < length m <= size)%nat) ms.
Proof.
  intros Hn Ho Hc. exists (chunks size c).
  split; [by apply emits_contents|split; [by apply concat_chunks|by apply chunks_sizes]].
Qed.

(** The messages of [indexSubFolder] are the listing [indexHelper] reads. *)
Lemma emits_listing fuel base sock f ps l :
  folder_paths fuel f base = Some (render <$> ps) -> Forall (carried l) ps -> (l < MAX_PATH_SIZE)%nat ->
  exists ms, emits sock ms (indexSubFolder fuel base sock f) tt /\ concat ms = listing ps.
Proof.
  intros Hp Hps Hl. exists (((fun q => q ++ [LF]) <$> (render <$> ps)) ++ [END_MARKER ++ [LF]]). split.
  - unfold indexSubFolder. apply emits_bind with tt.
    + apply emits_folder; [done|]. unfold short_paths. apply Forall_fmap.
      eapply Forall_impl; [exact Hps|]. intros p (_ & _ & _ & Hlen). cbn. lia.
    + apply emits_send. intros n Hn. apply emits_ret.
  - rewrite concat_app. unfold listing. cbn [concat]. rewrite app_nil_r. f_equal.
    by rewrite <- list_fmap_compose.
Qed.

(** From the file system to the naming server's trie: the bytes
    [indexSubFolder] sends while sends succeed, received in any pieces that
    fit the buffer, make [indexHelper] build a trie that stands for exactly
    the paths of the shared folder. *)
Theorem indexed_folder_reaches_trie fuel base sock f ps paths l k fuel' sock' st cs :
  folder_paths fuel f base = Some paths -> paths = render <$> ps ->
  Forall (carried l) ps -> (24 <= l)%nat -> (l + k <= MAX_PATH_SIZE)%nat -> (0 < k)%nat ->
  ops_ready (add_ops ps) (CreateNode ".") = true -> 0 < storage_semaphore st ->
  exists ms, emits sock ms (indexSubFolder fuel base sock f) tt /\
    (concat cs = concat ms -> Forall (fun c => 0 < length c <= k)%nat cs -> (length cs <= fuel')%nat ->
     exists tr t, run (indexHelper fuel' sock' (CreateNode ".") st) (pieces cs) = (tr, Done (t, st)) /\
       represents t (foldl (fun d o => dir_op o d) ({[ [] ]} : directory) (add_ops ps))).
Proof.
  intros Hp -> Hps Hl Hlk Hk Hops Hsem.
  destruct (emits_listing fuel base sock f ps l Hp Hps) as (ms & Hms & Hcat); [lia|]. exists ms. split; [done|].
  intros Hcs Hsz Hf. apply (indexHelper_run fuel' sock' st l k ps cs); try done. by rewrite Hcs.
Qed.
End properties.

(** Copying a file within a server: when the destination can be created
    and is not the source itself, it ends with the contents of the source. *)
Theorem copy_file_copies {F} `{PosixLaws F} `{!DiskRoom F} src dest (f f1 : F) c :
  contents f src = Some c -> truncate dest f = Some f1 -> is_Some (contents f1 dest) ->
  contents f1 src = Some c ->
  contents (copy_file src dest f) dest = Some c.
Proof.
  intros Hc Ht Hd1 Hc1. unfold copy_file. rewrite (opens_contents _ _ _ Hc), Ht, Hc1.
  rewrite (write_pieces_contents _ _ _ []) by by eapply truncated_empty.
  cbn [app]. by rewrite concat_chunks by (unfold COPY_BUFFER, BUFFER_SIZE; lia).
Qed.

(** Copying a file onto itself destroys it: [copy_same] of a file into its
    own folder names the file itself as destination, which [copy_file] empties
    before it reads the first byte; the command still reports success. *)
Theorem copy_same_empties_file {F} `{PosixLaws F} fuel dir name (f f1 : F) c :
  let path := dir ++ "/" ++ name in
  spaceless path -> "/"%char ∉ name -> dir <> [] -> (length path + 1 < MAX_PATH_SIZE)%nat ->
  contents f path = Some c -> truncate path f = Some f1 -> is_Some (contents f1 path) ->
  copy_same fuel ("copysame " ++ path ++ " " ++ dir) f = Val (f1, "Finished Copying" ++ [LF]) /\
  contents f1 path = Some [].
Proof.
  intros path Hsp Hname Hdir Hlen Hc Ht Hr.
  assert (contents f1 path = Some []) as Hc1 by by eapply truncated_empty.
  split; [|done]. unfold copy_same.
  change (drop 8 (lit "copysame " ++ path ++ lit " " ++ dir)) with (" "%char :: path ++ " "%char :: dir).
  rewrite scan_s_word; [|done|by destruct dir|right; by eexists _, _].
  assert (spaceless dir) as Hsd by (unfold path, spaceless in Hsp; by apply Forall_app in Hsp as [? _]).
  assert (scan_s (" "%char :: dir) = Some (dir, [])) as ->.
  { rewrite <- (app_nil_r dir) at 1. apply scan_s_word; [done..|by left]. }
  change (starts_with "copysame" (lit "copysame " ++ path ++ lit " " ++ dir)) with true.
  cbv iota. rewrite (kind_contents _ _ _ Hc).
  assert (split_last "/"%char path = Some (dir, name)) as -> by by apply split_last_app.
  cbn [nonnull fmap option_fmap option_map snd mbind cres_bind].
  rewrite snprintf_all by (fold path; lia). fold path. unfold copy_file. by rewrite (opens_contents _ _ _ Hc), Ht, Hc1.
Qed.

(** ** Witnesses *)

Definition example_files : files :=
  <[path_key "./s0":=Dir]> (<[path_key "./s0/a":=Reg "hello"]> (<[path_key "./s0/d":=Dir]> ∅)).

Lemma list_file_sends_entries_witness :
  exists ms, emits 5 ms (list_file (Some (lit "./s0")) 5 example_files) 0 /\
    concat ms = concat (entry_line example_files "./s0" <$> children_of example_files "./s0") /\
    Forall (fun m => (length m < BUFFER_SIZE)%nat) ms.
Proof.
  apply list_file_sends_entries; [reflexivity|].
  apply (bool_decide_unpack _). vm_compute. done.
Defined.

Lemma send_contents_sends_file_witness :
  exists ms, emits 5 ms (send_contents 2 (Some (lit "./s0/a")) 5 example_files) 0 /\
    concat ms = lit "hello" /\ Forall (fun m => (0 < length m <= 2)%nat) ms.
Proof. apply send_contents_sends_file; [lia|vm_compute; reflexivity..]. Defined.

Lemma copy_file_copies_witness :
  exists f1, truncate (lit "./s0/d/a") example_files = Some f1 /\
    contents (copy_file "./s0/a" "./s0/d/a" example_files) "./s0/d/a" = Some (lit "hello").
Proof.
  eexists. split; [vm_compute; reflexivity|].
  eapply copy_file_copies; [vm_compute; reflexivity..|by exists []|vm_compute; reflexivity].
Defined.

Lemma copy_same_empties_file_witness :
  exists f1, copy_same 3 "copysame ./s0/a ./s0" example_files =
      Val (f1, "Finished Copying" ++ [LF]) /\
    contents f1 "./s0/a" = Some [].
Proof.
  eexists. apply (copy_same_empties_file 3 "./s0" "a" example_files _ "hello").
  - repeat constructor.
  - intros H%list_elem_of_singleton. discriminate H.
  - discriminate.
  - vm_compute. lia.
  - vm_compute. reflexivity.
  - vm_compute. reflexivity.
  - by exists [].
Defined.

Definition folder_ps : list (list bytes) :=
  [[lit "."; lit "s0"]; [lit "."; lit "s0"; lit "d"]; [lit "."; lit "s0"; lit "d"];
   [lit "."; lit "s0"; lit "a"]].

Lemma indexed_folder_reaches_trie_witness :
  exists ms, emits 5 ms (indexSubFolder 3 "./s0" 5 example_files) tt /\
    (concat [lit "./s0" ++ LF :: "./s0/d" ++ LF :: "./s0/d" ++ LF :: "./s0"; "/a" ++ LF :: END_MARKER; [LF]]
       = concat ms ->
     Forall (fun c => 0 < length c <= 2000)%nat
       [lit "./s0" ++ LF :: "./s0/d" ++ LF :: "./s0/d" ++ LF :: "./s0"; "/a" ++ LF :: END_MARKER; [LF]] ->
     (3 <= 3)%nat ->
     exists tr t, run (indexHelper 3 7 (CreateNode ".") naming_init)
         (pieces [lit "./s0" ++ LF :: "./s0/d" ++ LF :: "./s0/d" ++ LF :: "./s0"; "/a" ++ LF :: END_MARKER; [LF]])
         = (tr, Done (t, naming_init)) /\
       represents t (foldl (fun d o => dir_op o d) ({[ [] ]} : directory) (add_ops folder_ps))).
Proof.
  eapply (indexed_folder_reaches_trie 3 "./s0" 5 example_files folder_ps _ 40 2000 3 7 naming_init).
  - vm_compute. reflexivity.
  - vm_compute. reflexivity.
  - apply (bool_decide_unpack _). vm_compute. done.
  - lia.
  - vm_compute. lia.
  - lia.
  - vm_compute. reflexivity.
  - done.
Defined.
