(* ===== verification/Duet.v ===== *)
(** * Two programs at the ends of a connection

    A copy between storage servers is a conversation of two handlers.  A
    [link] holds both, with the bytes on their way in each direction; a turn
    is one call of one side.  A byte that was sent stays in order; a [recv]
    takes what has arrived, up to the size of its buffer, and blocks while
    nothing has.  What TCP may do besides, cutting a message into pieces, is
    the subject of the one-sided theorems. *)
From S2P Require Export IO.

(** ** Turns *)

Record link (A B : Type) := Link {
  left_side : io A;
  right_side : io B;
  to_right : bytes;
  to_left : bytes
}.
Arguments Link {A B} _ _ _ _.
Arguments left_side {A B} _.
Arguments right_side {A B} _.
Arguments to_right {A B} _.
Arguments to_left {A B} _.

(** One call of a program: what it goes on with, what it puts on the wire and
    what remains of the bytes sent to it. *)
Definition turn_of {A} (p : io A) (inbox : bytes) : option (io A * bytes * bytes) :=
  match p with
  | Send _ m k => Some (k (SSent (length m)), m, inbox)
  | Recv _ n k =>
      match inbox with
      | [] => None
      | _ => Some (k (RData (take n inbox)), [], drop n inbox)
      end
  | _ => None
  end.

Section turns.
Context {A B : Type}.
Implicit Types c d : link A B.

Definition turn_left c : option (link A B) :=
  '(p, out, inbox) ← turn_of (left_side c) (to_left c);
  Some (Link p (right_side c) (to_right c ++ out) inbox).

Definition turn_right c : option (link A B) :=
  '(q, out, inbox) ← turn_of (right_side c) (to_right c);
  Some (Link (left_side c) q inbox (to_left c ++ out)).

(** Any schedule: either side may go next. *)
Definition turn c d : Prop := turn_left c = Some d \/ turn_right c = Some d.

(** Lockstep: one side can go, the other one waits for it or has returned. *)
Definition forced c d : Prop :=
  turn_left c = Some d /\ turn_right c = None \/ turn_left c = None /\ turn_right c = Some d.

Definition lockstep : relation (link A B) := rtc forced.

(** Both sides have returned and nothing is left on the wire. *)
Definition over (a : A) (b : B) : link A B := Link (Ret a) (Ret b) [] [].

(** Whatever the schedule, the conversation ends, after at most [n] turns, and
    it ends in [a] and [b]. *)
Definition always_ends c (a : A) (b : B) : Prop :=
  exists n, forall m d, nsteps turn m c d -> (m <= n)%nat /\ rtc turn d (over a b).

(** Running a conversation in lockstep. *)
Fixpoint drive (fuel : nat) c : link A B :=
  match fuel with
  | O => c
  | S f =>
      match turn_left c, turn_right c with
      | Some d, None | None, Some d => drive f d
      | _, _ => c
      end
  end.

Lemma forced_turn c d : forced c d -> turn c d.
Proof. intros [[H _]|[_ H]]; [by left|by right]. Qed.

Lemma forced_unique c d d' : forced c d -> turn c d' -> d' = d.
Proof. intros [[H1 H2]|[H1 H2]] [H|H]; congruence. Qed.

Lemma over_stops a b d : ~ turn (over a b) d.
Proof. intros [H|H]; discriminate H. Qed.

Lemma lockstep_always_ends c a b : lockstep c (over a b) -> always_ends c a b.
Proof.
  intros H. remember (over a b) as fin eqn:Hfin. induction H as [c|c d e Hcd _ IH]; subst.
  - exists 0%nat. intros m d Hm. inversion Hm as [|? ? ? ? Ht]; subst; [split; [lia|apply rtc_refl]|].
    by apply over_stops in Ht.
  - destruct (IH eq_refl) as [n Hn]. exists (S n). intros m x Hm. inversion Hm as [|m' ? y ? Ht Hm']; subst.
    + split; [lia|]. eapply rtc_l; [by apply forced_turn|]. by apply (Hn 0%nat), nsteps_O.
    + rewrite (forced_unique _ _ _ Hcd Ht) in Hm'. destruct (Hn _ _ Hm'). split; [lia|done].
Qed.
End turns.

(** ** Rules for lockstep conversations *)

Lemma lockstep_trans {A B} (c d e : link A B) : lockstep c d -> lockstep d e -> lockstep c e.
Proof. intros H1 H2. by transitivity d. Qed.

Definition idle {A} (p : io A) : bool :=
  match p with Ret _ | Recv _ _ _ => true | _ => false end.

Definition returned {A} (p : io A) : bool := match p with Ret _ => true | _ => false end.

Lemma idle_waits {X} (p : io X) : idle p = true -> turn_of p [] = None.
Proof. by destruct p. Qed.

Section rules.
Context {B : Type}.

(** Turns before the left side has returned. *)
Definition busy {A} (c d : link A B) : Prop := forced c d /\ returned (left_side c) = false.

(** The left side runs [p] to its end, returning [a], while the right side
    goes from [q] to [q']. *)
Definition drives {A} (p : io A) (a : A) (q q' : io B) : Prop :=
  rtc busy (Link p q [] []) (Link (Ret a) q' [] []).

Lemma drives_ret {A} (a : A) q : drives (mret a) a q q.
Proof. apply rtc_refl. Qed.

Lemma busy_bind {A C} (k : A -> io C) p p' q q' i i' o o' :
  busy (Link p q i o) (Link p' q' i' o') -> busy (Link (p ≫= k) q i o) (Link (p' ≫= k) q' i' o').
Proof.
  intros [Hf Hr]. split; [|by destruct p]. destruct Hf as [[Hl Hn]|[Hl Hn]]; [left|right].
  - split; [|unfold turn_right in *; cbn in *; by destruct (turn_of q i) as [[[? ?] ?]|]].
    unfold turn_left in *. cbn [left_side right_side to_left to_right] in *.
    destruct p as [| | |s m h|s m h| | |]; try done; cbn in Hl |- *.
    + by injection Hl as <- <- <- <-.
    + destruct o; [done|]. by injection Hl as <- <- <- <-.
  - unfold turn_left, turn_right in *. cbn [left_side right_side to_left to_right] in *. split.
    + destruct p; try done. cbn in Hl |- *. by destruct o.
    + destruct (turn_of q i) as [[[? ?] ?]|]; [|done]. by injection Hn as <- <- <- <-.
Qed.

Lemma drives_then {A C} (p : io A) (k : A -> io C) a q q' :
  drives p a q q' -> rtc busy (Link (p ≫= k) q [] []) (Link (k a) q' [] []).
Proof.
  intros Hp. change (k a) with (Ret a ≫= k). unfold drives in Hp.
  set (f := fun c : link A B => Link (left_side c ≫= k) (right_side c) (to_right c) (to_left c)).
  change (rtc busy (f (Link p q [] [])) (f (Link (Ret a) q' [] []))).
  eapply rtc_congruence; [|exact Hp]. intros [] [] H. by apply busy_bind.
Qed.

Lemma drives_bind {A C} (p : io A) (k : A -> io C) a b q q' q'' :
  drives p a q q' -> drives (k a) b q' q'' -> drives (p ≫= k) b q q''.
Proof. intros Hp Hk. unfold drives. transitivity (Link (k a) q' [] []); [by apply drives_then|exact Hk]. Qed.

Lemma busy_lockstep {A} (c d : link A B) : rtc busy c d -> lockstep c d.
Proof. apply rtc_subrel. by intros ? ? [? _]. Qed.

(** A message from the right side while the left one waits for it. *)
Lemma busy_answer {A} s n (k : rres -> io A) s' m (j : sres -> io B) q' :
  j (SSent (length m)) = q' -> idle q' = true -> (0 < length m <= n)%nat ->
  rtc busy (Link (Recv s n k) (Send s' m j) [] []) (Link (k (RData m)) q' [] []).
Proof.
  intros <- Hi Hm. eapply rtc_l; [split; [right|]; done|]. cbn [app].
  apply rtc_once. split; [left|done]. destruct m as [|c m]; [simpl in Hm; lia|].
  unfold turn_left, turn_right. cbn [left_side right_side to_left to_right turn_of app].
  rewrite (idle_waits _ Hi), take_ge, drop_ge by lia. done.
Qed.

(** A request that the other side answers at once: one message each way. *)
Lemma busy_request {A} s m (k : sres -> io A) n' (k' : rres -> io A) s' n (j : rres -> io B) ans
    (j' : sres -> io B) q' :
  k (SSent (length m)) = Recv s n' k' -> j (RData m) = Send s' ans j' ->
  j' (SSent (length ans)) = q' -> idle q' = true ->
  (0 < length m <= n)%nat -> (0 < length ans <= n')%nat ->
  rtc busy (Link (Send s m k) (Recv s' n j) [] []) (Link (k' (RData ans)) q' [] []).
Proof.
  intros Hk Hj Hj' Hi Hm Ha.
  eapply rtc_l; [split; [left|]; done|]. cbn [app]. rewrite Hk.
  eapply rtc_l with (Link (Recv s n' k') (Send s' ans j') [] []); [|by apply busy_answer].
  split; [right|done]. destruct m as [|c m]; [simpl in Hm; lia|]. split; [done|].
  unfold turn_right. cbn [left_side right_side to_left to_right turn_of app].
  rewrite take_ge, drop_ge by lia. by rewrite Hj.
Qed.
End rules.

(** The last message, after which both sides return. *)
Lemma lockstep_farewell {A B} s m (k : sres -> io A) s' n (j : rres -> io B) a b :
  (0 < length m <= n)%nat -> k (SSent (length m)) = Ret a -> j (RData m) = Ret b ->
  lockstep (Link (Send s m k) (Recv s' n j) [] []) (over a b).
Proof.
  intros Hm Hk Hj. eapply rtc_l; [by left|]. apply rtc_once. right.
  unfold turn_left, turn_right. cbn [left_side right_side to_left to_right app].
  rewrite Hk. destruct m as [|c m]; [simpl in Hm; lia|]. split; [done|].
  cbn [turn_of]. rewrite take_ge, drop_ge by lia. cbn. by rewrite Hj.
Qed.
