(* ===== verification/Transfer.v ===== *)
(** * Copies between storage servers (helper.c)

    The sending and the receiving half of the copy protocol.  Every message
    waits for an acknowledgement: the destination path, then for each folder
    its name, for each file its name, its size and its contents in pieces, and
    at last the end marker, which is not acknowledged. *)
From S2P Require Export Duet FileCommands.

Open Scope Z_scope.

Section transfer.
Context {F : Type} `{Posix F}.

(** ** Acknowledgements *)

Definition ACK : bytes := "Message received".

Definition send_ack (sock : Z) : io unit := Send sock ACK (fun _ => mret tt).

Definition receive_ack (sock : Z) : io Z :=
  Recv sock (BUFFER_SIZE - 1) (fun r =>
    match r with
    | RData b => mret (if strcmp_eq (cstr b) ACK then 0 else -1)
    | _ => mret (-1)
    end).

(** [send(...) < 0 || receive_ack(...) < 0], negated. *)
Definition acknowledged (sock : Z) (m : bytes) : io bool :=
  Send sock m (fun r =>
    match r with
    | SSent _ => a ← receive_ack sock; mret (bool_decide (0 <= a))
    | _ => mret false
    end).

(** ** The sending half *)

(** The contents, piece by piece; a failure ends the loop. *)
Fixpoint send_acknowledged (sock : Z) (pieces : list bytes) : io unit :=
  match pieces with
  | [] => mret tt
  | c :: rest =>
      ok ← acknowledged sock c;
      if ok : bool then send_acknowledged sock rest else mret tt
  end.

(** [src + length_to_skip]; behind the terminator it is undefined. *)
Definition skipping (skip : nat) (src : bytes) : cres bytes :=
  _ ← within (bool_decide (skip <= length src)%nat); mret (drop skip src).

Definition send_file_over_network (f : F) (sock : Z) (src : bytes) (skip : nat) : io unit :=
  if opens f src then
    name ← io_of (skipping skip src);
    ok ← acknowledged sock (snprintf (MAX_PATH_SIZE + 50) ("FILE " ++ name ++ [LF]));
    if ok : bool then
      ok ← acknowledged sock (snprintf (MAX_PATH_SIZE + 50) (print_Z (file_size f src) ++ [LF]));
      if ok : bool then
        match contents f src with
        | Some c => send_acknowledged sock (chunks BUFFER_SIZE c)
        | None => mret tt
        end
      else mret tt
    else mret tt
  else mret tt.

(** [send_directory_over_network]; [fuel] bounds the depth. *)
Fixpoint send_entries (rec : bytes -> io unit) (f : F) (sock : Z) (src : bytes) (skip : nat)
    (names : list bytes) : io unit :=
  match names with
  | [] => mret tt
  | name :: rest =>
      if strcmp_eq name "." || strcmp_eq name ".." then send_entries rec f sock src skip rest
      else
        let full_path := snprintf MAX_PATH_SIZE (src ++ "/" ++ name) in
        _ ← (match kind_of f full_path with
             | Some IsDir => rec full_path
             | Some IsReg => send_file_over_network f sock full_path skip
             | _ => mret tt
             end);
        send_entries rec f sock src skip rest
  end.

Fixpoint send_directory_over_network (fuel : nat) (f : F) (sock : Z) (src : bytes) (skip : nat)
    : io unit :=
  match fuel with
  | O => Stuck
  | S fuel' =>
      match entries f src with
      | None => mret tt
      | Some names =>
          name ← io_of (skipping skip src);
          ok ← acknowledged sock (snprintf MAX_PATH_SIZE ("DIR " ++ name ++ [LF]));
          if ok : bool then
            send_entries (fun p => send_directory_over_network fuel' f sock p skip) f sock src skip names
          else mret tt
      end
  end.

(** [strlen(src) - strlen(strrchr(src, '/') + 1)] *)
Definition parent_length (src : bytes) : cres nat :=
  parent ← nonnull (fst <$> split_last "/"%char src); mret (S (length parent)).

Definition NO_ACK : bytes := "Failed to receive acknowledgment for destination info" ++ [LF].
Definition END_OF_COPY : bytes := "END" ++ [LF].
Definition FINISHED_COPYING : bytes := "Finished Copying" ++ [LF].

(** What [copy_different_src] and [copy_different_src_b] do once the command is
    parsed; they differ in how much of the path they send. *)
Definition send_copy (fuel : nat) (f : F) (sock : Z) (src dest : bytes) (skip_of file_skip : nat -> nat)
    : io bytes :=
  match kind_of f src with
  | None => mret (snprintf BUFFER_SIZE ("Source path " ++ src ++ " does not exist" ++ [LF]))
  | Some k =>
      a ← receive_ack sock;
      if bool_decide (a < 0) then mret NO_ACK
      else
        Send sock (snprintf (MAX_PATH_SIZE + 10) ("DEST " ++ dest ++ [LF])) (fun r =>
          match r with
          | SSent _ =>
              a ← receive_ack sock;
              if bool_decide (a < 0) then mret NO_ACK
              else
                parent ← io_of (parent_length src);
                let finish (p : io unit) : io bytes :=
                  _ ← p; Send sock END_OF_COPY (fun _ => mret FINISHED_COPYING) in
                match k with
                | IsDir => finish (send_directory_over_network fuel f sock src (skip_of parent))
                | IsReg => finish (send_file_over_network f sock src (file_skip (skip_of parent)))
                | IsOther => mret ("Unsupported file type" ++ [LF])
                end
          | _ => mret ("Failed to send destination info" ++ [LF])
          end)
  end.

(** [%s %s %s %d]: source, destination, address and port.  The array for the
    address has 16 bytes. *)
Definition scan_copy (s : bytes) : cres (option (bytes * bytes * bytes * Z)) :=
  match scan_s s with
  | None => mret None
  | Some (src, r1) =>
      match scan_s r1 with
      | None => mret None
      | Some (dest, r2) =>
          match scan_s r2 with
          | None => mret None
          | Some (ip, r3) =>
              _ ← within (bool_decide (length ip < 16)%nat);
              mret (port ← scan_d r3; Some (src, dest, ip, port))
          end
      end
  end.

(** How much of the path is not sent. *)
Definition skip_for (dest : bytes) (skip : nat) : nat :=
  if bool_decide (skip = 2%nat) && starts_with "./backupfolderforss" dest then 0%nat else skip.

Definition file_skip_for (lcopy : bool) (skip : nat) : nat := if lcopy then 0%nat else skip.

Definition skip_for_b (skip : nat) : nat := if bool_decide (skip = 2%nat) then 0%nat else skip.

Definition copy_different_src (fuel : nat) (f : F) (buffer : bytes) (sock : Z) (lcopy : bool)
    : io bytes :=
  parsed ← io_of (match scan_s buffer with Some (_, r) => scan_copy r | None => mret None end);
  match parsed with
  | None => mret (snprintf BUFFER_SIZE
      ("Invalid input format. Expected: copydifferent/lcopy <srcpath> <destpath> <ip> <port>" ++ [LF]))
  | Some (src, dest, _, _) =>
      send_copy fuel f sock src dest (skip_for dest) (file_skip_for lcopy)
  end.

Definition copy_different_src_b (fuel : nat) (f : F) (buffer : bytes) (sock : Z) : io bytes :=
  parsed ← io_of (if starts_with "copydifferentb" buffer then scan_copy (drop 14 buffer) else mret None);
  match parsed with
  | None => mret (snprintf BUFFER_SIZE
      ("Invalid input format. Expected: copydifferent <srcpath> <destpath> <ip> <port>" ++ [LF]))
  | Some (src, dest, _, _) =>
      send_copy fuel f sock src dest skip_for_b id
  end.

(** ** The receiving half *)

(** [mkdir], whose failure is not reported to the sender. *)
Definition receive_and_save_directory (dest : bytes) (f : F) : F := default f (make_dir dest f).

(** The inner loop: [recv] until [need] bytes are there; [need] calls are
    enough. *)
Fixpoint receive_exactly (fuel : nat) (sock : Z) (need : nat) (got : bytes) : io (option bytes) :=
  match need with
  | O => mret (Some got)
  | _ =>
      match fuel with
      | O => Stuck
      | S fuel' =>
          Recv sock need (fun r =>
            match r with
            | RData b => receive_exactly fuel' sock (need - length b) (got ++ b)
            | _ => mret None
            end)
      end
  end.

(** The outer loop: the pieces of the file, each written and acknowledged. *)
Fixpoint receive_contents (fuel : nat) (sock : Z) (dest : bytes) (remaining : Z) (f : F) : io F :=
  if bool_decide (remaining <= 0) then mret f
  else
    match fuel with
    | O => Stuck
    | S fuel' =>
        let to_receive := Z.to_nat (Z.min remaining (Z.of_nat BUFFER_SIZE)) in
        got ← receive_exactly to_receive sock to_receive [];
        match got with
        | None => mret f
        | Some c =>
            match append_to dest c f with
            | None => mret f
            | Some f' =>
                _ ← send_ack sock;
                receive_contents fuel' sock dest (remaining - Z.of_nat (length c)) f'
            end
        end
    end.

Definition receive_and_save_file (sock : Z) (dest : bytes) (f : F) : io F :=
  Recv sock (BUFFER_SIZE - 1) (fun r =>
    match r with
    | RData b =>
        let file_size := atol (cstr b) in
        _ ← send_ack sock;
        match truncate dest f with
        | None => mret f
        | Some f1 =>
            receive_contents (Z.to_nat (file_size / Z.of_nat BUFFER_SIZE + 1)) sock dest file_size f1
        end
    | _ => mret f
    end).

(** [sscanf(buffer, "%s", name)] into an array nobody initialised. *)
Definition scanned (s : bytes) : cres bytes :=
  match scan_s s with Some (w, _) => Val w | None => Undef BadRead end.

(** Where a name that was received is saved: [copy_different_dest] removes a
    leading "./", [copy_different_dest_b] does not. *)
Definition target (backup : bool) (base name : bytes) : bytes :=
  snprintf MAX_PATH_SIZE
    (base ++ "/" ++ (if negb backup && starts_with "./" name then drop 2 name else name)).

(** One message of the loop, which then goes on with [next]. *)
Definition receive_item (next : F -> io F) (backup : bool) (sock : Z) (base buffer : bytes) (f : F)
    : io F :=
  if starts_with END_OF_COPY buffer then mret f
  else if starts_with "FILE " buffer then
    filename ← io_of (scanned (drop 5 buffer));
    _ ← send_ack sock;
    f' ← receive_and_save_file sock (target backup base filename) f;
    next f'
  else if starts_with "DIR " buffer then
    dirname ← io_of (scanned (drop 4 buffer));
    _ ← send_ack sock;
    next (receive_and_save_directory (target backup base dirname) f)
  else next f.

(** The loop over the messages; [fuel] bounds their number. *)
Fixpoint receive_items (fuel : nat) (backup : bool) (sock : Z) (base : bytes) (f : F) : io F :=
  match fuel with
  | O => Stuck
  | S fuel' =>
      Recv sock (BUFFER_SIZE - 1) (fun r =>
        match r with
        | RData b => receive_item (receive_items fuel' backup sock base) backup sock base (cstr b) f
        | _ => mret f
        end)
  end.

Definition receive_copy (fuel : nat) (backup : bool) (sock : Z) (f : F) : io F :=
  _ ← send_ack sock;
  Recv sock (BUFFER_SIZE - 1) (fun r =>
    match r with
    | RData b =>
        let buffer := cstr b in
        if starts_with "DEST " buffer then
          base_dest_path ← io_of (scanned (drop 5 buffer));
          _ ← send_ack sock;
          receive_items fuel backup sock base_dest_path
            (receive_and_save_directory base_dest_path f)
        else mret f
    | _ => mret f
    end).

Definition copy_different_dest (fuel : nat) : Z -> F -> io F := receive_copy fuel false.
Definition copy_different_dest_b (fuel : nat) : Z -> F -> io F := receive_copy fuel true.
End transfer.

(** ** What a copy carries *)

(** The items of a copy in the order they are sent, with the names as sent. *)
Inductive item := DirItem (name : bytes) | FileItem (name c : bytes).

Definition item_name (it : item) : bytes :=
  match it with DirItem n | FileItem n _ => n end.

(** Names the text protocol can carry, and sizes of a [long]. *)
Definition plain_name (s : bytes) : Prop :=
  spaceless s /\ s <> [] /\ (NUL ∉ s) /\ (length s <= 1000)%nat.

Definition sendable (it : item) : Prop :=
  plain_name (item_name it) /\
  match it with FileItem _ c => Z.of_nat (length c) < 2 ^ 63 | DirItem _ => True end.

#[export] Instance plain_name_dec s : Decision (plain_name s).
Proof. unfold plain_name, spaceless. apply _. Defined.

#[export] Instance sendable_dec it : Decision (sendable it).
Proof. unfold sendable. destruct it; apply _. Defined.

Section specification.
Context {F : Type} `{Posix F}.

Definition file_items (f : F) (skip : nat) (src : bytes) : option (list item) :=
  if opens f src then c ← contents f src; Some [FileItem (drop skip src) c] else Some [].

Fixpoint entry_items (rec : bytes -> option (list item)) (f : F) (skip : nat) (src : bytes)
    (names : list bytes) : option (list item) :=
  match names with
  | [] => Some []
  | name :: rest =>
      if strcmp_eq name "." || strcmp_eq name ".." then entry_items rec f skip src rest
      else
        let full_path := snprintf MAX_PATH_SIZE (src ++ "/" ++ name) in
        here ← (match kind_of f full_path with
                | Some IsDir => rec full_path
                | Some IsReg => file_items f skip full_path
                | _ => Some []
                end);
        after ← entry_items rec f skip src rest;
        Some (here ++ after)
  end.

Fixpoint dir_items (fuel : nat) (f : F) (skip : nat) (src : bytes) : option (list item) :=
  match fuel with
  | O => None
  | S fuel' =>
      match entries f src with
      | None => Some []
      | Some names =>
          cons (DirItem (drop skip src)) <$> entry_items (dir_items fuel' f skip) f skip src names
      end
  end.

(** The items saved under a folder, as long as the disk takes them. *)
Fixpoint save_pieces (dest : bytes) (pieces : list bytes) (f : F) : option F :=
  match pieces with
  | [] => Some f
  | c :: rest => f' ← append_to dest c f; save_pieces dest rest f'
  end.

Definition save_item (backup : bool) (base : bytes) (it : item) (f : F) : option F :=
  match it with
  | DirItem n => Some (receive_and_save_directory (target backup base n) f)
  | FileItem n c =>
      f1 ← truncate (target backup base n) f;
      save_pieces (target backup base n) (chunks BUFFER_SIZE c) f1
  end.

Fixpoint save_items (backup : bool) (base : bytes) (its : list item) (f : F) : option F :=
  match its with
  | [] => Some f
  | it :: rest => f' ← save_item backup base it f; save_items backup base rest f'
  end.

Lemma save_items_app backup base its1 its2 f :
  save_items backup base (its1 ++ its2) f =
  (f' ← save_items backup base its1 f; save_items backup base its2 f').
Proof.
  revert f; induction its1 as [|it its1 IH]; intros f; [done|]. cbn [app save_items].
  destruct (save_item backup base it f); [apply IH|done].
Qed.
End specification.

(** ** The two halves together *)

Section conversation.
Context {F : Type} `{PosixLaws F}.
Implicit Types f : F.

Lemma recv_bind {A B} s n (k : rres -> io A) (j : A -> io B) :
  Recv s n k ≫= j = Recv s n (fun r => k r ≫= j).
Proof. done. Qed.

Lemma send_bind {A B} s m (k : sres -> io A) (j : A -> io B) :
  Send s m k ≫= j = Send s m (fun r => k r ≫= j).
Proof. done. Qed.

Lemma ret_bind {A B} (a : A) (j : A -> io B) : Ret a ≫= j = j a.
Proof. done. Qed.

(** What follows the [recv] of an acknowledgement. *)
Definition receive_ack_then {A} (k : Z -> io A) (r : rres) : io A :=
  match r with
  | RData b => mret (if strcmp_eq (cstr b) ACK then 0 else -1)
  | _ => mret (-1)
  end ≫= k.

Lemma receive_ack_bind {A} sock (k : Z -> io A) :
  receive_ack sock ≫= k = Recv sock (BUFFER_SIZE - 1) (receive_ack_then k).
Proof. done. Qed.

Lemma receive_ack_then_ACK {A} (k : Z -> io A) : receive_ack_then k (RData ACK) = k 0.
Proof. done. Qed.

Lemma drives_acknowledged {B} sock m s n (j : rres -> io B) j' q' :
  j (RData m) = Send s ACK j' -> j' (SSent (length ACK)) = q' -> idle q' = true ->
  (0 < length m <= n)%nat -> drives (acknowledged sock m) true (Recv s n j) q'.
Proof.
  intros Hj Hq Hi Hm. unfold drives, acknowledged.
  change (Ret true) with (receive_ack_then (fun a => mret (bool_decide (0 <= a))) (RData ACK)).
  eapply busy_request; try done. by unfold ACK, BUFFER_SIZE; simpl; lia.
Qed.

Lemma receive_contents_step {B} fuel s dest rem f f1 c (j : F -> io B) :
  0 < rem -> length c = Z.to_nat (Z.min rem (Z.of_nat BUFFER_SIZE)) -> append_to dest c f = Some f1 ->
  exists h h', receive_contents (S fuel) s dest rem f ≫= j = Recv s (length c) h /\
    h (RData c) = Send s ACK h' /\
    h' (SSent (length ACK)) = receive_contents fuel s dest (rem - Z.of_nat (length c)) f1 ≫= j.
Proof.
  intros Hrem Hc Ha. cbn [receive_contents]. rewrite bool_decide_eq_false_2 by lia.
  rewrite <- Hc. destruct c as [|x c]; [simpl in Hc; unfold BUFFER_SIZE in Hc; lia|].
  change (length (x :: c)) with (S (length c)). cbn [receive_exactly]. rewrite !recv_bind.
  eexists _, (fun _ => _). split; [reflexivity|]. cbv beta iota.
  assert (receive_exactly (length c) s (S (length c) - length (x :: c)) ([] ++ x :: c)
          = Ret (Some (x :: c))) as ->.
  { replace (S (length c) - length (x :: c))%nat with 0%nat by (simpl; lia). by destruct (length c). }
  rewrite ret_bind, Ha. split; reflexivity.
Qed.

Lemma receive_contents_done {B} fuel s dest f (j : F -> io B) :
  receive_contents fuel s dest 0 f ≫= j = j f.
Proof. by destruct fuel. Qed.

Lemma drives_contents {B} sock s dest fuel g c f f' (j : F -> io B) :
  (length c <= g)%nat -> (length c <= fuel * BUFFER_SIZE)%nat -> idle (j f') = true ->
  save_pieces dest (chunks_go g BUFFER_SIZE c) f = Some f' ->
  drives (send_acknowledged sock (chunks_go g BUFFER_SIZE c)) tt
    (receive_contents fuel s dest (Z.of_nat (length c)) f ≫= j) (j f').
Proof.
  intros Hg Hfuel Hi. revert fuel c f Hg Hfuel; induction g as [|g IH]; intros fuel c f Hg Hfuel Hs.
  - destruct c; [|simpl in Hg; lia]. injection Hs as <-. rewrite receive_contents_done. apply drives_ret.
  - destruct c as [|x c]; [injection Hs as <-; rewrite receive_contents_done; apply drives_ret|].
    cbn [chunks_go] in *. set (piece := take BUFFER_SIZE (x :: c)) in *.
    set (rest := drop BUFFER_SIZE (x :: c)) in *.
    apply bind_Some in Hs as (f1 & Ha & Hs).
    destruct fuel as [|fuel]; [simpl in Hfuel; lia|].
    assert (length piece = Nat.min BUFFER_SIZE (length (x :: c))) as Hp by apply length_take.
    assert (length rest = (length (x :: c) - BUFFER_SIZE)%nat) as Hr by apply length_drop.
    destruct (receive_contents_step fuel s dest (Z.of_nat (length (x :: c))) f f1 piece j)
      as (h & h' & -> & Hh & Hh'); [simpl; lia|lia|done|].
    assert (Z.of_nat (length (x :: c)) - Z.of_nat (length piece) = Z.of_nat (length rest)) as Hrem by lia.
    rewrite Hrem in Hh'.
    assert (0 < length piece)%nat by (rewrite Hp; unfold BUFFER_SIZE; simpl; lia).
    cbn [send_acknowledged]. eapply drives_bind.
    + eapply drives_acknowledged; [exact Hh|exact Hh'| |lia].
      destruct rest as [|y rest].
      * rewrite receive_contents_done. assert (f' = f1) as -> by (by destruct g; injection Hs). done.
      * destruct fuel as [|fuel]; [simpl in *; lia|]. cbn [receive_contents].
        rewrite bool_decide_eq_false_2 by (simpl; lia).
        destruct (Z.to_nat _) eqn:Hz; [unfold BUFFER_SIZE in Hz; simpl in Hz; lia|done].
    + assert (0 < BUFFER_SIZE)%nat by (unfold BUFFER_SIZE; lia).
      cbn [length] in *. apply IH; [lia|lia|done].
Qed.

(** The messages that carry a name. *)
Lemma cstr_message head name :
  NUL ∉ head -> plain_name name -> cstr (head ++ name ++ [LF]) = head ++ name ++ [LF].
Proof.
  intros Hh (_ & _ & Hn & _). apply cstr_free. rewrite !not_elem_of_app.
  split_and!; [done..|]. by intros H1%list_elem_of_singleton.
Qed.

Lemma skipping_name skip src :
  drop skip src <> [] -> skipping skip src = Val (drop skip src).
Proof.
  intros Hd. unfold skipping. rewrite bool_decide_eq_true_2; [done|].
  destruct (decide (skip <= length src)%nat); [done|]. by rewrite drop_ge in Hd by lia.
Qed.

Lemma message_fits k head name :
  plain_name name -> (length head <= 10)%nat -> (1020 < k)%nat ->
  snprintf k (head ++ name ++ [LF]) = head ++ name ++ [LF].
Proof.
  intros (_ & _ & _ & Hl) Hh Hk. apply snprintf_all. rewrite !length_app. simpl. lia.
Qed.

(** The receiver after the name of a file, and after its size. *)
Lemma receive_file_message m backup s base g name :
  plain_name name ->
  exists j, receive_items (S m) backup s base g = Recv s (BUFFER_SIZE - 1) j /\
    j (RData ("FILE " ++ name ++ [LF])) = Send s ACK (fun _ =>
      receive_and_save_file s (target backup base name) g ≫= receive_items m backup s base).
Proof.
  intros Hn. eexists. split; [cbn [receive_items]; reflexivity|]. cbv beta iota. unfold receive_item.
  rewrite cstr_message by (done || by apply (bool_decide_unpack _)).
  change (starts_with END_OF_COPY _) with false. change (starts_with "FILE " _) with true.
  cbv iota. change (drop 5 (lit "FILE " ++ name ++ [LF])) with (name ++ [LF]).
  unfold scanned. destruct Hn as (Hs & Hne & _). rewrite scan_s_line by done. reflexivity.
Qed.

Lemma receive_dir_message m backup s base g name :
  plain_name name ->
  exists j, receive_items (S m) backup s base g = Recv s (BUFFER_SIZE - 1) j /\
    j (RData ("DIR " ++ name ++ [LF])) = Send s ACK (fun _ =>
      receive_items m backup s base (receive_and_save_directory (target backup base name) g)).
Proof.
  intros Hn. eexists. split; [cbn [receive_items]; reflexivity|]. cbv beta iota. unfold receive_item.
  rewrite cstr_message by (done || by apply (bool_decide_unpack _)).
  change (starts_with END_OF_COPY _) with false. change (starts_with "FILE " _) with false.
  change (starts_with "DIR " _) with true.
  cbv iota. change (drop 4 (lit "DIR " ++ name ++ [LF])) with (name ++ [LF]).
  unfold scanned. destruct Hn as (Hs & Hne & _). rewrite scan_s_line by done. reflexivity.
Qed.

Lemma receive_size_message {B} s dest g g1 n (K : F -> io B) :
  truncate dest g = Some g1 -> 0 <= n < 2 ^ 63 ->
  exists j, receive_and_save_file s dest g ≫= K = Recv s (BUFFER_SIZE - 1) j /\
    j (RData (print_Z n ++ [LF])) = Send s ACK (fun _ =>
      receive_contents (Z.to_nat (n / Z.of_nat BUFFER_SIZE + 1)) s dest n g1 ≫= K).
Proof.
  intros Ht Hn. eexists. split; [reflexivity|]. cbv beta iota zeta.
  rewrite cstr_free by (apply print_Z_line_free; lia). rewrite atol_print_Z by done.
  rewrite Ht. reflexivity.
Qed.

Lemma enough_pieces (c : bytes) :
  (length c <= Z.to_nat (Z.of_nat (length c) / Z.of_nat BUFFER_SIZE + 1) * BUFFER_SIZE)%nat.
Proof.
  change (Z.of_nat BUFFER_SIZE) with 1024. change BUFFER_SIZE with (Z.to_nat 1024).
  rewrite <- Z2Nat.inj_mul by (assert (0 <= Z.of_nat (length c) / 1024) by (apply Z.div_pos; lia); lia).
  pose proof (Z.div_mod (Z.of_nat (length c)) 1024). pose proof (Z.mod_pos_bound (Z.of_nat (length c)) 1024). lia.
Qed.

Lemma idle_contents {B} s dest fuel (c : bytes) f (K : F -> io B) :
  (c <> [] -> (0 < fuel)%nat) -> (c = [] -> idle (K f) = true) ->
  idle (receive_contents fuel s dest (Z.of_nat (length c)) f ≫= K) = true.
Proof.
  intros Hf Hk. destruct c as [|x c]; [rewrite receive_contents_done; auto|].
  destruct fuel as [|fuel]; [by specialize (Hf ltac:(done)); lia|]. cbn [receive_contents].
  rewrite bool_decide_eq_false_2 by (simpl; lia).
  destruct (Z.to_nat (Z.min _ _)) eqn:Hz; [unfold BUFFER_SIZE in Hz; simpl in Hz; lia|done].
Qed.

Lemma drives_file sock s f src skip its backup base g g' n :
  file_items f skip src = Some its -> Forall sendable its -> save_items backup base its g = Some g' ->
  drives (send_file_over_network f sock src skip) tt
    (receive_items (length its + S n) backup s base g) (receive_items (S n) backup s base g').
Proof.
  unfold file_items, send_file_over_network. intros Hits Hok Hsave.
  destruct (opens f src); [|injection Hits as <-; injection Hsave as <-; apply drives_ret].
  apply bind_Some in Hits as (c & Hc & Hits). injection Hits as <-.
  apply Forall_singleton in Hok as [Hn Hlen]. cbn [item_name] in Hn.
  apply bind_Some in Hsave as (f2 & Hsave & Hf2). injection Hf2 as ->.
  apply bind_Some in Hsave as (g1 & Ht & Hsave). cbn [length Nat.add].
  set (name := drop skip src) in *. set (dest := target backup base name) in *.
  rewrite skipping_name by (by destruct Hn as (_ & ? & _)). fold name. rewrite Hc, (size_contents _ _ _ Hc).
  cbn [io_of]. rewrite ret_bind, message_fits by (done || (simpl; lia)).
  destruct (receive_file_message (S n) backup s base g name Hn) as (j & -> & Hj).
  destruct (receive_size_message s dest g g1 (Z.of_nat (length c)) (receive_items (S n) backup s base) Ht)
    as (j2 & Hj2 & Hj2'); [lia|].
  pose proof (print_Z_length (Z.of_nat (length c))) as Hsize.
  eapply drives_bind.
  { eapply drives_acknowledged; [exact Hj|exact Hj2|done|].
    destruct Hn as (_ & _ & _ & Hn). rewrite !length_app. unfold BUFFER_SIZE. simpl. lia. }
  cbv iota. rewrite snprintf_all by (rewrite length_app; simpl; lia).
  eapply drives_bind.
  { eapply drives_acknowledged; [exact Hj2'|reflexivity| |rewrite length_app; unfold BUFFER_SIZE; simpl; lia].
    apply idle_contents; [intros Hc'; pose proof (enough_pieces c); destruct c; [done|simpl in *; lia]|]. intros ->. injection Hsave as ->. done. }
  cbv iota. eapply drives_contents; [done|apply enough_pieces|done|exact Hsave].
Qed.

Section items.
Context (sock s : Z) (f : F) (skip : nat) (backup : bool) (base : bytes).

(** Sending with [p] carries the items [its]. *)
Definition carries (p : io unit) (its : list item) : Prop :=
  forall g g' n, Forall sendable its -> save_items backup base its g = Some g' ->
    drives p tt (receive_items (length its + S n) backup s base g) (receive_items (S n) backup s base g').

Lemma carries_nothing : carries (mret tt) [].
Proof. intros g g' n _ [= ->]. apply drives_ret. Qed.

Lemma carries_then p k its1 its2 :
  carries p its1 -> carries k its2 -> carries (_ ← p; k) (its1 ++ its2).
Proof.
  intros Hp Hk g g' n Hok Hs. apply Forall_app in Hok as [H1 H2].
  rewrite save_items_app in Hs. apply bind_Some in Hs as (g1 & Hs1 & Hs2).
  rewrite length_app, <- Nat.add_assoc, Nat.add_succ_r. eapply drives_bind.
  - by apply (Hp g g1).
  - rewrite <- Nat.add_succ_r. by apply Hk.
Qed.

Lemma carries_file src its :
  file_items f skip src = Some its -> carries (send_file_over_network f sock src skip) its.
Proof. intros Hits g g' n Hok Hs. by eapply drives_file. Qed.

Lemma carries_entries rec rec_items src names its :
  (forall p its', rec_items p = Some its' -> carries (rec p) its') ->
  entry_items rec_items f skip src names = Some its ->
  carries (send_entries rec f sock src skip names) its.
Proof.
  intros Hrec. revert its; induction names as [|name names IH]; intros its Hits; cbn [entry_items send_entries] in *.
  - injection Hits as <-. apply carries_nothing.
  - destruct (strcmp_eq name "." || strcmp_eq name ".."); [by apply IH|].
    apply bind_Some in Hits as (here & Hh & Hits). apply bind_Some in Hits as (after & Ha & Hits).
    injection Hits as <-. apply carries_then; [|by apply IH].
    destruct (kind_of f _) as [[]|]; [by apply Hrec|by apply carries_file|..];
      injection Hh as <-; apply carries_nothing.
Qed.

Lemma carries_directory fuel src its :
  dir_items fuel f skip src = Some its -> carries (send_directory_over_network fuel f sock src skip) its.
Proof.
  revert src its; induction fuel as [|fuel IH]; intros src its Hits;
    cbn [dir_items send_directory_over_network] in *; [done|].
  destruct (entries f src) as [names|]; [|injection Hits as <-; apply carries_nothing].
  apply fmap_Some in Hits as (its' & Hits & ->).
  intros g g' n Hok Hs. apply Forall_cons in Hok as [[Hn _] Hok]. cbn [item_name] in Hn.
  rewrite skipping_name by (by destruct Hn as (_ & ? & _)). cbn [io_of].
  rewrite ret_bind, message_fits by (done || (unfold MAX_PATH_SIZE; simpl; lia)).
  cbn [length Nat.add].
  destruct (receive_dir_message (length its' + S n) backup s base g (drop skip src) Hn) as (j & -> & Hj).
  eapply drives_bind.
  { eapply drives_acknowledged; [exact Hj|reflexivity|by rewrite Nat.add_succ_r|].
    destruct Hn as (_ & _ & _ & Hn). rewrite !length_app. unfold BUFFER_SIZE. simpl. lia. }
  cbv iota. eapply carries_entries; [intros; by apply IH|exact Hits|done|exact Hs].
Qed.
End items.
End conversation.

(** ** Whole copies *)

Section copies.
Context {F : Type} `{PosixLaws F}.
Implicit Types f g : F.

(** What [send_copy] carries. *)
Definition copy_items (fuel : nat) f (src : bytes) (skip_of file_skip : nat -> nat)
    : option (list item) :=
  match kind_of f src, parent_length src with
  | Some IsDir, Val n => dir_items fuel f (skip_of n) src
  | Some IsReg, Val n => file_items f (file_skip (skip_of n)) src
  | _, _ => None
  end.

Lemma receive_end n backup s base g :
  exists j, receive_items (S n) backup s base g = Recv s (BUFFER_SIZE - 1) j /\
    j (RData END_OF_COPY) = Ret g.
Proof. eexists. split; [cbn [receive_items]; reflexivity|]. reflexivity. Qed.

Lemma receive_dest_message fuel backup s g dest :
  plain_name dest ->
  exists j j', receive_copy fuel backup s g = Send s ACK (fun _ => Recv s (BUFFER_SIZE - 1) j) /\
    j (RData ("DEST " ++ dest ++ [LF])) = Send s ACK j' /\
    forall r, j' r = receive_items fuel backup s dest (receive_and_save_directory dest g).
Proof.
  intros Hn. eexists _, (fun _ => _). split; [reflexivity|]. cbv beta iota.
  rewrite cstr_message by (done || by apply (bool_decide_unpack _)).
  change (starts_with "DEST " _) with true. cbv iota zeta.
  change (drop 5 (lit "DEST " ++ dest ++ [LF])) with (dest ++ [LF]).
  unfold scanned. destruct Hn as (Hs & Hne & _). rewrite scan_s_line by done. split; reflexivity.
Qed.

Lemma lockstep_copy fuel fuel' backup f g g' src dest skip_of file_skip its sock s :
  copy_items fuel f src skip_of file_skip = Some its -> Forall sendable its -> plain_name dest ->
  save_items backup dest its (receive_and_save_directory dest g) = Some g' ->
  (length its < fuel')%nat ->
  lockstep (Link (send_copy fuel f sock src dest skip_of file_skip) (receive_copy fuel' backup s g) [] [])
    (over FINISHED_COPYING g').
Proof.
  intros Hits Hok Hdest Hsave Hfuel. unfold copy_items in Hits.
  destruct (kind_of f src) as [k|] eqn:Hk; [|done].
  destruct (parent_length src) as [parent|] eqn:Hparent; [|by destruct k].
  assert (exists p, carries s backup dest p its /\
    send_copy fuel f sock src dest skip_of file_skip =
      a ← receive_ack sock;
      if bool_decide (a < 0) then mret NO_ACK
      else Send sock (snprintf (MAX_PATH_SIZE + 10) ("DEST " ++ dest ++ [LF])) (fun r =>
        match r with
        | SSent _ =>
            a ← receive_ack sock;
            if bool_decide (a < 0) then mret NO_ACK
            else _ ← p; Send sock END_OF_COPY (fun _ => mret FINISHED_COPYING)
        | _ => mret ("Failed to send destination info" ++ [LF])
        end)) as (p & Hp & ->).
  { unfold send_copy. rewrite Hk, Hparent. destruct k; [| |done]; eexists; (split; [|reflexivity]).
    - by apply carries_directory.
    - by apply carries_file. }
  destruct (receive_dest_message fuel' backup s g dest Hdest) as (j & j' & -> & Hj & Hj').
  assert (exists n, fuel' = (length its + S n)%nat) as [n ->] by (exists (fuel' - S (length its))%nat; lia).
  assert (0 < length ACK <= BUFFER_SIZE - 1)%nat by (vm_compute; lia).
  rewrite receive_ack_bind.
  eapply lockstep_trans; [eapply busy_lockstep, busy_answer; done|].
  rewrite receive_ack_then_ACK, bool_decide_eq_false_2, message_fits by (done || (unfold MAX_PATH_SIZE; simpl; lia)).
  eapply lockstep_trans.
  { eapply busy_lockstep, busy_request; [apply receive_ack_bind|exact Hj|apply Hj'| |..|done].
    - by rewrite Nat.add_succ_r.
    - destruct Hdest as (_ & _ & _ & Hl). rewrite !length_app. unfold BUFFER_SIZE. simpl. lia. }
  rewrite receive_ack_then_ACK, bool_decide_eq_false_2 by done.
  eapply lockstep_trans; [eapply busy_lockstep, drives_then, Hp; [done|exact Hsave]|].
  destruct (receive_end n backup s dest g') as (je & -> & Hje).
  eapply lockstep_farewell; [vm_compute; lia|reflexivity|exact Hje].
Qed.

Lemma save_pieces_succeeds `{!DiskRoom F} dest cs g d :
  contents g dest = Some d ->
  exists g', save_pieces dest cs g = Some g' /\ contents g' dest = Some (d ++ concat cs).
Proof.
  revert g d; induction cs as [|c cs IH]; intros g d Hd; cbn [save_pieces concat].
  - exists g. by rewrite app_nil_r.
  - destruct (append_succeeds dest c d g Hd) as [g1 Hg1]. rewrite Hg1, app_assoc.
    apply IH. by eapply contents_append.
Qed.

(** ** A file received in pieces *)

Lemma run_recv {A} s n (k : rres -> io A) r ans :
  run (Recv s n k) (ARecv r :: ans) = let '(tr, o) := run (k r) ans in (ERecv s n r :: tr, o).
Proof. done. Qed.

Lemma run_receive_exactly {B} fuel s need got seg (k : option bytes -> io B) ans :
  Forall (fun b => b <> []) seg -> length (concat seg) = need -> (need <= fuel)%nat ->
  exists tr0, run (receive_exactly fuel s need got ≫= k) ((ARecv ∘ RData <$> seg) ++ ans) =
    let '(tr, o) := run (k (Some (got ++ concat seg))) ans in (tr0 ++ tr, o).
Proof.
  intros Hseg. revert fuel need got; induction Hseg as [|b seg Hb Hseg IH]; intros fuel need got Hn Hf.
  - simpl in Hn. subst need. exists []. rewrite app_nil_r.
    assert (receive_exactly fuel s 0 got = Ret (Some got)) as -> by by destruct fuel.
    cbn [fmap list_fmap app mbind io_bind]. by destruct (run _ _).
  - cbn [concat] in Hn |- *. rewrite length_app in Hn.
    destruct need as [|need]; [destruct b; [done|simpl in Hn; lia]|].
    destruct fuel as [|fuel]; [lia|].
    destruct (IH fuel (S need - length b)%nat (got ++ b)) as [tr0 Hrun];
      [lia|destruct b; [done|simpl; lia]|].
    exists (ERecv s (S need) (RData b) :: tr0).
    change ((ARecv ∘ RData <$> b :: seg) ++ ans) with (ARecv (RData b) :: ((ARecv ∘ RData <$> seg) ++ ans)).
    cbn [receive_exactly]. rewrite recv_bind, run_recv. cbv beta iota. rewrite Hrun, <- app_assoc.
    destruct (run (k (Some (got ++ b ++ concat seg))) ans) as [tr o]. reflexivity.
Qed.

(** The answers to the calls that receive the pieces of a file: the segments
    of each piece, then the answer to the acknowledgement. *)
Definition piece_answers (seg : list bytes * sres) : list answer :=
  (ARecv ∘ RData <$> seg.1) ++ [ASend seg.2].

Definition cut_into (piece : bytes) (seg : list bytes * sres) : Prop :=
  concat seg.1 = piece /\ Forall (fun b => b <> []) seg.1.

Lemma run_receive_contents fuel s dest n c f f' segs :
  (length c <= n)%nat -> (length c <= fuel * BUFFER_SIZE)%nat ->
  Forall2 cut_into (chunks_go n BUFFER_SIZE c) segs ->
  save_pieces dest (chunks_go n BUFFER_SIZE c) f = Some f' ->
  exists tr, run (receive_contents fuel s dest (Z.of_nat (length c)) f) (concat (piece_answers <$> segs)) =
    (tr, Done f').
Proof.
  revert fuel c f segs; induction n as [|n IH]; intros fuel c f segs Hn Hfuel Hsegs Hs.
  - destruct c; [|simpl in Hn; lia]. injection Hs as <-. exists []. by destruct fuel.
  - destruct c as [|x c]; [injection Hs as <-; exists []; by destruct fuel|].
    cbn [chunks_go] in *. set (piece := take BUFFER_SIZE (x :: c)) in *.
    set (rest := drop BUFFER_SIZE (x :: c)) in *.
    apply bind_Some in Hs as (f1 & Ha & Hs).
    inversion Hsegs as [|? [seg r] ? segs' [Hcut Hne] Hsegs']; subst. cbn [fst snd] in *.
    destruct fuel as [|fuel]; [simpl in Hfuel; lia|].
    assert (length piece = Nat.min BUFFER_SIZE (length (x :: c))) as Hp by apply length_take.
    assert (length rest = (length (x :: c) - BUFFER_SIZE)%nat) as Hr by apply length_drop.
    cbn [receive_contents]. rewrite bool_decide_eq_false_2 by (simpl; lia).
    replace (Z.to_nat _) with (length piece) by lia.
    cbn [fmap list_fmap concat]. unfold piece_answers at 1. cbn [fst snd]. rewrite <- !app_assoc.
    edestruct (run_receive_exactly (B:=F) (length piece) s (length piece) [] seg) as [tr0 ->];
      [done|by rewrite Hcut|done|].
    rewrite Hcut. cbn [app]. rewrite Ha. cbn [send_ack mbind io_bind mret io_ret run].
    replace (Z.of_nat (length (x :: c)) - Z.of_nat (length piece)) with (Z.of_nat (length rest)) by lia.
    destruct (IH fuel rest f1 segs') as [tr Htr]; [simpl in *; unfold BUFFER_SIZE in *; lia|simpl in *; lia|done|exact Hs|].
    rewrite Htr. by eexists.
Qed.

(** ** Termination of the receiver *)

Lemma wp_receive_exactly fuel s need got tr (Q : list event -> option bytes -> Prop) :
  (need <= fuel)%nat ->
  (forall tr' o, match o with Some c => length c = (length got + need)%nat | None => True end ->
     tr `prefix_of` tr' -> Q tr' o) ->
  wp total (receive_exactly fuel s need got) tr Q.
Proof.
  revert need got tr; induction fuel as [|fuel IH]; intros need got tr Hn HQ;
    (destruct need as [|need]; [apply HQ; [lia|done]|]); [lia|].
  cbn [receive_exactly wp]. intros r [Hok _]. destruct r as [b| | |]; try (apply HQ; [done|by apply prefix_app_r]).
  cbn in Hok. apply IH; [lia|]. intros tr' o Ho Hpre. apply HQ.
  - destruct o; [|done]. rewrite length_app in Ho. lia.
  - etrans; [|exact Hpre]. by apply prefix_app_r.
Qed.

(** The file while it is received: what was there and at most what is still
    expected. *)
(** [f'] is [f] after at most [n] bytes were appended to the file [dest]. *)
Definition grown (dest : bytes) (n : Z) (f f' : F) : Prop :=
  forall d, contents f dest = Some d ->
  exists d', contents f' dest = Some d' /\ Z.of_nat (length d') <= Z.of_nat (length d) + n.

Lemma grown_refl dest n f : 0 <= n -> grown dest n f f.
Proof. intros Hn d Hd. exists d. split; [done|lia]. Qed.

Lemma grown_append dest c n m f f1 f' :
  append_to dest c f = Some f1 -> grown dest n f1 f' -> Z.of_nat (length c) + n <= m -> grown dest m f f'.
Proof.
  intros Ha Hg Hm d Hd. destruct (Hg (d ++ c)) as (d' & Hd' & Hl); [by eapply contents_append|].
  exists d'. split; [done|]. rewrite length_app in Hl. lia.
Qed.

Lemma wp_receive_contents fuel s dest rem f tr (Q : list event -> F -> Prop) :
  rem <= Z.of_nat fuel * Z.of_nat BUFFER_SIZE ->
  (forall tr' f', grown dest (Z.max 0 rem) f f' -> tr `prefix_of` tr' -> Q tr' f') ->
  wp total (receive_contents fuel s dest rem f) tr Q.
Proof.
  revert rem f tr; induction fuel as [|fuel IH]; intros rem f tr Hrem HQ; cbn [receive_contents].
  - rewrite bool_decide_eq_true_2 by lia. apply HQ; [apply grown_refl; lia|done].
  - case_bool_decide; [apply HQ; [apply grown_refl; lia|done]|].
    set (n := Z.to_nat (Z.min rem (Z.of_nat BUFFER_SIZE))).
    apply wp_bind, wp_receive_exactly; [done|]. intros tr' o Ho Hpre.
    destruct o as [c|]; [|apply HQ; [apply grown_refl; lia|done]].
    destruct (append_to dest c f) as [f'|] eqn:Ha; [|apply HQ; [apply grown_refl; lia|done]].
    simpl in Ho. apply wp_bind. cbn [wp send_ack mret io_ret]. intros r _.
    apply IH; [unfold n in Ho; lia|].
    intros tr2 f2 Hg Hpre2. apply HQ; [eapply grown_append; [exact Ha|exact Hg|unfold n in Ho; lia]|].
    etrans; [exact Hpre|]. etrans; [|exact Hpre2]. by apply prefix_app_r.
Qed.

(** ** Properties of the copy protocol *)

(** C9. A copy between two servers replicates the source, when the destination
    accepts it: with [copy_different_src] (for "copydifferent" and "lcopy") on
    one end of a connection and [copy_different_dest] on the other, if no name
    that is sent has white space or a zero byte or more than 1000 bytes, the
    name of the destination neither, and every file can be created and
    written there ([save_items] succeeds with [g']; a folder that cannot be
    made is skipped), then both ends return, whatever the scheduling of the
    two, the sender reports success, and the receiver's file system is [g'],
    the result of creating the folders and writing the files of the source, in
    the order of the traversal, below the destination.  The fuel exceeds the
    depth of the source and the number of items.  Without the
    assumption on the files both ends can wait for ever: [refused_file_waits]
    is such a copy. *)
Theorem copy_different_replicates fuel fuel' f g g' buffer cmd r src dest ip port its sock s lcopy :
  scan_s buffer = Some (cmd, r) -> scan_copy r = Val (Some (src, dest, ip, port)) ->
  copy_items fuel f src (skip_for dest) (file_skip_for lcopy) = Some its ->
  Forall sendable its -> plain_name dest -> (length its < fuel')%nat ->
  save_items false dest its (receive_and_save_directory dest g) = Some g' ->
  always_ends (Link (copy_different_src fuel f buffer sock lcopy) (copy_different_dest fuel' s g) [] [])
    FINISHED_COPYING g'.
Proof.
  intros Hb Hr Hits Hok Hdest Hfuel Hsave. apply lockstep_always_ends.
  unfold copy_different_src. rewrite Hb, Hr. cbn [io_of]. rewrite ret_bind. by eapply lockstep_copy.
Qed.

(** C29. The backup of a server replicates the source the same way, with
    [copy_different_src_b] and [copy_different_dest_b], and under the same
    assumptions: names that can be sent, a destination in which every file can
    be created and written, and enough fuel. *)
Theorem copy_different_b_replicates fuel fuel' f g g' buffer src dest ip port its sock s :
  starts_with "copydifferentb" buffer = true ->
  scan_copy (drop 14 buffer) = Val (Some (src, dest, ip, port)) ->
  copy_items fuel f src skip_for_b id = Some its ->
  Forall sendable its -> plain_name dest -> (length its < fuel')%nat ->
  save_items true dest its (receive_and_save_directory dest g) = Some g' ->
  always_ends (Link (copy_different_src_b fuel f buffer sock) (copy_different_dest_b fuel' s g) [] [])
    FINISHED_COPYING g'.
Proof.
  intros Hb Hr Hits Hok Hdest Hfuel Hsave. apply lockstep_always_ends.
  unfold copy_different_src_b. rewrite Hb, Hr. cbn [io_of]. rewrite ret_bind. by eapply lockstep_copy.
Qed.

(** C20. A copied file arrives unchanged: when the source is a file and its
    destination can be created, read and written, the conversation always ends
    with the destination holding the contents of the source.  The names in the
    order have no white space and the size is that of a [long]. *)
Theorem copy_different_file_arrives `{!DiskRoom F} fuel fuel' f g g1 buffer cmd r src dest ip port n c
    sock s lcopy :
  scan_s buffer = Some (cmd, r) -> scan_copy r = Val (Some (src, dest, ip, port)) ->
  contents f src = Some c -> Z.of_nat (length c) < 2 ^ 63 -> parent_length src = Val n ->
  let name := drop (file_skip_for lcopy (skip_for dest n)) src in
  plain_name name -> plain_name dest -> (1 < fuel')%nat ->
  truncate (target false dest name) (receive_and_save_directory dest g) = Some g1 ->
  is_Some (contents g1 (target false dest name)) ->
  exists g', contents g' (target false dest name) = Some c /\
    always_ends (Link (copy_different_src fuel f buffer sock lcopy) (copy_different_dest fuel' s g) [] [])
      FINISHED_COPYING g'.
Proof.
  intros Hb Hr Hc Hlen Hn name Hname Hdest Hfuel Ht Hg1.
  destruct (save_pieces_succeeds (target false dest name) (chunks BUFFER_SIZE c) g1 []) as (g' & Hs & Hg');
    [by eapply truncated_empty|].
  exists g'. split; [rewrite Hg'; simpl; by rewrite concat_chunks by (unfold BUFFER_SIZE; lia)|].
  apply lockstep_always_ends. unfold copy_different_src. rewrite Hb, Hr. cbn [io_of]. rewrite ret_bind.
  apply lockstep_copy with (its := [FileItem name c]); [|by apply Forall_singleton|done| |simpl; lia].
  - unfold copy_items. rewrite (kind_contents _ _ _ Hc), Hn. unfold file_items.
    by rewrite (opens_contents _ _ _ Hc), Hc.
  - cbn [save_items save_item]. rewrite Ht. cbn [mbind option_bind]. by rewrite Hs.
Qed.

(** C21. The receiver of a file does not depend on how TCP cuts it: whatever
    non-empty segments the calls of [recv] return for each piece, and whether
    or not the acknowledgements can be sent, the file ends with exactly the
    bytes that were sent, and the loop ends.  The file is one that can be
    created, read and written, and its size is that of a [long]. *)
Theorem receive_and_save_file_any_segmentation `{!DiskRoom F} s dest f f1 c segs r0 :
  truncate dest f = Some f1 -> is_Some (contents f1 dest) -> Z.of_nat (length c) < 2 ^ 63 ->
  Forall2 cut_into (chunks BUFFER_SIZE c) segs ->
  exists tr f',
    run (receive_and_save_file s dest f)
      (ARecv (RData (print_Z (Z.of_nat (length c)) ++ [LF])) :: ASend r0 :: concat (piece_answers <$> segs))
      = (tr, Done f') /\
    contents f' dest = Some c.
Proof.
  intros Ht Hf1 Hlen Hsegs.
  destruct (save_pieces_succeeds dest (chunks BUFFER_SIZE c) f1 []) as (f' & Hs & Hf');
    [by eapply truncated_empty|].
  simpl in Hf'. rewrite concat_chunks in Hf' by (unfold BUFFER_SIZE; lia).
  unfold receive_and_save_file. rewrite run_recv. cbv beta iota zeta.
  rewrite cstr_free by (apply print_Z_line_free; lia). rewrite atol_print_Z by lia.
  cbn [send_ack mbind io_bind mret io_ret run]. rewrite Ht.
  destruct (run_receive_contents _ s dest (length c) c f1 f' segs (Nat.le_refl _) (enough_pieces c) Hsegs Hs)
    as [tr ->].
  by eexists _, f'.
Qed.

(** C22. The receiver of a file always ends, whatever the other side and the
    network do, and it never stores more than was announced: either nothing
    was opened, or the file was emptied and holds at most the number of bytes
    in the first message, when it is one that can be read at all. *)
Theorem receive_and_save_file_terminates s dest f :
  wp total (receive_and_save_file s dest f) [] (fun tr f' =>
    f' = f \/
    exists b f1, ERecv s (BUFFER_SIZE - 1) (RData b) ∈ tr /\ truncate dest f = Some f1 /\
      (is_Some (contents f1 dest) -> exists d, contents f' dest = Some d /\
        Z.of_nat (length d) <= Z.max 0 (atol (cstr b)))).
Proof.
  unfold receive_and_save_file. cbn [wp]. intros r _.
  destruct r as [b| | |]; try by left.
  apply wp_bind. cbn [wp send_ack mret io_ret]. intros r _.
  destruct (truncate dest f) as [f1|] eqn:Ht; [|by left].
  apply wp_receive_contents.
  - pose proof (Z.div_mod (atol (cstr b)) (Z.of_nat BUFFER_SIZE)).
    pose proof (Z.mod_pos_bound (atol (cstr b)) (Z.of_nat BUFFER_SIZE)).
    unfold BUFFER_SIZE in *. destruct (Z.le_gt_cases 0 (atol (cstr b) / 1024 + 1)); lia.
  - intros tr' f' Hg Hpre. right. exists b, f1. split; [destruct Hpre as [k ->]; set_solver|].
    split; [done|]. intros [d Hd]. destruct (Hg d Hd) as (d' & Hd' & Hl). exists d'. split; [done|].
    rewrite (contents_truncate _ _ _ _ Ht Hd) in Hl. simpl in Hl. lia.
Qed.
End copies.

(** ** Witnesses *)

Definition copy_order : bytes := "copydifferent ./s0 ./copy 10.0.0.2 9000".

Definition copy_its : list item :=
  [DirItem "s0"; DirItem "s0/d"; FileItem "s0/a" "hello"].

Definition copied (backup : bool) (dest : bytes) (its : list item) : files :=
  default ∅ (save_items backup dest its (receive_and_save_directory dest (∅ : files))).

Lemma copy_its_sendable : Forall sendable copy_its.
Proof. apply (bool_decide_unpack _). vm_compute. done. Qed.

Lemma copy_dest_plain : plain_name "./copy".
Proof. apply (bool_decide_unpack _). vm_compute. done. Qed.

Lemma copy_different_replicates_witness :
  let g' := copied false "./copy" copy_its in
  always_ends (Link (copy_different_src 3 example_files copy_order 4 false)
                    (copy_different_dest 5 7 (∅ : files)) [] [])
    FINISHED_COPYING g' /\
  contents g' "./copy/s0/a" = Some (lit "hello") /\ kind_of g' "./copy/s0/d" = Some IsDir.
Proof.
  split.
  - apply (copy_different_replicates 3 5 example_files ∅ _ copy_order "copydifferent"
      " ./s0 ./copy 10.0.0.2 9000" "./s0" "./copy" "10.0.0.2" 9000 copy_its).
    + vm_compute. reflexivity.
    + vm_compute. reflexivity.
    + vm_compute. reflexivity.
    + apply copy_its_sendable.
    + apply copy_dest_plain.
    + vm_compute. lia.
    + vm_compute. reflexivity.
  - split; vm_compute; reflexivity.
Defined.

Definition backup_order : bytes := "copydifferentb ./s0 ./backupfolderforss/s1 10.0.0.2 9000".

Definition backup_its : list item :=
  [DirItem "./s0"; DirItem "./s0/d"; FileItem "./s0/a" "hello"].

(** The backup folder was made when the server started. *)
Definition backup_files : files := <[path_key "./backupfolderforss":=Dir]> ∅.

Definition backed_up : files :=
  default ∅ (save_items true "./backupfolderforss/s1" backup_its
               (receive_and_save_directory "./backupfolderforss/s1" backup_files)).

Lemma copy_different_b_replicates_witness :
  always_ends (Link (copy_different_src_b 3 example_files backup_order 4)
                    (copy_different_dest_b 5 7 backup_files) [] []) FINISHED_COPYING backed_up.
Proof.
  apply (copy_different_b_replicates 3 5 example_files backup_files _ backup_order
    "./s0" "./backupfolderforss/s1" "10.0.0.2" 9000 backup_its).
  - vm_compute. reflexivity.
  - vm_compute. reflexivity.
  - vm_compute. reflexivity.
  - apply (bool_decide_unpack _). vm_compute. done.
  - apply (bool_decide_unpack _). vm_compute. done.
  - vm_compute. lia.
  - vm_compute. reflexivity.
Defined.

Definition file_order : bytes := "lcopy ./s0/a ./copy 10.0.0.2 9000".
Definition before_copy : files := <[path_key "./copy":=Dir]> (<[path_key "./copy/s0":=Dir]> ∅).

Lemma copy_different_file_arrives_witness :
  exists g', contents g' "./copy/s0/a" = Some (lit "hello") /\
    always_ends (Link (copy_different_src 1 example_files file_order 4 true)
                      (copy_different_dest 2 7 before_copy) [] [])
      FINISHED_COPYING g'.
Proof.
  apply (copy_different_file_arrives 1 2 example_files before_copy
    (<[path_key "./copy/s0/a":=Reg []]> before_copy) file_order "lcopy"
    " ./s0/a ./copy 10.0.0.2 9000" "./s0/a" "./copy" "10.0.0.2" 9000 5 "hello" 4 7 true).
  - vm_compute. reflexivity.
  - vm_compute. reflexivity.
  - vm_compute. reflexivity.
  - vm_compute. reflexivity.
  - vm_compute. reflexivity.
  - apply (bool_decide_unpack _). vm_compute. done.
  - apply (bool_decide_unpack _). vm_compute. done.
  - lia.
  - vm_compute. reflexivity.
  - by exists [].
Defined.

Lemma receive_and_save_file_any_segmentation_witness :
  exists tr f',
    run (receive_and_save_file 7 "./copy/b" before_copy)
      [ARecv (RData ("5" ++ [LF])); ASend SErr; ARecv (RData "he"); ARecv (RData "llo"); ASend (SSent 16)]
      = (tr, Done f') /\
    contents f' "./copy/b" = Some (lit "hello").
Proof.
  apply (receive_and_save_file_any_segmentation 7 "./copy/b" before_copy
    (<[path_key "./copy/b":=Reg []]> before_copy) "hello" [([lit "he"; lit "llo"], SSent 16)] SErr).
  - vm_compute. reflexivity.
  - by exists [].
  - vm_compute. reflexivity.
  - vm_compute. repeat constructor; done.
Defined.

Lemma receive_and_save_file_terminates_witness :
  wp total (receive_and_save_file 7 "./copy/b" before_copy) [] (fun tr f' =>
    f' = before_copy \/
    exists b f1, ERecv 7 (BUFFER_SIZE - 1) (RData b) ∈ tr /\ truncate "./copy/b" before_copy = Some f1 /\
      (is_Some (contents f1 "./copy/b") -> exists d, contents f' "./copy/b" = Some d /\
        Z.of_nat (length d) <= Z.max 0 (atol (cstr b)))).
Proof. apply (receive_and_save_file_terminates 7 "./copy/b" before_copy). Defined.

(** A destination that cannot create a file has already acknowledged its size:
    it takes the contents for a message, which it ignores, and waits for the
    next one, while the sender waits for the acknowledgement of the contents.
    The conversation is in lockstep, so every schedule ends here. *)
Definition refused : link bytes files :=
  drive 40 (Link (copy_different_src 1 example_files file_order 4 true) (copy_different_dest 2 7 ∅) [] []).

Lemma refused_file_waits :
  turn_left refused = None /\ turn_right refused = None /\ returned (left_side refused) = false /\
  returned (right_side refused) = false /\ to_left refused = [] /\ to_right refused = [].
Proof. vm_compute. done. Qed.
