(* ===== verification/StorageServer.v ===== *)
(** * The storage server (storage_server.c)

    The commands of the naming server ([listen_to_nm]) and of clients
    ([process_client]), the two kinds of writes, and the table of file locks.
    A handler runs alone: a lock that is taken blocks it for good, and a
    thread it starts is part of its result. *)
From S2P Require Export Transfer Lock.

Open Scope Z_scope.

(** ** What C leaves open *)

(** Objects the program reads without having written them. *)
Class Memory := {
  stale_arg : cres (option bytes);   (** [args[1]] when the command has one word *)
  after_free : bytes -> cres bytes;  (** a freed block that held this string *)
  fresh_heap : cres bytes;           (** a new [malloc] block, as a string *)
  fresh_stack : cres bytes;          (** the 33 bytes of a local array *)
  stale_port : cres Z                (** [port] when the command has no fifth word *)
}.

(** The C standard promises nothing. *)
#[export] Instance strict_memory : Memory := {|
  stale_arg := Undef BadRead; after_free _ := Undef BadRead; fresh_heap := Undef BadRead;
  fresh_stack := Undef BadRead; stale_port := Undef BadRead |}.

(** ** The table of locks *)

(** What a [path_to_file] points to: a string that stays on the heap, one in
    memory that lasts as long as the running handler at most, or memory of a
    handler that has returned. *)
Inductive path_ptr := OnHeap (p : bytes) | InBuffer (p : bytes) | NullPath | Dangling.

Definition path_string (p : path_ptr) : cres bytes :=
  match p with
  | OnHeap s | InBuffer s => Val s
  | NullPath => Undef NullDeref
  | Dangling => Undef BadRead
  end.

Record slot := Slot { path_to_file : path_ptr; lock_of : Lock_Struct }.

Definition MAX_REQ : nat := 1024.

(** [strcmp] of the path with every slot, up to the first match. *)
Fixpoint doesLockRequestedFileAlreadExist (pathToSearch : path_ptr) (conc_array : list slot) (i : Z)
    : cres Z :=
  match conc_array with
  | [] => mret (-1)
  | s :: rest =>
      a ← path_string (path_to_file s);
      b ← path_string pathToSearch;
      if strcmp_eq a b then mret i else doesLockRequestedFileAlreadExist pathToSearch rest (i + 1)
  end.

(** When a handler returns, its buffer is gone. *)
Definition leave_buffer (s : slot) : slot :=
  match path_to_file s with InBuffer _ => Slot Dangling (lock_of s) | _ => s end.

(** ** State *)

Section server.
Context {F : Type} `{Posix F} {mem : Memory}.

Record server := Server { disk : F; conc_array : list slot }.

Abbreviation SM := (M server).

Definition set_disk (f : F) (st : server) : server := Server f (conc_array st).
Definition set_slots (l : list slot) (st : server) : server := Server (disk st) l.

Definition sendS (sock : Z) (m : bytes) : SM Z := liftIO (send_good sock m).

(** The search, and the new slot when there is none. *)
Definition lock_index (path : path_ptr) : SM nat :=
  st ← getS;
  i ← liftC (doesLockRequestedFileAlreadExist path (conc_array st) 0);
  if bool_decide (i = -1) then
    _ ← liftC (within (bool_decide (length (conc_array st) < MAX_REQ)%nat));
    _ ← modifyS (set_slots (conc_array st ++ [Slot path (init_lock 0)]));
    mret (length (conc_array st))
  else mret (Z.to_nat i).

(** An acquire and a release of the lock with this index. *)
Definition take_lock (m : mode) (i : nat) : SM unit :=
  st ← getS;
  s ← liftC (nonnull (conc_array st !! i));
  if must_wait m (lock_of s) then blockM
  else modifyS (set_slots (<[i := Slot (path_to_file s) (acquire m (lock_of s))]> (conc_array st))).

Definition drop_lock (m : mode) (i : nat) : SM unit :=
  st ← getS;
  s ← liftC (nonnull (conc_array st !! i));
  modifyS (set_slots (<[i := Slot (path_to_file s) (release m (lock_of s))]> (conc_array st))).

(** ** Writes *)

Definition ptr_in (place : bytes -> path_ptr) (s : option bytes) : path_ptr :=
  match s with Some p => place p | None => NullPath end.

Definition WRITTEN : bytes := "Data written successfully" ++ [LF].

(** [write_file] on a command in a buffer: what it leaves in [buffer2]. *)
Definition write_file (command : bytes) : SM bytes :=
  let path := tokens "|"%char command !! 1%nat in
  let data := tokens "|"%char command !! 2%nat in
  i ← lock_index (ptr_in InBuffer path);
  _ ← take_lock Wr i;
  p ← liftC (nonnull path);
  st ← getS;
  match append_to p [] (disk st) with
  | None => mret (snprintf BUFFER_SIZE ("Could not open file @ " ++ p ++ " " ++ [LF]))
  | Some f =>
      d ← liftC (nonnull data);
      _ ← modifyS (set_disk (default f (append_to p (d ++ [LF]) f)));
      _ ← drop_lock Wr i;
      mret WRITTEN
  end.

Definition ASYNC_BUFF_LEN : nat := 32.

(** The loop of [write_file_async]: the text it prints to the file, given the
    array and the offset in it. *)
Fixpoint async_text (data buffer : bytes) (buffer_offset : nat) : cres bytes :=
  match data with
  | [] => s ← cstr_in (S ASYNC_BUFF_LEN) buffer; mret (s ++ [LF])
  | c :: data' =>
      let buffer' := <[buffer_offset := c]> buffer in
      if bool_decide (S buffer_offset = ASYNC_BUFF_LEN) then
        s ← cstr_in (S ASYNC_BUFF_LEN) buffer';
        rest ← async_text data' (replicate (S ASYNC_BUFF_LEN) NUL) 0;
        mret (s ++ rest)
      else async_text data' buffer' (S buffer_offset)
  end.

Definition ASYNC_PORT_FOR_NM : Z := 9037.

(** A message on a connection of its own; [false] when the process exits. *)
Definition send_to_nm (nm_ip message : bytes) : SM bool :=
  c ← connectM nm_ip ASYNC_PORT_FOR_NM;
  match c with
  | Connected sock1 =>
      n ← sendS sock1 message;
      if bool_decide (n < 0) then _ ← closeM sock1; mret false
      else _ ← closeM sock1; mret true
  | _ => mret false
  end.

Definition SendACKToNM : bytes -> bytes -> SM bool := send_to_nm.

(** [write_file_async], a thread of its own; [false] when the process exits.
    The data reaches the file when it is closed, or when the process exits. *)
Definition write_file_async (nm_ip command : bytes) (sock : Z) : SM bool :=
  _ ← sendS sock "Write Request Recieved";
  let args := tokens "|"%char command in
  let path := args !! 1%nat in
  i ← lock_index (ptr_in OnHeap path);
  _ ← take_lock Wr i;
  p ← liftC (nonnull path);
  st ← getS;
  match append_to p [] (disk st) with
  | None =>
      _ ← sendS sock ("Failed to open file" ++ [LF]);
      _ ← closeM sock;
      mret true
  | Some f =>
      _ ← modifyS (set_disk f);
      data ← liftC (nonnull (args !! 4%nat));
      stack ← liftC fresh_stack;
      text ← liftC (async_text data stack 0);
      _ ← drop_lock Wr i;
      ip ← liftC (nonnull (args !! 2%nat));
      port_of_cl ← liftC (nonnull (args !! 3%nat));
      ok ← send_to_nm nm_ip (snprintf BUFFER_SIZE
             ("writeasync " ++ p ++ " " ++ ip ++ " " ++ port_of_cl ++ [LF]));
      _ ← modifyS (fun st => set_disk (default (disk st) (append_to p text (disk st))) st);
      if ok : bool then _ ← closeM sock; mret true else mret false
  end.

(** ** Commands on the disk *)

Definition on_disk (g : F -> F * bytes) : SM bytes :=
  st ← getS; let '(f, r) := g (disk st) in _ ← modifyS (set_disk f); mret r.

Definition reading_disk {A} (g : F -> io A) : SM A := st ← getS; liftIO (g (disk st)).

Definition saving_disk (g : F -> io F) : SM unit := f ← reading_disk g; modifyS (set_disk f).

(** [parse_command] into an array of [n] pointers. *)
Definition word_args (n : nat) (command : bytes) : SM (list bytes) :=
  let args := parse_command command in
  _ ← liftC (within (bool_decide (length args <= n)%nat)); mret args.

(** [args[1]] *)
Definition second_arg (args : list bytes) : SM (option bytes) :=
  liftC (match args !! 1%nat with Some a => Val (Some a) | None => stale_arg end).

(** ** Requests of clients and of other servers *)

Inductive served :=
  | Served (thread : option bytes)   (** returned; the command of a thread it started *)
  | Exited.                          (** [exit(EXIT_FAILURE)] *)

Definition SSCOPYB : bytes := "sscopyb".
Definition SSCOPY : bytes := "sscopy".

(** What [strtok] leaves of a string: its first token, with the separators
    before it. *)
Fixpoint strtok_leaves (s : bytes) : bytes :=
  match s with
  | c :: s' =>
      if bool_decide (c = " "%char) then c :: strtok_leaves s'
      else match split_first " "%char s with Some (w, _) => w | None => s end
  | [] => []
  end.

(** The branches of [process_client] after the arguments are parsed. *)
Definition client_request (fuel : nat) (sock : Z) (buffer : bytes) (path : option bytes) : SM unit :=
  if starts_with SSCOPYB buffer then saving_disk (copy_different_dest_b fuel sock)
  else if starts_with SSCOPY buffer then saving_disk (copy_different_dest fuel sock)
  else if starts_with "ls" buffer then _ ← reading_disk (list_file path sock); mret tt
  else if starts_with "cat" buffer then
    i ← lock_index (ptr_in InBuffer path);
    _ ← take_lock Rd i;
    _ ← reading_disk (read_file path sock);
    drop_lock Rd i
  else if starts_with "stream" buffer then _ ← reading_disk (read_mp3_file path sock); mret tt
  else if starts_with "get_info" buffer then reading_disk (send_file_metadata path sock)
  else mret tt.

Definition leave_handler : SM unit :=
  modifyS (fun st => set_slots (leave_buffer <$> conc_array st) st).

Definition process_client (fuel : nat) (nm_ip : bytes) (sock : Z) : SM served :=
  nb ← liftIO (recv_good sock BUFFER_SIZE);
  _ ← liftC (within (bool_decide (0 <= nb.1 < Z.of_nat BUFFER_SIZE)));
  let buffer := cstr nb.2 in
  if starts_with "WRITE_SYNC|" buffer then
    buffer2 ← write_file buffer;
    _ ← sendS sock buffer2;
    ok ← SendACKToNM nm_ip buffer;
    if ok : bool then _ ← closeM sock; _ ← leave_handler; mret (Served None)
    else mret Exited
  else
    _ ← (if starts_with "ping" buffer then _ ← sendS sock "-ping-"; mret tt else mret tt);
    args ← word_args 2 buffer;
    _ ← second_arg args;
    freed ← liftC (after_free (strtok_leaves buffer));
    args' ← word_args 2 freed;
    path ← match args' !! 1%nat with Some a => mret (Some a) | None => second_arg args end;
    (* for "cat" the table gets a pointer into [tempBuffer], which is freed *)
    _ ← client_request fuel sock buffer path;
    _ ← leave_handler;
    if starts_with "WRITE_ASYNC|" buffer then mret (Served (Some buffer))
    else _ ← closeM sock; mret (Served None).

(** ** Commands of the naming server *)

(** [./backupfolderforss/ROOT/PATH], with [ROOT_PATH + 2] and [args[1] + 2]. *)
Definition backup_path (root : bytes) (arg : option bytes) : cres bytes :=
  a ← nonnull arg;
  path ← skipping 2 a;
  folder ← skipping 2 root;
  mret (snprintf MAX_PATH_SIZE ("./backupfolderforss/" ++ folder ++ "/" ++ path)).

(** A command on the backup of a path: nothing is answered. *)
Definition backup_command (root : bytes) (args : list bytes)
    (call : option bytes -> F -> F * bytes) : SM (option bytes) :=
  arg ← second_arg args;
  p ← liftC (backup_path root arg);
  _ ← on_disk (call (Some p));
  mret None.

Definition NO_DESTINATION : bytes := "Could not connect to the destination server" ++ [LF].
Definition NO_MESSAGE : bytes := "Failed to send message to client" ++ [LF].

(** The copies to another server: connect, announce, send. *)
Definition copy_to_server (hello buffer : bytes) (copy : F -> Z -> io bytes) : SM bytes :=
  let words := tokens " "%char buffer in
  ip ← liftC (nonnull (words !! 3%nat));
  port ← liftC (match words !! 4%nat with Some w => Val (atoi w) | None => stale_port end);
  c ← connectM ip (htons port);
  match c with
  | Connected ss_socket =>
      n ← sendS ss_socket hello;
      if bool_decide (n < 0) then mret NO_MESSAGE
      else reading_disk (fun f => copy f ss_socket)
  | _ => mret NO_DESTINATION
  end.

(** [rm], under the delete lock. *)
Definition remove_locked (path : option bytes) : SM bytes :=
  i ← lock_index (ptr_in OnHeap path);
  _ ← take_lock Dl i;
  r ← on_disk (remove_file path);
  _ ← drop_lock Dl i;
  mret r.

Definition answered (m : SM bytes) : SM (option bytes) := r ← m; mret (Some r).

(** One command: what is in [buffer2] at the end, or [None] when the code goes
    on with the next command at once. *)
Definition nm_command (fuel : nat) (root : bytes) (sock : Z) (buffer : bytes) : SM (option bytes) :=
  args ← word_args 5 buffer;
  _ ← (if starts_with "ping" buffer then _ ← sendS sock "-ping-"; mret tt else mret tt);
  if starts_with "touchb" buffer then backup_command root args create_file
  else if starts_with "rmdirb" buffer then backup_command root args delete_directory
  else if starts_with "rmb" buffer then backup_command root args remove_file
  else if starts_with "mkdirb" buffer then backup_command root args create_directory
  else if starts_with "copydifferentb" buffer then
    answered (copy_to_server SSCOPYB buffer (fun f => copy_different_src_b fuel f buffer))
  else if starts_with "touch" buffer then
    answered (path ← second_arg args; on_disk (create_file path))
  else if starts_with "rmdir" buffer then
    answered (path ← second_arg args; on_disk (delete_directory path))
  else if starts_with "rm" buffer then answered (path ← second_arg args; remove_locked path)
  else if starts_with "mkdir" buffer then
    answered (path ← second_arg args; on_disk (create_directory path))
  else if starts_with "write" buffer then answered (r ← write_file buffer; _ ← leave_handler; mret r)
  else if starts_with "reindex" buffer then
    _ ← reading_disk (indexSubFolder fuel root sock); mret None
  else if starts_with "copysame" buffer then
    answered (st ← getS; r ← liftC (copy_same fuel buffer (disk st)); _ ← modifyS (set_disk r.1); mret r.2)
  else if starts_with "lcopy" buffer then
    answered (copy_to_server SSCOPY buffer (fun f sock' => copy_different_src fuel f buffer sock' true))
  else if starts_with "copydifferent" buffer then
    answered (copy_to_server SSCOPY buffer (fun f sock' => copy_different_src fuel f buffer sock' false))
  else answered (liftC fresh_heap).

(** [listen_to_nm]: it ends with the process when the naming server is gone.
    [n] bounds the number of commands, [fuel] the depth of folders. *)
Fixpoint listen_to_nm (n fuel : nat) (root : bytes) (sock : Z) : SM unit :=
  match n with
  | O => blockM
  | S n' =>
      nb ← liftIO (recv_good sock BUFFER_SIZE);
      if bool_decide (nb.1 <= 0) then mret tt
      else
        _ ← liftC (within (bool_decide (nb.1 < Z.of_nat BUFFER_SIZE)));
        reply ← nm_command fuel root sock (cstr nb.2);
        _ ← match reply with Some r => _ ← sendS sock r; mret tt | None => mret tt end;
        listen_to_nm n' fuel root sock
  end.

(** ** Start-up *)

(** [path[0]] and [path[1]]. *)
Definition validate_path (path : bytes) (f : F) : Z :=
  if starts_with "./" path then
    match kind_of f path with Some _ => 1 | None => -2 end
  else -1.
End server.
Arguments server F : clear implicits.
Abbreviation SM F := (M (server F)).

(** ** Equations of execution *)

Lemma M_bind_Ret {S A B} (m : M S A) (k : A -> M S B) st a st' :
  m st = Ret (a, st') -> (m ≫= k) st = k a st'.
Proof. intros Hm. cbv [mbind M_bind]. by rewrite Hm. Qed.

Lemma M_bind_Bad {S A B} (m : M S A) (k : A -> M S B) st u : m st = Bad u -> (m ≫= k) st = Bad u.
Proof. intros Hm. cbv [mbind M_bind]. by rewrite Hm. Qed.

Lemma M_bind_Stuck {S A B} (m : M S A) (k : A -> M S B) st : m st = Stuck -> (m ≫= k) st = Stuck.
Proof. intros Hm. cbv [mbind M_bind]. by rewrite Hm. Qed.

Lemma M_bind_inv {S A B} (m : M S A) (k : A -> M S B) st x :
  (m ≫= k) st = Ret x -> exists a st', m st = Ret (a, st') /\ k a st' = Ret x.
Proof. cbv [mbind M_bind]. destruct (m st) as [[a st']| | | | | | |]; try done. by exists a, st'. Qed.

Lemma liftC_inv {S A} (x : cres A) (st : S) a st' : liftC x st = Ret (a, st') -> x = Val a /\ st' = st.
Proof. destruct x; [|done]. by intros [= -> ->]. Qed.

(** A thread that need not wait leaves the lock as it found it. *)
Lemma release_acquire m s : must_wait m s = false -> release m (acquire m s) = s.
Proof.
  destruct s as [mu r w d ts]. destruct m; cbn [must_wait release acquire readers is_writing is_deleting mutex threads].
  - intros _. f_equal. lia.
  - intros Hw. f_equal. destruct (Z.eqb_spec w 0); [done|]. by simpl in Hw.
  - intros Hw. f_equal. destruct (Z.eqb_spec d 0); [done|]. by destruct (w =? 0).
Qed.

Section table.
Context {F : Type} `{Posix F}.
Implicit Types st : server F.

Definition slot_has (p : bytes) (s : slot) : Prop := path_string (path_to_file s) = Val p.

Definition readable (s : slot) : Prop := exists p, slot_has p s.

(** The lock of a path can be had at once. *)
Definition lock_free (m : mode) (p : bytes) (slots : list slot) : Prop :=
  Forall (fun s => slot_has p s -> must_wait m (lock_of s) = false) slots.

Lemma doesLock_spec path p slots i :
  Forall readable slots -> path_string path = Val p ->
  exists r, doesLockRequestedFileAlreadExist path slots i = Val r /\
    ((r = -1 /\ Forall (fun s => ~ slot_has p s) slots) \/
     exists k s, r = i + Z.of_nat k /\ slots !! k = Some s /\ slot_has p s).
Proof.
  intros Hr Hp. revert i; induction Hr as [|s slots [q Hq] Hr IH]; intros i; cbn.
  - exists (-1). split; [done|]. by left.
  - unfold slot_has in Hq. rewrite Hq, Hp. cbn. destruct (strcmp_eq q p) eqn:Heq.
    + apply strcmp_eq_true in Heq as ->. exists i. split; [done|]. right. exists 0%nat, s.
      split; [lia|]. done.
    + destruct (IH (i + 1)) as (r & Hrr & Hcase). exists r. split; [done|].
      destruct Hcase as [[-> Hno]|(k & s' & -> & Hk & Hs')].
      * left. split; [done|]. constructor; [|done]. unfold slot_has. rewrite Hq.
        intros [= ->]. by rewrite strcmp_eq_refl in Heq.
      * right. exists (S k), s'. split; [lia|]. done.
Qed.

(** The search only reads the strings. *)
Lemma doesLock_paths path path' l l' i :
  path_string path = path_string path' -> path_to_file <$> l = path_to_file <$> l' ->
  doesLockRequestedFileAlreadExist path l i = doesLockRequestedFileAlreadExist path' l' i.
Proof.
  intros Hp. revert l' i; induction l as [|s l IH]; intros [|s' l'] i Hl; try done.
  injection Hl as Hs Hl. cbn. rewrite Hs, Hp. destruct (path_string (path_to_file s')) as [a|]; [|done].
  cbn. destruct (path_string path') as [b|]; [|done]. cbn. destruct (strcmp_eq a b); [done|by apply IH].
Qed.

Lemma doesLock_last path p slots s i :
  Forall readable slots -> Forall (fun s => ~ slot_has p s) slots -> path_string path = Val p ->
  slot_has p s -> doesLockRequestedFileAlreadExist path (slots ++ [s]) i = Val (i + Z.of_nat (length slots)).
Proof.
  intros Hr Hno Hp Hs. revert i Hno; induction Hr as [|x slots [q Hq] Hr IH]; intros i Hno; cbn.
  - unfold slot_has in Hs. rewrite Hs, Hp. cbn. rewrite strcmp_eq_refl. cbn. f_equal. lia.
  - apply Forall_cons in Hno as [Hx Hno]. unfold slot_has in *. rewrite Hq, Hp. cbn.
    destruct (strcmp_eq q p) eqn:Heq; [apply strcmp_eq_true in Heq as ->; done|].
    rewrite IH by done. f_equal. lia.
Qed.

(** The slot of a path, and the table with it, in which it is found again. *)
Definition indexed (path : path_ptr) (p : bytes) (slots : list slot) (i : nat) (slots' : list slot) : Prop :=
  (exists s, slots' !! i = Some s /\ slot_has p s /\
    forall path', path_string path' = Val p ->
      doesLockRequestedFileAlreadExist path' slots' 0 = Val (Z.of_nat i)) /\
  ((slots' = slots) \/
   (slots' = slots ++ [Slot path (init_lock 0)] /\ Forall (fun s => ~ slot_has p s) slots)).

Lemma lock_index_run path p st :
  Forall readable (conc_array st) -> path_string path = Val p -> (length (conc_array st) < MAX_REQ)%nat ->
  exists i slots', lock_index path st = Ret (i, set_slots slots' st) /\ indexed path p (conc_array st) i slots'.
Proof.
  intros Hr Hp Hroom. destruct st as [f slots]. cbn [conc_array] in *.
  destruct (doesLock_spec path p slots 0 Hr Hp) as (r & Hrun & Hcase).
  unfold lock_index. erewrite M_bind_Ret by reflexivity. cbn [conc_array].
  rewrite Hrun, liftC_Val. destruct Hcase as [[-> Hno]|(k & s & -> & Hk & Hs)].
  - rewrite bool_decide_eq_true_2 by done. rewrite bool_decide_eq_true_2 by done.
    exists (length slots), (slots ++ [Slot path (init_lock 0)]). split; [done|]. split; [|by right].
    exists (Slot path (init_lock 0)). split; [by rewrite list_lookup_middle|]. split; [done|].
    intros path' Hp'. by erewrite doesLock_last.
  - rewrite bool_decide_eq_false_2 by lia. exists k, slots. split.
    + by rewrite Z.add_0_l, Nat2Z.id.
    + split; [|by left]. exists s. split; [done|]. split; [done|]. intros path' Hp'.
      rewrite <- (Z.add_0_l (Z.of_nat k)), <- Hrun. apply doesLock_paths; [congruence|done].
Qed.

Lemma lock_free_indexed m path p slots i slots' s :
  lock_free m p slots -> indexed path p slots i slots' -> slots' !! i = Some s -> slot_has p s ->
  must_wait m (lock_of s) = false.
Proof.
  intros Hf [_ [->|[-> _]]] Hs Hp.
  - unfold lock_free in Hf. rewrite Forall_lookup in Hf. by eapply Hf.
  - apply lookup_app_Some in Hs as [Hs|[_ Hs]].
    + unfold lock_free in Hf. rewrite Forall_lookup in Hf. by eapply Hf.
    + apply list_lookup_singleton_Some in Hs as [_ <-]. by destruct m.
Qed.

Lemma take_lock_run m i st s :
  conc_array st !! i = Some s -> must_wait m (lock_of s) = false ->
  take_lock m i st =
    Ret (tt, set_slots (<[i := Slot (path_to_file s) (acquire m (lock_of s))]> (conc_array st)) st).
Proof.
  intros Hs Hm. unfold take_lock. erewrite M_bind_Ret by reflexivity. rewrite Hs. cbn [nonnull].
  rewrite liftC_Val, Hm. done.
Qed.

Lemma take_lock_blocks m i st s :
  conc_array st !! i = Some s -> must_wait m (lock_of s) = true -> take_lock m i st = Stuck.
Proof.
  intros Hs Hm. unfold take_lock. erewrite M_bind_Ret by reflexivity. rewrite Hs. cbn [nonnull].
  by rewrite liftC_Val, Hm.
Qed.

(** Releasing what was acquired, whatever happened to the disk. *)
Lemma drop_lock_run m i (f : F) slots s :
  slots !! i = Some s -> must_wait m (lock_of s) = false ->
  drop_lock m i (Server f (<[i := Slot (path_to_file s) (acquire m (lock_of s))]> slots)) =
    Ret (tt, Server f slots).
Proof.
  intros Hs Hm. unfold drop_lock. erewrite M_bind_Ret by reflexivity. cbn [conc_array].
  rewrite list_lookup_insert_eq by (by eapply lookup_lt_Some). cbn [nonnull]. rewrite liftC_Val.
  cbn [path_to_file lock_of]. rewrite release_acquire, list_insert_insert_eq by done.
  unfold modifyS, set_slots. cbn [disk]. rewrite list_insert_id; [done|]. by destruct s.
Qed.
End table.
