(* ===== verification/StorageWrites.v ===== *)
(** * Writes on the storage server: what they leave in the file and in the
    table of locks *)
From S2P Require Export StorageServer.

Open Scope Z_scope.

(** ** [write_file] *)

Section writes.
Context {F : Type} `{PosixLaws F}.
Implicit Types st : server F.

Lemma write_file_run command st p d w rest f f' :
  tokens "|"%char command = w :: p :: d :: rest ->
  Forall readable (conc_array st) -> (length (conc_array st) < MAX_REQ)%nat ->
  lock_free Wr p (conc_array st) ->
  append_to p [] (disk st) = Some f -> append_to p (d ++ [LF]) f = Some f' ->
  exists i slots', write_file command st = Ret (WRITTEN, Server f' slots') /\
    indexed (InBuffer p) p (conc_array st) i slots'.
Proof.
  intros Htok Hr Hroom Hfree Ha Ha'. destruct (lock_index_run (InBuffer p) p st) as (i & slots' & Hi & Hix); [done..|].
  destruct Hix as [(s & Hs & Hp & Hagain) Hcase]. exists i, slots'. split; [|by split; [exists s|]].
  assert (must_wait Wr (lock_of s) = false) as Hm by (eapply lock_free_indexed; [done|by split; [exists s|]|done..]).
  unfold write_file. rewrite Htok. cbn [lookup list_lookup ptr_in].
  rewrite (M_bind_Ret _ _ _ _ _ Hi), (M_bind_Ret _ _ _ _ _ (take_lock_run Wr i (set_slots slots' st) s Hs Hm)).
  cbn [nonnull]. rewrite liftC_Val. erewrite M_bind_Ret by reflexivity. cbn [disk set_slots].
  rewrite Ha. cbn [nonnull]. rewrite liftC_Val. erewrite M_bind_Ret by reflexivity.
  unfold set_disk. cbn [conc_array set_slots]. rewrite Ha'. cbn [default].
  rewrite (M_bind_Ret _ _ _ _ _ (drop_lock_run Wr i f' slots' s Hs Hm)). done.
Qed.

(** ** The text of an asynchronous write *)

Lemma cstr_in_app n s r : NUL ∉ s -> cstr_in n (s ++ NUL :: r) = Val s.
Proof. intros Hs. unfold cstr_in. by rewrite split_first_app. Qed.

Lemma insert_offset (done : bytes) g gs c : <[length done := c]> (done ++ g :: gs) = done ++ c :: gs.
Proof. rewrite insert_app_r_alt by done. by rewrite Nat.sub_diag. Qed.

(** Short data is printed with what follows it in the array. *)
Lemma async_text_short data stack done :
  (length done + length data < ASYNC_BUFF_LEN)%nat -> (length data <= length stack)%nat ->
  async_text data (done ++ stack) (length done) =
    (s ← cstr_in (S ASYNC_BUFF_LEN) (done ++ data ++ drop (length data) stack); mret (s ++ [LF])).
Proof.
  revert stack done; induction data as [|c data IH]; intros stack dn Hl Hs; [by rewrite drop_0|].
  destruct stack as [|g gs]; [simpl in Hs; lia|]. cbn [async_text length].
  rewrite insert_offset, bool_decide_eq_false_2 by (simpl in Hl; lia).
  specialize (IH gs (dn ++ [c])). rewrite length_app in IH. cbn [length] in IH.
  rewrite Nat.add_1_r, <- app_assoc in IH. cbn [app] in IH.
  rewrite IH by (simpl in *; lia). by rewrite <- app_assoc.
Qed.

(** From an array of zeroes everything is printed. *)
Lemma async_text_zeroes data done :
  NUL ∉ done -> NUL ∉ data -> (length done < ASYNC_BUFF_LEN)%nat ->
  async_text data (done ++ replicate (S ASYNC_BUFF_LEN - length done) NUL) (length done) =
    Val (done ++ data ++ [LF]).
Proof.
  revert done; induction data as [|c data IH]; intros dn Hd Hn Hl.
  - cbn [async_text].
    replace (S ASYNC_BUFF_LEN - length dn)%nat with (S (ASYNC_BUFF_LEN - length dn)) by lia.
    cbn [replicate]. by rewrite cstr_in_app.
  - apply not_elem_of_cons in Hn as [Hc Hn].
    replace (S ASYNC_BUFF_LEN - length dn)%nat with (S (S (ASYNC_BUFF_LEN - length dn - 1))) by lia.
    cbn [async_text replicate]. rewrite insert_offset.
    assert (NUL ∉ dn ++ [c]) as Hd'
      by (apply not_elem_of_app; split; [done|]; by intros H1%list_elem_of_singleton).
    assert (length (dn ++ [c]) = S (length dn)) as Hl' by (rewrite length_app; simpl; lia).
    assert (forall r, dn ++ c :: r = (dn ++ [c]) ++ r) as Hsh by (intros r; by rewrite <- app_assoc).
    case_bool_decide as Hfull.
    + rewrite Hsh. cbn [replicate]. rewrite cstr_in_app by done. cbn [mbind cres_bind].
      specialize (IH [] (not_elem_of_nil _) Hn). cbn [length app] in IH.
      rewrite Nat.sub_0_r in IH. cbn [replicate] in IH.
      rewrite IH by (unfold ASYNC_BUFF_LEN; lia). cbn. by rewrite <- app_assoc.
    + specialize (IH (dn ++ [c]) Hd' Hn). rewrite Hl' in IH.
      rewrite Hsh. replace (NUL :: replicate (ASYNC_BUFF_LEN - length dn - 1) NUL)
        with (replicate (S ASYNC_BUFF_LEN - S (length dn)) NUL).
      * rewrite IH by lia. by rewrite <- app_assoc.
      * replace (S ASYNC_BUFF_LEN - S (length dn))%nat with (S (ASYNC_BUFF_LEN - length dn - 1)) by lia. done.
Qed.
End writes.

(** ** The request "WRITE_SYNC|path|data" *)

Lemma wpM_eq {S A} R (m : M S A) st a st' tr (Q : list event -> A -> S -> Prop) :
  m st = Ret (a, st') -> Q tr a st' -> wpM R m st tr Q.
Proof. intros Hm HQ. unfold wpM. by rewrite Hm. Qed.

Lemma wpM_eq_bind {S A B} R (m : M S A) (k : A -> M S B) st a st' tr Q :
  m st = Ret (a, st') -> wpM R (k a) st' tr Q -> wpM R (m ≫= k) st tr Q.
Proof. intros Hm HQ. apply wpM_bind. by eapply wpM_eq. Qed.

Lemma wpM_Val_bind {S A B} R (a : A) (k : A -> M S B) st tr Q :
  wpM R (k a) st tr Q -> wpM R (liftC (Val a) ≫= k) st tr Q.
Proof. done. Qed.

(** The request arrives whole, sends succeed, and the naming server accepts
    connections. *)
Definition request_env (sock : Z) (cmd : bytes) (e : event) : Prop :=
  match e with
  | ERecv _ _ r => r = RData cmd
  | ESend _ _ r => exists n, r = SSent n
  | EConnect _ _ r => exists fd, r = Connected fd /\ fd <> sock
  | _ => True
  end.

(** No lock is held. *)
Definition quiet (slots : list slot) : Prop := Forall (fun s => must_wait Wr (lock_of s) = false) slots.

Definition ends_at_bar (rest : bytes) : Prop := rest = [] \/ exists r, rest = "|"%char :: r.

Lemma tokens_ends d rest :
  word "|" d -> ends_at_bar rest -> exists ts, tokens "|"%char (d ++ rest) = d :: ts.
Proof.
  intros Hd [->|[r ->]].
  - exists []. rewrite app_nil_r. by apply tokens_word; destruct Hd.
  - exists (tokens "|"%char r). by apply tokens_word_cons.
Qed.

Section requests.
Context {F : Type} `{PosixLaws F} `{Memory}.
Implicit Types st : server F.

(** A well-formed synchronous write with nothing in its way. *)
Record sync_write st (cmd p d rest : bytes) : Prop := {
  sw_cmd : cmd = "WRITE_SYNC|" ++ p ++ "|"%char :: d ++ rest;
  sw_path : word "|" p;
  sw_data : word "|" d;
  sw_rest : ends_at_bar rest;
  sw_free : NUL ∉ cmd;
  sw_length : (length cmd < BUFFER_SIZE)%nat;
  sw_readable : Forall readable (conc_array st);
  sw_quiet : quiet (conc_array st);
  sw_room : (length (conc_array st) < MAX_REQ)%nat
}.

Lemma process_sync_write fuel nm_ip sock st cmd p d rest f f' :
  sync_write st cmd p d rest ->
  append_to p [] (disk st) = Some f -> append_to p (d ++ [LF]) f = Some f' ->
  wpM (returns (request_env sock cmd)) (process_client fuel nm_ip sock) st [] (fun tr r st' =>
    r = Served None /\ disk st' = f' /\ sent_to sock tr = [WRITTEN] /\
    (exists fd, EConnect nm_ip ASYNC_PORT_FOR_NM (Connected fd) ∈ tr /\ sent_to fd tr = [cmd]) /\
    exists i slots', conc_array st' = leave_buffer <$> slots' /\
      indexed (InBuffer p) p (conc_array st) i slots').
Proof.
  intros [Hcmd Hp Hd Hrest Hnul Hlen Hr Hq Hroom] Ha Ha'.
  assert (exists ts, tokens "|"%char cmd = lit "WRITE_SYNC" :: p :: d :: ts) as [ts Htok].
  { destruct (tokens_ends d rest Hd Hrest) as [ts Hts]. exists ts. rewrite Hcmd.
    change (lit "WRITE_SYNC|" ++ ?x) with (lit "WRITE_SYNC" ++ "|"%char :: x).
    rewrite tokens_word_cons by (split; [by apply (bool_decide_unpack _)|done]).
    by rewrite tokens_word_cons, Hts. }
  assert (starts_with "WRITE_SYNC|" cmd = true) as Hstart by (rewrite Hcmd; apply starts_with_app).
  assert (lock_free Wr p (conc_array st)) as Hfree by (eapply Forall_impl; [exact Hq|]; by intros).
  destruct (write_file_run cmd st p d _ ts f f' Htok Hr Hroom Hfree Ha Ha') as (i & slots' & Hw & Hix).
  apply wpM_bind, wpM_recv. cbn [env returns request_env]. intros r _ ->. cbn [recv_value fst snd].
  apply wpM_bind, wpM_liftC. rewrite bool_decide_eq_true_2 by lia. cbn [within].
  rewrite cstr_free, Hstart by done. apply wpM_bind. eapply wpM_eq; [exact Hw|].
  apply wpM_bind, wpM_send. cbn [env returns request_env]. intros r [n ->].
  apply wpM_bind. unfold SendACKToNM, send_to_nm.
  apply wpM_bind, wpM_connect. cbn [env returns request_env]. intros r' (fd & -> & Hfd).
  apply wpM_bind, wpM_send. cbn [env returns request_env]. intros r' [n' ->].
  cbn [send_value]. rewrite bool_decide_eq_false_2 by lia.
  apply Z.eqb_neq in Hfd as Hfd'. rewrite Z.eqb_sym in Hfd'.
  wpM_pure. cbn [disk conc_array set_slots]. split; [done|]. split; [done|]. split; [|split].
  - rewrite !sent_to_app. cbn [sent_to app]. by rewrite Hfd', Z.eqb_refl.
  - exists fd. split; [apply (bool_decide_unpack _) || set_solver|].
    rewrite !sent_to_app. cbn [sent_to app]. rewrite Z.eqb_refl. by rewrite Z.eqb_sym, Hfd'.
  - by exists i, slots'.
Qed.

(** A search that runs into the buffer of a handler that has returned. *)
Lemma doesLock_dangling path q slots slot rest i :
  path_string path = Val q -> Forall (fun s => ~ slot_has q s) slots ->
  Forall (fun s => path_to_file s <> NullPath) slots -> path_to_file slot = Dangling ->
  doesLockRequestedFileAlreadExist path (slots ++ slot :: rest) i = Undef BadRead.
Proof.
  intros Hq Hno Hnn Hd. revert i; induction Hno as [|s slots Hs Hno IH]; intros i; cbn.
  - by rewrite Hd.
  - apply Forall_cons in Hnn as [Hn Hnn]. unfold slot_has in Hs.
    destruct (path_to_file s) as [a|a| |]; try done; cbn in *; rewrite Hq; cbn;
      (destruct (strcmp_eq a q) eqn:Heq; [apply strcmp_eq_true in Heq as ->; done|by apply IH]).
Qed.

Lemma slot_has_left q s : ~ slot_has q s -> ~ slot_has q (leave_buffer s).
Proof. unfold slot_has, leave_buffer. by destruct (path_to_file s) eqn:He; cbn; rewrite ?He. Qed.

Lemma readable_not_null s : readable s -> path_to_file (leave_buffer s) <> NullPath.
Proof.
  intros [q Hq]. unfold slot_has in Hq. unfold leave_buffer. by destruct (path_to_file s) eqn:He; cbn; rewrite ?He.
Qed.

Lemma quiet_indexed path p slots i slots' :
  quiet slots -> indexed path p slots i slots' -> quiet slots'.
Proof.
  intros Hq [_ [->|[-> _]]]; [done|]. apply Forall_app. split; [done|]. by apply Forall_singleton.
Qed.

Lemma append_line `{!DiskRoom F} p d (f : F) c :
  contents f p = Some c ->
  exists f1 f2, append_to p [] f = Some f1 /\ append_to p (d ++ [LF]) f1 = Some f2 /\
    contents f2 p = Some (c ++ d ++ [LF]).
Proof.
  intros Hc. destruct (append_succeeds p [] c f Hc) as [f1 Hf1].
  pose proof (contents_append _ _ _ _ _ Hc Hf1) as Hc1. rewrite app_nil_r in Hc1.
  destruct (append_succeeds p (d ++ [LF]) c f1 Hc1) as [f2 Hf2]. exists f1, f2.
  split; [done|]. split; [done|]. by eapply contents_append.
Qed.

(** C10. A synchronous write appends a line: for a request
    "WRITE_SYNC|path|data" of fewer than 1024 bytes that arrives whole, on a
    file that exists and can be read and written, while sends succeed, the
    naming server accepts the connection and the disk has room, the handler
    ends with the data and a line feed at the end of the file, answers exactly
    "Data written successfully", passes the request on to the naming server
    on a connection of its own, and holds no lock.  The data ends at its first
    bar: whatever follows a second one is lost.  It assumes that no lock is
    held, that the table of locks has room, and that all its paths can be
    read; the last fails once any synchronous write has added a slot (C26),
    and then the search that the handler makes may be undefined. *)
Theorem write_sync_appends `{!DiskRoom F} fuel nm_ip sock st cmd p d rest c :
  sync_write st cmd p d rest -> contents (disk st) p = Some c ->
  wpM (returns (request_env sock cmd)) (process_client fuel nm_ip sock) st [] (fun tr r st' =>
    r = Served None /\ contents (disk st') p = Some (c ++ d ++ [LF]) /\ sent_to sock tr = [WRITTEN] /\
    (exists fd, EConnect nm_ip ASYNC_PORT_FOR_NM (Connected fd) ∈ tr /\ sent_to fd tr = [cmd]) /\
    quiet (conc_array st')).
Proof.
  intros Hsw Hc. destruct (append_line p d (disk st) c Hc) as (f & f' & Ha & Ha' & Hc').
  eapply wpM_mono; [by eapply process_sync_write|].
  intros tr r st' (-> & -> & Hsent & Hfd & i & slots' & -> & Hix). split_and!; try done.
  apply Forall_fmap. eapply Forall_impl; [eapply quiet_indexed; [apply Hsw|exact Hix]|].
  intros s Hs. unfold compose, leave_buffer. by destruct (path_to_file s).
Qed.

(** C26. A synchronous write spoils the table of locks: the path of the new
    slot lies in the buffer of the handler's stack frame, so after the first
    write of a file any request that looks for the lock of a file that is not
    found before that slot reads memory that is gone. *)
Theorem write_sync_leaves_dangling_path fuel nm_ip sock st cmd p d rest f f' :
  sync_write st cmd p d rest -> Forall (fun s => ~ slot_has p s) (conc_array st) ->
  append_to p [] (disk st) = Some f -> append_to p (d ++ [LF]) f = Some f' ->
  wpM (returns (request_env sock cmd)) (process_client fuel nm_ip sock) st [] (fun tr r st' =>
    forall path q, path_string path = Val q -> Forall (fun s => ~ slot_has q s) (conc_array st) ->
      lock_index path st' = Bad BadRead).
Proof.
  intros Hsw Hnew Ha Ha'. eapply wpM_mono; [by eapply process_sync_write|].
  intros tr r st' (_ & _ & _ & _ & i & slots' & Hslots & [(s & Hs & Hp & _) Hcase]) path q Hq Hno.
  assert (slots' = conc_array st ++ [Slot (InBuffer p) (init_lock 0)]) as ->.
  { destruct Hcase as [->|[-> _]]; [|done]. exfalso. rewrite Forall_lookup in Hnew. by eapply Hnew. }
  unfold lock_index. erewrite M_bind_Ret by reflexivity. rewrite Hslots, fmap_app.
  change (leave_buffer <$> [Slot (InBuffer p) (init_lock 0)]) with [Slot Dangling (init_lock 0)].
  erewrite doesLock_dangling; [done|exact Hq|..|done].
  - apply Forall_fmap. eapply Forall_impl; [exact Hno|]. intros x Hx. by apply slot_has_left.
  - apply Forall_fmap. eapply Forall_impl; [apply Hsw|]. intros x Hx. by apply readable_not_null.
Qed.

(** ** The request "WRITE_ASYNC|path|ip|port|data" *)

(** C28. An asynchronous write appends a line too, when the array of the
    handler happens to be zero: the client gets "Write Request Recieved", the
    file ends with the data and a line feed, the naming server is told the
    path and the address of the client, and no lock is held.  The file exists
    and can be read and written, sends succeed, the naming server accepts the
    connection, and the disk has room; no lock is held when the handler
    starts, the table of locks has room, and all its paths can be read, which
    fails once any synchronous write has added a slot (C26). *)
Theorem write_async_appends `{!DiskRoom F} nm_ip sock st command w p ip port d rest c :
  tokens "|"%char command = w :: p :: ip :: port :: d :: rest -> NUL ∉ d ->
  fresh_stack = Val (replicate (S ASYNC_BUFF_LEN) NUL) ->
  Forall readable (conc_array st) -> quiet (conc_array st) -> (length (conc_array st) < MAX_REQ)%nat ->
  contents (disk st) p = Some c ->
  wpM (returns (request_env sock [])) (write_file_async nm_ip command sock) st [] (fun tr ok st' =>
    ok = true /\ contents (disk st') p = Some (c ++ d ++ [LF]) /\
    sent_to sock tr = [lit "Write Request Recieved"] /\
    (exists fd, EConnect nm_ip ASYNC_PORT_FOR_NM (Connected fd) ∈ tr /\
      sent_to fd tr = [snprintf BUFFER_SIZE ("writeasync " ++ p ++ " " ++ ip ++ " " ++ port ++ [LF])]) /\
    quiet (conc_array st')).
Proof.
  intros Htok Hd Hstack Hr Hq Hroom Hc. destruct (append_line p d (disk st) c Hc) as (f & f' & Ha & Ha' & Hc').
  destruct (lock_index_run (OnHeap p) p st) as (i & slots' & Hi & Hix); [done..|].
  pose proof (quiet_indexed _ _ _ _ _ Hq Hix) as Hq'.
  destruct Hix as [(s & Hs & Hp & _) _].
  assert (must_wait Wr (lock_of s) = false) as Hm by (unfold quiet in Hq'; rewrite Forall_lookup in Hq'; by eapply Hq').
  unfold write_file_async. rewrite Htok. cbn [lookup list_lookup ptr_in].
  apply wpM_bind, wpM_send. cbn [env returns request_env]. intros r [n ->].
  eapply wpM_eq_bind; [exact Hi|]. eapply wpM_eq_bind; [apply take_lock_run; [exact Hs|exact Hm]|].
  wpM_pure. cbn [disk set_slots]. rewrite Ha. wpM_pure.
  rewrite Hstack. apply wpM_Val_bind.
  pose proof (async_text_zeroes d [] (not_elem_of_nil _) Hd) as Ht. cbn [app length] in Ht.
  rewrite Nat.sub_0_r in Ht. cbn [fst snd]. rewrite Ht by (unfold ASYNC_BUFF_LEN; lia).
  apply wpM_Val_bind.
  eapply wpM_eq_bind; [apply drop_lock_run; [exact Hs|exact Hm]|].
  do 2 apply wpM_Val_bind.
  apply wpM_bind. unfold send_to_nm. apply wpM_bind, wpM_connect. cbn [env returns request_env]. intros r' (fd & -> & Hfd).
  apply wpM_bind, wpM_send. cbn [env returns request_env]. intros r' [n' ->].
  cbn [send_value]. rewrite bool_decide_eq_false_2 by lia. wpM_pure.
  apply Z.eqb_neq in Hfd as Hfd'. rewrite Z.eqb_sym in Hfd'.
  cbn [disk conc_array set_disk]. rewrite Ha'. cbn [default]. split; [done|]. split; [done|]. split; [|split; [|done]].
  - rewrite !sent_to_app. cbn [sent_to app]. by rewrite Hfd', Z.eqb_refl.
  - exists fd. split; [set_solver|].
    rewrite !sent_to_app. cbn [sent_to app]. rewrite Z.eqb_refl. by rewrite Z.eqb_sym, Hfd'.
Qed.

(** A later table: the paths of the earlier slots are still there, and the
    lock of slot [i] is as it was. *)
Definition keeps_slot (i : nat) (slots slots2 : list slot) : Prop :=
  (path_to_file <$> slots) `prefix_of` (path_to_file <$> slots2) /\
  lock_of <$> slots2 !! i = lock_of <$> slots !! i.

Lemma doesLock_app path l l' i j :
  0 <= i -> doesLockRequestedFileAlreadExist path l i = Val j -> j <> -1 ->
  doesLockRequestedFileAlreadExist path (l ++ l') i = Val j.
Proof.
  revert i; induction l as [|s l IH]; intros i Hi Hj Hne; cbn in *; [injection Hj; lia|].
  destruct (path_string (path_to_file s)) as [x|]; [|done]. cbn in *. destruct (path_string path) as [y|]; [|done].
  cbn in *. destruct (strcmp_eq x y); [done|]. apply IH; [lia|done..].
Qed.

(** The search finds the same slot in a later table. *)
Lemma lock_index_later i slots st2 path :
  doesLockRequestedFileAlreadExist path slots 0 = Val (Z.of_nat i) -> keeps_slot i slots (conc_array st2) ->
  lock_index path st2 = Ret (i, st2).
Proof.
  intros Hi [[rest Hrest] _]. unfold lock_index. erewrite M_bind_Ret by reflexivity.
  assert (doesLockRequestedFileAlreadExist path (conc_array st2) 0 = Val (Z.of_nat i)) as ->.
  { rewrite <- (take_drop (length slots) (conc_array st2)). apply doesLock_app; [lia| |lia].
    rewrite <- Hi. apply doesLock_paths; [done|]. rewrite fmap_take, Hrest.
    apply take_app_length'. by rewrite length_fmap. }
  rewrite liftC_Val, bool_decide_eq_false_2 by lia. by rewrite Nat2Z.id.
Qed.

Lemma take_lock_later m i s slots st2 :
  slots !! i = Some s -> must_wait m (lock_of s) = true -> keeps_slot i slots (conc_array st2) ->
  take_lock m i st2 = Stuck.
Proof.
  intros Hs Hm [_ Hk]. rewrite Hs in Hk. destruct (conc_array st2 !! i) as [s2|] eqn:Hs2; [|done]. injection Hk as Hk.
  eapply take_lock_blocks; [exact Hs2|by rewrite Hk].
Qed.

Lemma acquire_Wr_waits m s : must_wait m (acquire Wr s) = true.
Proof. by destruct m. Qed.

Lemma write_file_async_waits nm_ip command sock st ans w p args i :
  tokens "|"%char command = w :: p :: args -> lock_index (OnHeap p) st = Ret (i, st) -> take_lock Wr i st = Stuck ->
  (run (write_file_async nm_ip command sock st) ans).2 = Blocked.
Proof.
  intros Htok Hi Hw. unfold write_file_async. rewrite Htok. cbn [lookup list_lookup ptr_in].
  match goal with |- (run ((_ ≫= ?k) st) ans).2 = _ =>
    assert (forall r, k r st = Stuck) as Hk; [|revert Hk; generalize k; intros k' Hk] end.
  { intros r. etransitivity; [eapply M_bind_Ret, Hi|]. cbv beta. by apply M_bind_Stuck. }
  cbv [mbind M_bind sendS liftIO send_good]. destruct ans as [|[r|r|r] ans]; try done. destruct r; cbn; by rewrite Hk.
Qed.

(** C25. A write that fails keeps its lock: when [write_file_async] cannot open
    the file it reports it and returns without a release.  In every later
    state in which the lock of that slot is as it was then and the paths of
    the table are still there, a synchronous write, an asynchronous one and a
    removal of that path wait for ever.  It assumes that the strings of the
    table can be read, that the lock of the path is free and that the table
    has room when the write begins. *)
Theorem failed_write_keeps_lock nm_ip sock st command w p args :
  tokens "|"%char command = w :: p :: args -> append_to p [] (disk st) = None ->
  Forall readable (conc_array st) -> lock_free Wr p (conc_array st) -> (length (conc_array st) < MAX_REQ)%nat ->
  wpM total (write_file_async nm_ip command sock) st [] (fun tr ok st' =>
    ok = true /\ disk st' = disk st /\
    sent_to sock tr = [lit "Write Request Recieved"; "Failed to open file" ++ [LF]] /\
    exists i s, conc_array st' !! i = Some s /\ slot_has p s /\ (forall m, must_wait m (lock_of s) = true) /\
      forall st2, keeps_slot i (conc_array st') (conc_array st2) ->
        remove_locked (Some p) st2 = Stuck /\
        forall command' w' args', tokens "|"%char command' = w' :: p :: args' ->
          write_file command' st2 = Stuck /\
          forall nm_ip' sock' ans, (run (write_file_async nm_ip' command' sock' st2) ans).2 = Blocked).
Proof.
  intros Htok Ha Hr Hfree Hroom.
  destruct (lock_index_run (OnHeap p) p st) as (i & slots' & Hi & Hix); [done..|].
  pose proof Hix as [(s & Hs & Hp & Hagain) _].
  pose proof (lock_free_indexed _ _ _ _ _ _ _ Hfree Hix Hs Hp) as Hm.
  set (slots2 := <[i := Slot (path_to_file s) (acquire Wr (lock_of s))]> slots').
  assert (slots2 !! i = Some (Slot (path_to_file s) (acquire Wr (lock_of s)))) as Hs2
    by (apply list_lookup_insert_eq; by eapply lookup_lt_Some).
  assert (forall path, path_string path = Val p -> doesLockRequestedFileAlreadExist path slots2 0 = Val (Z.of_nat i))
    as Hfound.
  { intros path Hpath. rewrite <- (Hagain path Hpath). apply doesLock_paths; [done|].
    unfold slots2. rewrite list_fmap_insert. cbn [path_to_file].
    apply list_insert_id. by rewrite list_lookup_fmap, Hs. }
  unfold write_file_async at 1. rewrite Htok. cbn [lookup list_lookup ptr_in].
  apply wpM_bind, wpM_send. intros r _.
  eapply wpM_eq_bind; [exact Hi|]. eapply wpM_eq_bind; [apply take_lock_run; [exact Hs|exact Hm]|].
  wpM_pure. cbn [disk set_slots]. rewrite Ha. apply wpM_bind, wpM_send. intros r' _. wpM_pure.
  split; [done|]. split; [done|]. split; [rewrite !sent_to_app; cbn [sent_to app]; by rewrite Z.eqb_refl|].
  assert (forall m, must_wait m (acquire Wr (lock_of s)) = true) as Hheld by (intros m; apply acquire_Wr_waits).
  exists i, (Slot (path_to_file s) (acquire Wr (lock_of s))). do 3 (split; [done|]). intros st2 Hk.
  assert (forall path, path_string path = Val p -> lock_index path st2 = Ret (i, st2)) as Hindex
    by (intros path Hpath; eapply lock_index_later; [by apply Hfound|exact Hk]).
  assert (forall m, take_lock m i st2 = Stuck) as Hwait by (intros m; by eapply take_lock_later).
  split; [|intros command' w' args' Htok'; split; [|intros nm_ip' sock' ans]].
  - unfold remove_locked. cbn [ptr_in]. erewrite M_bind_Ret by by apply Hindex. by apply M_bind_Stuck.
  - unfold write_file. rewrite Htok'. cbn [lookup list_lookup ptr_in].
    erewrite M_bind_Ret by by apply Hindex. by apply M_bind_Stuck.
  - apply write_file_async_waits with w' p args' i; [done|by apply Hindex|done].
Qed.
End requests.

(** C32. A short asynchronous write prints what the array held before: the
    line is the data followed by the rest of the array up to its first zero
    byte, and without a zero byte the array is left. *)
Theorem async_text_leaks_stack data stack :
  (length data < ASYNC_BUFF_LEN)%nat -> length stack = S ASYNC_BUFF_LEN -> NUL ∉ data ->
  (forall g r, drop (length data) stack = g ++ NUL :: r -> NUL ∉ g ->
     async_text data stack 0 = Val (data ++ g ++ [LF])) /\
  (NUL ∉ drop (length data) stack -> async_text data stack 0 = Undef OutOfBounds).
Proof.
  intros Hd Hs Hn.
  pose proof (async_text_short data stack [] Hd ltac:(lia)) as Ht. cbn [app length] in Ht. rewrite Ht. split.
  - intros g r -> Hg. rewrite app_assoc, cstr_in_app by (by apply not_elem_of_app).
    cbn. by rewrite <- app_assoc.
  - intros Hno. unfold cstr_in.
    assert (NUL ∉ data ++ drop (length data) stack) as Hall by (by apply not_elem_of_app).
    apply split_first_None in Hall as ->. rewrite bool_decide_eq_false_2; [done|].
    rewrite length_app, length_drop. lia.
Qed.

(** ** Witnesses *)

Definition example_ss : server files := Server example_files [].

Definition sync_cmd : bytes := "WRITE_SYNC|./s0/a|more|lost".

Lemma example_sync_write : sync_write example_ss sync_cmd "./s0/a" "more" "|lost".
Proof.
  split.
  - reflexivity.
  - by apply (bool_decide_unpack _).
  - by apply (bool_decide_unpack _).
  - right. by exists (lit "lost").
  - by apply (bool_decide_unpack _).
  - vm_compute. lia.
  - constructor.
  - constructor.
  - vm_compute. lia.
Qed.

Lemma write_sync_appends_witness :
  wpM (returns (request_env 9 sync_cmd)) (process_client 3 "10.0.0.1" 9) example_ss [] (fun tr r st' =>
    r = Served None /\ contents (disk st') "./s0/a" = Some (lit "hello" ++ "more" ++ [LF]) /\
    sent_to 9 tr = [WRITTEN] /\
    (exists fd, EConnect "10.0.0.1" ASYNC_PORT_FOR_NM (Connected fd) ∈ tr /\ sent_to fd tr = [sync_cmd]) /\
    quiet (conc_array st')).
Proof.
  apply (write_sync_appends 3 "10.0.0.1" 9 example_ss sync_cmd "./s0/a" "more" "|lost" "hello").
  - apply example_sync_write.
  - vm_compute. reflexivity.
Defined.

Lemma write_sync_leaves_dangling_path_witness :
  exists f f', append_to "./s0/a" [] example_files = Some f /\ append_to "./s0/a" ("more" ++ [LF]) f = Some f' /\
  wpM (returns (request_env 9 sync_cmd)) (process_client 3 "10.0.0.1" 9) example_ss [] (fun tr r st' =>
    forall path q, path_string path = Val q -> Forall (fun s => ~ slot_has q s) (conc_array example_ss) ->
      lock_index path st' = Bad BadRead).
Proof.
  eexists _, _. split; [reflexivity|]. split; [reflexivity|].
  eapply (write_sync_leaves_dangling_path 3 "10.0.0.1" 9 example_ss sync_cmd "./s0/a" "more" "|lost").
  - apply example_sync_write.
  - constructor.
  - reflexivity.
  - reflexivity.
Defined.

(** Memory that happens to be zero, freed blocks that are still intact. *)
Definition zero_memory : Memory := {|
  stale_arg := Val None; after_free b := Val b; fresh_heap := Val [];
  fresh_stack := Val (replicate (S ASYNC_BUFF_LEN) NUL); stale_port := Val 0 |}.

Definition async_cmd : bytes := "WRITE_ASYNC|./s0/a|10.0.0.7|5000|more".

Lemma write_async_appends_witness :
  wpM (returns (request_env 9 [])) (@write_file_async files _ zero_memory "10.0.0.1" async_cmd 9) example_ss []
    (fun tr ok st' =>
    ok = true /\ contents (disk st') "./s0/a" = Some (lit "hello" ++ "more" ++ [LF]) /\
    sent_to 9 tr = [lit "Write Request Recieved"] /\
    (exists fd, EConnect "10.0.0.1" ASYNC_PORT_FOR_NM (Connected fd) ∈ tr /\
      sent_to fd tr = [snprintf BUFFER_SIZE ("writeasync " ++ "./s0/a" ++ " " ++ "10.0.0.7" ++ " " ++ "5000" ++ [LF])]) /\
    quiet (conc_array st')).
Proof.
  eapply (@write_async_appends files _ _ zero_memory _ "10.0.0.1" 9 example_ss async_cmd).
  - vm_compute. reflexivity.
  - by apply (bool_decide_unpack _).
  - reflexivity.
  - constructor.
  - constructor.
  - vm_compute. lia.
  - vm_compute. reflexivity.
Defined.

Definition missing_cmd : bytes := "WRITE_ASYNC|./none/a|10.0.0.7|5000|more".

Lemma failed_write_keeps_lock_witness :
  wpM total (write_file_async "10.0.0.1" missing_cmd 9) example_ss [] (fun tr ok st' =>
    ok = true /\ disk st' = example_files /\
    sent_to 9 tr = [lit "Write Request Recieved"; "Failed to open file" ++ [LF]] /\
    exists i s, conc_array st' !! i = Some s /\ slot_has "./none/a" s /\ (forall m, must_wait m (lock_of s) = true) /\
      forall st2, keeps_slot i (conc_array st') (conc_array st2) ->
        remove_locked (Some (lit "./none/a")) st2 = Stuck /\
        forall command' w' args', tokens "|"%char command' = w' :: lit "./none/a" :: args' ->
          write_file command' st2 = Stuck /\
          forall nm_ip' sock' ans, (run (write_file_async nm_ip' command' sock' st2) ans).2 = Blocked).
Proof.
  eapply (failed_write_keeps_lock "10.0.0.1" 9 example_ss missing_cmd).
  - vm_compute. reflexivity.
  - vm_compute. reflexivity.
  - constructor.
  - constructor.
  - vm_compute. lia.
Defined.

Lemma async_text_leaks_stack_witness :
  async_text "more" (repeat "x"%char 10 ++ NUL :: repeat "y"%char 22) 0 =
    Val (lit "more" ++ repeat "x"%char 6 ++ [LF]) /\
  async_text "more" (repeat "x"%char 33) 0 = Undef OutOfBounds.
Proof.
  split.
  - eapply async_text_leaks_stack; [vm_compute; lia|reflexivity|by apply (bool_decide_unpack _)|reflexivity|].
    by apply (bool_decide_unpack _).
  - apply async_text_leaks_stack; [vm_compute; lia|reflexivity|by apply (bool_decide_unpack _)|].
    by apply (bool_decide_unpack _).
Defined.
