(* ===== verification/StorageDispatch.v ===== *)
(** * Dispatch on the storage server: the commands of the naming server and
    the requests of clients *)
From S2P Require Export StorageWrites.

Open Scope Z_scope.

(** ** Requests of clients *)

(** The request that arrives is none of the synchronous writes. *)
Definition other_request (e : event) : Prop :=
  match e with ERecv _ _ (RData b) => starts_with "WRITE_SYNC|" (cstr b) = false | _ => True end.

(** C27. Every request but a synchronous write is undefined by the C standard:
    [process_client] either reads an [args[1]] nobody wrote, or writes behind
    [args], or parses [tempBuffer] after freeing it; whatever the rest of the
    environment answers, there is no way to the end of the handler. *)
Theorem process_client_is_undefined {F} `{Posix F} fuel nm_ip sock (st : server F) :
  wpM (doomed other_request) (process_client (mem := strict_memory) fuel nm_ip sock) st []
    (fun _ _ _ => False).
Proof.
  apply wpM_bind, wpM_recv. cbn [env doomed]. intros r Hr Hother.
  apply wpM_bind, wpM_liftC. case_bool_decide as Hn; [|done]. cbn [within].
  assert (starts_with "WRITE_SYNC|" (cstr (recv_value r).2) = false) as ->
    by (destruct r; [exact Hother|reflexivity..]).
  set (buffer := cstr (recv_value r).2).
  assert (forall tr, wpM (doomed other_request)
    (args ← word_args 2 buffer; _ ← second_arg (mem := strict_memory) args;
     freed ← liftC (after_free (Memory := strict_memory) (strtok_leaves buffer));
     args' ← word_args 2 freed;
     path ← match args' !! 1%nat with Some a => mret (Some a) | None => second_arg (mem := strict_memory) args end;
     _ ← client_request (F := F) fuel sock buffer path;
     _ ← leave_handler;
     if starts_with "WRITE_ASYNC|" buffer then mret (Served (Some buffer))
     else _ ← closeM sock; mret (Served None)) st tr (fun _ _ _ => False)) as Hrest.
  { intros tr. apply wpM_bind. unfold word_args. apply wpM_bind, wpM_liftC.
    destruct (bool_decide _); [|done]. cbn [within]. wpM_pure.
    apply wpM_liftC. destruct (parse_command buffer !! 1%nat); [|done].
    apply wpM_bind, wpM_liftC. done. }
  apply wpM_bind. destruct (starts_with "ping" buffer); [|apply Hrest].
  apply wpM_bind, wpM_send. intros r' _. apply Hrest.
Qed.

(** ** Commands of the naming server *)

Section dispatch.
Context {F : Type} `{Posix F} {mem : Memory}.
Implicit Types st : server F.

(** A path as it stands in a command. *)
Definition argument (p : bytes) : Prop := word " " p.

Lemma command_words name p :
  word " " name -> argument p -> parse_command (name ++ " " ++ p) = [name; p].
Proof.
  intros Hn [Hp Hne]. unfold parse_command. change (lit " " ++ p) with (" "%char :: p).
  by rewrite tokens_word_cons, tokens_word.
Qed.

Lemma word_args_two n name p st :
  word " " name -> argument p -> (2 <= n)%nat ->
  word_args n (name ++ " " ++ p) st = Ret ([name; p], st).
Proof.
  intros Hn Hp Hle. unfold word_args. rewrite command_words by done.
  rewrite bool_decide_eq_true_2 by (simpl; lia). done.
Qed.

Lemma on_disk_run (g : F -> F * bytes) st : on_disk g st = Ret ((g (disk st)).2, set_disk (g (disk st)).1 st).
Proof. unfold on_disk. erewrite M_bind_Ret by reflexivity. by destruct (g (disk st)). Qed.

(** A command of the first four kinds, answered with what the call reports. *)
Lemma answer_on_disk name p (g : option bytes -> F -> F * bytes) st :
  answered (path ← second_arg [name; p]; on_disk (g path)) st =
    Ret (Some (g (Some p) (disk st)).2, set_disk (g (Some p) (disk st)).1 st).
Proof.
  unfold answered, second_arg. cbn [lookup list_lookup].
  erewrite M_bind_Ret; [|erewrite M_bind_Ret by reflexivity; apply on_disk_run]. done.
Qed.

(** Every command but "ping" begins with the parsing of its words. *)
Lemma nm_command_start {A} name p sock st (k : list bytes -> SM F A) :
  word " " name -> argument p -> starts_with "ping" (name ++ [" "%char]) = false ->
  (args ← word_args 5 (name ++ " " ++ p);
   _ ← (if starts_with "ping" (name ++ " " ++ p) then _ ← sendS sock "-ping-"; mret tt else mret tt);
   k args) st = k [name; p] st.
Proof.
  intros Hn Hp Hping. erewrite M_bind_Ret by (apply word_args_two; [done..|lia]).
  assert (starts_with "ping" (name ++ " " ++ p) = false) as ->; [|done].
  destruct name as [|c0 [|c1 [|c2 [|c3 name]]]]; try done; cbn in Hping |- *;
    repeat case_bool_decide; done.
Qed.

(** The commands that are one call on the disk. *)
Definition direct_commands : list (bytes * (option bytes -> F -> F * bytes)) :=
  [(lit "touch", create_file); (lit "rmdir", delete_directory); (lit "mkdir", create_directory)].

Lemma nm_command_direct fuel root sock name g p st :
  (name, g) ∈ direct_commands -> argument p ->
  nm_command fuel root sock (name ++ " " ++ p) st =
    Ret (Some (g (Some p) (disk st)).2, set_disk (g (Some p) (disk st)).1 st).
Proof.
  intros Hin Hp. unfold direct_commands in Hin. rewrite !elem_of_cons in Hin.
  destruct Hin as [[= -> ->]|[[= -> ->]|[[= -> ->]|Hin]]]; [..|by apply not_elem_of_nil in Hin];
    unfold nm_command; rewrite nm_command_start by (done || by apply (bool_decide_unpack _)).
  - apply (answer_on_disk "touch").
  - apply (answer_on_disk "rmdir").
  - apply (answer_on_disk "mkdir").
Qed.

(** C23. The commands "touch", "rmdir" and "mkdir" of the naming server do
    exactly the call they name and answer with its outcome: the disk changes
    by the call, and the answer starts with "Could not", which is what the
    naming server looks at, exactly when the call fails. *)
Theorem nm_command_reports_outcome fuel root sock p st :
  argument p ->
  Forall (fun x : bytes * (bytes -> F -> option F) =>
    exists reply, nm_command fuel root sock (x.1 ++ " " ++ p) st =
        Ret (Some reply, set_disk (default (disk st) (x.2 p (disk st))) st) /\
      (starts_with COULD_NOT reply = true <-> x.2 p (disk st) = None))
  [(lit "touch", truncate); (lit "rmdir", remove_dir); (lit "mkdir", make_dir)].
Proof.
  intros Hp. pose proof (commands_report_outcome p (disk st)) as Hout.
  apply Forall_cons in Hout as [Hmk Hout]. apply Forall_cons in Hout as [Hrd Hout].
  apply Forall_cons in Hout as [Htouch _]. cbn [fst snd] in *.
  repeat apply Forall_cons_2; [..|constructor]; cbn [fst snd].
  - exists (create_file (Some p) (disk st)).2. split; [|apply Htouch]. destruct Htouch as [_ <-].
    by apply (nm_command_direct fuel root sock "touch" create_file); [set_solver|].
  - exists (delete_directory (Some p) (disk st)).2. split; [|apply Hrd]. destruct Hrd as [_ <-].
    by apply (nm_command_direct fuel root sock "rmdir" delete_directory); [set_solver|].
  - exists (create_directory (Some p) (disk st)).2. split; [|apply Hmk]. destruct Hmk as [_ <-].
    by apply (nm_command_direct fuel root sock "mkdir" create_directory); [set_solver|].
Qed.

(** Handlers that leave the disk alone when they return. *)
Definition same_disk {A} (m : SM F A) : Prop := forall st a st', m st = Ret (a, st') -> disk st' = disk st.

Lemma same_disk_lock_index path : same_disk (lock_index path).
Proof.
  intros st i st' Hm. apply M_bind_inv in Hm as (st1 & st1' & [= -> ->] & Hm).
  apply M_bind_inv in Hm as (j & st2 & [_ ->]%liftC_inv & Hm). case_bool_decide.
  - apply M_bind_inv in Hm as ([] & st3 & [_ ->]%liftC_inv & Hm).
    apply M_bind_inv in Hm as ([] & st4 & [= <-] & Hm). by injection Hm as <- <-.
  - by injection Hm as <- <-.
Qed.

Lemma same_disk_take_lock m i : same_disk (take_lock m i).
Proof.
  intros st [] st' Hm. apply M_bind_inv in Hm as (st1 & st1' & [= -> ->] & Hm).
  apply M_bind_inv in Hm as (s & st2 & [_ ->]%liftC_inv & Hm).
  destruct (must_wait m (lock_of s)); [done|]. by injection Hm as <-.
Qed.

Lemma same_disk_drop_lock m i : same_disk (drop_lock m i).
Proof.
  intros st [] st' Hm. apply M_bind_inv in Hm as (st1 & st1' & [= -> ->] & Hm).
  apply M_bind_inv in Hm as (s & st2 & [_ ->]%liftC_inv & Hm). by injection Hm as <-.
Qed.

(** "rm", when it ends: the lock is back, the call was made. *)
Lemma nm_command_rm fuel root sock p st r st' :
  argument p -> nm_command fuel root sock ("rm" ++ " " ++ p) st = Ret (r, st') ->
  r = Some (remove_file (Some p) (disk st)).2 /\ disk st' = (remove_file (Some p) (disk st)).1.
Proof.
  intros Hp. unfold nm_command. rewrite nm_command_start by (done || by apply (bool_decide_unpack _)).
  intros Hm. assert (answered (remove_locked (Some p)) st = Ret (r, st')) as Hrun by exact Hm. clear Hm.
  apply M_bind_inv in Hrun as (reply & st1 & Hm & [= <- <-]).
  apply M_bind_inv in Hm as (i & st2 & H2%same_disk_lock_index & Hm).
  apply M_bind_inv in Hm as ([] & st3 & H3%same_disk_take_lock & Hm).
  apply M_bind_inv in Hm as (reply' & st4 & Hd & Hm). rewrite on_disk_run in Hd. injection Hd as <- <-.
  apply M_bind_inv in Hm as ([] & st5 & H5%same_disk_drop_lock & Hm). injection Hm as <- <-.
  rewrite H5, H3, H2. done.
Qed.

Lemma backup_command_run root name p g call st :
  (2 <= length p)%nat -> (2 <= length root)%nat ->
  (forall q f, (g (Some q) f).1 = default f (call q f)) ->
  backup_command root [name; p] g st =
    Ret (None, set_disk (default (disk st) (call
      (snprintf MAX_PATH_SIZE ("./backupfolderforss/" ++ drop 2 root ++ "/" ++ drop 2 p)) (disk st))) st).
Proof.
  intros Hp Hroot Hg. unfold backup_command, second_arg. cbn [lookup list_lookup]. rewrite liftC_Val.
  unfold backup_path. cbn [nonnull mbind cres_bind]. unfold skipping.
  rewrite !bool_decide_eq_true_2 by done. cbn [within mbind cres_bind mret cres_ret]. rewrite liftC_Val.
  erewrite M_bind_Ret by apply on_disk_run. by rewrite Hg.
Qed.

(** The commands on a backup. *)
Definition backup_commands : list (bytes * (bytes -> F -> option F)) :=
  [(lit "touchb", truncate); (lit "rmdirb", remove_dir); (lit "rmb", remove_path); (lit "mkdirb", make_dir)].

Definition backup_target (root p : bytes) : bytes :=
  snprintf MAX_PATH_SIZE ("./backupfolderforss/" ++ drop 2 root ++ "/" ++ drop 2 p).

Lemma nm_command_backup fuel root sock name call p st :
  (name, call) ∈ backup_commands -> argument p -> (2 <= length p)%nat -> (2 <= length root)%nat ->
  nm_command fuel root sock (name ++ " " ++ p) st =
    Ret (None, set_disk (default (disk st) (call (backup_target root p) (disk st))) st).
Proof.
  intros Hin Hp Hl Hroot. unfold backup_commands in Hin. rewrite !elem_of_cons in Hin.
  destruct Hin as [[= -> ->]|[[= -> ->]|[[= -> ->]|[[= -> ->]|Hin]]]]; [..|by apply not_elem_of_nil in Hin];
    unfold nm_command; rewrite nm_command_start by (done || by apply (bool_decide_unpack _)).
  - by apply (backup_command_run root "touchb" p create_file truncate); [..|intros; apply answering_effect].
  - by apply (backup_command_run root "rmdirb" p delete_directory remove_dir); [..|intros; apply answering_effect].
  - by apply (backup_command_run root "rmb" p remove_file remove_path); [..|intros; apply answering_effect].
  - by apply (backup_command_run root "mkdirb" p create_directory make_dir); [..|intros; apply answering_effect].
Qed.

(** C24. The commands for backups act on the same path below the backup folder
    of this server, "./backupfolderforss/ROOT/PATH" cut to 2047 bytes, where
    ROOT is the root path of the server without "./", and answer nothing,
    whether or not they succeed.  The comment in the code leaves ROOT out, and
    the README has another name for the folder. *)
Theorem nm_backup_commands_are_silent fuel root sock p st :
  argument p -> (2 <= length p)%nat -> (2 <= length root)%nat ->
  let q := snprintf MAX_PATH_SIZE ("./backupfolderforss/" ++ drop 2 root ++ "/" ++ drop 2 p) in
  Forall (fun x : bytes * (bytes -> F -> option F) =>
    nm_command fuel root sock (x.1 ++ " " ++ p) st =
      Ret (None, set_disk (default (disk st) (x.2 q (disk st))) st))
  [(lit "touchb", truncate); (lit "rmdirb", remove_dir); (lit "rmb", remove_path); (lit "mkdirb", make_dir)].
Proof.
  intros Hp Hl Hroot q. apply Forall_forall. intros [name call] Hin. by apply nm_command_backup.
Qed.
End dispatch.

(** ** Witnesses *)

Lemma nm_command_reports_outcome_witness :
  argument "./s0/d/b" /\
  Forall (fun x : bytes * (bytes -> files -> option files) =>
    exists reply, nm_command 3 "./s0" 4 (x.1 ++ " " ++ "./s0/d/b") example_ss =
        Ret (Some reply, set_disk (default example_files (x.2 "./s0/d/b" example_files)) example_ss) /\
      (starts_with COULD_NOT reply = true <-> x.2 "./s0/d/b" example_files = None))
  [(lit "touch", truncate); (lit "rmdir", remove_dir); (lit "mkdir", make_dir)].
Proof.
  assert (argument "./s0/d/b") as Hp by by apply (bool_decide_unpack _).
  split; [exact Hp|]. apply (nm_command_reports_outcome 3 "./s0" 4 "./s0/d/b" example_ss Hp).
Defined.

Lemma nm_backup_commands_are_silent_witness :
  let st := Server backup_files [] in
  let q := snprintf MAX_PATH_SIZE ("./backupfolderforss/" ++ drop 2 (lit "./s0") ++ "/" ++ drop 2 (lit "./s0/a")) in
  Forall (fun x : bytes * (bytes -> files -> option files) =>
    nm_command 3 "./s0" 4 (x.1 ++ " " ++ "./s0/a") st =
      Ret (None, set_disk (default (disk st) (x.2 q (disk st))) st))
  [(lit "touchb", truncate); (lit "rmdirb", remove_dir); (lit "rmb", remove_path); (lit "mkdirb", make_dir)].
Proof.
  apply (nm_backup_commands_are_silent 3 "./s0" 4 "./s0/a" (Server backup_files [])).
  - by apply (bool_decide_unpack _).
  - vm_compute. lia.
  - vm_compute. lia.
Defined.
