(* ===== verification/Client.v ===== *)
(** * The client (client.c)

    The command loop: a line from the terminal goes to the naming server, and
    depending on the command the client prints the answer, sends data to a
    storage server, or fetches data from the server it is redirected to.  The
    state holds the input that is left, and what was printed of the answers or
    handed to the music player; other messages on the terminal are not
    modelled. *)
From S2P Require Export StorageDispatch.

Open Scope Z_scope.

(** ** State *)

Record client := ClientState {
  stdin : bytes;
  shown : list bytes;    (** answers and data printed, newest last *)
  played : bytes         (** data written to the player *)
}.

Abbreviation CM := (M client).

Definition show (m : bytes) : CM unit :=
  modifyS (fun st => ClientState (stdin st) (shown st ++ [m]) (played st)).

Definition play (m : bytes) : CM unit :=
  modifyS (fun st => ClientState (stdin st) (shown st) (played st ++ m)).

Definition set_stdin (s : bytes) : CM unit :=
  modifyS (fun st => ClientState s (shown st) (played st)).

(** What the code leaves open: whether [popen] starts the player, and the
    4096 bytes of a fresh [malloc] block. *)
Class Terminal := { popen_works : bool; fresh_block : cres bytes }.

(** ** Text helpers *)

(** [trim] (helper.c) moves its own pointer over the leading white space, and
    cuts the trailing one off in place; a buffer of white space is left. *)
Fixpoint trim_end (s : bytes) : bytes :=
  match s with
  | [] => []
  | c :: s' =>
      match trim_end s' with
      | [] => if isspace c then [] else [c]
      | t => c :: t
      end
  end.

Definition trim (buffer : bytes) : bytes :=
  match skip_space buffer with [] => buffer | _ => trim_end buffer end.

(** [strcpy] into an array of 100 bytes, and [strtok] on it. *)
Definition count_words (input : bytes) : cres nat :=
  buffer ← fits 100 input; mret (length (tokens " "%char buffer)).

(** [fgets(buffer, n, stdin)]: the line with its line feed, and the rest. *)
Fixpoint fgets (n : nat) (input : bytes) : bytes * bytes :=
  match n, input with
  | S (S n'), c :: rest =>
      if bool_decide (c = LF) then ([c], rest)
      else let '(l, r) := fgets (S n') rest in (c :: l, r)
  | _, _ => ([], input)
  end.

(** The [fgetc] loop: up to the line feed; without one it never stops writing
    behind the array. *)
Definition read_data (input : bytes) : cres (bytes * bytes) :=
  match split_first LF input with Some lr => Val lr | None => Undef OutOfBounds end.

(** The part of a string before the first occurrence of another. *)
Fixpoint before (p s : bytes) : option bytes :=
  if starts_with p s then Some []
  else match s with [] => None | c :: s' => cons c <$> before p s' end.

(** ** Connections to storage servers *)

(** The [recv] loop of [sendAndRecieveFromSS]. *)
Fixpoint show_all (fuel : nat) (sock : Z) : CM unit :=
  match fuel with
  | O => blockM
  | S fuel' =>
      nb ← liftIO (recv_good sock (BUFFER_SIZE - 1));
      if bool_decide (nb.1 <= 0) then mret tt
      else _ ← show (cstr nb.2); show_all fuel' sock
  end.

Definition sendAndRecieveFromSS (fuel : nat) (details buffer : bytes) : CM unit :=
  let words := tokens ","%char details in
  portOfSS ← liftC (nonnull (words !! 1%nat));
  ipOfSS ← liftC (nonnull (words !! 0%nat));
  c ← connectM ipOfSS (htons (atoi portOfSS));
  match c with
  | Connected sock =>
      n ← liftIO (send_good sock buffer);
      if bool_decide (n < 0) then closeM sock
      else _ ← show_all fuel sock; closeM sock
  | _ => mret tt
  end.

(** The [recv] loop of [streamMusicFromSS]; the pause key is not modelled. *)
Fixpoint play_all (fuel : nat) (sock : Z) : CM unit :=
  match fuel with
  | O => blockM
  | S fuel' =>
      fun st => Recv sock BUFFER_SIZE_FOR_MUSIC (fun r =>
        match r with
        | RData b => (_ ← play b; play_all fuel' sock) st
        | _ => Ret (tt, st)
        end)
  end.

Section terminal.
Context {term : Terminal}.

Definition streamMusicFromSS (fuel : nat) (details buffer : bytes) : CM unit :=
  let words := tokens ","%char details in
  portOfSS ← liftC (nonnull (words !! 1%nat));
  ipOfSS ← liftC (nonnull (words !! 0%nat));
  c ← connectM ipOfSS (htons (atoi portOfSS));
  match c with
  | Connected sock =>
      sent ← (fun st => Send sock buffer (fun r =>
                Ret (match r with SSent _ => true | _ => false end, st)));
      if (sent : bool) && popen_works then _ ← play_all fuel sock; closeM sock
      else closeM sock
  | _ => mret tt
  end.

(** ** One line *)

Inductive next := Again | Quit | Failed.

Definition LS_END : bytes := "@#!@#over@$".

(** The listing of all servers, in an array that keeps its old bytes. *)
Fixpoint show_listing (fuel : nat) (client_socket : Z) (buffer2 : bytes) : CM unit :=
  match fuel with
  | O => blockM
  | S fuel' =>
      nb ← liftIO (recv_good client_socket BUFFER_SIZE);
      if bool_decide (nb.1 <= 0) then mret tt
      else
        let filled := nb.2 ++ drop (length nb.2) buffer2 in
        text ← liftC (cstr_in BUFFER_SIZE filled);
        match before LS_END text with
        | Some t => show t
        | None =>
            _ ← liftC (within (bool_decide (length nb.2 < BUFFER_SIZE)%nat));
            _ ← show (cstr nb.2);
            show_listing fuel' client_socket (<[length nb.2 := NUL]> filled)
        end
  end.

(** The answer to a command the naming server carries out itself. *)
Definition show_answer (client_socket : Z) : CM unit :=
  nb ← liftIO (recv_good client_socket BUFFER_SIZE);
  _ ← liftC (within (bool_decide (0 <= nb.1 < Z.of_nat BUFFER_SIZE)));
  show (cstr nb.2).

Definition INPUT_SIZE : nat := 4096.

(** What is sent before the data. *)
Definition write_header (IPADDR port : bytes) (answer path : bytes) : cres bytes :=
  if starts_with "PATH_OK_SYNC" answer then Val ("WRITE_SYNC|" ++ path ++ "|")
  else if starts_with "PATH_OK_ASYNC" answer then
    Val ("WRITE_ASYNC|" ++ path ++ "|" ++ IPADDR ++ "|" ++ port ++ "|")
  else Undef BadRead.   (* the index [i] was never set *)

(** [rec_msg] as a string: nobody terminates it, so without a zero byte among
    those received the bytes of the fresh block are read. *)
Definition rec_msg (received : bytes) : cres bytes :=
  match split_first NUL received with
  | Some (a, _) => mret a
  | None => block ← fresh_block; cstr_in INPUT_SIZE (received ++ drop (length received) block)
  end.

(** After the answer to "write": the data goes to the server it names, whose
    answer is printed, whether [recv] has succeeded or not. *)
Definition write_data (IPADDR port : bytes) (answer : bytes) (path_for_write : option bytes) : CM next :=
  path ← liftC (nonnull path_for_write);
  header ← liftC (write_header IPADDR port answer path);
  st ← getS;
  dr ← liftC (read_data (stdin st));
  _ ← set_stdin dr.2;
  input_str ← liftC (fits INPUT_SIZE (header ++ dr.1));
  let words := tokens "|"%char answer in
  portOfSS ← liftC (nonnull (words !! 2%nat));
  ipOfSS ← liftC (nonnull (words !! 1%nat));
  c ← connectM ipOfSS (htons (atoi portOfSS));
  match c with
  | Connected sock =>
      n ← liftIO (send_good sock (cstr input_str));
      if bool_decide (n < 0) then _ ← closeM sock; mret Failed
      else
        nb ← liftIO (recv_good sock BUFFER_SIZE);
        text ← liftC (rec_msg nb.2);
        _ ← show text;
        mret Again
  | _ => mret Failed
  end.

(** A redirection: "ip,port", or the same after "Backup ". *)
Definition fetch (fuel : nat) (details buffer : bytes) : CM unit :=
  if starts_with "stream" buffer then streamMusicFromSS fuel details buffer
  else sendAndRecieveFromSS fuel details buffer.

Definition redirected (fuel : nat) (answer buffer : bytes) : CM unit :=
  if starts_with "Backup" answer then
    match tokens ","%char (drop 7 answer) with
    | [] => mret tt
    | [ip] => fetch fuel ip buffer
    | ip :: port :: _ => fetch fuel (ip ++ "," ++ port) buffer
    end
  else fetch fuel answer buffer.

Definition carried_out (buffer : bytes) : bool :=
  starts_with "mkdir" buffer || starts_with "rmdir" buffer || starts_with "touch" buffer ||
  starts_with "rm" buffer || starts_with "copy" buffer.

(** The body of the loop of [main] after the line is read and trimmed. *)
Definition client_command (fuel : nat) (IPADDR port : bytes) (client_socket : Z) (buffer : bytes) : CM next :=
  c ← liftC (count_words buffer);
  if bool_decide (c <= 1)%nat then mret Again
  else
    let path_for_write := tokens " "%char buffer !! 2%nat in
    n ← liftIO (send_good client_socket buffer);
    if bool_decide (n < 0) then mret Again
    else if strcmp_eq buffer "ls ~" || strcmp_eq buffer "ls ." then
      _ ← show_listing fuel client_socket (replicate BUFFER_SIZE NUL); mret Again
    else if carried_out buffer then _ ← show_answer client_socket; mret Again
    else if starts_with "write" buffer then
      nb ← liftIO (recv_good client_socket BUFFER_SIZE);
      write_buff ← liftC (cstr_in BUFFER_SIZE nb.2);
      if starts_with "PATH_OK" write_buff then write_data IPADDR port write_buff path_for_write
      else mret Again
    else
      nb ← liftIO (recv_good client_socket BUFFER_SIZE);
      if bool_decide (nb.1 <= 0) then mret Again
      else
        buffer2 ← liftC (cstr_in BUFFER_SIZE nb.2);
        if strstr "not found" buffer2 then mret Again
        else _ ← redirected fuel buffer2 buffer; mret Again.

Definition client_line (fuel : nat) (IPADDR port : bytes) (client_socket : Z) : CM next :=
  st ← getS;
  match fgets BUFFER_SIZE (stdin st) with
  | ([], _) => mret Quit
  | (line, rest) =>
      _ ← set_stdin rest;
      let buffer := trim (cstr line) in
      match buffer with
      | [] => mret Again
      | _ => client_command fuel IPADDR port client_socket buffer
      end
  end.

(** The loop; [n] bounds the lines. *)
Fixpoint client_main (n fuel : nat) (IPADDR port : bytes) (client_socket : Z) : CM next :=
  match n with
  | O => blockM
  | S n' =>
      r ← client_line fuel IPADDR port client_socket;
      match r with
      | Again => client_main n' fuel IPADDR port client_socket
      | Quit => _ ← closeM client_socket; mret Quit
      | Failed => mret Failed
      end
  end.

(** The thread for a late answer to an asynchronous write: it prints the
    message and leaves the connection open. *)
Definition listen_async (client : Z) : CM unit :=
  nb ← liftIO (recv_good client BUFFER_SIZE);
  if bool_decide (nb.1 <= 0) then closeM client
  else
    buffer ← liftC (cstr_in BUFFER_SIZE nb.2);
    show ((ESC :: "[0;32mAsync " ++ print_Z client ++ ">>|" ++ buffer ++ "|" ++ (ESC :: "[0m")) ++ [LF]).
End terminal.

(** ** Text helpers: lemmas *)

Lemma trim_end_spec s :
  exists t, s = trim_end s ++ t /\ Forall (fun c => isspace c = true) t /\
    match last (trim_end s) with Some c => isspace c = false | None => True end.
Proof.
  induction s as [|c s (t & Hs & Ht & Hl)]; [by exists []|]. cbn [trim_end].
  destruct (trim_end s) as [|d u] eqn:Hu.
  - destruct (isspace c) eqn:Hc.
    + exists (c :: s). split; [done|]. split; [|done]. constructor; [done|]. by rewrite Hs.
    + exists t. cbn [app]. split; [by rewrite Hs at 1|]. by split.
  - exists t. split; [by rewrite Hs at 1|]. by split.
Qed.

Lemma skip_space_nil s : skip_space s = [] <-> Forall (fun c => isspace c = true) s.
Proof.
  induction s as [|c s IH]; cbn [skip_space]; [by split|].
  destruct (isspace c) eqn:Hc; rewrite ?Forall_cons, ?IH; [tauto|]. split; [done|]. intros [? _]. congruence.
Qed.

Lemma split_first_line d rest : LF ∉ d -> read_data (d ++ LF :: rest) = Val (d, rest).
Proof. intros Hd. unfold read_data. by rewrite split_first_app. Qed.

(** ** Fetching a file *)

Lemma run_connectM {S A} ip port (f : cnres -> M S A) st r ans :
  run ((connectM ip port ≫= f) st) (AConn r :: ans) =
    (let '(tr, o) := run (f r st) ans in (EConnect ip port r :: tr, o)).
Proof. done. Qed.

Lemma run_sendM {S A} sock m (f : Z -> M S A) st n ans :
  run ((liftIO (send_good sock m) ≫= f) st) (ASend (SSent n) :: ans) =
    (let '(tr, o) := run (f (Z.of_nat n) st) ans in (ESend sock m (SSent n) :: tr, o)).
Proof. done. Qed.

Lemma run_recvM_eof {S A B} sock n (g : Z * bytes -> M S A) (f : A -> M S B) st ans :
  run (((liftIO (recv_good sock n) ≫= g) ≫= f) st) (ARecv REof :: ans) =
    (let '(tr, o) := run ((g (0, []) ≫= f) st) ans in (ERecv sock n REof :: tr, o)).
Proof. done. Qed.

Lemma run_show_all {A} fuel sock cs st (k : unit -> CM A) ans :
  Forall (fun c => c <> []) cs -> (length cs < fuel)%nat ->
  exists tr0, run ((show_all fuel sock ≫= k) st) ((ARecv ∘ RData <$> cs) ++ ARecv REof :: ans) =
    let '(tr, o) := run (k tt (ClientState (stdin st) (shown st ++ (cstr <$> cs)) (played st))) ans in
    (tr0 ++ tr, o).
Proof.
  intros Hcs. revert fuel st; induction Hcs as [|c cs Hc Hcs IH]; intros fuel st Hf;
    (destruct fuel as [|fuel]; [simpl in Hf; lia|]).
  - exists [ERecv sock (BUFFER_SIZE - 1) REof].
    cbn [show_all fmap list_fmap app]. rewrite run_recvM_eof. cbn [fst snd].
    rewrite bool_decide_eq_true_2, app_nil_r by done.
    change ((mret tt ≫= k) st) with (k tt st). destruct st as [i s p]. cbn [stdin shown played].
    by match goal with |- context [run (k tt ?s) ans] => destruct (run (k tt s) ans) end.
  - destruct (IH fuel (ClientState (stdin st) (shown st ++ [cstr c]) (played st))) as [tr0 Htr]; [simpl in Hf; lia|].
    exists (ERecv sock (BUFFER_SIZE - 1) (RData c) :: tr0).
    change ((ARecv ∘ RData <$> c :: cs) ++ ARecv REof :: ans)
      with (ARecv (RData c) :: ((ARecv ∘ RData <$> cs) ++ ARecv REof :: ans)).
    cbn [show_all]. rewrite run_recvM_bind. cbn [fst snd].
    rewrite bool_decide_eq_false_2 by (destruct c; [done|simpl; lia]).
    change (((_ ← show (cstr c); show_all fuel sock) ≫= k) st)
      with ((show_all fuel sock ≫= k) (ClientState (stdin st) (shown st ++ [cstr c]) (played st))).
    rewrite Htr. cbn [stdin shown played]. rewrite <- app_assoc. cbn [app fmap list_fmap].
    by match goal with |- context [run (k tt ?s) ans] => destruct (run (k tt s) ans) end.
Qed.

(** ** Properties of the client *)

(** [trim] removes exactly the trailing white space of a line that holds
    anything else; leading white space stays, although the code means to remove
    it, and a blank line is left as it is. *)
Theorem trim_removes_trailing_space buffer :
  (Forall (fun c => isspace c = true) buffer /\ trim buffer = buffer) \/
  (exists t c, buffer = trim buffer ++ t /\ Forall (fun c => isspace c = true) t /\
     last (trim buffer) = Some c /\ isspace c = false).
Proof.
  unfold trim. destruct (skip_space buffer) as [|c s] eqn:Hs.
  - left. by apply skip_space_nil in Hs.
  - right. destruct (trim_end_spec buffer) as (t & Hb & Ht & Hl).
    destruct (last (trim_end buffer)) as [d|] eqn:Hd; [by exists t, d|].
    apply last_None in Hd. rewrite Hd in Hb. cbn [app] in Hb. exfalso.
    assert (skip_space buffer = []) by (apply skip_space_nil; by rewrite Hb). congruence.
Qed.

(** A line of a hundred bytes or more kills the client: [count_words] copies
    it into an array of a hundred bytes before anything is sent, although the
    loop reads lines of up to 1023 bytes; shorter ones are counted safely. *)
Theorem count_words_bound {term : Terminal} fuel IPADDR port sock buffer st :
  ((100 <= length buffer)%nat <-> count_words buffer = Undef OutOfBounds) /\
  ((100 <= length buffer)%nat -> client_command fuel IPADDR port sock buffer st = Bad OutOfBounds).
Proof.
  assert ((100 <= length buffer)%nat <-> count_words buffer = Undef OutOfBounds) as Hc.
  { unfold count_words, fits. case_bool_decide; split; (done || lia). }
  split; [done|]. intros Hl. apply Hc in Hl. unfold client_command. rewrite Hl. done.
Qed.

(** C12. Reading a file end to end: what [read_file] sends on a storage server
    while its sends succeed, cut by TCP into any segments, is what the client
    prints, byte for byte, for a file without zero bytes. *)
Theorem cat_shows_file {F} `{Posix F} p sock (f : F) c :
  opens f p = true -> contents f p = Some c -> NUL ∉ c ->
  exists ms, emits sock ms (read_file (Some p) sock f) 0 /\
    forall fuel ip port command fd n cs st,
      word "," ip -> word "," port -> concat cs = concat ms -> Forall (fun b => b <> []) cs ->
      (length cs < fuel)%nat ->
      exists tr st', run (sendAndRecieveFromSS fuel (ip ++ ","%char :: port) command st)
          (AConn (Connected fd) :: ASend (SSent n) :: (ARecv ∘ RData <$> cs) ++ [ARecv REof])
          = (tr, Done (tt, st')) /\
        concat (shown st') = concat (shown st) ++ c.
Proof.
  intros Ho Hc Hnul. exists (chunks BUFFER_SIZE c). split; [by apply emits_contents|].
  intros fuel ip port command fd n cs st Hip Hport Hcs Hne Hf.
  rewrite concat_chunks in Hcs by (unfold BUFFER_SIZE; lia).
  destruct (run_show_all fuel fd cs st (fun _ => closeM fd) [] Hne Hf) as [tr0 Htr].
  exists (EConnect ip (htons (atoi port)) (Connected fd) :: ESend fd command (SSent n) :: tr0 ++ [EClose fd]).
  exists (ClientState (stdin st) (shown st ++ (cstr <$> cs)) (played st)). split.
  - unfold sendAndRecieveFromSS. rewrite tokens_word_cons by done.
    assert (tokens ","%char port = [port]) as -> by (apply tokens_word; by destruct Hport).
    cbn [lookup list_lookup nonnull]. rewrite !liftC_Val.
    rewrite run_connectM, run_sendM, bool_decide_eq_false_2 by lia. by rewrite Htr.
  - cbn [shown]. rewrite concat_app. f_equal. rewrite <- Hcs. clear - Hnul Hcs. subst c.
    induction cs as [|b cs IH]; [done|]. cbn [concat] in Hnul. apply not_elem_of_app in Hnul as [Hb Hcs].
    cbn. rewrite cstr_free by done. f_equal. by apply IH.
Qed.

(** The naming server answers a write with [answer], sends succeed, and the
    storage server accepts connections. *)
Definition write_env (client_socket : Z) (answer : bytes) (e : event) : Prop :=
  match e with
  | ERecv s _ r => s = client_socket -> r = RData answer
  | ESend _ _ r => exists n, r = SSent n
  | EConnect _ _ r => exists fd, r = Connected fd /\ fd <> client_socket
  | _ => True
  end.

(** The line, the answer and the request of a synchronous write. *)
Definition write_line (p : bytes) : bytes := lit "write -s " ++ p.

Definition path_ok (ip port : bytes) : bytes := lit "PATH_OK_SYNC|" ++ ip ++ "|"%char :: port.

Definition write_request (p d : bytes) : bytes := lit "WRITE_SYNC|" ++ p ++ "|"%char :: d.

Lemma write_line_words p : word " " p -> tokens " "%char (write_line p) = [lit "write"; lit "-s"; p].
Proof.
  intros Hp. unfold write_line.
  change (lit "write -s " ++ p) with (lit "write" ++ " "%char :: lit "-s" ++ " "%char :: p).
  rewrite !tokens_word_cons by by apply (bool_decide_unpack _). do 2 f_equal. apply tokens_word; by destruct Hp.
Qed.

Lemma path_ok_parts ip port :
  word "|" ip -> word "|" port -> tokens "|"%char (path_ok ip port) = [lit "PATH_OK_SYNC"; ip; port].
Proof.
  intros Hip Hport. unfold path_ok.
  change (lit "PATH_OK_SYNC|" ++ ip ++ "|"%char :: port) with (lit "PATH_OK_SYNC" ++ "|"%char :: ip ++ "|"%char :: port).
  rewrite !tokens_word_cons by (done || by apply (bool_decide_unpack _)). do 2 f_equal.
  apply tokens_word; by destruct Hport.
Qed.

Lemma path_ok_received ip port :
  NUL ∉ ip -> NUL ∉ port -> cstr_in BUFFER_SIZE (path_ok ip port ++ [NUL]) = Val (path_ok ip port).
Proof.
  intros Hip Hport. apply cstr_in_app. unfold path_ok.
  rewrite !not_elem_of_app, not_elem_of_cons. split_and!; try done; by apply (bool_decide_unpack _).
Qed.

Lemma write_request_sync {F} (st : server F) p d :
  word "|" p -> word "|" d -> NUL ∉ p -> NUL ∉ d -> (length p < 90)%nat -> (length d < 900)%nat ->
  Forall readable (conc_array st) -> quiet (conc_array st) -> (length (conc_array st) < MAX_REQ)%nat ->
  sync_write st (write_request p d) p d [].
Proof.
  intros Hp Hd Hpn Hdn Hlp Hld Hr Hq Hroom. split; try done.
  - unfold write_request. by rewrite app_nil_r.
  - by left.
  - unfold write_request. rewrite !not_elem_of_app, not_elem_of_cons. split_and!; try done; by apply (bool_decide_unpack _).
  - unfold write_request, BUFFER_SIZE. rewrite !length_app. simpl. lia.
Qed.

(** A fresh block that ends every answer read into it. *)
Definition ends_answers (block : bytes) : Prop :=
  length block = INPUT_SIZE /\ NUL ∈ drop BUFFER_SIZE block.

Lemma split_first_elem d s : d ∈ s -> exists a r, split_first d s = Some (a, r).
Proof.
  intros Hd. destruct (split_first d s) as [[a r]|] eqn:Hs; [by exists a, r|].
  by apply split_first_None in Hs.
Qed.

Lemma rec_msg_Val {term : Terminal} received block :
  fresh_block = Val block -> ends_answers block -> (length received <= BUFFER_SIZE)%nat ->
  exists text, rec_msg received = Val text.
Proof.
  intros Hb [Hl Hz] Hr. unfold rec_msg. destruct (split_first NUL received) as [[a r]|]; [by exists a|].
  rewrite Hb. cbn [mbind cres_bind].
  assert (NUL ∈ received ++ drop (length received) block) as Hin.
  { apply elem_of_app. right. apply list_elem_of_lookup in Hz as [k Hk]. rewrite lookup_drop in Hk.
    apply list_elem_of_lookup. exists (BUFFER_SIZE - length received + k)%nat. rewrite lookup_drop.
    rewrite <- Hk. f_equal. lia. }
  apply split_first_elem in Hin as (a & r & Hs). exists a. unfold cstr_in. by rewrite Hs.
Qed.

(** C11. Writing end to end: for the line "write -s PATH", when the naming
    server answers with the address of a storage server, sends succeed and
    the storage server accepts the connection, the client reads the data up
    to the end of the line and sends it in one message, and that message is a
    well-formed synchronous write of this data to this path, for a storage
    server on which no lock is held and whose table of locks has room and
    only paths that can be read.  The path has fewer than 90 bytes and the
    data fewer than 900; neither is empty or has a bar or a zero byte, the path
    has no space and the data no line feed.  The client goes on
    to the next command if the block from [malloc] into which it reads the
    answer holds a zero byte behind the space for the answer: it prints the
    answer without having terminated it. *)
Theorem client_write_reaches_server {F} `{Posix F} {term : Terminal} fuel IPADDR aport cs p ip port d rest
    shown0 played0 block :
  word " " p -> word "|" p -> word "|" d -> LF ∉ d -> NUL ∉ p -> NUL ∉ d ->
  word "|" ip -> word "|" port -> NUL ∉ ip -> NUL ∉ port ->
  (length p < 90)%nat -> (length d < 900)%nat -> fresh_block = Val block -> ends_answers block ->
  wpM (returns (write_env cs (path_ok ip port ++ [NUL]))) (client_command fuel IPADDR aport cs (write_line p))
    (ClientState (d ++ LF :: rest) shown0 played0) [] (fun tr r st' =>
      r = Again /\ stdin st' = rest /\ sent_to cs tr = [write_line p] /\
      exists fd m, EConnect ip (htons (atoi port)) (Connected fd) ∈ tr /\ sent_to fd tr = [m] /\
        forall st : server F, Forall readable (conc_array st) -> quiet (conc_array st) ->
          (length (conc_array st) < MAX_REQ)%nat -> sync_write st m p d []).
Proof.
  intros Hp Hpb Hd Hlf Hpn Hdn Hip Hport Hipn Hportn Hlp Hld Hblock Hends.
  assert (NUL ∉ write_request p d) as Hm.
  { unfold write_request. rewrite !not_elem_of_app, not_elem_of_cons. split_and!; try done; by apply (bool_decide_unpack _). }
  unfold client_command. apply wpM_bind, wpM_liftC. unfold count_words, fits.
  rewrite bool_decide_eq_true_2 by (unfold write_line; rewrite length_app; simpl; lia).
  cbn [mbind cres_bind mret cres_ret]. rewrite write_line_words by done. cbn [length lookup list_lookup].
  rewrite bool_decide_eq_false_2 by lia.
  apply wpM_bind, wpM_send. cbn [env returns write_env]. intros r [n ->]. cbn [send_value].
  rewrite bool_decide_eq_false_2 by lia.
  change (strcmp_eq (write_line p) "ls ~" || strcmp_eq (write_line p) "ls .") with false.
  change (carried_out (write_line p)) with false. change (starts_with "write" (write_line p)) with true. cbv iota.
  apply wpM_bind, wpM_recv. cbn [env returns write_env]. intros r _ Hr. rewrite (Hr eq_refl). cbn [recv_value snd].
  rewrite path_ok_received by done. apply wpM_Val_bind.
  change (starts_with "PATH_OK" (path_ok ip port)) with true. cbv iota. unfold write_data.
  change (write_header IPADDR aport (path_ok ip port) p) with (Val (lit "WRITE_SYNC|" ++ p ++ "|")). cbn [nonnull].
  do 2 apply wpM_Val_bind. eapply wpM_eq_bind; [reflexivity|]. cbn [stdin].
  rewrite split_first_line by done. apply wpM_Val_bind. cbn [fst snd]. eapply wpM_eq_bind; [reflexivity|].
  assert ((lit "WRITE_SYNC|" ++ p ++ "|") ++ d = write_request p d) as -> by (unfold write_request; by rewrite <- !app_assoc).
  unfold fits. rewrite bool_decide_eq_true_2 by (unfold INPUT_SIZE, write_request; rewrite !length_app; simpl; lia).
  apply wpM_Val_bind. rewrite path_ok_parts by done. cbn [lookup list_lookup nonnull]. do 2 apply wpM_Val_bind.
  apply wpM_bind, wpM_connect. cbn [env returns write_env]. intros r' (fd & -> & Hfd).
  apply wpM_bind, wpM_send. cbn [env returns write_env]. intros r' [n' ->]. cbn [send_value].
  rewrite bool_decide_eq_false_2 by lia. apply wpM_bind, wpM_recv. intros r' Hr' _.
  assert (length (recv_value r').2 <= BUFFER_SIZE)%nat as Hgot by (destruct r'; cbn in Hr' |- *; lia).
  destruct (rec_msg_Val _ block Hblock Hends Hgot) as [text ->]. apply wpM_Val_bind.
  eapply wpM_eq_bind; [reflexivity|]. wpM_pure. rewrite (cstr_free (write_request p d)) by done. cbn [stdin].
  apply Z.eqb_neq in Hfd as Hfd'. rewrite Z.eqb_sym in Hfd'.
  split; [done|]. split; [done|]. split; [rewrite !sent_to_app; cbn [sent_to app]; by rewrite Z.eqb_refl, Hfd'|].
  exists fd, (write_request p d). split; [set_solver|]. split.
  - rewrite !sent_to_app. cbn [sent_to app]. by rewrite Z.eqb_refl, Z.eqb_sym, Hfd'.
  - intros st Hread Hq Hroom. by apply write_request_sync.
Qed.

(** ** Witnesses *)

Lemma cat_shows_file_witness :
  exists ms, emits 5 ms (read_file (Some (lit "./s0/a")) 5 example_files) 0 /\
    (concat [lit "he"; lit "llo"] = concat ms ->
      exists tr st', run (sendAndRecieveFromSS 9 ("10.0.0.2" ++ ","%char :: "9000") "cat ./s0/a" (ClientState [] [] []))
          (AConn (Connected 6) :: ASend (SSent 10) :: (ARecv ∘ RData <$> [lit "he"; lit "llo"]) ++ [ARecv REof])
          = (tr, Done (tt, st')) /\
        concat (shown st') = concat (shown (ClientState [] [] [])) ++ lit "hello").
Proof.
  destruct (cat_shows_file "./s0/a" 5 example_files "hello") as (ms & He & Hrun).
  - vm_compute. reflexivity.
  - vm_compute. reflexivity.
  - by apply (bool_decide_unpack _).
  - exists ms. split; [exact He|]. intros Hcs.
    apply (Hrun 9%nat "10.0.0.2" "9000" "cat ./s0/a" 6 10%nat [lit "he"; lit "llo"]).
    + by apply (bool_decide_unpack _).
    + by apply (bool_decide_unpack _).
    + exact Hcs.
    + repeat constructor; done.
    + vm_compute. lia.
Defined.

Definition zero_block : bytes := replicate INPUT_SIZE NUL.

#[local] Instance example_terminal : Terminal := {| popen_works := true; fresh_block := Val zero_block |}.

Lemma zero_block_ends : ends_answers zero_block.
Proof.
  unfold ends_answers, zero_block. split; [apply length_replicate|].
  rewrite drop_replicate. apply list_elem_of_lookup. exists 0%nat. apply lookup_replicate_2.
  unfold INPUT_SIZE, BUFFER_SIZE. lia.
Qed.

Lemma client_write_reaches_server_witness :
  wpM (returns (write_env 3 (path_ok "10.0.0.2" "9000" ++ [NUL])))
    (client_command 9 "10.0.0.7" "5000" 3 (write_line "./s0/a"))
    (ClientState (lit "more" ++ LF :: "ls .") [] []) [] (fun tr r st' =>
      r = Again /\ stdin st' = lit "ls ." /\ sent_to 3 tr = [write_line "./s0/a"] /\
      exists fd m, EConnect "10.0.0.2" (htons (atoi "9000")) (Connected fd) ∈ tr /\ sent_to fd tr = [m] /\
        forall st : server files, Forall readable (conc_array st) -> quiet (conc_array st) ->
          (length (conc_array st) < MAX_REQ)%nat -> sync_write st m "./s0/a" "more" []).
Proof.
  apply (client_write_reaches_server 9 "10.0.0.7" "5000" 3 "./s0/a" "10.0.0.2" "9000" "more" "ls ." [] [] zero_block).
  1-12: by apply (bool_decide_unpack _).
  - reflexivity.
  - exact zero_block_ends.
Defined.
