(* ===== verification/Startup.v ===== *)
(** * A storage server joins (storage_server.c: main, connect_to_nm)

    The record and the listing a storage server sends when it starts, the
    race between the thread that sends the record and [main], which completes
    it, and the whole registration, from the folder on the storage server's
    disk to the entry of the naming server. *)
From S2P Require Export StorageDispatch Registration.

Open Scope Z_scope.

(** ** The record *)

(** The [n] low bytes of an integer, the lowest one first. *)
Fixpoint encode_le (n : nat) (x : Z) : bytes :=
  match n with
  | O => []
  | S n' => ascii_of_N (Z.to_N (x mod 256)) :: encode_le n' (x / 256)
  end.

(** [ssi.portClient = port] on the bytes of a [StorageServerInfo]. *)
Definition with_port (image : bytes) (port : Z) : bytes :=
  take OFFSET_portClient image ++ encode_le 4 port ++ drop (OFFSET_portClient + 4) image.

Definition SERVER_PORT : Z := 9001.

Section connect.
Context {F : Type} `{Posix F} {mem : Memory}.

(** [send_good] of the record and [indexSubFolder]: what the naming server
    gets before the storage server listens to it. *)
Definition announce (fuel : nat) (root record : bytes) (sock : Z) (f : F) : io bool :=
  n ← send_good sock record;
  if bool_decide (n = -1) then mret false
  else _ ← indexSubFolder fuel root sock f; mret true.

(** [connect_to_nm]: every way out ends the process. *)
Definition connect_to_nm (n fuel : nat) (nm_ip root record : bytes) : SM F unit :=
  c ← connectM nm_ip SERVER_PORT;
  match c with
  | Connected sock =>
      ok ← reading_disk (announce fuel root record sock);
      if ok : bool then listen_to_nm n fuel root sock else mret tt
  | AddrFail | ConnFail | SockFail => mret tt
  end.
End connect.

(** ** The thread and [main] *)

(** The calls of [main] and of the thread whose order matters. *)
Inductive startup_stmt :=
  | Create_thread            (** [pthread_create]; the process exits when it fails *)
  | Call                     (** a call after whose failure the process exits *)
  | Call_or_return           (** a call after whose failure the thread returns *)
  | Assign_port              (** [ssi.portClient = ntohs(..)] *)
  | Send_record.             (** [send_good] of the record *)

(** pthread_create, socket, bind, getsockname, the assignment, and the first
    [listen] of [listen_to_client]. *)
Definition main_code : list startup_stmt := [Create_thread; Call; Call; Call; Assign_port; Call].

(** socket, setsockopt, inet_pton, connect, and the record. *)
Definition thread_code : list startup_stmt := [Call; Call_or_return; Call; Call; Send_record].

(** What is left of both, the record in the memory of [main], and what the
    thread has sent of it; [assigned] is how much that was when the port was
    assigned. *)
Record startup := Startup {
  main_todo : list startup_stmt;
  thread_todo : option (list startup_stmt);   (** [None]: not created yet *)
  ssi : bytes;
  sent : bytes;
  assigned : option nat;
  alive : bool
}.

Inductive who := Main | Thread.

(** What a call returns; [Sent k] is one [send] that takes [k] bytes. *)
Inductive startup_answer := Succeeds | Fails | Sent (k : nat).

Definition todo_of (w : who) (st : startup) : option (list startup_stmt) :=
  match w with Main => Some (main_todo st) | Thread => thread_todo st end.

Definition set_todo (w : who) (l : list startup_stmt) (st : startup) : startup :=
  match w with
  | Main => Startup l (thread_todo st) (ssi st) (sent st) (assigned st) (alive st)
  | Thread => Startup (main_todo st) (Some l) (ssi st) (sent st) (assigned st) (alive st)
  end.

Definition exits (st : startup) : startup :=
  Startup (main_todo st) (thread_todo st) (ssi st) (sent st) (assigned st) false.

(** One call of [main] or of the thread that runs [code].  [send_good] calls
    [send] until the record is gone; each call reads what the memory holds. *)
Definition startup_step (port : Z) (code : list startup_stmt) (w : who) (a : startup_answer) (st : startup)
    : option startup :=
  if alive st then
    match todo_of w st, a with
    | Some (Create_thread :: l), Succeeds =>
        Some (Startup l (Some code) (ssi st) (sent st) (assigned st) true)
    | Some (Call :: l), Succeeds | Some (Call_or_return :: l), Succeeds => Some (set_todo w l st)
    | Some (Create_thread :: _), Fails | Some (Call :: _), Fails | Some (Send_record :: _), Fails =>
        Some (exits st)
    | Some (Call_or_return :: _), Fails => Some (set_todo w [] st)
    | Some (Assign_port :: l), Succeeds =>
        Some (set_todo w l (Startup (main_todo st) (thread_todo st) (with_port (ssi st) port) (sent st)
                (Some (length (sent st))) true))
    | Some (Send_record :: l), Sent k =>
        let n := (length (sent st) + k)%nat in
        if bool_decide (0 < k /\ n <= length (ssi st))%nat then
          let st' := Startup (main_todo st) (thread_todo st) (ssi st)
            (sent st ++ take k (drop (length (sent st)) (ssi st))) (assigned st) true in
          Some (if bool_decide (n = length (ssi st)) then set_todo w l st' else st')
        else None
    | _, _ => None
    end
  else None.

(** Any interleaving of [main], which is to run [mcode], and the thread. *)
Definition starting (mcode : list startup_stmt) (image : bytes) : startup :=
  Startup mcode None image [] None true.

Fixpoint run_startup (port : Z) (code : list startup_stmt) (sched : list (who * startup_answer)) (st : startup)
    : option startup :=
  match sched with
  | [] => Some st
  | (w, a) :: sched' => st' ← startup_step port code w a st; run_startup port code sched' st'
  end.

(** The record as the thread sends it when the port is assigned after [j]
    bytes of it, or not at all. *)
Definition record_sent (image : bytes) (port : Z) (j : option nat) : bytes :=
  match j with None => image | Some j => take j image ++ drop j (with_port image port) end.

(** ** The port in the record *)

Lemma length_encode_le n x : length (encode_le n x) = n.
Proof. revert x; induction n as [|n IH]; intros x; [done|]. cbn. by rewrite IH. Qed.

Lemma decode_encode_le n x : 0 <= x -> decode_le (encode_le n x) = x mod 256 ^ Z.of_nat n.
Proof.
  revert x; induction n as [|n IH]; intros x Hx; [by rewrite Z.mod_1_r|].
  cbn [encode_le decode_le]. rewrite IH by (apply Z.div_pos; lia).
  rewrite N_ascii_embedding by (pose proof (Z.mod_pos_bound x 256 ltac:(lia)); lia).
  rewrite Z2N.id by (apply Z.mod_pos_bound; lia).
  rewrite Nat2Z.inj_succ, Z.pow_succ_r by lia. rewrite Z.rem_mul_r by lia. done.
Qed.

Lemma portClient_with_port image port :
  (OFFSET_portClient + 4 <= length image)%nat -> 0 <= port < 65536 ->
  portClient_of (with_port image port) = Val port.
Proof.
  intros Hl Hp. unfold portClient_of, with_port. rewrite bool_decide_eq_true_2
    by (rewrite !length_app, length_take, length_encode_le; lia).
  assert (length (take OFFSET_portClient image) = OFFSET_portClient) as Ht by (rewrite length_take; lia).
  rewrite <- Ht at 1. rewrite drop_app_length.
  rewrite <- (length_encode_le 4 port) at 1. rewrite take_app_length.
  rewrite decode_encode_le by lia. change (256 ^ Z.of_nat 4) with (2 ^ 32).
  rewrite Z.mod_small by lia. unfold to_int32. rewrite Z.mod_small by lia. f_equal. lia.
Qed.

Lemma length_with_port image port :
  (OFFSET_portClient + 4 <= length image)%nat -> length (with_port image port) = length image.
Proof.
  intros Hl. unfold with_port. rewrite !length_app, length_take, length_drop, length_encode_le. lia.
Qed.

(** ** Interleavings of [main] and the thread *)

Fixpoint assigns (l : list startup_stmt) : nat :=
  match l with
  | [] => 0
  | Assign_port :: l' => S (assigns l')
  | _ :: l' => assigns l'
  end.

(** What is in memory and on the wire, while [main] assigns the port at most
    once and the thread does not. *)
Record startup_ok (image : bytes) (port : Z) (st : startup) : Prop := {
  ok_sent : sent st = take (length (sent st)) (record_sent image port (assigned st));
  ok_ssi : ssi st = match assigned st with None => image | Some _ => with_port image port end;
  ok_assigned : forall j, assigned st = Some j -> (j <= length (sent st))%nat;
  ok_once : (assigns (main_todo st) + match assigned st with None => 0 | Some _ => 1 end <= 1)%nat;
  ok_thread : forall l, thread_todo st = Some l -> assigns l = 0%nat;
  ok_length : (length (sent st) <= length image)%nat
}.

Section interleavings.
Variable image : bytes.
Variable port : Z.
Hypothesis Himage : (OFFSET_portClient + 4 <= length image)%nat.

Lemma length_record_sent j : length (record_sent image port j) = length image.
Proof.
  destruct j as [j|]; [|done]. cbn [record_sent].
  rewrite length_app, length_take, length_drop, length_with_port by done. lia.
Qed.

Lemma ok_rest st : startup_ok image port st ->
  drop (length (sent st)) (record_sent image port (assigned st)) = drop (length (sent st)) (ssi st).
Proof.
  intros [_ Hssi Hj _ _ Hl]. rewrite Hssi. destruct (assigned st) as [j|]; [|done]. specialize (Hj j eq_refl).
  cbn [record_sent]. rewrite drop_app_ge by (rewrite length_take; lia).
  rewrite length_take, drop_drop. f_equal. lia.
Qed.

Lemma ok_todo w l st :
  startup_ok image port st -> (assigns l <= match w with Main => assigns (main_todo st) | Thread => 0 end)%nat ->
  startup_ok image port (set_todo w l st).
Proof.
  intros [H1 H2 H3 H4 H5 H6] Hl. destruct w; split; cbn; try done.
  - lia.
  - intros l' [= <-]. lia.
Qed.

Lemma ok_assign st :
  startup_ok image port st -> assigned st = None ->
  (assigns (main_todo st) <= 1)%nat -> forall l, (S (assigns l) <= assigns (main_todo st))%nat ->
  startup_ok image port (set_todo Main l (Startup (main_todo st) (thread_todo st) (with_port (ssi st) port) (sent st)
    (Some (length (sent st))) true)).
Proof.
  intros [H1 H2 H3 H4 H5 H6] Hn Ha l Hl. rewrite Hn in *. split; cbn; try done.
  - rewrite H1 at 1. rewrite take_app_le by (rewrite length_take; lia). rewrite take_take. f_equal. lia.
  - by rewrite H2.
  - intros j [= <-]. lia.
  - lia.
Qed.

Lemma ok_send st k :
  startup_ok image port st -> (length (sent st) + k <= length (ssi st))%nat ->
  startup_ok image port (Startup (main_todo st) (thread_todo st) (ssi st)
    (sent st ++ take k (drop (length (sent st)) (ssi st))) (assigned st) true).
Proof.
  intros Hok Hk. pose proof (ok_rest st Hok) as Hr. destruct Hok as [H1 H2 H3 H4 H5 H6].
  assert (length (ssi st) = length image) as Hl by (rewrite H2; destruct (assigned st); [by apply length_with_port|done]).
  assert (length (sent st ++ take k (drop (length (sent st)) (ssi st))) = length (sent st) + k)%nat as Hlen
    by (rewrite length_app, length_take, length_drop; lia).
  split; cbn; try done; rewrite ?Hlen; [|intros j Hj; specialize (H3 j Hj); lia|lia].
  rewrite <- Hr. rewrite H1 at 1. by rewrite take_take_drop.
Qed.

Lemma startup_step_ok code w a st st' :
  assigns code = 0%nat -> startup_ok image port st -> startup_step port code w a st = Some st' ->
  startup_ok image port st'.
Proof.
  intros Hcode Hok Hs. unfold startup_step in Hs. destruct (alive st); [|done].
  assert (forall l, todo_of w st = Some l ->
    (assigns l <= match w with Main => assigns (main_todo st) | Thread => 0 end)%nat) as Htd.
  { intros l Hl. destruct w; cbn in Hl; [by injection Hl as <-|]. by rewrite (ok_thread _ _ _ Hok l Hl). }
  destruct (todo_of w st) as [[|s l]|] eqn:Hw; try done. specialize (Htd _ eq_refl).
  destruct s, a as [| |k]; simplify_eq; cbn [assigns] in Htd; try (by apply ok_todo); try (by destruct Hok; split).
  - destruct Hok as [H1 H2 H3 H4 H5 H6]. destruct w; cbn in Hw, Htd; simplify_eq; split; cbn; try done; try lia;
      intros l' [= <-]; done.
  - apply ok_todo; [done|]. cbn. lia.
  - destruct w; [|lia]. cbn in Hw. injection Hw as Hw. pose proof (ok_once _ _ _ Hok) as H4. rewrite Hw in H4. cbn in H4.
    apply ok_assign; [done|revert H4; destruct (assigned st); intros H4; [exfalso; lia|done]|rewrite Hw; cbn; lia|]. rewrite Hw. cbn. lia.
  - case_bool_decide as Hk; [|done]. pose proof (ok_send st k Hok (proj2 Hk)) as Hok'.
    case_bool_decide; simplify_eq; [apply ok_todo; [done|by destruct w]|done].
Qed.

Lemma run_startup_ok mcode code sched st' :
  (assigns mcode <= 1)%nat -> assigns code = 0%nat ->
  run_startup port code sched (starting mcode image) = Some st' -> startup_ok image port st'.
Proof.
  intros Hm Hcode. assert (startup_ok image port (starting mcode image)) as Hok by (split; cbn; done || lia).
  revert Hok. generalize (starting mcode image). induction sched as [|[w a] sched IH]; intros st Hok Hr; cbn in Hr;
    [congruence|]. apply bind_Some in Hr as (st1 & H1 & Hr). by eapply IH; [eapply startup_step_ok|].
Qed.

(** The port field is the port once it was assigned before its first byte was
    sent, and what was in memory when it was not before its last. *)
Lemma port_of_record j :
  0 <= port < 65536 ->
  (match j with Some j => (j <= OFFSET_portClient)%nat | None => False end ->
     portClient_of (record_sent image port j) = Val port) /\
  (match j with Some j => (OFFSET_portClient + 4 <= j)%nat | None => True end ->
     portClient_of (record_sent image port j) = portClient_of image).
Proof.
  intros Hp. destruct j as [j|]; [|by split]. cbn [record_sent].
  pose proof (length_with_port image port Himage) as Hl. split; intros Hj.
  - rewrite <- (portClient_with_port image port Himage Hp). f_equal.
    transitivity (take j (with_port image port) ++ drop j (with_port image port)); [|apply take_drop]. f_equal.
    unfold with_port. rewrite take_app_le by (rewrite length_take; lia). rewrite take_take. f_equal. lia.
  - unfold portClient_of. rewrite length_app, length_take, length_drop, Hl.
    rewrite !bool_decide_eq_true_2 by lia. do 3 f_equal.
    rewrite drop_app_le by (rewrite length_take; lia). rewrite take_app_le by (rewrite length_drop, length_take; lia).
    rewrite skipn_firstn_comm, take_take. f_equal. lia.
Qed.
End interleavings.

(** The thread is through before [main] has its socket. *)
Definition thread_first : list (who * startup_answer) :=
  [(Main, Succeeds); (Thread, Succeeds); (Thread, Succeeds); (Thread, Succeeds); (Thread, Succeeds);
   (Thread, Sent SIZEOF_StorageServerInfo);
   (Main, Succeeds); (Main, Succeeds); (Main, Succeeds); (Main, Succeeds); (Main, Succeeds)].

(** [main] is listening before the thread is connected. *)
Definition main_first : list (who * startup_answer) :=
  [(Main, Succeeds); (Main, Succeeds); (Main, Succeeds); (Main, Succeeds); (Main, Succeeds); (Main, Succeeds);
   (Thread, Succeeds); (Thread, Succeeds); (Thread, Succeeds); (Thread, Succeeds);
   (Thread, Sent SIZEOF_StorageServerInfo)].

(** [main] listens, the thread has sent the record, and the process is alive. *)
Definition both_done (st : startup) : Prop :=
  main_todo st = [] /\ thread_todo st = Some [] /\ alive st = true.

(** ** Properties *)



(** ** The whole registration *)

(** The naming server after the registration of its server number [n]. *)
Definition joined (n : nat) (ci : StorageServerConnectionInfo) (port : Z) (t : trienode) (st : naming) : naming :=
  set_index (S n) (set_servers (<[n := SSI ci port (ci_socket ci) (Some t) (-1) (-1) 1]> (storage_servers st)) st).

Lemma store_server_run fuel info st n :
  storage_server_index st = n -> (n < 2)%nat -> length (storage_servers st) = MAX_STORAGE_SERVERS ->
  storage_semaphore st = 1 ->
  store_server fuel info st =
    Ret (tt, set_index (S n) (set_servers (<[n := info]> (storage_servers st)) st)).
Proof.
  intros Hn Hn2 Hl Hs. unfold store_server. rewrite sem_wait_bind, bool_decide_eq_true_2 by lia.
  erewrite M_bind_Ret by reflexivity. cbn [storage_server_index set_semaphore].
  rewrite Hn, bool_decide_eq_false_2 by (unfold MAX_STORAGE_SERVERS; lia).
  assert (exists old, storage_servers st !! n = Some old) as [old Hold].
  { apply lookup_lt_is_Some. unfold MAX_STORAGE_SERVERS in *. lia. }
  assert (server_at (set_semaphore (storage_semaphore st - 1) st) (Z.of_nat n) = Val old) as Hat.
  { apply server_at_Val. rewrite Nat2Z.id. split; [lia|exact Hold]. }
  assert (put_server (Z.of_nat n) info (set_semaphore (storage_semaphore st - 1) st) =
    Ret (tt, set_servers (<[n := info]> (storage_servers st)) (set_semaphore (storage_semaphore st - 1) st))) as Hput.
  { unfold put_server. erewrite M_bind_Ret.
    2:{ change (get_server (Z.of_nat n) ?x) with (liftC (server_at x (Z.of_nat n)) x). by rewrite Hat. }
    cbn. by rewrite Nat2Z.id. }
  assert (forall st', order_backups fuel (Z.of_nat n) st' = Ret (tt, st')) as Hord.
  { intros st'. unfold order_backups. rewrite bool_decide_eq_false_2 by lia. by rewrite bool_decide_eq_false_2 by lia. }
  erewrite M_bind_Ret; [|by erewrite M_bind_Ret; [apply Hord|exact Hput]].
  erewrite M_bind_Ret by reflexivity. unfold sem_post, modifyS, set_index, set_servers, set_semaphore.
  cbn. rewrite Hn. do 3 f_equal. lia.
Qed.

(** The texts of the log fit their buffers. *)
Definition loggable (ci : StorageServerConnectionInfo) : Prop :=
  (length (sin_addr (ci_addr ci)) + length (print_Z (sin_port (ci_addr ci))) +
   length (print_Z (ci_socket ci)) <= 900)%nat.

Lemma fits_Val k m : (length m < k)%nat -> fits k m = Val m.
Proof. intros Hm. unfold fits. by rewrite bool_decide_eq_true_2. Qed.

Lemma log_it_bind {B} ip port m (k : unit -> NM B) st :
  (length ip + length (print_Z port) + length m <= 980)%nat ->
  exists line, (log_it ip port m ≫= k) st = Log line (k tt st).
Proof.
  intros Hl. unfold log_it. eexists. rewrite fits_Val; [reflexivity|].
  case_bool_decide; rewrite ?length_app; unfold BUFFER_SIZE, lit; cbn [length list_ascii_of_string]; lia.
Qed.

Lemma runM_bind_Ret {S A B} (m : M S A) (k : A -> M S B) st st' ans tr a x :
  run (m st) ans = (tr, Done (a, st')) -> k a st' = Ret x -> run ((m ≫= k) st) ans = (tr, Done x).
Proof. intros Hm Hk. by eapply run_bind_Ret. Qed.

Lemma register_run fuel ci st n l k ps cs t port record shown :
  storage_server_index st = n -> (n < 2)%nat -> length (storage_servers st) = MAX_STORAGE_SERVERS ->
  storage_semaphore st = 1 -> loggable ci ->
  record <> [] -> portClient_of record = Val port ->
  Forall (carried l) ps -> (24 <= l)%nat -> (l + k <= MAX_PATH_SIZE)%nat ->
  concat cs = listing ps -> Forall (fun c => 0 < length c <= k)%nat cs -> (length cs <= fuel)%nat ->
  run_ops (add_ops ps) (CreateNode ".") = Val t -> DisplayTrie t = Val shown ->
  find_redundancy st t MAX_STORAGE_SERVERS 0 = Val None ->
  exists tr, run (register_storage_server fuel ci st) (ARecv (RData record) :: pieces cs) =
    (tr, Done (tt, joined n ci port t st)).
Proof.
  intros Hn Hn2 Hlen Hsem Hlog Hrec Hport Hps Hl Hlk Hcat Hcs Hf Hops Hshown Hred.
  destruct (indexHelper_run_trie fuel (ci_socket ci) st l k ps cs t) as [tr Htr]; [done..|lia|].
  unfold loggable in Hlog. unfold register_storage_server. set (message := _ ++ _).
  assert (length message <= 60 + length (print_Z (ci_socket ci)))%nat as Hm
    by (unfold message; rewrite !length_app; unfold lit; cbn [length list_ascii_of_string]; lia).
  rewrite fits_Val by (unfold BUFFER_SIZE; lia). rewrite liftC_Val.
  match goal with |- context [log_it ?ip ?p ?m ≫= ?k] =>
    destruct (log_it_bind ip p m k st) as [line ->]; [lia|] end. cbn [run].
  unfold recvN. rewrite run_recvM. cbn [fst snd]. rewrite bool_decide_eq_false_2 by (destruct record; [done|simpl; lia]).
  eexists. erewrite runM_bind_Ret; [reflexivity|exact Htr|].
  cbn [fst snd]. rewrite Hshown, liftC_Val. erewrite M_bind_Ret by reflexivity.
  rewrite Hred, liftC_Val, Hport, liftC_Val. by apply store_server_run.
Qed.

Lemma joined_inv n ci port t st :
  naming_inv n st -> (n < MAX_STORAGE_SERVERS)%nat -> wf_trie t -> naming_inv (S n) (joined n ci port t st).
Proof.
  intros Hi Hn Hwf.
  eapply (appended_inv n (SSI ci port (ci_socket ci) (Some t) (-1) (-1) 1) t); [exact Hi|exact Hn|done|exact Hwf|].
  split; [|done]. unfold joined. cbn. by rewrite list_fmap_insert.
Qed.


Definition example_record : bytes := with_port (replicate SIZEOF_StorageServerInfo "x"%char) 4000.

Definition example_ci : StorageServerConnectionInfo := Conn 7 (Addr "10.0.0.2" 51000).

Definition folder_trie : trienode :=
  match run_ops (add_ops folder_ps) (CreateNode ".") with Val t => t | Undef _ => CreateNode "." end.

Definition folder_shown : list bytes * Z * Z :=
  match DisplayTrie folder_trie with Val x => x | Undef _ => ([], 0, 0) end.

