(* ===== verification/Attached.v ===== *)
(** * The naming server with one of its storage servers attached

    A handler of the naming server talks to a storage server over the
    connection the latter registered with.  [attached] runs such a handler
    with the storage server's [listen_to_nm] at the other end of one socket:
    what the handler sends there is carried out as a command, and what it
    receives there is the answer.  All other sockets stay with the
    environment. *)
From S2P Require Export ClientReplies StorageDispatch.

Open Scope Z_scope.

(** ** Execution *)

(** The storage server and the bytes it has sent that were not yet received. *)
Record peer (F : Type) := Peer { its_state : server F; unread : bytes }.
Arguments Peer {F} _ _.
Arguments its_state {F} _.
Arguments unread {F} _.

Section attached.
Context {F : Type} `{Posix F} {mem : Memory}.
Variables (fuel : nat) (root_path : bytes) (sock sock' : Z).

(** [sock] is the naming server's descriptor of the connection, [sock'] the
    storage server's.  A message is received whole; commands during which the
    storage server talks to others are outside this composition. *)
Fixpoint attached {A} (p : io A) (s : peer F) : io (A * peer F) :=
  match p with
  | Ret a => Ret (a, s)
  | Bad u => Bad u
  | Stuck => Stuck
  | Send s0 m k =>
      if s0 =? sock then
        if bool_decide (length m < BUFFER_SIZE)%nat then
          match nm_command fuel root_path sock' (cstr m) (its_state s) with
          | Ret (reply, st') =>
              attached (k (SSent (length m))) (Peer st' (unread s ++ default [] reply))
          | Bad u => Bad u
          | _ => Stuck
          end
        else Bad OutOfBounds
      else Send s0 m (fun r => attached (k r) s)
  | Recv s0 n k =>
      if s0 =? sock then
        match unread s with
        | [] => Stuck
        | _ => attached (k (RData (take n (unread s)))) (Peer (its_state s) (drop n (unread s)))
        end
      else Recv s0 n (fun r => attached (k r) s)
  | Connect ip port k => Connect ip port (fun r => attached (k r) s)
  | Close s0 p' => Close s0 (attached p' s)
  | Log m p' => Log m (attached p' s)
  end.

(** Whenever the handler ends, with new connections on other descriptors. *)
Definition att {A} (m : NM A) (st : naming) (s : peer F)
    (Q : A -> naming -> peer F -> Prop) : Prop :=
  forall tr, wp (whenever (away sock)) (attached (m st) s) tr (fun _ x => Q x.1.1 x.1.2 x.2).

(** ** Rules *)

Lemma attached_bind {A B} (p : io A) (k : A -> io B) s tr R Q :
  wp R (attached p s) tr (fun tr' x => wp R (attached (k x.1) x.2) tr' Q) ->
  wp R (attached (p ≫= k) s) tr Q.
Proof.
  revert s tr. induction p as [a|u| |s0 m j IH|s0 n j IH|ip port j IH|s0 p IH|m p IH];
    intros s tr Hp; try done; cbn [attached mbind io_bind] in *.
  - destruct (s0 =? sock); [|intros r Hr; apply IH, (Hp r Hr)].
    case_bool_decide; [|done]. destruct (nm_command _ _ _ _ _) as [[reply st']|?| | | | | |]; try done.
    by apply IH.
  - destruct (s0 =? sock); [|intros r Hr; apply IH, (Hp r Hr)].
    destruct (unread s); [done|]. by apply IH.
  - intros r Hr. apply IH, (Hp r Hr).
  - by apply IH.
  - by apply IH.
Qed.

Lemma att_bind {A B} (m : NM A) (f : A -> NM B) st s Q :
  att m st s (fun a st' s' => att (f a) st' s' Q) -> att (m ≫= f) st s Q.
Proof. intros Hm tr. apply attached_bind. eapply wp_mono; [|apply Hm]. intros tr' x Hx. apply Hx. Qed.

Lemma att_mono {A} (m : NM A) st s (Q Q' : A -> naming -> peer F -> Prop) :
  att m st s Q -> (forall a st' s', Q a st' s' -> Q' a st' s') -> att m st s Q'.
Proof. intros Hm HQ tr. eapply wp_mono; [|apply Hm]. intros tr' x. apply HQ. Qed.

Lemma att_ret {A} (a : A) st s (Q : A -> naming -> peer F -> Prop) : Q a st s -> att (mret a) st s Q.
Proof. by intros HQ tr. Qed.

Lemma att_get_server {B} i (f : StorageServerInfo -> NM B) st s Q :
  (forall ss, server_at st i = Val ss -> att (f ss) st s Q) -> att (get_server i ≫= f) st s Q.
Proof.
  intros HQ tr. unfold get_server, getS, liftC, liftIO. cbv [mbind M_bind io_bind]. cbn [fst snd].
  destruct (server_at st i) as [ss|u]; [|done]. cbn [io_of]. by apply HQ.
Qed.

Lemma att_liftC {A B} (x : cres A) (f : A -> NM B) st s Q :
  (forall a, x = Val a -> att (f a) st s Q) -> att (liftC x ≫= f) st s Q.
Proof. intros HQ tr. destruct x as [a|u]; [by apply HQ|done]. Qed.

Lemma att_send_other {B} s0 m (f : Z -> NM B) st s Q :
  s0 <> sock -> (forall n, att (f n) st s Q) -> att (sendN s0 m ≫= f) st s Q.
Proof.
  intros Hs HQ tr. unfold sendN, send_good, liftIO. cbv [mbind M_bind io_bind]. cbn [attached].
  rewrite (proj2 (Z.eqb_neq _ _) Hs). intros r Hr.
  destruct r as [n| |]; [apply (HQ (Z.of_nat n))|apply (HQ 0)|apply (HQ (-1))].
Qed.

Lemma att_recv_other {B} s0 n (f : Z * bytes -> NM B) st s Q :
  s0 <> sock -> (forall nb, att (f nb) st s Q) -> att (recvN s0 n ≫= f) st s Q.
Proof.
  intros Hs HQ tr. unfold recvN, recv_good, liftIO. cbv [mbind M_bind io_bind]. cbn [attached].
  rewrite (proj2 (Z.eqb_neq _ _) Hs). intros r Hr. destruct r as [b| | |]; apply HQ.
Qed.

(** A command to the storage server. *)
Lemma att_send_here {B} m (f : Z -> NM B) st s Q :
  (forall reply st', (length m < BUFFER_SIZE)%nat ->
     nm_command fuel root_path sock' (cstr m) (its_state s) = Ret (reply, st') ->
     att (f (Z.of_nat (length m))) st (Peer st' (unread s ++ default [] reply)) Q) ->
  att (sendN sock m ≫= f) st s Q.
Proof.
  intros HQ tr. unfold sendN, send_good, liftIO. cbv [mbind M_bind]. cbn [io_bind attached].
  rewrite Z.eqb_refl. case_bool_decide; [|done].
  destruct (nm_command _ _ _ _ _) as [[reply st']|u| | | | | |] eqn:Hrun; try done. by apply HQ.
Qed.

(** Its answer. *)
Lemma att_recv_here {B} n (f : Z * bytes -> NM B) st s b Q :
  unread s = b -> (0 < length b <= n)%nat ->
  att (f (Z.of_nat (length b), b)) st (Peer (its_state s) []) Q ->
  att (recvN sock n ≫= f) st s Q.
Proof.
  intros Hb Hn HQ tr. unfold recvN, recv_good, liftIO. cbv [mbind M_bind]. cbn [io_bind attached].
  rewrite Z.eqb_refl, Hb. destruct b as [|c b]; [simpl in Hn; lia|].
  rewrite take_ge, drop_ge by lia. apply HQ.
Qed.

(** ** Handlers that leave the connection alone *)

Fixpoint avoids {A} (p : io A) (P : A -> Prop) : Prop :=
  match p with
  | Ret a => P a
  | Bad _ | Stuck => True
  | Send s0 _ k => s0 <> sock /\ forall r, avoids (k r) P
  | Recv s0 _ k => s0 <> sock /\ forall r, avoids (k r) P
  | Connect _ _ k => forall r, (forall fd, r = Connected fd -> fd <> sock) -> avoids (k r) P
  | Close s0 p' => s0 <> sock /\ avoids p' P
  | Log _ p' => avoids p' P
  end.

Lemma avoids_bind {A B} (p : io A) (k : A -> io B) P Q :
  avoids p P -> (forall a, P a -> avoids (k a) Q) -> avoids (p ≫= k) Q.
Proof. intros Hp Hk. induction p; cbn in *; naive_solver. Qed.

Lemma avoids_mono {A} (p : io A) (P Q : A -> Prop) :
  (forall a, P a -> Q a) -> avoids p P -> avoids p Q.
Proof. intros HPQ Hp. induction p; cbn in *; naive_solver. Qed.

Lemma avoids_attached {A} (p : io A) P s tr (Q : list event -> A * peer F -> Prop) :
  avoids p P -> (forall tr' a, P a -> Q tr' (a, s)) ->
  wp (whenever (away sock)) (attached p s) tr Q.
Proof.
  intros Hp HQ. revert tr. induction p as [a|u| |s0 m k IH|s0 n k IH|ip port k IH|s0 p IH|m p IH];
    intros tr; cbn [avoids attached] in *; try done; try by apply HQ.
  - destruct Hp as [Hs Hp]. rewrite (proj2 (Z.eqb_neq _ _) Hs). intros r _. apply (IH r (Hp r)).
  - destruct Hp as [Hs Hp]. rewrite (proj2 (Z.eqb_neq _ _) Hs). intros r _. apply (IH r (Hp r)).
  - intros r [_ Hr]. apply IH, Hp. intros fd ->. exact Hr.
  - apply IH, Hp.
  - by apply IH.
Qed.

(** [m] does not use the connection and changes no data. *)
Definition calm {A} (m : NM A) (P : A -> Prop) : Prop :=
  forall st, avoids (m st) (fun x => same_data st x.2 /\ P x.1).

Lemma att_calm {A B} (m : NM A) (f : A -> NM B) P st s Q :
  calm m P -> (forall a st', same_data st st' -> P a -> att (f a) st' s Q) -> att (m ≫= f) st s Q.
Proof.
  intros Hm HQ. apply att_bind. intros tr. eapply avoids_attached; [apply Hm|].
  intros tr' [a st'] [Hs Ha]. by apply HQ.
Qed.

Lemma calm_bind {A B} (m : NM A) (f : A -> NM B) P Q :
  calm m P -> (forall a, P a -> calm (f a) Q) -> calm (m ≫= f) Q.
Proof.
  intros Hm Hf st. eapply avoids_bind; [apply Hm|]. intros [a st'] [Hs Ha].
  eapply avoids_mono; [|apply (Hf a Ha)]. cbn. intros x [Hs' Hx]. split; [by transitivity st'|done].
Qed.

Lemma calm_weaken {A} (m : NM A) (P Q : A -> Prop) : (forall a, P a -> Q a) -> calm m P -> calm m Q.
Proof. intros HPQ Hm st. eapply avoids_mono; [|apply Hm]. naive_solver. Qed.

Lemma calm_ret {A} (a : A) (P : A -> Prop) : P a -> calm (mret a) P.
Proof. by intros Ha st. Qed.

Lemma calm_if {A} (b : bool) (m1 m2 : NM A) P : calm m1 P -> calm m2 P -> calm (if b then m1 else m2) P.
Proof. by destruct b. Qed.

Lemma calm_liftC {A} (x : cres A) : calm (liftC x) (fun a => x = Val a).
Proof. intros st. by destruct x. Qed.

Lemma calm_get_server i : calm (get_server i) (fun _ => True).
Proof.
  intros st. unfold get_server, getS, liftC, liftIO. cbv [mbind M_bind io_bind]. cbn [fst snd].
  by destruct (server_at st i).
Qed.

Lemma calm_getS : calm getS (fun _ => True).
Proof. by intros st. Qed.

Lemma calm_modify (f : naming -> naming) : (forall st, same_data st (f st)) -> calm (modifyS f) (fun _ => True).
Proof. intros Hf st. split; [apply Hf|done]. Qed.

Lemma calm_sendN s0 m : s0 <> sock -> calm (sendN s0 m) (fun _ => True).
Proof.
  intros Hs st. unfold sendN, send_good, liftIO. cbv [mbind io_bind]. cbn [avoids].
  split; [done|]. by intros [n| |].
Qed.

Lemma calm_recvN s0 n : s0 <> sock -> calm (recvN s0 n) (fun _ => True).
Proof.
  intros Hs st. unfold recvN, recv_good, liftIO. cbv [mbind io_bind]. cbn [avoids].
  split; [done|]. by intros [b| | |].
Qed.

Lemma calm_closeM s0 : s0 <> sock -> calm (closeM s0) (fun _ => True).
Proof. by intros Hs st. Qed.

Lemma calm_logM m : calm (logM m) (fun _ => True).
Proof. by intros st. Qed.

Lemma calm_connectM ip port : calm (connectM ip port) (fun r => forall fd, r = Connected fd -> fd <> sock).
Proof. intros st r Hr. by split. Qed.
End attached.

Create HintDb calm.
#[export] Hint Resolve calm_liftC calm_get_server calm_getS calm_logM calm_connectM : calm.

(** Follow the structure of a handler whose result does not matter. *)
Ltac calm_step :=
  cbv beta zeta;
  lazymatch goal with
  | |- calm _ (mret _) (fun _ => True) => by apply calm_ret
  | |- calm _ ((if _ then _ else _) ≫= _) _ => eapply (calm_bind _ _ _ (fun _ => True)); [|intros ? _]
  | |- calm _ (_ ≫= _) _ => eapply calm_bind; [solve [eauto with calm]|intros ? ?]
  | |- calm _ (if _ then _ else _) _ => apply calm_if
  | |- calm _ (match ?x with _ => _ end) _ => destruct x eqn:?
  | |- calm _ _ (fun _ => True) => solve [eapply calm_weaken; [|solve [eauto with calm]]; done]
  end.

Ltac calm_go := repeat calm_step.

Section calm.
Context {sock : Z}.

Lemma get_server_known {B} i (f : StorageServerInfo -> NM B) st ss :
  server_at st i = Val ss -> (get_server i ≫= f) st = f ss st.
Proof.
  intros Hs. apply M_bind_Ret. change (get_server i st) with (liftC (server_at st i) st). by rewrite Hs.
Qed.

Lemma get_server_unknown {B} i (f : StorageServerInfo -> NM B) st u :
  server_at st i = Undef u -> (get_server i ≫= f) st = Bad u.
Proof. intros Hs. apply M_bind_Bad. change (get_server i st) with (liftC (server_at st i) st). by rewrite Hs. Qed.

Lemma calm_set_isUp i v : calm sock (set_isUp i v) (fun _ => True).
Proof.
  intros st. unfold set_isUp. destruct (server_at st i) as [ss|] eqn:Hs.
  - rewrite (get_server_known _ _ _ _ Hs). unfold put_server. rewrite (get_server_known _ _ _ _ Hs).
    split; [|done]. apply same_data_same_but_up. apply server_at_Val in Hs as [_ Hs].
    by apply (upd_isUp_same i v ss).
  - by rewrite (get_server_unknown _ _ _ _ Hs).
Qed.
Local Hint Resolve calm_set_isUp : calm.

Lemma calm_isSSUp i : calm sock (isSSUp i) (fun _ => True).
Proof.
  unfold isSSUp. calm_step. calm_step. destruct a0 as [| | |fd]; [calm_go..|].
  assert (fd <> sock) as Hfd by auto.
  eapply calm_bind; [by apply calm_sendN|]. intros n _. apply calm_if.
  - calm_step. eapply calm_bind; [by apply calm_closeM|]. intros _ _. calm_step.
  - eapply calm_bind; [by apply calm_recvN|]. intros nb _.
    apply calm_if; calm_step; (eapply calm_bind; [by apply calm_closeM|]); intros _ _; calm_step.
Qed.
Local Hint Resolve calm_isSSUp : calm.

Lemma calm_on_cache f : calm sock (on_cache f) (fun _ => True).
Proof.
  unfold on_cache. calm_step. calm_step. by apply calm_modify.
Qed.

Lemma calm_sem_wait : calm sock sem_wait (fun _ => True).
Proof. unfold sem_wait. calm_step. apply calm_if; [by apply calm_modify|done]. Qed.

Lemma calm_sem_post : calm sock sem_post (fun _ => True).
Proof. by apply calm_modify. Qed.
Local Hint Resolve calm_on_cache calm_sem_wait calm_sem_post : calm.

Lemma calm_search buffer : calm sock (search_storage_server buffer) (fun _ => True).
Proof. unfold search_storage_server. calm_go. Qed.

Lemma calm_forget i path : calm sock (forget i path) (fun _ => True).
Proof.
  unfold forget, delete_from_cacheN. calm_step; [|calm_go]. calm_step. calm_step.
  eapply calm_bind; [by apply calm_modify|]. intros _ _. calm_go.
Qed.

Lemma calm_usable i : calm sock (usable i) (fun _ => True).
Proof. unfold usable. calm_go. Qed.

Lemma calm_log_line m : calm sock (log_line m) (fun _ => True).
Proof. unfold log_line, log_it. calm_go. Qed.
End calm.

#[export] Hint Resolve calm_isSSUp calm_on_cache calm_sem_wait calm_sem_post calm_search
  calm_forget calm_usable calm_log_line : calm.
