(* ===== verification/Namespace.v ===== *)
(** * The naming server's view of a storage server's disk

    The trie of a storage server should hold exactly the paths of its shared
    folder.  [in_step] states this for the naming server with the storage
    server attached; the commands that create and delete paths keep it, on
    every branch, whether the disk accepts the command or not. *)
From S2P Require Export Attached.

Open Scope Z_scope.

(** ** Visible paths *)

(** Names that are not hidden: [_indexSubFolders] skips the others. *)
Definition visible_name (n : bytes) : Prop := component n /\ head n <> Some "."%char.

(** "./NAME/...", by its components. *)
Definition visible (ns : list bytes) : Prop := ns <> [] /\ Forall visible_name ns.

Definition path_of (ns : list bytes) : bytes := render (lit "." :: ns).

#[export] Instance visible_name_dec n : Decision (visible_name n).
Proof. unfold visible_name, component. apply _. Defined.

#[export] Instance visible_dec ns : Decision (visible ns).
Proof. apply _. Defined.

(** No path of the file system is a symbolic link. *)
Class Links (F : Type) := link_free : F -> Prop.

(** What POSIX promises about different paths of a file system without
    symbolic links: creating needs the parent folder, removing needs that
    nothing is below, and no other path is concerned.  With links these fail,
    since [stat] follows them: removing a path changes what [stat] says of the
    links to it.  The operations make no links themselves. *)
Class NamespaceLaws (F : Type) `{Posix F} `{Links F} := {
  link_free_kept op ns f f' :
    op = make_dir \/ op = truncate \/ op = remove_dir \/ op = remove_path ->
    op (path_of ns) f = Some f' -> link_free f -> link_free f';
  made_parent op ns n f f' :
    op = make_dir \/ op = truncate -> visible ns -> visible_name n -> link_free f ->
    op (path_of (ns ++ [n])) f = Some f' -> kind_of f (path_of ns) <> None;
  made_here op ns f f' :
    op = make_dir \/ op = truncate -> visible ns -> link_free f -> op (path_of ns) f = Some f' ->
    kind_of f' (path_of ns) <> None;
  removed_here op ns f f' :
    op = remove_dir \/ op = remove_path -> visible ns -> link_free f -> op (path_of ns) f = Some f' ->
    kind_of f' (path_of ns) = None;
  removed_leaf op ns n f f' :
    op = remove_dir \/ op = remove_path -> visible ns -> visible_name n -> link_free f ->
    op (path_of ns) f = Some f' -> kind_of f (path_of (ns ++ [n])) = None;
  elsewhere op ns ns' f f' :
    op = make_dir \/ op = truncate \/ op = remove_dir \/ op = remove_path ->
    visible ns -> visible ns' -> ns <> ns' -> link_free f -> op (path_of ns) f = Some f' ->
    kind_of f' (path_of ns') = kind_of f (path_of ns')
}.

(** ** Paths of the map instance *)

Lemma path_of_long ns : visible ns -> (2 <= length (path_of ns))%nat.
Proof.
  intros [Hne _]. unfold path_of. destruct ns as [|n ns]; [done|].
  change (render (lit "." :: n :: ns)) with ("."%char :: "/"%char :: render (n :: ns)). cbn [length]. lia.
Qed.

Lemma visible_word ns : visible ns -> Forall (word "/"%char) ns.
Proof. intros [_ Hv]. eapply Forall_impl; [exact Hv|]. by intros n [[? _] _]. Qed.

Lemma visible_not_dot n : visible_name n -> n <> lit ".".
Proof. by intros [_ Hd] ->. Qed.

Lemma components_visible ns : visible ns -> components (path_of ns) = ns.
Proof.
  intros Hv. unfold components, path_of. rewrite tokens_render.
  - rewrite filter_cons_False by (intros Hd; by apply Hd). apply filter_Forall.
    destruct Hv as [_ Hv]. eapply Forall_impl; [exact Hv|]. apply visible_not_dot.
  - constructor; [by apply (bool_decide_unpack _)|]. by apply visible_word.
Qed.

Lemma tokens_key ns : Forall (word "/"%char) ns -> tokens "/"%char (key_of ns) = ns.
Proof.
  intros Hw. destruct ns as [|n ns]; [done|]. unfold key_of.
  assert (forall w ws, word "/"%char w -> Forall (word "/"%char) ws ->
    tokens "/"%char (w ++ concat (cons "/"%char <$> ws)) = w :: ws) as Hgo.
  { intros w ws Hw1 Hws. revert w Hw1. induction Hws as [|x ws Hx _ IH]; intros w Hw1.
    - rewrite app_nil_r. by apply tokens_word; destruct Hw1.
    - cbn [fmap list_fmap concat]. change (("/"%char :: x) ++ ?r) with ("/"%char :: x ++ r).
      rewrite tokens_word_cons by done. f_equal. by apply IH. }
  apply Forall_cons in Hw as [Hn Hns]. cbn [fmap list_fmap concat].
  change (("/"%char :: n) ++ ?r) with ([] ++ "/"%char :: n ++ r). rewrite tokens_app.
  rewrite Hgo by done. done.
Qed.

Lemma key_visible_inj ns ns' : visible ns -> visible ns' -> key_of ns = key_of ns' -> ns = ns'.
Proof.
  intros Hv Hv' He. rewrite <- (tokens_key ns), <- (tokens_key ns') by by apply visible_word. by f_equal.
Qed.

Lemma key_visible ns : visible ns -> path_key (path_of ns) = key_of ns /\ key_of ns <> [].
Proof.
  intros Hv. unfold path_key. rewrite components_visible by done. split; [done|].
  by destruct Hv as [Hne _], ns.
Qed.

Lemma node_at_visible (f : files) ns : visible ns -> node_at f (path_of ns) = f !! key_of ns.
Proof.
  intros Hv. destruct (key_visible ns Hv) as [Hk Hne]. unfold node_at. rewrite Hk.
  unfold node_at_key. by destruct (key_of ns).
Qed.

Lemma kind_visible (f : files) ns : visible ns -> kind_of f (path_of ns) = node_kind <$> f !! key_of ns.
Proof. intros Hv. by rewrite <- node_at_visible. Qed.

Lemma visible_snoc ns n : visible ns -> visible_name n -> visible (ns ++ [n]).
Proof. intros [Hne Hv] Hn. split; [by destruct ns|]. apply Forall_app. split; [done|by constructor]. Qed.

Lemma parent_visible (f : files) ns n :
  visible ns -> visible_name n -> parent_is_dir f (path_of (ns ++ [n])) = true ->
  kind_of f (path_of ns) <> None.
Proof.
  intros Hv Hn. unfold parent_is_dir. rewrite components_visible by by apply visible_snoc.
  rewrite removelast_last. rewrite kind_visible by done. destruct (key_visible ns Hv) as [_ Hne].
  unfold node_at_key. destruct (key_of ns) eqn:Hk; [done|]. rewrite <- Hk. by destruct (f !! key_of ns).
Qed.

Lemma child_visible (f : files) ns n :
  visible ns -> visible_name n -> children_of f (path_of ns) = [] ->
  kind_of f (path_of (ns ++ [n])) = None.
Proof.
  intros Hv Hn Hc. assert (visible (ns ++ [n])) as Hv' by by apply visible_snoc.
  rewrite kind_visible by done. destruct (f !! key_of (ns ++ [n])) as [x|] eqn:Hx; [|done]. exfalso.
  apply (not_elem_of_nil n). rewrite <- Hc. unfold children_of. apply list_elem_of_omap.
  exists (ns ++ [n]). split; [|apply last_snoc]. apply list_elem_of_filter. split.
  - split; [by destruct ns|]. by rewrite removelast_last, components_visible.
  - apply list_elem_of_fmap. exists (key_of (ns ++ [n])). split.
    + rewrite <- (components_visible (ns ++ [n])) at 1 by done. unfold components.
      rewrite tokens_key by by apply visible_word. symmetry.
      destruct Hv' as [_ Hall]. rewrite filter_Forall; [|eapply Forall_impl; [exact Hall|apply visible_not_dot]].
      rewrite <- (components_visible (ns ++ [n])) at 1 by by apply visible_snoc. done.
    + apply list_elem_of_fmap. exists (key_of (ns ++ [n]), x). split; [done|]. by apply elem_of_map_to_list.
Qed.

(** The map holds folders and files only. *)
#[export] Instance map_links : Links files := fun _ => True.

#[export] Instance map_namespace : NamespaceLaws files.
Proof.
  split.
  - done.
  - intros op ns n f f' Hop Hv Hn _ Hf. apply (parent_visible f ns n Hv Hn). destruct Hop as [-> | ->]; cbn -[path_key path_of node_at parent_is_dir children_of] in Hf.
    + destruct (node_at f _); [done|]. by destruct (parent_is_dir f _).
    + by destruct (node_at f _) as [[|c]|]; [done|..]; destruct (parent_is_dir f _).
  - intros op ns f f' Hop Hv _ Hf. rewrite kind_visible by done. destruct (key_visible ns Hv) as [Hk _].
    enough (is_Some (f' !! key_of ns)) as [x ->] by done. destruct Hop as [-> | ->]; cbn -[path_key path_of node_at parent_is_dir children_of] in Hf.
    + destruct (node_at f _); [done|]. destruct (parent_is_dir f _); simplify_eq. rewrite Hk, lookup_insert_eq; by eexists.
    + destruct (node_at f _) as [[|c]|]; [done|..]; destruct (parent_is_dir f _); simplify_eq;
        rewrite Hk, lookup_insert_eq; by eexists.
  - intros op ns f f' Hop Hv _ Hf. rewrite kind_visible by done. destruct (key_visible ns Hv) as [Hk _].
    enough (f' = delete (key_of ns) f) as -> by by rewrite lookup_delete_eq. destruct Hop as [-> | ->]; cbn -[path_key path_of node_at parent_is_dir children_of] in Hf.
    + rewrite Hk in Hf. by destruct (_ && _ && _); simplify_eq.
    + rewrite Hk in Hf. destruct (node_at f _); [|done]. by destruct (_ && _); simplify_eq.
  - intros op ns n f f' Hop Hv Hn _ Hf. apply child_visible; [done..|]. destruct Hop as [-> | ->]; cbn -[path_key path_of node_at parent_is_dir children_of] in Hf.
    + destruct (bool_decide (children_of f _ = [])) eqn:Hb; [by apply bool_decide_eq_true in Hb|].
      by rewrite andb_false_r in Hf.
    + destruct (node_at f _); [|done]. destruct (bool_decide (children_of f _ = [])) eqn:Hb;
        [by apply bool_decide_eq_true in Hb|]. by rewrite andb_false_r in Hf.
  - intros op ns ns' f f' Hop Hv Hv' Hne _ Hf. rewrite !kind_visible by done. f_equal.
    destruct (key_visible ns Hv) as [Hk _].
    assert (key_of ns <> key_of ns') as Hkk by (intros He; by apply Hne, key_visible_inj).
    destruct Hop as [-> |[-> |[-> | ->]]]; cbn -[path_key path_of node_at parent_is_dir children_of] in Hf; rewrite Hk in Hf.
    + destruct (node_at f _); [done|]. destruct (parent_is_dir f _); simplify_eq. by rewrite lookup_insert_ne.
    + destruct (node_at f _) as [[|c]|]; [done|..]; destruct (parent_is_dir f _); simplify_eq;
        by rewrite lookup_insert_ne.
    + destruct (_ && _ && _); simplify_eq. by rewrite lookup_delete_ne.
    + destruct (node_at f _); [|done]. destruct (_ && _); simplify_eq. by rewrite lookup_delete_ne.
Qed.

(** ** Agreement of a trie and a disk *)

Section agreement.
Context {F : Type} `{NamespaceLaws F}.
Variable r : bytes.
Implicit Types f : F.

(** There are no symbolic links, and the trie has exactly the visible paths of
    the folder "./r". *)
Definition agrees (t : trienode) f : Prop :=
  link_free f /\ forall ns, visible ns -> head ns = Some r ->
    SearchPathHelperTries t (lit "." :: ns) = true <-> kind_of f (path_of ns) <> None.

Lemma visible_component ns : visible ns -> Forall component (lit "." :: ns).
Proof.
  intros [_ Hv]. constructor; [by apply (bool_decide_unpack _)|].
  eapply Forall_impl; [exact Hv|]. by intros n [? _].
Qed.

Lemma ParsePath_visible ns p : visible ns -> ParsePath (path_of ns) = Val p -> p = lit "." :: ns.
Proof.
  intros Hv [-> _]%ParsePath_Val. unfold path_of. rewrite tokens_render.
  - by apply filter_components, visible_component.
  - constructor; [by apply (bool_decide_unpack _)|]. by apply visible_word.
Qed.

Lemma kind_none_iff (o o' : option kind) : o' = o -> (o' <> None <-> o <> None).
Proof. by intros ->. Qed.

(** Creating a path on both sides. *)
Lemma agrees_made op ns t f f' :
  op = make_dir \/ op = truncate -> visible ns -> wf_trie t -> has_room (lit "." :: ns) t = true ->
  op (path_of ns) f = Some f' -> agrees t f -> agrees (add_path (lit "." :: ns) t) f'.
Proof.
  intros Hop Hv Hwf Hroom Hf [Hl Ha]. split; [eapply (link_free_kept op); [tauto|done..]|]. intros ms Hms Hr.
  rewrite search_add_path, orb_true_iff by (done || by apply visible_component).
  rewrite prefixb_cons, strcmp_eq_refl. cbn [andb]. destruct (decide (ms = ns)) as [->|Hne].
  { split; [intros _; by eapply made_here|]. intros _. right. by apply bool_decide_eq_true. }
  rewrite (Ha ms) by done.
  rewrite (elsewhere op ns ms f f') by (done || tauto || congruence).
  split; [|by left]. intros [Hk|Hp]; [done|]. apply bool_decide_eq_true in Hp as [k ->].
  destruct k as [|n k _] using rev_ind; [by rewrite app_nil_r in Hne|]. rewrite app_assoc in Hv, Hf.
  assert (visible (ms ++ k)) as Hv'.
  { split; [intros [-> _]%app_nil; by destruct Hms|]. destruct Hv as [_ Hv]. by apply Forall_app in Hv as [? _]. }
  assert (visible_name n) as Hn.
  { destruct Hv as [_ Hv]. apply Forall_app in Hv as [_ Hv]. by apply Forall_cons in Hv as [? _]. }
  apply Ha; [done..|]. apply (search_app t (lit "." :: ms) k). cbn [app]. apply Ha; [done|..].
  - destruct Hms as [Hms _]. by destruct ms.
  - by apply (made_parent op (ms ++ k) n f f').
Qed.

(** Removing a path on both sides. *)
Lemma agrees_removed op ns t t' f f' :
  op = remove_dir \/ op = remove_path -> visible ns -> wf_trie t ->
  op (path_of ns) f = Some f' -> DeletePath (path_of ns) t = Val t' -> agrees t f -> agrees t' f'.
Proof.
  intros Hop Hv Hwf Hf Hd [Hl Ha]. split; [eapply (link_free_kept op); [tauto|done..]|]. intros ms Hms Hr.
  destruct (ParsePath (path_of ns)) as [p|] eqn:Hp; [|by unfold DeletePath in Hd; rewrite Hp in Hd].
  pose proof (ParsePath_visible ns p Hv Hp) as ->. rewrite (DeletePath_Val _ _ _ Hp) in Hd.
  assert (SearchPathHelperTries t' (lit "." :: ms) =
    SearchPathHelperTries t (lit "." :: ms) && negb (prefixb (lit "." :: ns) (lit "." :: ms))) as ->.
  { destruct (SearchPathHelperTries t (lit "." :: ns)) eqn:Hs.
    - destruct (delete_walk _ t) as [t1|] eqn:Hw; [|done]. injection Hd as <-.
      by apply (search_delete_walk _ t).
    - injection Hd as <-. by rewrite search_prefixb. }
  rewrite prefixb_cons, strcmp_eq_refl. cbn [andb]. rewrite andb_true_iff, negb_true_iff.
  destruct (decide (ms = ns)) as [->|Hne].
  { rewrite (removed_here op ns f f') by done. split; [|done]. intros [_ Hp']. exfalso.
    apply bool_decide_eq_false in Hp'. by apply Hp'. }
  rewrite (Ha ms), (elsewhere op ns ms f f') by (done || tauto || congruence).
  split; [by intros [? _]|]. intros Hk. split; [done|]. apply bool_decide_eq_false. intros [k ->].
  destruct k as [|n k]; [by rewrite app_nil_r in Hne|].
  assert (visible_name n) as Hn.
  { destruct Hms as [_ Hall]. apply Forall_app in Hall as [_ Hall]. by apply Forall_cons in Hall as [? _]. }
  assert (visible (ns ++ [n])) as Hv' by by apply visible_snoc.
  assert (head (ns ++ [n]) = Some r) as Hr' by (destruct Hv as [Hv _]; by destruct ns).
  apply (Ha (ns ++ [n])); [done|done| |by eapply removed_leaf].
  apply (search_app t _ k). cbn [app]. rewrite <- app_assoc. cbn [app]. by apply Ha.
Qed.

(** A change outside the folder. *)
Lemma agrees_outside op ns t f :
  op = make_dir \/ op = truncate \/ op = remove_dir \/ op = remove_path ->
  visible ns -> head ns <> Some r -> agrees t f -> agrees t (default f (op (path_of ns) f)).
Proof.
  intros Hop Hv Hh [Hl Ha]. destruct (op (path_of ns) f) as [f'|] eqn:Hf; [|done].
  split; [by eapply (link_free_kept op)|]. intros ms Hms Hr.
  rewrite (Ha ms Hms Hr). cbn [default]. rewrite (elsewhere op ns ms f f'); try done. congruence.
Qed.
End agreement.

(** ** The two in step *)

Lemma starts_with_until_nul p s : NUL ∉ p -> starts_with p (until_nul s) = starts_with p s.
Proof.
  revert s; induction p as [|c p IH]; intros [|d s] Hp; try done. apply not_elem_of_cons in Hp as [Hc Hp].
  specialize (IH s Hp). unfold until_nul in *. cbn [split_first starts_with]. case_bool_decide as Hd.
  - subst d. by rewrite bool_decide_eq_false_2.
  - destruct (split_first NUL s) as [[a b]|]; cbn [starts_with]; by f_equal.
Qed.

Section in_step.
Context {F : Type} `{NamespaceLaws F} {mem : Memory}.
Variables (fuel : nat) (r : bytes) (sock sock' : Z) (i : Z) (c : Z).
Hypothesis Hr : visible [r].
Hypothesis Hbackup : r <> lit "backupfolderforss".
Hypothesis Hlong : (length r <= 900)%nat.
Hypothesis Hc : c <> sock.

Abbreviation att := (att fuel (path_of [r]) sock sock').
Implicit Types s : peer F.

(** Server [i] of the naming server is the one at the other end of [sock]:
    its trie is well-formed and agrees with the disk, no answer is left
    unread, and no other server uses the same descriptor. *)
Record in_step (st : naming) s : Prop := {
  step_server : exists ss t, server_at st i = Val ss /\ ci_socket (clientInfo ss) = sock /\
    root ss = Some t /\ wf_trie t /\ agrees r t (disk (its_state s));
  step_unread : unread s = [];
  step_owner : forall j ss, server_at st j = Val ss -> ci_socket (clientInfo ss) = sock -> j = i
}.

Lemma same_data_server_at st st' j ss' :
  same_data st st' -> server_at st' j = Val ss' ->
  exists ss, server_at st j = Val ss /\ root ss = root ss' /\ clientInfo ss = clientInfo ss'.
Proof.
  intros Hs [Hj Hl]%server_at_Val. symmetry in Hs. destruct (same_data_lookup _ _ _ _ Hs Hl) as (ss & Hl' & He).
  apply with_isUp_fields in He as (? & _ & _ & ? & _). exists ss.
  split; [by apply server_at_Val|]. by split.
Qed.

(** What a change outside the folder leaves. *)
Definition no_worse s s' : Prop :=
  unread s' = unread s /\ forall t, agrees r t (disk (its_state s)) -> agrees r t (disk (its_state s')).

Lemma no_worse_refl s : no_worse s s.
Proof. done. Qed.

Lemma no_worse_trans s1 s2 s3 : no_worse s1 s2 -> no_worse s2 s3 -> no_worse s1 s3.
Proof. intros [Hu1 Ha1] [Hu2 Ha2]. split; [congruence|auto]. Qed.

Lemma in_step_same st st' s s' : same_data st st' -> no_worse s s' -> in_step st s -> in_step st' s'.
Proof.
  intros Hs [Hu Ha] [(ss & t & Hi & Hk & Ht & Hwf & Hag) Hun Hown]. split.
  - symmetry in Hs. destruct (same_data_server_at st' st i ss Hs Hi) as (ss' & Hi' & Er & Ec).
    exists ss', t. rewrite Ec, Er. by eauto 6.
  - congruence.
  - intros j ss' Hj Hk'. destruct (same_data_server_at st st' j ss' Hs Hj) as (ss0 & Hj0 & _ & Ec).
    apply (Hown j ss0); [done|by rewrite Ec].
Qed.

Lemma att_put_root j t' ss st s (Q : bool -> naming -> peer F -> Prop) :
  server_at st j = Val ss ->
  Q true (set_servers (<[Z.to_nat j:=with_root t' ss]> (storage_servers st)) st) s ->
  att (_ ← put_server j (with_root t' ss); mret true) st s Q.
Proof.
  intros Hs HQ tr. unfold put_server. unfold get_server, getS, modifyS, liftC, liftIO.
  cbv [mbind M_bind]. cbn [io_bind fst snd]. by rewrite Hs.
Qed.

(** Storing a trie: of another server, or one that agrees with the disk. *)
Lemma in_step_put st s j ss t' :
  server_at st j = Val ss ->
  (exists ssi t, server_at st i = Val ssi /\ ci_socket (clientInfo ssi) = sock /\ root ssi = Some t /\
     wf_trie t /\ agrees r (if bool_decide (j = i) then t' else t) (disk (its_state s))) ->
  (j = i -> wf_trie t') -> unread s = [] ->
  (forall k ssk, server_at st k = Val ssk -> ci_socket (clientInfo ssk) = sock -> k = i) ->
  in_step (set_servers (<[Z.to_nat j:=with_root t' ss]> (storage_servers st)) st) s.
Proof.
  intros [Hj Hjl]%server_at_Val (ssi & t & [Hi Hil]%server_at_Val & Hk & Ht & Hwf & Ha) Hwf' Hu Hown.
  assert (forall k ssk, server_at (set_servers (<[Z.to_nat j:=with_root t' ss]> (storage_servers st)) st) k = Val ssk ->
    (k = j /\ ssk = with_root t' ss) \/ (k <> j /\ server_at st k = Val ssk)) as Hlook.
  { intros k ssk [Hk0 Hkl]%server_at_Val. cbn in Hkl. destruct (decide (k = j)) as [->|Hne].
    - left. split; [done|]. rewrite list_lookup_insert_eq in Hkl by (by eapply lookup_lt_Some). congruence.
    - right. split; [done|]. apply server_at_Val. split; [done|].
      rewrite list_lookup_insert_ne in Hkl by lia. done. }
  split; [|done|].
  - case_bool_decide as Hji.
    + subst j. assert (ssi = ss) as -> by congruence. specialize (Hwf' eq_refl). exists (with_root t' ss), t'.
      split; [|by eauto 6]. apply server_at_Val. split; [done|]. cbn.
      by rewrite list_lookup_insert_eq by (by eapply lookup_lt_Some).
    + exists ssi, t. split; [|by eauto 6]. apply server_at_Val. split; [done|]. cbn.
      by rewrite list_lookup_insert_ne by lia.
  - intros k ssk Hk' Hs'. destruct (Hlook k ssk Hk') as [[-> ->]|[_ Hk0]]; [|by eapply Hown].
    apply (Hown j ss); [by apply server_at_Val|]. done.
Qed.
(** ** The commands on both sides *)

Definition path_commands : list (bytes * (bytes -> F -> option F)) :=
  [(lit "touch", truncate); (lit "mkdir", make_dir); (lit "rmdir", remove_dir); (lit "rm", remove_path)].

Ltac each_command Hin :=
  unfold path_commands in Hin; rewrite !elem_of_cons in Hin;
  destruct Hin as [[= -> ->]|[[= -> ->]|[[= -> ->]|[[= -> ->]|Hin]]]]; [..|by apply not_elem_of_nil in Hin].

(** A path as it can stand in a command. *)
Definition sendable (p : bytes) : Prop := argument p /\ (NUL ∉ p) /\ (length p <= 900)%nat.

(** The answer the naming server gets, and what it tells. *)
Definition reports (op : bytes -> F -> option F) (p : bytes) (f : F) (m : bytes) : Prop :=
  (0 < length m < BUFFER_SIZE)%nat /\ (starts_with COULD_NOT m = true <-> op p f = None).

Lemma answering_reports p (f : F) op (w : bytes) c0 d0 t :
  d0 <> "o"%char ->
  let x := answering (Some p) f op ("Could not " ++ w) (c0 :: d0 :: t) in
  x.1 = default f (op p f) /\ reports op p f x.2.
Proof.
  intros Hd x. split; [apply answering_effect|].
  destruct (answering_outcome p f op ("Could not " ++ w) (c0 :: d0 :: t) w c0 d0 t) as [Hout _]; [done..|].
  split; [|exact Hout]. unfold x. cbn [answering]. unfold snprintf, BUFFER_SIZE.
  destruct (op p f); cbn [snd]; rewrite length_take, !length_app; [cbn [length]|change (length (lit "Could not ")) with 10%nat]; lia.
Qed.

Lemma command_done op g p (st st' : server F) reply :
  ((g (Some p) (disk st)).1 = default (disk st) (op p (disk st)) /\ reports op p (disk st) (g (Some p) (disk st)).2) ->
  reply = Some (g (Some p) (disk st)).2 /\ disk st' = (g (Some p) (disk st) : F * bytes).1 ->
  exists m, reply = Some m /\ reports op p (disk st) m /\ disk st' = default (disk st) (op p (disk st)).
Proof. intros [Hd Hm] [-> ->]. eauto. Qed.

Lemma direct_done name g p (st st' : server F) reply :
  (name, g) ∈ direct_commands -> argument p ->
  nm_command fuel (path_of [r]) sock' (name ++ " " ++ p) st = Ret (reply, st') ->
  reply = Some (g (Some p) (disk st)).2 /\ disk st' = (g (Some p) (disk st)).1.
Proof. intros Hin Hp. rewrite (nm_command_direct _ _ _ name g) by done. by intros [= <- <-]. Qed.

Lemma path_command_run name op p (st st' : server F) reply :
  (name, op) ∈ path_commands -> sendable p ->
  nm_command fuel (path_of [r]) sock' (cstr (name ++ " " ++ p)) st = Ret (reply, st') ->
  exists m, reply = Some m /\ reports op p (disk st) m /\ disk st' = default (disk st) (op p (disk st)).
Proof.
  intros Hin (Hp & Hnul & _). each_command Hin; rewrite cstr_free
    by (rewrite !not_elem_of_app; split; [by apply (bool_decide_unpack _)|];
        split; [by apply (bool_decide_unpack _)|done]).
  - intros Hrun. apply (command_done truncate create_file); [by eapply answering_reports|].
    by apply (direct_done "touch"); [set_solver| |].
  - intros Hrun. apply (command_done make_dir create_directory); [by eapply answering_reports|].
    by apply (direct_done "mkdir"); [set_solver| |].
  - intros Hrun. apply (command_done remove_dir delete_directory); [by eapply answering_reports|].
    by apply (direct_done "rmdir"); [set_solver| |].
  - intros Hrun. apply (command_done remove_path remove_file); [by eapply answering_reports|].
    by eapply nm_command_rm.
Qed.

Lemma backup_target_visible ns :
  visible ns -> (length (path_of ns) <= 900)%nat ->
  backup_target (path_of [r]) (path_of ns) = path_of (lit "backupfolderforss" :: r :: ns) /\
  visible (lit "backupfolderforss" :: r :: ns).
Proof.
  intros Hv Hl. split.
  - unfold backup_target, path_of. destruct ns as [|n ns]; [by destruct Hv|]. cbn [render].
    change (drop 2 (lit "." ++ "/"%char :: ?x)) with x. cbn [render] in *.
    rewrite snprintf_all; [done|]. unfold path_of in Hl. cbn [render] in Hl.
    rewrite !length_app in *. cbn [length] in *. unfold MAX_PATH_SIZE, lit in *.
    cbn [length list_ascii_of_string] in *. lia.
  - split; [done|]. destruct Hv as [_ Hv], Hr as [_ Hvr]. apply Forall_cons in Hvr as [Hvr _].
    apply Forall_cons_2; [by apply (bool_decide_unpack _)|by apply Forall_cons_2].
Qed.

(** Forwarding to a backup, which may be this very server. *)
Lemma att_backup_send {B} (fd : Z) name op ns (f : Z -> NM B) st s Q :
  (name, op) ∈ path_commands -> visible ns -> sendable (path_of ns) ->
  (forall n s', no_worse s s' -> att (f n) st s' Q) ->
  att (sendN fd (snprintf BUFFER_SIZE (name ++ "b " ++ path_of ns)) ≫= f) st s Q.
Proof.
  intros Hin Hv (Hp & Hnul & Hl) HQ. destruct (backup_target_visible ns Hv Hl) as [Htgt Hvb].
  destruct (decide (fd = sock)) as [->|Hne]; [|apply att_send_other; [done|]; intros n; by apply HQ].
  assert (exists name', (name', op) ∈ backup_commands /\ (length name' <= 6)%nat /\ (NUL ∉ name') /\
    name ++ "b " ++ path_of ns = name' ++ " " ++ path_of ns) as (name' & Hin' & Hl' & Hn' & ->).
  { each_command Hin; [exists (lit "touchb")|exists (lit "mkdirb")|exists (lit "rmdirb")|exists (lit "rmb")];
      (split; [set_solver|]); (split; [vm_compute; lia|]); (split; [by apply (bool_decide_unpack _)|done]). }
  rewrite snprintf_all by (rewrite !length_app; unfold BUFFER_SIZE, lit; cbn [length list_ascii_of_string]; lia).
  apply att_send_here. intros reply st' _ Hrun. rewrite cstr_free in Hrun
    by (rewrite !not_elem_of_app; split; [done|]; split; [by apply (bool_decide_unpack _)|done]).
  rewrite (nm_command_backup _ _ _ name' op) in Hrun; [|done|done| |].
  - injection Hrun as <- <-. apply HQ. cbn [default]. split; [cbn; by rewrite app_nil_r|].
    intros t Ha. cbn [its_state disk set_disk]. rewrite Htgt. apply agrees_outside; [|done| |done].
    + each_command Hin; tauto.
    + cbn. intros [= He]. by apply Hbackup.
  - by apply path_of_long.
  - by apply path_of_long.
Qed.
Lemma att_of_calm {A} (m : NM A) P st s :
  calm sock m P -> att m st s (fun a st' s' => same_data st st' /\ s' = s /\ P a).
Proof.
  intros Hm tr. eapply avoids_attached; [apply Hm|]. by intros tr' [a st'] [Hs Ha].
Qed.

(** What forwarding does to the two. *)
Definition forwarded st s : unit -> naming -> peer F -> Prop :=
  fun _ st' s' => same_data st st' /\ no_worse s s'.

Lemma att_forward bs name op ns st s :
  (name, op) ∈ path_commands -> visible ns -> sendable (path_of ns) ->
  att (forward_to_backup bs name (path_of ns)) st s (forwarded st s).
Proof.
  intros Hin Hv Hp. unfold forward_to_backup. eapply (att_calm _ _ _ _ _ _ (fun _ => True)).
  { apply calm_if; [apply calm_isSSUp|by apply calm_ret]. }
  intros [] st1 S1 _; [|by apply att_ret]. apply att_get_server. intros ss Hss.
  eapply att_backup_send; [done..|]. intros n s' Hs'. by apply att_ret.
Qed.

Lemma att_forward2 bs name op ns st s :
  (name, op) ∈ path_commands -> visible ns -> sendable (path_of ns) ->
  att (forward_to_backup2 bs name (path_of ns)) st s (forwarded st s).
Proof.
  intros Hin Hv Hp. unfold forward_to_backup2. eapply (att_calm _ _ _ _ _ _ (fun _ => True)).
  { apply calm_if; [apply calm_isSSUp|by apply calm_ret]. }
  intros [] st1 S1 _; [|by apply att_ret]. apply att_get_server. intros ss Hss. cbv zeta.
  eapply att_backup_send; [done..|]. intros n s' Hs'.
  eapply att_mono; [by apply att_of_calm, calm_log_line|]. intros [] st2 s2 (S2 & -> & _).
  split; [by transitivity st1|done].
Qed.

Lemma att_both {B} (m1 m2 : NM unit) (k : NM B) st s Q :
  (forall st s, att m1 st s (forwarded st s)) -> (forall st s, att m2 st s (forwarded st s)) ->
  (forall st' s', same_data st st' -> no_worse s s' -> att k st' s' Q) ->
  att (_ ← m1; _ ← m2; k) st s Q.
Proof.
  intros Hc1 Hc2 HQ. apply att_bind. eapply att_mono; [by apply Hc1|]. intros [] st1 s1 [S1 W1].
  apply att_bind. eapply att_mono; [by apply Hc2|]. intros [] st2 s2 [S2 W2].
  apply HQ; [by etrans|by eapply no_worse_trans].
Qed.

(** The command reaches the server it is meant for, or another one. *)
Lemma att_request {B} j ss name op ns (f : Z -> NM B) st s Q :
  (name, op) ∈ path_commands -> visible ns -> sendable (path_of ns) ->
  in_step st s -> server_at st j = Val ss ->
  (j <> i -> ci_socket (clientInfo ss) <> sock -> forall n, att (f n) st s Q) ->
  (j = i -> ci_socket (clientInfo ss) = sock -> forall n m st', 0 <= n -> reports op (path_of ns) (disk (its_state s)) m ->
     disk st' = default (disk (its_state s)) (op (path_of ns) (disk (its_state s))) ->
     att (f n) st (Peer st' m) Q) ->
  att (sendN (ci_socket (clientInfo ss)) (name ++ " " ++ path_of ns) ≫= f) st s Q.
Proof.
  intros Hin Hv Hp Hstep Hj Hother Hhere. destruct (decide (ci_socket (clientInfo ss) = sock)) as [Hs|Hs].
  - pose proof (step_owner _ _ Hstep j ss Hj Hs) as ->. rewrite Hs. apply att_send_here.
    intros reply st' _ Hrun. apply (path_command_run name op) in Hrun as (m & -> & Hm & Hd); [|done..].
    rewrite (step_unread _ _ Hstep). cbn [default app]. apply Hhere; [done..|lia|done|done].
  - apply att_send_other; [done|]. apply Hother; [|done]. intros ->.
    destruct (step_server _ _ Hstep) as (ss' & t & Hi & Hk & _). congruence.
Qed.
(** The end of both branches: the new trie of server [j].  Before a success
    of server [i] itself is recorded, the disk is one change ahead; [s0] is
    what the trie still agrees with. *)
Lemma att_store j ss t' st s0 s :
  server_at st j = Val ss -> in_step st s0 -> unread s = [] ->
  (j <> i -> in_step st s) -> (j = i -> wf_trie t' /\ agrees r t' (disk (its_state s))) ->
  att (_ ← put_server j (with_root t' ss); mret true) st s (fun _ st' s' => in_step st' s').
Proof.
  intros Hj Hs0 Hu Hother Hnew. apply att_put_root; [done|]. destruct (decide (j = i)) as [->|Hne].
  - destruct Hs0 as [(ssi & t & Hi & Hk & Ht & Hwf & Ha) _ Hown]. destruct (Hnew eq_refl) as [Hwf' Ha'].
    apply in_step_put; try done. exists ssi, t. rewrite bool_decide_eq_true_2 by done. by eauto 6.
  - destruct (Hother Hne) as [(ssi & t & Hi & Hk & Ht & Hwf & Ha) _ Hown].
    apply in_step_put; try done. exists ssi, t. rewrite bool_decide_eq_false_2 by done. by eauto 6.
Qed.

Definition creates (name : bytes) (op : bytes -> F -> option F) : Prop :=
  name = lit "touch" /\ op = truncate \/ name = lit "mkdir" /\ op = make_dir.

Definition deletes (name : bytes) (op : bytes -> F -> option F) : Prop :=
  name = lit "rmdir" /\ op = remove_dir \/ name = lit "rm" /\ op = remove_path.

Lemma creates_command name op : creates name op -> (name, op) ∈ path_commands /\ (op = make_dir \/ op = truncate).
Proof. intros [[-> ->]|[-> ->]]; (split; [set_solver|tauto]). Qed.

Lemma deletes_command name op : deletes name op -> (name, op) ∈ path_commands /\ (op = remove_dir \/ op = remove_path).
Proof. intros [[-> ->]|[-> ->]]; (split; [set_solver|tauto]). Qed.

(** The trie has a free entry where the path needs one. *)
Definition room_for (ns : list bytes) (st : naming) : Prop :=
  forall ss t, server_at st i = Val ss -> root ss = Some t -> has_room (lit "." :: ns) t = true.

Lemma att_add j ss ns st s0 s :
  visible ns -> server_at st j = Val ss -> in_step st s0 -> unread s = [] ->
  (j <> i -> in_step st s) ->
  (j = i -> forall t, root ss = Some t ->
     wf_trie (add_path (lit "." :: ns) t) /\ agrees r (add_path (lit "." :: ns) t) (disk (its_state s))) ->
  att (x ← liftC (add_to_root (path_of ns) (root ss)); _ ← put_server j (with_root_opt x ss); mret true) st s
    (fun _ st' s' => in_step st' s').
Proof.
  intros Hv Hj Hs0 Hu Hother Hnew. apply att_liftC. intros x Hx.
  destruct (root ss) as [t|] eqn:Ht; cbn [add_to_root] in Hx.
  - unfold AddPathToTrie in Hx. destruct (ParsePath (path_of ns)) as [p|] eqn:Hp; [|done].
    pose proof (ParsePath_visible ns p Hv Hp) as ->. injection Hx as <-. cbn [with_root_opt].
    eapply att_store; [done..|]. intros ->. by apply Hnew.
  - destruct (ParsePath (path_of ns)) as [p|] eqn:Hp; [|done].
    pose proof (ParsePath_visible ns p Hv Hp) as ->. cbn in Hx. done.
Qed.

(** The answer of the storage server and its relay to the client. *)
Lemma att_answer {B} op p f m (g : Z * bytes -> NM B) st (st' : server F) Q :
  reports op p f m -> att (g (Z.of_nat (length m), m)) st (Peer st' []) Q ->
  att (recvN sock BUFFER_SIZE ≫= g) st (Peer st' m) Q.
Proof. intros [Hm _] HQ. eapply att_recv_here with (b := m); [done|lia|done]. Qed.

Lemma response_reports op p f m :
  reports op p f m ->
  response_of (Z.of_nat (length m), m) = Val (until_nul m) /\
  (starts_with COULD_NOT (until_nul m) = true <-> op p f = None).
Proof.
  intros [Hm Hc']. unfold response_of. cbn [fst snd]. rewrite bool_decide_eq_true_2 by lia.
  split; [done|]. by rewrite starts_with_until_nul by by apply (bool_decide_unpack _).
Qed.

Lemma mkdir_in_step name op ns st s :
  creates name op -> visible ns -> sendable (path_of ns) -> in_step st s -> room_for ns st ->
  att (mkdir_branch c (name ++ " " ++ path_of ns) name (path_of ns)) st s
    (fun _ st' s' => in_step st' s').
Proof.
  intros Hname Hv Hp Hstep Hroom. destruct (creates_command _ _ Hname) as [Hin Hop].
  unfold mkdir_branch. cbv zeta. case_match.
  { apply att_send_other; [done|]. intros n. by apply att_ret. }
  eapply att_calm; [apply calm_search|]. intros j st1 S1 _.
  eapply (att_calm _ _ _ _ _ _ (fun _ => True)).
  { apply calm_if; [apply calm_on_cache|by apply calm_ret]. }
  intros _ st2 S2 _. eapply att_calm; [apply calm_usable|]. intros up st3 S3 _.
  assert (same_data st st3) as S03 by (etrans; [done|]; by etrans).
  pose proof (in_step_same _ _ _ _ S03 (no_worse_refl s) Hstep) as Hstep3.
  destruct up; [|apply att_send_other; [done|]; intros n; by apply att_ret].
  apply att_get_server. intros ss Hss. eapply att_request; [done..| |].
  - (* another server *)
    intros Hne Hs n. case_bool_decide; [by apply att_ret|]. apply att_recv_other; [done|]. intros nb.
    case_bool_decide; [apply att_send_other; [done|]; intros n'; by apply att_ret|].
    apply att_liftC. intros m Hm. apply att_send_other; [done|]. intros n'.
    destruct (starts_with COULD_NOT m); [by apply att_ret|]. apply att_get_server. intros ss4 Hss4.
    apply att_both; [intros; by eapply att_forward|intros; by eapply att_forward|]. intros st6 s6 S6 W6.
    apply att_get_server. intros ss6 Hss6. 
    assert (in_step st6 s6) as Hstep6.
    { by apply (in_step_same st3 st6 s s6). }
    eapply att_add; [done..|by apply step_unread in Hstep6| |]; done.
  - (* the one attached *)
    intros -> Hs n m st' Hn Hm Hd. rewrite bool_decide_eq_false_2 by lia. rewrite Hs.
    eapply att_answer; [done|]. destruct (response_reports _ _ _ _ Hm) as [Hresp Hout]. cbn [fst].
    rewrite bool_decide_eq_false_2 by (destruct Hm; lia). rewrite Hresp.
    apply att_liftC. intros ? [= <-]. apply att_send_other; [done|]. intros n'.
    destruct (op (path_of ns) (disk (its_state s))) as [f'|] eqn:Hf; cbn [default] in Hd.
    + destruct (starts_with COULD_NOT (until_nul m)) eqn:Hcn;
        [discriminate (proj1 Hout eq_refl)|].
      apply att_get_server. intros ss4 Hss4.
      apply att_both; [intros; by eapply att_forward|intros; by eapply att_forward|]. intros st6 s6 S6 W6.
      apply att_get_server. intros ss6 Hss6.
      pose proof (in_step_same _ _ _ _ S6 (no_worse_refl s) Hstep3) as Hstep6.
      eapply att_add; [done..|by destruct W6|done|].
      intros _ t Ht. destruct (step_server _ _ Hstep) as (ss0 & t0 & Hi0 & _ & Ht0 & Hwf & Ha).
      destruct (same_data_server_at st st6 i ss6) as (ss0' & Hi0' & Er & _); [by etrans|done|].
      assert (t0 = t) as -> by congruence.
      split; [by apply wf_add_path; [apply visible_component|]|]. apply W6. cbn [its_state]. rewrite Hd.
      eapply agrees_made; [done..|by apply (Hroom ss0)|done|done].
    + rewrite (proj2 Hout eq_refl). apply att_ret.
      apply (in_step_same st3 st3 s); [done| |done]. split; [by rewrite (step_unread _ _ Hstep)|].
      intros t. cbn [its_state]. by rewrite Hd.
Qed.
Lemma calm_logged_reply m : calm sock (logged_reply c m) (fun _ => True).
Proof. unfold logged_reply. eapply calm_bind; [by apply calm_sendN|]. intros _ _. apply calm_log_line. Qed.

Lemma att_remove j ss ns st s0 s :
  server_at st j = Val ss -> in_step st s0 -> unread s = [] ->
  (j <> i -> in_step st s) ->
  (j = i -> forall t t', root ss = Some t -> DeletePath (path_of ns) t = Val t' ->
     wf_trie t' /\ agrees r t' (disk (its_state s))) ->
  att (t ← liftC (nonnull (root ss)); t' ← liftC (DeletePath (path_of ns) t);
       _ ← put_server j (with_root t' ss); mret true) st s (fun _ st' s' => in_step st' s').
Proof.
  intros Hj Hs0 Hu Hother Hnew. apply att_liftC. intros t Ht. apply att_liftC. intros t' Ht'.
  destruct (root ss) as [t0|] eqn:Hr0; [|done]. injection Ht as ->.
  eapply att_store; [done..|]. intros ->. by apply (Hnew eq_refl t).
Qed.

Lemma rm_in_step name op ns st s :
  deletes name op -> visible ns -> sendable (path_of ns) -> in_step st s ->
  att (rm_branch c (name ++ " " ++ path_of ns) name (path_of ns)) st s
    (fun _ st' s' => in_step st' s').
Proof.
  intros Hname Hv Hp Hstep. destruct (deletes_command _ _ Hname) as [Hin Hop].
  assert (forall st' s', same_data st st' -> no_worse s s' -> in_step st' s') as Hsame
    by (intros; by eapply in_step_same).
  unfold rm_branch. case_match.
  { apply att_send_other; [done|]. intros n. case_bool_decide; [by apply att_ret|].
    eapply att_calm; [apply calm_log_line|]. intros _ st1 S1 _. apply att_ret. by apply Hsame. }
  eapply att_calm; [apply calm_search|]. intros j st1 S1 _.
  eapply att_calm; [apply calm_forget|]. intros _ st2 S2 _.
  eapply att_calm; [apply calm_usable|]. intros up st3 S3 _.
  assert (same_data st st3) as S03 by (etrans; [done|]; by etrans).
  destruct up.
  2:{ eapply att_calm; [apply calm_logged_reply|]. intros _ st4 S4 _. apply att_ret.
      apply Hsame; [by etrans|done]. }
  apply att_get_server. intros ss Hss. cbv zeta. eapply att_request; [done..|by apply Hsame|done| |].
  - (* another server *)
    intros Hne Hs n. case_bool_decide; [by apply att_ret, Hsame|].
    eapply att_calm; [apply calm_log_line|]. intros _ st4 S4 _. assert (same_data st st4) as S04 by by etrans.
    apply att_recv_other; [done|]. intros nb. case_bool_decide.
    { apply att_send_other; [done|]. intros n'. eapply att_calm; [apply calm_log_line|]. intros _ st5 S5 _.
      apply att_ret, Hsame; [by etrans|done]. }
    apply att_liftC. intros lg _. eapply att_calm; [apply calm_log_line|]. intros _ st5 S5 _.
    apply att_liftC. intros m Hm. eapply att_calm; [apply calm_logged_reply|]. intros _ st6 S6 _.
    assert (same_data st st6) as S06 by (etrans; [done|]; by etrans).
    destruct (starts_with COULD_NOT m); [by apply att_ret, Hsame|]. apply att_get_server. intros ss7 Hss7.
    apply att_liftC. intros _ _.
    apply att_both; [intros; by eapply att_forward|intros; by eapply att_forward2|]. intros st8 s8 S8 W8.
    apply att_get_server. intros ss8 Hss8.
    assert (in_step st8 s8) as Hstep8.
    { apply Hsame; [by etrans|done]. }
    eapply att_remove; [done..|by apply step_unread in Hstep8| |]; done.
  - (* the one attached *)
    intros -> Hs n m st' Hn Hm Hd. rewrite bool_decide_eq_false_2 by lia. rewrite Hs.
    eapply att_calm; [apply calm_log_line|]. intros _ st4 S4 _. assert (same_data st st4) as S04 by by etrans.
    eapply att_answer; [done|]. destruct (response_reports _ _ _ _ Hm) as [Hresp Hout]. cbn [fst snd].
    rewrite bool_decide_eq_false_2 by (destruct Hm; lia).
    apply att_liftC. intros lg _. eapply att_calm; [apply calm_log_line|]. intros _ st5 S5 _.
    rewrite Hresp. apply att_liftC. intros ? [= <-].
    eapply att_calm; [apply calm_logged_reply|]. intros _ st6 S6 _.
    assert (same_data st st6) as S06 by (etrans; [done|]; by etrans).
    destruct (op (path_of ns) (disk (its_state s))) as [f'|] eqn:Hf; cbn [default] in Hd.
    + destruct (starts_with COULD_NOT (until_nul m)) eqn:Hcn; [discriminate (proj1 Hout eq_refl)|].
      apply att_get_server. intros ss7 Hss7. apply att_liftC. intros _ _.
      apply att_both; [intros; by eapply att_forward|intros; by eapply att_forward2|]. intros st8 s8 S8 W8.
      apply att_get_server. intros ss8 Hss8.
      assert (same_data st st8) as S08 by by etrans.
      eapply att_remove; [done|by apply (Hsame st8 s)|by destruct W8|done|].
      intros _ t t' Ht Ht'. destruct (step_server _ _ Hstep) as (ss0 & t0 & Hi0 & _ & Ht0 & Hwf & Ha).
      destruct (same_data_server_at st st8 i ss8) as (ss0' & Hi0' & Er & _); [done..|].
      assert (t0 = t) as -> by congruence.
      split; [by eapply DeletePath_wf|]. apply W8. cbn [its_state]. rewrite Hd.
      by eapply agrees_removed.
    + rewrite (proj2 Hout eq_refl). apply att_ret. apply Hsame; [done|].
      split; [by rewrite (step_unread _ _ Hstep)|]. intros t. cbn [its_state]. by rewrite Hd.
Qed.
End in_step.

(** ** Properties *)

(** C1. "mkdir" and "touch" keep the naming server's trie and the storage
    server's disk in step: with the storage server at the other end of the
    connection it registered with, whenever the branch ends, whichever server
    the lookup chose, whatever the pings, the client and the other servers
    answered, and whether or not the disk accepted the command, the trie still
    has exactly the visible paths of the shared folder, every answer was read,
    and forwarded backup commands did not touch the folder.  The trie must
    have a free entry for the path, and the file system no symbolic links. *)
Theorem create_keeps_in_step {F} `{NamespaceLaws F} {mem : Memory} fuel r sock sock' i c name op ns st (s : peer F) :
  visible [r] -> r <> lit "backupfolderforss" -> (length r <= 900)%nat -> c <> sock ->
  creates name op -> visible ns -> sendable (path_of ns) ->
  in_step r sock i st s -> room_for i ns st ->
  att fuel (path_of [r]) sock sock' (mkdir_branch c (name ++ " " ++ path_of ns) name (path_of ns)) st s
    (fun _ st' s' => in_step r sock i st' s').
Proof. intros. by eapply mkdir_in_step. Qed.

(** C2. "rmdir" and "rm" keep them in step in the same way: the trie loses a
    path, with everything below it, exactly when the disk has lost it.  That
    this loses nothing that is still on the disk rests on the law
    [removed_leaf], that only an empty folder can be removed; again the file
    system has no symbolic links. *)
Theorem delete_keeps_in_step {F} `{NamespaceLaws F} {mem : Memory} fuel r sock sock' i c name op ns st (s : peer F) :
  visible [r] -> r <> lit "backupfolderforss" -> (length r <= 900)%nat -> c <> sock ->
  deletes name op -> visible ns -> sendable (path_of ns) -> in_step r sock i st s ->
  att fuel (path_of [r]) sock sock' (rm_branch c (name ++ " " ++ path_of ns) name (path_of ns)) st s
    (fun _ st' s' => in_step r sock i st' s').
Proof. intros. by eapply rm_in_step. Qed.

(** ** Witnesses *)

Definition shared_disk : files := <[path_key "./s0":=Dir]> (<[path_key "./s0/a":=Reg "hello"]> ∅).

Definition example_peer : peer files := Peer (Server shared_disk []) [].

Lemma example_agrees t : example_trie "./s0/a" = Some t -> agrees "s0" t shared_disk.
Proof.
  intros Ht. assert (t = add_path [lit "."; lit "s0"; lit "a"] (CreateNode ".")) as ->.
  { unfold example_trie, AddPathToTrie in Ht. by injection Ht as <-. }
  split; [done|]. intros ns Hv Hr. assert (Forall component [lit "."; lit "s0"; lit "a"]) as Hc
    by by apply (bool_decide_unpack _).
  rewrite search_add_path, search_CreateNode by (done || apply wf_CreateNode).
  rewrite prefixb_cons, strcmp_eq_refl, kind_visible by done. cbn [andb orb].
  assert (visible [lit "s0"]) as V1 by by apply (bool_decide_unpack _).
  assert (visible [lit "s0"; lit "a"]) as V2 by by apply (bool_decide_unpack _).
  change (path_key "./s0") with (key_of [lit "s0"]). unfold shared_disk.
  change (path_key "./s0") with (key_of [lit "s0"]). change (path_key "./s0/a") with (key_of [lit "s0"; lit "a"]).
  destruct (decide (ns = [lit "s0"])) as [->|N1]; [by rewrite lookup_insert_eq|].
  rewrite lookup_insert_ne by (intros He; by apply N1; symmetry; apply key_visible_inj).
  destruct (decide (ns = [lit "s0"; lit "a"])) as [->|N2]; [by rewrite lookup_insert_eq|].
  rewrite lookup_insert_ne by (intros He; by apply N2; symmetry; apply key_visible_inj).
  rewrite lookup_empty. split; [|done]. intros Hp. exfalso. cbn [bool_decide] in Hp.
  destruct ns as [|a [|b [|d ns]]]; [done| | |].
  - injection Hr as ->. done.
  - injection Hr as ->. rewrite prefixb_cons, strcmp_eq_refl in Hp. cbn in Hp.
    rewrite prefixb_cons, prefixb_nil, andb_true_r, strcmp_eq_true in Hp. by subst b.
  - rewrite !prefixb_cons, prefixb_cons_nil, !andb_false_r in Hp. done.
Qed.

Lemma example_in_step : in_step "s0" 4 0 example_naming example_peer.
Proof.
  split.
  - destruct (example_trie "./s0/a") as [t|] eqn:Ht; [|vm_compute in Ht; done].
    exists (example_server "./s0/a" 4), t. split; [done|]. split; [done|]. split; [exact Ht|].
    split; [by eapply example_trie_wf|by apply example_agrees].
  - done.
  - intros j ss [Hj Hl]%server_at_Val Hs. destruct (Z.to_nat j) as [|[|k]] eqn:Hk; [lia| |].
    + by injection Hl as <-.
    + apply (lookup_replicate 8) in Hl as [-> _]. done.
Qed.

Lemma create_keeps_in_step_witness :
  in_step "s0" 4 0 example_naming example_peer /\
  att 3 "./s0" 4 7 (mkdir_branch 9 "mkdir ./s0/d" "mkdir" "./s0/d") example_naming example_peer
    (fun _ st' s' => in_step "s0" 4 0 st' s').
Proof.
  split; [exact example_in_step|].
  apply (create_keeps_in_step 3 "s0" 4 7 0 9 "mkdir" make_dir [lit "s0"; lit "d"]).
  - by apply (bool_decide_unpack _).
  - discriminate.
  - vm_compute. lia.
  - lia.
  - right. by split.
  - by apply (bool_decide_unpack _).
  - split; [by apply (bool_decide_unpack _)|]. split; [by apply (bool_decide_unpack _)|vm_compute; lia].
  - exact example_in_step.
  - intros ss t [= <-] Ht. cbn in Ht. vm_compute in Ht. injection Ht as <-. vm_compute. reflexivity.
Defined.

Lemma delete_keeps_in_step_witness :
  in_step "s0" 4 0 example_naming example_peer /\
  att 3 "./s0" 4 7 (rm_branch 9 "rm ./s0/a" "rm" "./s0/a") example_naming example_peer
    (fun _ st' s' => in_step "s0" 4 0 st' s').
Proof.
  split; [exact example_in_step|].
  apply (delete_keeps_in_step 3 "s0" 4 7 0 9 "rm" remove_path [lit "s0"; lit "a"]).
  - by apply (bool_decide_unpack _).
  - discriminate.
  - vm_compute. lia.
  - lia.
  - right. by split.
  - by apply (bool_decide_unpack _).
  - split; [by apply (bool_decide_unpack _)|]. split; [by apply (bool_decide_unpack _)|vm_compute; lia].
  - exact example_in_step.
Defined.

(** The commands do run to their end: the server pings back, the client takes
    the answer. *)
Definition example_answers : list answer :=
  [AConn (Connected 20); ASend (SSent 4); ARecv (RData "-ping-"); ASend (SSent 22)].

Definition run_example (m : NM bool) : option (option (option Z) * option kind * option kind) :=
  match (run (attached 3 "./s0" 4 7 (m example_naming) example_peer) example_answers).2 with
  | Done ((_, st'), s') =>
      Some (ss ← storage_servers st' !! 0%nat; t ← root ss;
            match SearchPath t "./s0/d" with Val x => Some (Some x) | Undef _ => None end,
            kind_of (disk (its_state s')) "./s0/d", kind_of (disk (its_state s')) "./s0/a")
  | _ => None
  end.

Example mkdir_runs :
  run_example (mkdir_branch 9 "mkdir ./s0/d" "mkdir" "./s0/d") =
    Some (Some (Some 1), Some IsDir, Some IsReg).
Proof. vm_compute. reflexivity. Qed.

Example rm_runs :
  run_example (rm_branch 9 "rm ./s0/a" "rm" "./s0/a") = Some (Some (Some (-1)), None, None).
Proof. vm_compute. reflexivity. Qed.
